(** * DTC record reconciliation pipeline of carpulse-data

    A shallow embedding of the parts of [merge_to_json.py] and
    [fill_dtc_gaps.py] that decide how diagnostic-trouble-code records are
    merged, de-duplicated, normalised, classified and recovered from
    malformed model output, followed by the properties proved about them.

    Conventions of the embedding.
    - Python [str] is [string]: the bytes of its UTF-8 encoding.  [len]
      counts characters, that is the bytes that do not continue a character.
      White space ([str.strip], the regular-expression class [\s]) is
      Python's: the ASCII members and the encodings of U+0085, U+00A0,
      U+1680, U+2000 to U+200A, U+2028, U+2029, U+202F, U+205F and U+3000.
      [str.upper] and [str.lower] are modelled on the ASCII letters, where
      they agree with Python; other bytes are left alone.  Comparison of
      strings is lexicographic on bytes, which on UTF-8 is Python's
      code-point order.
    - A row read by [csv.DictReader] is a [gmap string string].
    - A pandas frame is the list of its rows in positional order; a cell is
      [NaN] or a string.  Columns on which the source calls string methods
      without a guard ([code], [make_id], [description]) hold strings.
    - A file is the list of rows written to it; what a later run reads of a
      CSV file written with [newline=''] is given by [MergeToJson.reread].
    - An exception is a value of [exn]; code that can raise returns [res].
    - How many arrays and objects, one inside the other, [json.loads] can
      enter before the interpreter reaches its recursion limit is a
      parameter, [budget], of the functions that call it: it is what the
      limit (1000 unless changed) leaves once the calls that lead to the
      scanner are counted. *)

From Stdlib Require Import String Ascii ZArith Bool Lia Sorted.
From stdpp Require Import gmap strings list.

Local Open Scope nat_scope.

(** ** Python built-ins used by the scripts *)

Module Py.

(** Exceptions that the modelled code can raise or catch. *)
Inductive exn : Type :=
| JSONDecodeError
| ValueError
| RecursionError
| TypeError
| AttributeError
| KeyError
| IndexError.

Inductive res (A : Type) : Type :=
| Ok (a : A)
| Raise (e : exn).
Arguments Ok {A} a.
Arguments Raise {A} e.

Definition bind {A B} (m : res A) (k : A -> res B) : res B :=
  match m with
  | Ok a => k a
  | Raise e => Raise e
  end.

#[global] Instance res_bind : MBind res := fun A B k m => bind m k.
#[global] Instance res_ret : MRet res := fun A a => Ok a.

(** [try: body except json.JSONDecodeError: handler] *)
Definition except_JSONDecodeError {A} (body : res A) (handler : res A) : res A :=
  match body with
  | Raise JSONDecodeError => handler
  | other => other
  end.

(** [try: body except: handler] (a bare [except] catches everything). *)
Definition except_all {A} (body : res A) (handler : res A) : res A :=
  match body with
  | Raise _ => handler
  | other => other
  end.

(** [str.upper] and [str.lower] on the ASCII letters. *)
Definition upper_char (c : ascii) : ascii :=
  let n := N_of_ascii c in
  if ((97 <=? n) && (n <=? 122))%N then ascii_of_N (n - 32) else c.

Definition lower_char (c : ascii) : ascii :=
  let n := N_of_ascii c in
  if ((65 <=? n) && (n <=? 90))%N then ascii_of_N (n + 32) else c.

Fixpoint upper (s : string) : string :=
  match s with
  | EmptyString => EmptyString
  | String c t => String (upper_char c) (upper t)
  end.

Fixpoint lower (s : string) : string :=
  match s with
  | EmptyString => EmptyString
  | String c t => String (lower_char c) (lower t)
  end.

(** [len(s)]: the number of characters of the text, which in UTF-8 is the
    number of bytes that are not continuation bytes (0x80-0xbf). *)
Definition is_continuation (c : ascii) : bool :=
  let n := N_of_ascii c in ((128 <=? n) && (n <=? 191))%N.

Fixpoint len (s : string) : nat :=
  match s with
  | EmptyString => 0
  | String c t => (if is_continuation c then 0 else 1) + len t
  end.

(** White space of [str.strip], [str.isspace] and the class [\s].  Its ASCII
    members: tab, line feed, vertical tab, form feed, carriage return, the
    four separators 0x1c-0x1f and the space. *)
Definition is_space (c : ascii) : bool :=
  let n := N_of_ascii c in
  (((9 <=? n) && (n <=? 13)) || ((28 <=? n) && (n <=? 31)) || (n =? 32))%N.

(** Its members of two bytes: U+0085 and U+00A0. *)
Definition is_space2 (c d : ascii) : bool :=
  let n := N_of_ascii c in
  let m := N_of_ascii d in
  ((n =? 194) && ((m =? 133) || (m =? 160)))%N.

(** Its members of three bytes: U+1680, U+2000 to U+200A, U+2028, U+2029,
    U+202F, U+205F and U+3000. *)
Definition is_space3 (c d e : ascii) : bool :=
  let n := N_of_ascii c in
  let m := N_of_ascii d in
  let k := N_of_ascii e in
  (((n =? 225) && (m =? 154) && (k =? 128))
   || ((n =? 226) && (m =? 128)
       && (((128 <=? k) && (k <=? 138)) || (k =? 168) || (k =? 169) || (k =? 175)))
   || ((n =? 226) && (m =? 129) && (k =? 159))
   || ((n =? 227) && (m =? 128) && (k =? 128)))%N.

(** A text that is exactly one white-space character. *)
Definition is_one_space (s : string) : bool :=
  match s with
  | String c EmptyString => is_space c
  | String c (String d EmptyString) => is_space2 c d
  | String c (String d (String e EmptyString)) => is_space3 c d e
  | _ => false
  end.

(** [lstrip], and what is left after a match of [\s*]: the white-space
    characters at the head are dropped. *)
Fixpoint lstrip (s : string) : string :=
  match s with
  | EmptyString => EmptyString
  | String c t =>
      if is_space c then lstrip t
      else
        match t with
        | String d t2 =>
            if is_space2 c d then lstrip t2
            else
              match t2 with
              | String e t3 => if is_space3 c d e then lstrip t3 else s
              | EmptyString => s
              end
        | EmptyString => s
        end
  end.

(** [rstrip]: a white-space character is dropped when everything after it
    has been dropped. *)
Fixpoint rstrip (s : string) : string :=
  match s with
  | EmptyString => EmptyString
  | String c t =>
      let t' := rstrip t in
      if is_one_space (String c t') then EmptyString else String c t'
  end.

Definition strip (s : string) : string := rstrip (lstrip s).

(** The double-quote character, and a text between double quotes. *)
Definition dquote : ascii := "034"%char.

Definition quoted (s : string) : string :=
  String dquote (s +:+ String dquote EmptyString).

(** Text written with an apostrophe wherever it has a double quote; used to
    write JSON literals legibly. *)
Fixpoint js (s : string) : string :=
  match s with
  | EmptyString => EmptyString
  | String c t => String (if Ascii.eqb c "'" then dquote else c) (js t)
  end.

(** [s.startswith(p)] *)
Fixpoint startswith (p s : string) : bool :=
  match p, s with
  | EmptyString, _ => true
  | String a p', String b s' => if Ascii.eqb a b then startswith p' s' else false
  | String _ _, EmptyString => false
  end.

(** [needle in haystack] on strings *)
Fixpoint contains (needle haystack : string) : bool :=
  startswith needle haystack ||
  match haystack with
  | EmptyString => false
  | String _ t => contains needle t
  end.

(** [s[:n]] *)
Fixpoint str_take (n : nat) (s : string) : string :=
  match n, s with
  | S n', String c t => String c (str_take n' t)
  | _, _ => EmptyString
  end.

(** [s[n:]] *)
Fixpoint str_drop (n : nat) (s : string) : string :=
  match n, s with
  | S n', String _ t => str_drop n' t
  | _, _ => s
  end.

(** [s.count(c)] for a one-character pattern *)
Fixpoint count_char (c : ascii) (s : string) : nat :=
  match s with
  | EmptyString => 0
  | String a t => (if Ascii.eqb a c then 1 else 0) + count_char c t
  end.

(** [any(kw in text for kw in kws)] *)
Definition any_in (kws : list string) (text : string) : bool :=
  existsb (fun kw => contains kw text) kws.

(** Tuples of two strings compare lexicographically. *)
Definition str_pair_leb (a b : string * string) : bool :=
  match String.compare a.1 b.1 with
  | Lt => true
  | Eq => String.leb a.2 b.2
  | Gt => false
  end.

(** [list.sort(key=...)], [sorted] and [DataFrame.sort_values]: a stable
    sort.  Every stable sort computes the same list for a total preorder on
    the keys; this one inserts from the right. *)
Fixpoint insert_by {A K} (leb : K -> K -> bool) (key : A -> K)
    (x : A) (l : list A) : list A :=
  match l with
  | [] => [x]
  | y :: ys => if leb (key x) (key y) then x :: y :: ys
               else y :: insert_by leb key x ys
  end.

Definition sort_by {A K} (leb : K -> K -> bool) (key : A -> K)
    (l : list A) : list A :=
  foldr (insert_by leb key) [] l.

End Py.

(** ** The [json] module: values and [json.loads]

    [json.loads] is library code.  It is modelled by a one-pass pushdown
    machine over the characters of the text that accepts the language of
    CPython's scanner (including its [NaN], [Infinity] and [-Infinity]) and
    builds the value.  A number keeps its lexeme; a string is decoded, an
    escape [\uXXXX] to the UTF-8 bytes of its code point (a surrogate pair to
    the four bytes of the joined code point).  Besides [JSONDecodeError] the
    scanner raises [ValueError] when it converts an integer of more than
    4300 digits, and [RecursionError] when it enters an array or object and
    the interpreter has no recursion depth left; the number of arrays and
    objects that it can enter, one inside the other, is the parameter
    [budget]. *)

Module Json.
Import Py.

#[warnings="-register-all"]
Inductive json : Type :=
| JNull
| JBool (b : bool)
| JNum (lexeme : string)
| JStr (s : string)
| JArr (items : list json)
| JObj (members : list (string * json)).

(** [d[k] = v] on the item list of a dictionary: an existing key keeps its
    position and takes the new value, a new key goes to the end. *)
Fixpoint dict_set {V} (k : string) (v : V) (d : list (string * V))
    : list (string * V) :=
  match d with
  | [] => [(k, v)]
  | (k', v') :: rest =>
      if String.eqb k k' then (k, v) :: rest else (k', v') :: dict_set k v rest
  end.

(** [d.get(k)] *)
Fixpoint dict_get {V} (k : string) (d : list (string * V)) : option V :=
  match d with
  | [] => None
  | (k', v) :: rest => if String.eqb k k' then Some v else dict_get k rest
  end.

(** The whitespace of JSON: space, tab, line feed, carriage return. *)
Definition is_json_ws (c : ascii) : bool :=
  let n := N_of_ascii c in ((n =? 32) || (n =? 9) || (n =? 10) || (n =? 13))%N.

Definition one (c : ascii) : string := String c EmptyString.

Definition hex_value (c : ascii) : option N :=
  let n := N_of_ascii c in
  if ((48 <=? n) && (n <=? 57))%N then Some (n - 48)%N
  else if ((97 <=? n) && (n <=? 102))%N then Some (n - 87)%N
  else if ((65 <=? n) && (n <=? 70))%N then Some (n - 55)%N
  else None.

Definition byte (n : N) : string := String (ascii_of_N n) EmptyString.

(** UTF-8 bytes of a code point (a lone surrogate takes the three-byte
    form). *)
Definition utf8 (n : N) : string :=
  (if n <? 128 then byte n
   else if n <? 2048 then byte (192 + n / 64) +:+ byte (128 + n mod 64)
   else if n <? 65536 then
     byte (224 + n / 4096) +:+ byte (128 + (n / 64) mod 64)
     +:+ byte (128 + n mod 64)
   else
     byte (240 + n / 262144) +:+ byte (128 + (n / 4096) mod 64)
     +:+ byte (128 + (n / 64) mod 64) +:+ byte (128 + n mod 64))%N.

Definition is_high_surrogate (n : N) : bool := ((55296 <=? n) && (n <=? 56319))%N.
Definition is_low_surrogate (n : N) : bool := ((56320 <=? n) && (n <=? 57343))%N.
Definition join_surrogates (hi lo : N) : N :=
  (65536 + (hi - 55296) * 1024 + (lo - 56320))%N.

(** Where the scanner is inside a string literal. *)
Inductive str_mode : Type :=
| SPlain
| SEscape
| SHex (seen : nat) (value : N).

(** Where the scanner is inside a number. *)
Inductive num_mode : Type :=
| NMinus | NZero | NInt | NDot | NFrac | NExp | NExpSign | NExpDigits.

Definition num_complete (m : num_mode) : bool :=
  match m with
  | NZero | NInt | NFrac | NExpDigits => true
  | _ => false
  end.

(** What may come next between tokens. *)
Inductive expect : Type :=
| EValue          (* a value *)
| EValueOrClose   (* after [[]: a value or []] *)
| EKeyOrClose     (* after [{]: a key or [}] *)
| EKey            (* after [,] in an object: a key *)
| EColon          (* after a key *)
| ECommaOrClose.  (* after a value inside a container *)

(** The constants of the language. *)
Inductive literal : Type :=
| LitNull | LitTrue | LitFalse | LitNaN | LitInfinity | LitMinusInfinity.

Definition literal_value (l : literal) : json :=
  match l with
  | LitNull => JNull
  | LitTrue => JBool true
  | LitFalse => JBool false
  | LitNaN => JNum "NaN"
  | LitInfinity => JNum "Infinity"
  | LitMinusInfinity => JNum "-Infinity"
  end.

Inductive lex : Type :=
| LIdle (e : expect)
| LDone (v : json)
| LString (is_key : bool) (acc : string) (pending : option N) (m : str_mode)
| LNumber (lexeme : string) (m : num_mode)
| LLiteral (remaining : string) (l : literal).

(** An open container: the items of an array, or the members of an object
    with the key whose value is awaited. *)
Inductive frame : Type :=
| FArr (items : list json)
| FObj (members : list (string * json)) (key : option string).

Record machine : Type := { stack : list frame; lx : lex }.

Definition initial : machine := {| stack := []; lx := LIdle EValue |}.

(** A completed value goes to the innermost open container, or is the
    result. *)
Definition deliver (v : json) (stack : list frame) : option machine :=
  match stack with
  | [] => Some {| stack := []; lx := LDone v |}
  | FArr items :: below =>
      Some {| stack := FArr (items ++ [v]) :: below; lx := LIdle ECommaOrClose |}
  | FObj members (Some k) :: below =>
      Some {| stack := FObj (dict_set k v members) None :: below;
              lx := LIdle ECommaOrClose |}
  | FObj _ None :: _ => None
  end.

Definition deliver_key (k : string) (stack : list frame) : option machine :=
  match stack with
  | FObj members None :: below =>
      Some {| stack := FObj members (Some k) :: below; lx := LIdle EColon |}
  | _ => None
  end.

Definition close_array (stack : list frame) : option machine :=
  match stack with
  | FArr items :: below => deliver (JArr items) below
  | _ => None
  end.

Definition close_object (stack : list frame) : option machine :=
  match stack with
  | FObj members None :: below => deliver (JObj members) below
  | _ => None
  end.

Definition is_digit_char (c : ascii) : bool :=
  let n := N_of_ascii c in ((48 <=? n) && (n <=? 57))%N.

(** The first character of a value. *)
Definition start_value (stack : list frame) (c : ascii) : option machine :=
  let go l := Some {| stack := stack; lx := l |} in
  if Ascii.eqb c dquote then go (LString false "" None SPlain)
  else if Ascii.eqb c "{" then
    Some {| stack := FObj [] None :: stack; lx := LIdle EKeyOrClose |}
  else if Ascii.eqb c "[" then
    Some {| stack := FArr [] :: stack; lx := LIdle EValueOrClose |}
  else if Ascii.eqb c "n" then go (LLiteral "ull" LitNull)
  else if Ascii.eqb c "t" then go (LLiteral "rue" LitTrue)
  else if Ascii.eqb c "f" then go (LLiteral "alse" LitFalse)
  else if Ascii.eqb c "N" then go (LLiteral "aN" LitNaN)
  else if Ascii.eqb c "I" then go (LLiteral "nfinity" LitInfinity)
  else if Ascii.eqb c "-" then go (LNumber "-" NMinus)
  else if Ascii.eqb c "0" then go (LNumber "0" NZero)
  else if is_digit_char c then go (LNumber (one c) NInt)
  else None.

(** Between tokens. *)
Definition step_idle (e : expect) (stack : list frame) (c : ascii)
    : option machine :=
  if is_json_ws c then Some {| stack := stack; lx := LIdle e |}
  else
    match e with
    | EValue => start_value stack c
    | EValueOrClose =>
        if Ascii.eqb c "]" then close_array stack else start_value stack c
    | EKeyOrClose =>
        if Ascii.eqb c dquote then
          Some {| stack := stack; lx := LString true "" None SPlain |}
        else if Ascii.eqb c "}" then close_object stack
        else None
    | EKey =>
        if Ascii.eqb c dquote then
          Some {| stack := stack; lx := LString true "" None SPlain |}
        else None
    | EColon =>
        if Ascii.eqb c ":" then Some {| stack := stack; lx := LIdle EValue |}
        else None
    | ECommaOrClose =>
        if Ascii.eqb c "," then
          match stack with
          | FArr _ :: _ => Some {| stack := stack; lx := LIdle EValue |}
          | FObj _ None :: _ => Some {| stack := stack; lx := LIdle EKey |}
          | _ => None
          end
        else if Ascii.eqb c "]" then close_array stack
        else if Ascii.eqb c "}" then close_object stack
        else None
    end.

(** The characters that a pending high surrogate contributes once it is
    known not to be followed by a low one. *)
Definition flush (pending : option N) : string :=
  match pending with
  | Some hi => utf8 hi
  | None => ""
  end.

Definition simple_escape (c : ascii) : option string :=
  if Ascii.eqb c dquote then Some (one dquote)
  else if Ascii.eqb c "\" then Some "\"
  else if Ascii.eqb c "/" then Some "/"
  else if Ascii.eqb c "b" then Some (byte 8)
  else if Ascii.eqb c "f" then Some (byte 12)
  else if Ascii.eqb c "n" then Some (byte 10)
  else if Ascii.eqb c "r" then Some (byte 13)
  else if Ascii.eqb c "t" then Some (byte 9)
  else None.

(** Inside a string literal. *)
Definition step_string (stack : list frame) (is_key : bool) (acc : string)
    (pending : option N) (m : str_mode) (c : ascii) : option machine :=
  let go acc pending m :=
    Some {| stack := stack; lx := LString is_key acc pending m |} in
  match m with
  | SPlain =>
      if Ascii.eqb c dquote then
        let s := acc +:+ flush pending in
        if is_key then deliver_key s stack else deliver (JStr s) stack
      else if Ascii.eqb c "\" then go acc pending SEscape
      else if (N_of_ascii c <? 32)%N then None
      else go (acc +:+ flush pending +:+ one c) None SPlain
  | SEscape =>
      if Ascii.eqb c "u" then go acc pending (SHex 0 0%N)
      else
        match simple_escape c with
        | Some d => go (acc +:+ flush pending +:+ d) None SPlain
        | None => None
        end
  | SHex seen value =>
      match hex_value c with
      | None => None
      | Some d =>
          let value := (16 * value + d)%N in
          if seen <? 3 then go acc pending (SHex (S seen) value)
          else
            match pending with
            | Some hi =>
                if is_low_surrogate value
                then go (acc +:+ utf8 (join_surrogates hi value)) None SPlain
                else if is_high_surrogate value
                then go (acc +:+ utf8 hi) (Some value) SPlain
                else go (acc +:+ utf8 hi +:+ utf8 value) None SPlain
            | None =>
                if is_high_surrogate value then go acc (Some value) SPlain
                else go (acc +:+ utf8 value) None SPlain
            end
      end
  end.

(** Inside a number: [Some m'] when [c] continues it. *)
Definition num_next (m : num_mode) (c : ascii) : option num_mode :=
  let digit := is_digit_char c in
  let e := Ascii.eqb c "e" || Ascii.eqb c "E" in
  match m with
  | NMinus => if Ascii.eqb c "0" then Some NZero
              else if digit then Some NInt else None
  | NZero => if Ascii.eqb c "." then Some NDot
             else if e then Some NExp else None
  | NInt => if digit then Some NInt
            else if Ascii.eqb c "." then Some NDot
            else if e then Some NExp else None
  | NDot => if digit then Some NFrac else None
  | NFrac => if digit then Some NFrac else if e then Some NExp else None
  | NExp => if digit then Some NExpDigits
            else if Ascii.eqb c "+" || Ascii.eqb c "-" then Some NExpSign
            else None
  | NExpSign => if digit then Some NExpDigits else None
  | NExpDigits => if digit then Some NExpDigits else None
  end.

(** One character. *)
Definition step (q : machine) (c : ascii) : option machine :=
  match lx q with
  | LIdle e => step_idle e (stack q) c
  | LDone v => if is_json_ws c then Some q else None
  | LString is_key acc pending m => step_string (stack q) is_key acc pending m c
  | LNumber lexeme m =>
      match num_next m c with
      | Some m' => Some {| stack := stack q; lx := LNumber (lexeme +:+ one c) m' |}
      | None =>
          match m with
          | NMinus =>
              if Ascii.eqb c "I" then
                Some {| stack := stack q;
                        lx := LLiteral "nfinity" LitMinusInfinity |}
              else None
          | _ =>
              if num_complete m then
                match deliver (JNum lexeme) (stack q) with
                | Some q' =>
                    match lx q' with
                    | LIdle e => step_idle e (stack q') c
                    | _ => if is_json_ws c then Some q' else None
                    end
                | None => None
                end
              else None
          end
      end
  | LLiteral remaining l =>
      match remaining with
      | String c' rest =>
          if Ascii.eqb c c' then
            match rest with
            | EmptyString => deliver (literal_value l) (stack q)
            | _ => Some {| stack := stack q; lx := LLiteral rest l |}
            end
          else None
      | EmptyString => None
      end
  end.

Fixpoint run (q : machine) (s : string) : option machine :=
  match s with
  | EmptyString => Some q
  | String c t =>
      match step q c with
      | Some q' => run q' t
      | None => None
      end
  end.

(** At the end of the text. *)
Definition finish (q : machine) : option json :=
  match lx q, stack q with
  | LDone v, [] => Some v
  | LNumber lexeme m, [] => if num_complete m then Some (JNum lexeme) else None
  | _, _ => None
  end.

(** The byte order mark, which [json.loads] rejects. *)
Definition BOM : string :=
  String (ascii_of_N 239) (String (ascii_of_N 187) (String (ascii_of_N 191) "")).

(** The limit of [int] on the digits of a decimal text
    ([sys.get_int_max_str_digits()]). *)
Definition MAX_STR_DIGITS : nat := 4300.

Fixpoint count_digits (s : string) : nat :=
  match s with
  | EmptyString => 0
  | String c t => (if is_digit_char c then 1 else 0) + count_digits t
  end.

(** The number of digits of the integer that the scanner converts when a
    number ends in mode [m]; [None] when what it has read is a float, or no
    number.  A dot or an exponent that no digit follows is given back, and
    the digits before it are converted as an integer. *)
Definition int_token (lexeme : string) (m : num_mode) : option nat :=
  match m with
  | NZero | NInt | NDot => Some (count_digits lexeme)
  | NExp | NExpSign =>
      if contains "." lexeme then None else Some (count_digits lexeme)
  | NMinus | NFrac | NExpDigits => None
  end.

(** What stops the scanner before the grammar is consulted for the next
    character ([None] for the end of the text): the conversion of an integer
    with too many digits, or an array or object that opens when no recursion
    depth is left. *)
Definition refused (budget : nat) (q : machine) (next : option ascii)
    : option exn :=
  match lx q with
  | LNumber lexeme m =>
      let ends :=
        match next with
        | Some c => match num_next m c with Some _ => false | None => true end
        | None => true
        end in
      if ends then
        match int_token lexeme m with
        | Some digits => if MAX_STR_DIGITS <? digits then Some ValueError else None
        | None => None
        end
      else None
  | LIdle e =>
      match next with
      | Some c =>
          let value_expected :=
            match e with
            | EValue | EValueOrClose => true
            | _ => false
            end in
          if negb (is_json_ws c) && value_expected
             && (Ascii.eqb c "[" || Ascii.eqb c "{")
             && (budget <=? length (stack q))
          then Some RecursionError
          else None
      | None => None
      end
  | _ => None
  end.

(** The scan of the text from state [q]. *)
Fixpoint scan (budget : nat) (q : machine) (s : string) : res json :=
  match s with
  | EmptyString =>
      match refused budget q None with
      | Some e => Raise e
      | None =>
          match finish q with
          | Some v => Ok v
          | None => Raise JSONDecodeError
          end
      end
  | String c t =>
      match refused budget q (Some c) with
      | Some e => Raise e
      | None =>
          match step q c with
          | Some q' => scan budget q' t
          | None => Raise JSONDecodeError
          end
      end
  end.

(** [json.loads(s)] for a [str] argument. *)
Definition loads (budget : nat) (s : string) : res json :=
  if startswith BOM s then Raise JSONDecodeError
  else scan budget initial s.

(** [a == b] when [a] is a string. *)
Definition json_eqb (a b : json) : bool :=
  match a, b with
  | JStr x, JStr y => String.eqb x y
  | _, _ => false
  end.

(** [needle in obj]: key membership on a dictionary, element membership on a
    list, substring on a string, [TypeError] otherwise. *)
Definition py_in (needle : string) (obj : json) : res bool :=
  match obj with
  | JObj members => Ok (bool_decide (is_Some (dict_get needle members)))
  | JArr items => Ok (existsb (json_eqb (JStr needle)) items)
  | JStr s => Ok (contains needle s)
  | _ => Raise TypeError
  end.

End Json.

(** ** merge_to_json.py *)

Module MergeToJson.

(** The canonical column list of [merge_dtc_codes]. *)
Definition fieldnames : list string :=
  ["code"; "make_id"; "description"; "detailed_description";
   "system"; "severity"; "common_causes"; "symptoms";
   "applicable_models"; "applicable_years"; "powertrain_type"].

(** [row.get(fn, d)] *)
Definition get (row : gmap string string) (fn d : string) : string :=
  default d (row !! fn).

(** [{fn: row.get(fn, "") for fn in fieldnames}] *)
Definition normalized (row : gmap string string) : gmap string string :=
  list_to_map ((fun fn => (fn, get row fn "")) <$> fieldnames).

(** [(row.get("code", ""), row.get("make_id", ""))] *)
Definition key_of (row : gmap string string) : string * string :=
  (get row "code" "", get row "make_id" "").

(** [(existing.get("code"), existing.get("make_id"))]: [None] when absent. *)
Definition stored_key (existing : gmap string string)
    : option string * option string :=
  (existing !! "code", existing !! "make_id").

Definition as_stored (key : string * string) : option string * option string :=
  (Some key.1, Some key.2).

(** The loop state: [existing_rows], [existing_codes], [new_codes],
    [updated_codes]. *)
Record state : Type := {
  existing_rows : list (gmap string string);
  existing_codes : gset (string * string);
  new_codes : nat;
  updated_codes : nat
}.

(** Reading the existing file: each row is normalised and its key indexed. *)
Definition read_existing (file : list (gmap string string)) : state :=
  fold_left
    (fun st row =>
       {| existing_rows := existing_rows st ++ [normalized row];
          existing_codes := existing_codes st ∪ {[ key_of row ]};
          new_codes := 0;
          updated_codes := 0 |})
    file
    {| existing_rows := []; existing_codes := ∅;
       new_codes := 0; updated_codes := 0 |}.

(** The inner [for i, existing in enumerate(existing_rows)] with its [break]:
    the first row whose stored key equals [key] is overwritten. *)
Definition update_existing (st : state) (key : string * string)
    (new_row : gmap string string) : state :=
  match list_find (fun existing => stored_key existing = as_stored key)
                  (existing_rows st) with
  | Some (i, _) =>
      {| existing_rows := <[i := new_row]> (existing_rows st);
         existing_codes := existing_codes st;
         new_codes := new_codes st;
         updated_codes := S (updated_codes st) |}
  | None => st
  end.

(** One iteration of [for row in dtc_csv]. *)
Definition merge_row (st : state) (row : gmap string string) : state :=
  let key := key_of row in
  let new_row := normalized row in
  if decide (key ∉ existing_codes st) then
    {| existing_rows := existing_rows st ++ [new_row];
       existing_codes := existing_codes st ∪ {[ key ]};
       new_codes := S (new_codes st);
       updated_codes := updated_codes st |}
  else update_existing st key new_row.

(** What [merge_dtc_codes] writes and reports: the rows of the new file, the
    number added and the number updated. *)
Record merged : Type := {
  written_rows : list (gmap string string);
  added : nat;
  updated : nat
}.

(** [merge_dtc_codes], with the existing file passed in ([[]] when the file
    is absent or empty). *)
Definition merge_dtc_codes (file dtc_csv : list (gmap string string)) : merged :=
  let st := fold_left merge_row dtc_csv (read_existing file) in
  {| written_rows := Py.sort_by Py.str_pair_leb key_of (existing_rows st);
     added := new_codes st;
     updated := updated_codes st |}.


(** *** Reading back the file that a merge wrote

    [merge_dtc_codes] writes the file with [newline=''], so the text of a
    field goes to the file as it is (quoted where the CSV dialect asks for
    it), and reads it in text mode with universal newlines: a carriage
    return, alone or followed by a line feed, comes back as one line
    feed. *)

Definition CR : ascii := "013"%char.
Definition LF : ascii := "010"%char.

Fixpoint universal_newlines (s : string) : string :=
  match s with
  | EmptyString => EmptyString
  | String c t =>
      if Ascii.eqb c CR then
        String LF
          match t with
          | String d t' =>
              if Ascii.eqb d LF then universal_newlines t'
              else universal_newlines t
          | EmptyString => EmptyString
          end
      else String c (universal_newlines t)
  end.

(** The rows that the next run reads from the rows that a run wrote. *)
Definition reread (rows : list (gmap string string)) : list (gmap string string) :=
  (fun row : gmap string string => universal_newlines <$> row) <$> rows.
(** *** merge_by_id *)

(** A value in an entry of [vehicles.json] as the converters build it: text,
    an integer, or [None].  On these values Python's equality of dictionary
    keys is equality of values. *)
Inductive value : Type :=
| VNone
| VInt (n : Z)
| VStr (s : string).

#[global] Instance value_eq_dec : EqDecision value.
Proof. solve_decision. Defined.

#[global] Instance value_countable : Countable value.
Proof.
  refine (inj_countable'
            (fun v => match v with
                      | VNone => inl ()
                      | VInt n => inr (inl n)
                      | VStr s => inr (inr s)
                      end)
            (fun x => match x with
                      | inl _ => VNone
                      | inr (inl n) => VInt n
                      | inr (inr s) => VStr s
                      end) _).
  by intros [].
Defined.

Definition item : Type := gmap string value.

(** [{item["id"]: i for i, item in enumerate(existing)}]: a later entry with
    the same id takes the place of an earlier one. *)
Definition index_ids (existing : list item) : Py.res (gmap value nat) :=
  foldl
    (fun acc (entry : nat * item) =>
       existing_ids ← acc;
       match entry.2 !! "id" with
       | Some k => Py.Ok (<[k := entry.1]> existing_ids)
       | None => Py.Raise Py.KeyError
       end)
    (Py.Ok ∅) (imap (fun i it => (i, it)) existing).

(** One iteration of [for item in new_items]. *)
Definition merge_item (existing_ids : gmap value nat) (result : list item)
    (it : item) : Py.res (list item) :=
  match it !! "id" with
  | None => Py.Raise Py.KeyError
  | Some k =>
      match existing_ids !! k with
      | Some i => Py.Ok (<[i := it]> result)
      | None => Py.Ok (result ++ [it])
      end
  end.

Definition merge_by_id (existing new_items : list item) : Py.res (list item) :=
  existing_ids ← index_ids existing;
  foldl (fun acc it => result ← acc; merge_item existing_ids result it)
        (Py.Ok existing) new_items.


(** *** csv_to_make and csv_to_model *)

(** A value of a row that [csv.DictReader] yields: the text of the field, or
    [None] when the line was shorter than the header. *)
Inductive field : Type :=
| FNone
| FText (s : string).

Definition csv_row : Type := gmap string field.

Definition to_value (f : field) : value :=
  match f with
  | FNone => VNone
  | FText s => VStr s
  end.

(** [row[k]] *)
Definition subscript (row : csv_row) (k : string) : Py.res value :=
  match row !! k with
  | Some f => Py.Ok (to_value f)
  | None => Py.Raise Py.KeyError
  end.

(** [row.get(k, "")] *)
Definition get_field (row : csv_row) (k : string) : field :=
  default (FText "") (row !! k).

(** [s.split("|")[0]]: the text before the first bar. *)
Fixpoint first_segment (s : string) : string :=
  match s with
  | EmptyString => EmptyString
  | String c rest =>
      if Ascii.eqb c "|" then EmptyString else String c (first_segment rest)
  end.

Definition csv_to_make (row : csv_row) : Py.res item :=
  id ← subscript row "id";
  name ← subscript row "name";
  Py.Ok (<["country" := to_value (get_field row "country")]>
           (<["name" := name]> (<["id" := id]> ∅))).

Definition csv_to_model (row : csv_row) : Py.res item :=
  id ← subscript row "id";
  make_id ← subscript row "make_id";
  name ← subscript row "name";
  body_type ←
    match get_field row "body_type" with
    | FText s => Py.Ok (VStr (first_segment s))
    | FNone => Py.Raise Py.AttributeError
    end;
  Py.Ok (<["segment" := to_value (get_field row "segment")]>
           (<["body_type" := body_type]>
              (<["name" := name]> (<["make_id" := make_id]> (<["id" := id]> ∅))))).

(** [[convert(row) for row in rows]] *)
Definition convert_all (convert : csv_row -> Py.res item) (rows : list csv_row)
    : Py.res (list item) :=
  foldl (fun acc row => items ← acc; it ← convert row; Py.Ok (items ++ [it]))
        (Py.Ok []) rows.
End MergeToJson.


(** ** fill_dtc_gaps.py: frames, persistence and clean-up *)

Module FillDtcGaps.
Import Py.

(** A cell of a frame read by [pd.read_csv]: missing, or text. *)
Inductive cell : Type :=
| NaN
| Str (s : string).

#[global] Instance cell_eq_dec : EqDecision cell.
Proof. solve_decision. Defined.

(** One row of the DTC frame, in the column order of the CSV file. *)
Record DtcRow : Type := {
  code : string;
  make_id : string;
  description : string;
  detailed_description : cell;
  system : cell;
  severity : cell;
  common_causes : cell;
  symptoms : cell;
  applicable_models : cell;
  applicable_years : cell;
  powertrain_type : cell
}.

#[global] Instance DtcRow_eq_dec : EqDecision DtcRow.
Proof. solve_decision. Defined.

(** The counters of the global [stats] object that the modelled functions
    write. *)
Record UsageStats : Type := {
  codes_added : nat;
  codes_updated : nat;
  codes_by_manufacturer : gmap string nat
}.

(** [stats.add_codes(manufacturer, count)] *)
Definition add_codes (stats : UsageStats) (manufacturer : string) (count : nat)
    : UsageStats :=
  {| codes_added := codes_added stats + count;
     codes_updated := codes_updated stats;
     codes_by_manufacturer :=
       <[manufacturer :=
           default 0 (codes_by_manufacturer stats !! manufacturer) + count]>
         (codes_by_manufacturer stats) |}.

Definition add_updated (stats : UsageStats) (count : nat) : UsageStats :=
  {| codes_added := codes_added stats;
     codes_updated := codes_updated stats + count;
     codes_by_manufacturer := codes_by_manufacturer stats |}.

(** *** save_dtc_codes *)

(** The [subset=['code', 'make_id']] of [drop_duplicates]. *)
Definition dup_key (r : DtcRow) : string * string := (code r, make_id r).

(** The sort key of [sort_values(['make_id', 'code'])]. *)
Definition sort_key (r : DtcRow) : string * string := (make_id r, code r).

(** [df.drop_duplicates(subset=[...], keep='last')]: a row stays when no
    later row has the same values in the subset columns. *)
Fixpoint drop_duplicates_last (df : list DtcRow) : list DtcRow :=
  match df with
  | [] => []
  | r :: rest =>
      if decide (dup_key r ∈ dup_key <$> rest)
      then drop_duplicates_last rest
      else r :: drop_duplicates_last rest
  end.

(** [save_dtc_codes]: the frame that is written to [dtc_codes.csv] (and, with
    [also_to_assets], to the assets copy as well).  [sort_values] on several
    columns is a stable lexicographic sort. *)
Definition save_dtc_codes (df : list DtcRow) : list DtcRow :=
  drop_duplicates_last (sort_by str_pair_leb sort_key df).

(** *** cleanup_powertrain_data *)

(** [str.match(r'^[PBCU][0-9]')]: the pattern is anchored at the start only
    and is case-sensitive. *)
Definition is_PBCU (c : ascii) : bool :=
  (Ascii.eqb c "P" || Ascii.eqb c "B" || Ascii.eqb c "C" || Ascii.eqb c "U")%char.

Definition is_digit (c : ascii) : bool :=
  let n := N_of_ascii c in ((48 <=? n) && (n <=? 57))%N.

Definition valid_code_prefix (code : string) : bool :=
  match code with
  | String c0 (String c1 _) => is_PBCU c0 && is_digit c1
  | _ => false
  end.

Definition VALID_TYPES : list string :=
  ["Petrol"; "Diesel"; "Petrol Hybrid"; "Diesel Hybrid"; "Plug-in Hybrid";
   "Electric"; "All"].

Definition type_mapping : list (string * string) :=
  [("petrol", "Petrol");
   ("diesel", "Diesel");
   ("electric", "Electric");
   ("hybrid", "Petrol Hybrid");
   ("petrol hybrid", "Petrol Hybrid");
   ("diesel hybrid", "Diesel Hybrid");
   ("plug-in hybrid", "Plug-in Hybrid");
   ("plugin hybrid", "Plug-in Hybrid");
   ("phev", "Plug-in Hybrid");
   ("bev", "Electric");
   ("ev", "Electric");
   ("hev", "Petrol Hybrid");
   ("all", "All");
   ("automatic", "All")].

(** [d.get(k)] on a dictionary written as a literal. *)
Fixpoint lookup_literal (k : string) (d : list (string * string)) : option string :=
  match d with
  | [] => None
  | (k', v) :: rest => if String.eqb k k' then Some v else lookup_literal k rest
  end.

(** [re.sub(r'(?i)gasoline', 'Petrol', s)]: every occurrence, left to right
    and without overlap; [skip] counts the characters of a match still to be
    consumed. *)
Fixpoint sub_gasoline (skip : nat) (s : string) : string :=
  match s with
  | EmptyString => EmptyString
  | String c t =>
      match skip with
      | S k => sub_gasoline k t
      | O =>
          if startswith "gasoline" (lower s)
          then "Petrol" +:+ sub_gasoline 7 t
          else String c (sub_gasoline 0 t)
      end
  end.

(** The nested [normalize_powertrain].  (Its [changes] tallies are only
    printed and are left out.) *)
Definition normalize_powertrain (value : cell) : string :=
  match value with
  | NaN => "All"
  | Str "" => "All"
  | Str v =>
      let cleaned := strip v in
      let cleaned :=
        if contains "gasoline" (lower cleaned)
        then sub_gasoline 0 cleaned else cleaned in
      if contains "|" cleaned then "All"
      else if contains "/" cleaned then "All"
      else
        let lower_cleaned := lower cleaned in
        match lookup_literal lower_cleaned type_mapping with
        | Some t => t
        | None =>
            if negb (bool_decide (cleaned ∈ VALID_TYPES)) then "All"
            else cleaned
        end
  end.

Definition set_powertrain_type (r : DtcRow) (v : cell) : DtcRow :=
  {| code := code r; make_id := make_id r; description := description r;
     detailed_description := detailed_description r; system := system r;
     severity := severity r; common_causes := common_causes r;
     symptoms := symptoms r; applicable_models := applicable_models r;
     applicable_years := applicable_years r; powertrain_type := v |}.

(** [cleanup_powertrain_data].  [has_powertrain_type] says whether the frame
    has a [powertrain_type] column.  The result is the returned frame and
    the [stats] object after the call. *)
Definition cleanup_powertrain_data (has_powertrain_type : bool)
    (stats : UsageStats) (df : list DtcRow) (remove_invalid_codes : bool)
    : list DtcRow * UsageStats :=
  let '(df, stats) :=
    if remove_invalid_codes then
      let valid_mask := fun r => valid_code_prefix (code r) in
      let invalid_codes := List.filter (fun r => negb (valid_mask r)) df in
      if 0 <? length invalid_codes
      then (List.filter valid_mask df, add_updated stats (length invalid_codes))
      else (df, stats)
    else (df, stats) in
  if negb has_powertrain_type then (df, stats)
  else
    let original_values := powertrain_type <$> df in
    let df' :=
      (fun r => set_powertrain_type r (Str (normalize_powertrain (powertrain_type r))))
        <$> df in
    let total_changed :=
      length (List.filter (fun r => negb (bool_decide
                (powertrain_type r = Str (normalize_powertrain (powertrain_type r)))))
              df) in
    (df', add_updated stats total_changed).

(** The code format of the data model,
    [^[PBCU][0-3][0-9A-F]{3}[A-Z]?$] matched case-insensitively; no function
    of the scripts computes it. *)
Definition is_hex_upper (c : ascii) : bool :=
  let n := N_of_ascii c in
  (((48 <=? n) && (n <=? 57)) || ((65 <=? n) && (n <=? 70)))%N.

Definition is_upper_letter (c : ascii) : bool :=
  let n := N_of_ascii c in ((65 <=? n) && (n <=? 90))%N.

Definition is_0_to_3 (c : ascii) : bool :=
  let n := N_of_ascii c in ((48 <=? n) && (n <=? 51))%N.

Definition matches_code_format (code : string) : bool :=
  match upper code with
  | String c0 (String c1 (String c2 (String c3 (String c4 rest)))) =>
      is_PBCU c0 && is_0_to_3 c1 && is_hex_upper c2 && is_hex_upper c3
      && is_hex_upper c4
      && match rest with
         | EmptyString => true
         | String c5 EmptyString => is_upper_letter c5
         | _ => false
         end
  | _ => false
  end.

(** *** quick_import_codes and its detectors *)

(** The module defines [quick_import_codes] twice; the later definition
    (the one with the detectors) is the one bound when anything is called. *)

(** [system_keywords], in the insertion order that the loop follows. *)
Definition system_keywords : list (string * list string) :=
  [("Fuel System", ["fuel"; "injector"; "pump"; "rail pressure"; "lean"; "rich"]);
   ("Ignition", ["ignition"; "misfire"; "spark"; "coil"]);
   ("Emissions", ["catalyst"; "catalytic"; "o2"; "oxygen"; "evap"; "egr";
                  "emission"; "nox"; "dpf"; "particulate"]);
   ("Transmission", ["transmission"; "gear"; "shift"; "torque converter";
                     "clutch"; "tcm"]);
   ("Engine", ["engine"; "cylinder"; "crankshaft"; "camshaft"; "vvt"; "timing";
               "knock"; "compression"]);
   ("Cooling", ["coolant"; "thermostat"; "radiator"; "temperature"; "cooling"]);
   ("Intake/Exhaust", ["intake"; "exhaust"; "manifold"; "throttle"; "maf";
                       "map"; "turbo"; "boost"]);
   ("SRS", ["airbag"; "restraint"; "srs"; "occupant"]);
   ("ABS", ["abs"; "brake"; "wheel speed"; "traction"; "stability"; "esp"; "dsc"]);
   ("Steering", ["steering"; "power steering"; "eps"]);
   ("HVAC", ["hvac"; "climate"; "air condition"; "a/c"; "heater"; "blower"]);
   ("Lighting", ["lamp"; "light"; "headlight"; "bulb"]);
   ("Network", ["can"; "bus"; "communication"; "network"; "module"]);
   ("Hybrid System", ["hybrid"; "hv battery"; "inverter"; "regenerat"]);
   ("EV Battery", ["battery"; "cell"; "soc"; "charging"; "high voltage"]);
   ("EV Motor", ["motor"; "drive unit"; "traction motor"])].

Fixpoint first_system (table : list (string * list string)) (desc_lower : string)
    : option string :=
  match table with
  | [] => None
  | (system, keywords) :: rest =>
      if any_in keywords desc_lower then Some system
      else first_system rest desc_lower
  end.

Definition detect_system_from_code (code description : string) : string :=
  let desc_lower := lower description in
  match first_system system_keywords desc_lower with
  | Some system => system
  | None =>
      if startswith "P0" code || startswith "P1" code
         || startswith "P2" code || startswith "P3" code then "Engine"
      else if startswith "B" code then "Body"
      else if startswith "C" code then "Chassis"
      else if startswith "U" code then "Network Communication"
      else "Engine"
  end.

Definition detect_severity_from_code (code description : string) : string :=
  let desc_lower := lower description in
  if any_in ["airbag"; "restraint"; "brake failure"; "steering"; "fuel leak"]
            desc_lower then "Critical"
  else if any_in ["misfire"; "catalyst damage"; "overheat"; "transmission";
                  "abs"; "fuel system"] desc_lower then "High"
  else if any_in ["intermittent"; "lamp"; "light"; "sensor range"; "hvac"]
                 desc_lower then "Low"
  else "Medium".

Definition detect_powertrain_from_code (code description : string) : string :=
  let desc_lower := lower description in
  if any_in ["glow plug"; "dpf"; "particulate"; "egr"; "adblue"; "def"; "urea";
             "nox"; "turbo"] desc_lower then "Diesel"
  else if any_in ["high voltage"; "hv battery"; "charging"; "inverter";
                  "traction motor"; "dc/dc"] desc_lower then "Electric"
  else if any_in ["hybrid"; "regenerat"; "motor generator"; "mg1"; "mg2"]
                 desc_lower then "Petrol Hybrid"
  else if any_in ["spark"; "ignition coil"; "knock sensor"; "catalytic converter"]
                 desc_lower then "Petrol"
  else "All".

Definition quick_import_code (make_id : string) (entry : string * string) : DtcRow :=
  let '(code, description) := entry in
  let code_upper := upper code in
  let system := detect_system_from_code code_upper description in
  let severity := detect_severity_from_code code_upper description in
  let powertrain := detect_powertrain_from_code code_upper description in
  {| code := code;
     make_id := make_id;
     description := description;
     detailed_description := Str ("Standard OBD-II code: " +:+ description);
     system := Str system;
     severity := Str severity;
     common_causes := Str "[]";
     symptoms := Str "[]";
     applicable_models := Str "All";
     applicable_years := Str "1996+";
     powertrain_type := Str powertrain |}.

Definition quick_import_codes (codes_to_import : list (string * string))
    (make_id : string) : list DtcRow :=
  quick_import_code make_id <$> codes_to_import.

(** *** import_all_generic_codes *)

Definition SAFE_GENERIC_PREFIXES : list string := ["P0"; "B0"; "C0"; "U0"].

(** [d[k] = v] on a dictionary kept as its item list: an existing key keeps
    its position and takes the new value, a new key goes to the end. *)
Fixpoint dict_set (k v : string) (d : list (string * string))
    : list (string * string) :=
  match d with
  | [] => [(k, v)]
  | (k', v') :: rest =>
      if String.eqb k k' then (k, v) :: rest else (k', v') :: dict_set k v rest
  end.

(** The filter loop over [REFERENCE_CODES.items()]. *)
Definition select_generic (all_existing : gset string)
    (reference_codes : list (string * string)) : list (string * string) :=
  fold_left
    (fun generic_codes '(code, desc) =>
       let code_upper := upper code in
       if decide (code_upper ∈ all_existing) then generic_codes
       else
         let prefix :=
           if 2 <=? String.length code_upper then str_take 2 code_upper
           else "" in
         if bool_decide (prefix ∈ SAFE_GENERIC_PREFIXES)
         then dict_set code desc generic_codes
         else generic_codes)
    reference_codes [].

(** [import_all_generic_codes], with the loaded [REFERENCE_CODES] (the items
    of the dictionary, in order) passed in. *)
Definition import_all_generic_codes (reference_codes : list (string * string))
    (stats : UsageStats) (df : list DtcRow) : list DtcRow * UsageStats :=
  match reference_codes with
  | [] => (df, stats)
  | _ =>
      let all_existing : gset string := list_to_set ((fun r => upper (code r)) <$> df) in
      let generic_codes := select_generic all_existing reference_codes in
      match generic_codes with
      | [] => (df, stats)
      | _ =>
          let codes_to_import := generic_codes in
          let new_rows := quick_import_codes codes_to_import "generic" in
          let stats :=
            {| codes_added := codes_added stats + length new_rows;
               codes_updated := codes_updated stats;
               codes_by_manufacturer :=
                 <["generic" :=
                     default 0 (codes_by_manufacturer stats !! "generic")
                     + length new_rows]> (codes_by_manufacturer stats) |} in
          (df ++ new_rows, stats)
      end
  end.

(** *** import_scraped_dtc_codes *)

(** A row of the scraped CSV file, after the [manufacturer] column has been
    renamed to [make_id]. *)
Record ScrapedRow : Type := {
  s_code : string;
  s_make_id : string;
  s_description : string
}.

(** [len(scraped_desc) > len(existing_desc) * 1.2].  The product is a
    double; for a length [n] below 2^40 it is the double nearest to [6n/5],
    which is [6n/5] itself when that is an integer and otherwise lies strictly
    between the same two integers as [6n/5], so that the comparison with the
    integer on the left is the comparison [5 * scraped > 6 * existing]. *)
Definition longer_by_20_percent (scraped_len existing_len : nat) : bool :=
  6 * existing_len <? 5 * scraped_len.

(** The index built by the first loop: later rows overwrite earlier ones. *)
Definition build_existing_keys (df : list DtcRow) : gmap (string * string) nat :=
  fold_left
    (fun existing_keys '(idx, row) =>
       <[(upper (code row), lower (make_id row)) := idx]> existing_keys)
    (imap (fun idx row => (idx, row)) df) ∅.

(** The state of the second loop: [new_codes], [codes_to_update],
    [skipped_codes]. *)
Record scan : Type := {
  new_codes : list (string * string);
  codes_to_update : list (nat * string * string);
  skipped_codes : nat
}.

Definition scan_row (df : list DtcRow) (existing_keys : gmap (string * string) nat)
    (update_existing : bool) (st : scan) (row : ScrapedRow) : scan :=
  let key := (upper (s_code row), lower (s_make_id row)) in
  let scraped_desc := s_description row in
  match existing_keys !! key with
  | None =>
      {| new_codes := new_codes st ++ [(upper (s_code row), scraped_desc)];
         codes_to_update := codes_to_update st;
         skipped_codes := skipped_codes st |}
  | Some existing_idx =>
      if update_existing then
        (* [existing_idx] was taken from [df], so the lookup finds a row *)
        let existing_desc := default "" (description <$> df !! existing_idx) in
        if longer_by_20_percent (len scraped_desc) (len existing_desc)
        then {| new_codes := new_codes st;
                codes_to_update :=
                  codes_to_update st
                  ++ [(existing_idx, upper (s_code row), scraped_desc)];
                skipped_codes := skipped_codes st |}
        else {| new_codes := new_codes st;
                codes_to_update := codes_to_update st;
                skipped_codes := S (skipped_codes st) |}
      else {| new_codes := new_codes st;
              codes_to_update := codes_to_update st;
              skipped_codes := S (skipped_codes st) |}
  end.

Definition scan_scraped (df : list DtcRow) (update_existing : bool)
    (scraped_df : list ScrapedRow) : scan :=
  fold_left (scan_row df (build_existing_keys df) update_existing) scraped_df
    {| new_codes := []; codes_to_update := []; skipped_codes := 0 |}.

Definition set_description (r : DtcRow) (d : string) : DtcRow :=
  {| code := code r; make_id := make_id r; description := d;
     detailed_description := detailed_description r; system := system r;
     severity := severity r; common_causes := common_causes r;
     symptoms := symptoms r; applicable_models := applicable_models r;
     applicable_years := applicable_years r;
     powertrain_type := powertrain_type r |}.

(** [df.loc[existing_idx, 'description'] = new_desc], for each entry in
    order. *)
Definition apply_updates (df : list DtcRow)
    (codes_to_update : list (nat * string * string)) : list DtcRow :=
  fold_left
    (fun df '(existing_idx, _, new_desc) =>
       alter (fun r => set_description r new_desc) existing_idx df)
    codes_to_update df.

(** [import_scraped_dtc_codes], with the rows of the scraped file passed in.
    [enrich] is [Some f] when enrichment is on, [f] standing for
    [enrich_codes_with_ai] (an external service decides what it returns), and
    [None] for the merge-only mode.  [iloc[0]] on an empty file raises. *)
Definition import_scraped_dtc_codes (stats : UsageStats) (df : list DtcRow)
    (scraped_df : list ScrapedRow)
    (enrich : option (list (string * string) -> string -> list DtcRow))
    (update_existing : bool) : res (list DtcRow * UsageStats) :=
  match scraped_df with
  | [] => Raise IndexError
  | first :: _ =>
      let make_id := lower (s_make_id first) in
      let st := scan_scraped df update_existing scraped_df in
      match new_codes st, codes_to_update st with
      | [], [] => Ok (df, stats)
      | _, _ =>
          let '(df, stats) :=
            match codes_to_update st with
            | [] => (df, stats)
            | _ => (apply_updates df (codes_to_update st),
                    add_updated stats (length (codes_to_update st)))
            end in
          let '(df, stats) :=
            match new_codes st with
            | [] => (df, stats)
            | _ =>
                let new_rows :=
                  match enrich with
                  | Some enrich_codes_with_ai =>
                      enrich_codes_with_ai (new_codes st) make_id
                  | None => quick_import_codes (new_codes st) make_id
                  end in
                match new_rows with
                | [] => (df, stats)
                | _ =>
                    let stats :=
                      {| codes_added := codes_added stats + length new_rows;
                         codes_updated := codes_updated stats;
                         codes_by_manufacturer := codes_by_manufacturer stats |} in
                    (df ++ new_rows, add_codes stats make_id (length new_rows))
                end
            end in
          Ok (sort_by str_pair_leb sort_key df, stats)
      end
  end.

(** *** enrich_existing_codes: writing the enriched fields back *)

(** An entry of [codes_to_enrich]. *)
Record EnrichItem : Type := {
  item_idx : nat;
  item_code : string;
  item_description : string;
  item_make_id : string
}.

(** The eight [if '<field>' in enriched_data: df.at[idx, '<field>'] = ...]
    statements.  A column is written when the key is present, whatever the
    value. *)
Definition write_enriched (r : DtcRow) (enriched_data : gmap string cell) : DtcRow :=
  let pick (field : string) (old : cell) : cell :=
    match enriched_data !! field with
    | Some v => v
    | None => old
    end in
  {| code := code r; make_id := make_id r; description := description r;
     detailed_description := pick "detailed_description" (detailed_description r);
     system := pick "system" (system r);
     severity := pick "severity" (severity r);
     common_causes := pick "common_causes" (common_causes r);
     symptoms := pick "symptoms" (symptoms r);
     applicable_models := pick "applicable_models" (applicable_models r);
     applicable_years := pick "applicable_years" (applicable_years r);
     powertrain_type := pick "powertrain_type" (powertrain_type r) |}.

(** [{e['code'].upper(): e for e in enriched}] *)
Definition index_enriched (enriched : list (gmap string cell))
    : res (gmap string (gmap string cell)) :=
  foldl
    (fun acc e =>
       m ← acc;
       match e !! "code" with
       | None => Raise KeyError
       | Some NaN => Raise AttributeError
       | Some (Str c) => Ok (<[upper c := e]> m)
       end)
    (Ok ∅) enriched.

(** The body of [for make_id, items in by_make.items()] after the call of
    [enrich_codes_batch], whose result is [enriched]. *)
Definition apply_enriched (stats : UsageStats) (df : list DtcRow)
    (make_id : string) (items : list EnrichItem)
    (enriched : list (gmap string cell)) : res (list DtcRow * UsageStats) :=
  enriched_by_code ← index_enriched enriched;
  let '(df, stats) :=
    fold_left
      (fun '(df, stats) item =>
         let code := upper (item_code item) in
         let idx := item_idx item in
         match enriched_by_code !! code with
         | Some enriched_data =>
             (alter (fun r => write_enriched r enriched_data) idx df,
              add_updated stats 1)
         | None => (df, stats)
         end)
      items (df, stats) in
  Ok (df,
      {| codes_added := codes_added stats;
         codes_updated := codes_updated stats;
         codes_by_manufacturer :=
           <[make_id :=
               default 0 (codes_by_manufacturer stats !! make_id) + length items]>
             (codes_by_manufacturer stats) |}).

(** *** parse_json_robustly *)

Import Json.

(** The suffix of [s] that starts at the first [c]. *)
Fixpoint from_first (c : ascii) (s : string) : option string :=
  match s with
  | EmptyString => None
  | String a t => if Ascii.eqb a c then Some s else from_first c t
  end.

(** The prefix of [s] that ends at the last [c]. *)
Fixpoint upto_last (c : ascii) (s : string) : option string :=
  match s with
  | EmptyString => None
  | String a t =>
      match upto_last c t with
      | Some p => Some (String a p)
      | None => if Ascii.eqb a c then Some (one a) else None
      end
  end.

(** [re.search(r'\[[\s\S]*\]', s)]: from the first [[] to the last []] after
    it; [re.search(r'\{[\s\S]*\}', s)] likewise. *)
Definition search_span (open close : ascii) (s : string) : option string :=
  match from_first open s with
  | Some t => upto_last close t
  | None => None
  end.

(** [s.rfind(c)], [-1] when [c] does not occur. *)
Fixpoint rfind (c : ascii) (s : string) : Z :=
  match s with
  | EmptyString => (-1)%Z
  | String a t =>
      let r := rfind c t in
      if (0 <=? r)%Z then (r + 1)%Z
      else if Ascii.eqb a c then 0%Z else (-1)%Z
  end.

(** What follows the characters of [\s*] at the head of [s]. *)
Definition skip_space (s : string) : string := lstrip s.

Definition next_is (c : ascii) (s : string) : bool :=
  match s with
  | String a _ => Ascii.eqb a c
  | EmptyString => false
  end.

(** [re.sub(r',\s*\]', ']', s)]: each comma that is followed by optional
    whitespace and []] is removed together with that whitespace. *)
Fixpoint sub_comma_bracket (skip : nat) (s : string) : string :=
  match s with
  | EmptyString => EmptyString
  | String c t =>
      match skip with
      | S k => sub_comma_bracket k t
      | O =>
          if Ascii.eqb c "," && next_is "]" (skip_space t)
          then String "]"
                 (sub_comma_bracket
                    (String.length t - String.length (skip_space t) + 1) t)
          else String c (sub_comma_bracket 0 t)
      end
  end.

(** [re.sub(r',(\s*[}\]])', r'\1', s)]: each comma that is followed by
    optional whitespace and a closing bracket is removed. *)
Fixpoint drop_trailing_commas (s : string) : string :=
  match s with
  | EmptyString => EmptyString
  | String c t =>
      if Ascii.eqb c ","
         && (next_is "}" (skip_space t) || next_is "]" (skip_space t))
      then drop_trailing_commas t
      else String c (drop_trailing_commas t)
  end.

(** Pieces of the pattern of strategy 3, written here with ' for the double
    quote: [\{\s*'code'\s*:\s*'[^']+'\s*,[\s\S]*?'powertrain_type'\s*:\s*'[^']+'\s*\}].
    A matcher returns what is left after the match.  Every greedy piece is
    followed by a character it cannot contain, so giving characters back
    never helps and the pieces are matched deterministically. *)
Definition lit (p : string) (s : string) : option string :=
  if startswith p s then Some (str_drop (String.length p) s) else None.

Fixpoint skip_nonquote (s : string) : string :=
  match s with
  | String c t => if Ascii.eqb c dquote then s else skip_nonquote t
  | EmptyString => EmptyString
  end.

(** ['[^']+'], with ' for the double quote *)
Definition quoted_nonempty (s : string) : option string :=
  s ← lit (one dquote) s;
  let r := skip_nonquote s in
  if String.length r <? String.length s then lit (one dquote) r else None.

(** ['powertrain_type'\s*:\s*'[^']+'\s*\}], with ' for the double quote *)
Definition match_tail (s : string) : option string :=
  s ← lit (quoted "powertrain_type") s;
  s ← lit ":" (skip_space s);
  s ← quoted_nonempty (skip_space s);
  lit "}" (skip_space s).

(** [[\s\S]*?] followed by the tail: the nearest place where the tail
    matches. *)
Fixpoint lazy_then_tail (s : string) : option string :=
  match match_tail s with
  | Some r => Some r
  | None =>
      match s with
      | String _ t => lazy_then_tail t
      | EmptyString => None
      end
  end.

Definition match_object (s : string) : option string :=
  s ← lit "{" s;
  s ← lit (quoted "code") (skip_space s);
  s ← lit ":" (skip_space s);
  s ← quoted_nonempty (skip_space s);
  s ← lit "," (skip_space s);
  lazy_then_tail s.

(** [re.findall(pattern, s)]: the matches from left to right, without
    overlap; [skip] counts the characters of a match still to be passed. *)
Fixpoint findall_objects (skip : nat) (s : string) : list string :=
  match s with
  | EmptyString => []
  | String _ t =>
      match skip with
      | S k => findall_objects k t
      | O =>
          match match_object s with
          | Some r =>
              let n := String.length s - String.length r in
              str_take n s :: findall_objects (n - 1) t
          | None => findall_objects 0 t
          end
      end
  end.

(** [s.split('\n')] *)
Fixpoint split_lines (cur : string) (s : string) : list string :=
  match s with
  | EmptyString => [cur]
  | String c t =>
      if Ascii.eqb c "010" then cur :: split_lines "" t
      else split_lines (cur +:+ one c) t
  end.

(** ['\n'.join(lines)] *)
Fixpoint join_lines (lines : list string) : string :=
  match lines with
  | [] => ""
  | [l] => l
  | l :: rest => l +:+ one "010" +:+ join_lines rest
  end.

(** Strategy 1: the result when the strategy returns.  [budget] is the
    nesting that [json.loads] can enter; its calls are all made from the
    frame of [parse_json_robustly], so it is the same for all of them. *)
Definition strategy1 (budget : nat) (response : string) : res (option json) :=
  except_JSONDecodeError
    (match search_span "[" "]" response with
     | Some m => v ← loads budget m; Ok (Some v)
     | None => Ok None
     end)
    (Ok None).

(** The text that strategy 2 hands to [json.loads]. *)
Definition fixed_json (response : string) : option string :=
  match from_first "[" response with
  | Some json_str =>
      let last_complete := rfind "}" json_str in
      if (0 <? last_complete)%Z then
        Some (sub_comma_bracket 0
                (str_take (Z.to_nat (last_complete + 1)) json_str +:+ "]"))
      else None
  | None => None
  end.

Definition strategy2 (budget : nat) (response : string) : res (option json) :=
  except_JSONDecodeError
    (match fixed_json response with
     | Some fixed => v ← loads budget fixed; Ok (Some v)
     | None => Ok None
     end)
    (Ok None).

(** The inner [try] of strategy 3 for one match. *)
Definition keep_object (budget : nat) (objects : list json) (m : string) : list json :=
  match except_all (A := list json)
          (obj ← loads budget m;
           bind (py_in "code" obj) (fun has_code : bool =>
           if has_code then
             bind (py_in "description" obj) (fun has_desc : bool =>
             Ok (if has_desc then objects ++ [obj] else objects))
           else Ok objects))
          (Ok objects) with
  | Ok objects' => objects'
  | Raise _ => objects
  end.

Definition strategy3 (budget : nat) (response : string) : res (option json) :=
  except_all
    (let matches := findall_objects 0 response in
     let objects := fold_left (keep_object budget) matches [] in
     match objects with
     | [] => Ok None
     | _ => Ok (Some (JArr objects))
     end)
    (Ok None).

(** The state of the loop of strategy 4: [objects], [current_obj],
    [brace_count]. *)
Record line_scan : Type := {
  objects : list json;
  current_obj : list string;
  brace_count : Z
}.

Definition scan_line (budget : nat) (st : line_scan) (line : string) : line_scan :=
  let has_open := contains "{" line in
  let brace_count :=
    if has_open then (brace_count st + Z.of_nat (count_char "{" line))%Z
    else brace_count st in
  let brace_count :=
    if contains "}" line then (brace_count - Z.of_nat (count_char "}" line))%Z
    else brace_count in
  let current_obj :=
    if (0 <? brace_count)%Z || has_open then current_obj st ++ [line]
    else current_obj st in
  match (brace_count =? 0)%Z, current_obj with
  | true, _ :: _ =>
      let objects :=
        match except_all (A := list json)
                (let obj_str := drop_trailing_commas (join_lines current_obj) in
                 obj ← loads budget obj_str;
                 bind (py_in "code" obj) (fun has_code : bool =>
                 Ok (if has_code then objects st ++ [obj] else objects st)))
                (Ok (objects st)) with
        | Ok objects' => objects'
        | Raise _ => objects st
        end in
      {| objects := objects; current_obj := []; brace_count := brace_count |}
  | _, _ =>
      {| objects := objects st; current_obj := current_obj;
         brace_count := brace_count |}
  end.

Definition strategy4 (budget : nat) (response : string) : res (option json) :=
  except_all
    (let lines := split_lines "" response in
     let st := fold_left (scan_line budget) lines
                 {| objects := []; current_obj := []; brace_count := 0 |} in
     match objects st with
     | [] => Ok None
     | objs => Ok (Some (JArr objs))
     end)
    (Ok None).

(** A strategy that returned ends the function; otherwise the next one is
    tried. *)
Definition or_else (first : res (option json)) (next : res json) : res json :=
  r ← first;
  match r with
  | Some v => Ok v
  | None => next
  end.

Definition parse_json_robustly (budget : nat) (response : string) : res json :=
  or_else (strategy1 budget response)
    (or_else (strategy2 budget response)
       (or_else (strategy3 budget response)
          (or_else (strategy4 budget response)
             (Ok (JArr []))))).

(** *** classify_codes_with_ai *)

Definition BATCH_SIZE : nat := 100.

(** [l[i:i + size] for i in range(0, len(l), size)]; [room] is what is left
    of the slice being filled. *)
Fixpoint slices {A} (size room : nat) (cur : list A) (l : list A) : list (list A) :=
  match l with
  | [] => match cur with [] => [] | _ => [cur] end
  | x :: t =>
      match room with
      | O => cur :: slices size (size - 1) [x] t
      | S r => slices size r (cur ++ [x]) t
      end
  end.

(** Truth value of a decoded JSON value.  A number lexeme is read as
    [mantissa * 10 ^ (exponent - fraction digits)]; an integer is false when
    it is zero, a float when it is zero or rounds to [0.0], which is the
    case up to half of the least subnormal, [2 ^ -1075].  [NaN] and the
    infinities are true. *)
Fixpoint mantissa (lexeme : string) (seen_point : bool) (m frac : Z)
    : Z * Z * string :=
  match lexeme with
  | EmptyString => (m, frac, EmptyString)
  | String c t =>
      if Ascii.eqb c "e" || Ascii.eqb c "E" then (m, frac, t)
      else if Ascii.eqb c "." then mantissa t true m frac
      else if Ascii.eqb c "-" then mantissa t seen_point m frac
      else if is_digit_char c
      then mantissa t seen_point (10 * m + (Z.of_N (N_of_ascii c) - 48))
                    (if seen_point then frac + 1 else frac)
      else (1, 0, EmptyString)
  end%Z.

Fixpoint digits (s : string) (acc : Z) : Z :=
  match s with
  | EmptyString => acc
  | String c t => digits t (10 * acc + (Z.of_N (N_of_ascii c) - 48))
  end%Z.

Definition exponent (s : string) : Z :=
  match s with
  | String "-" t => - digits t 0
  | String "+" t => digits t 0
  | _ => digits s 0
  end%Z.

Definition number_is_zero (lexeme : string) : bool :=
  let '(m, frac, e) := mantissa lexeme false 0 0 in
  let k := (exponent e - frac)%Z in
  ((m =? 0) || ((k <? 0) && (m * 2 ^ 1075 <=? 10 ^ (- k))))%Z.

Definition truthy (v : json) : bool :=
  match v with
  | JNull => false
  | JBool b => b
  | JNum lexeme => negb (number_is_zero lexeme)
  | JStr s => negb (String.eqb s "")
  | JArr items => match items with [] => false | _ => true end
  | JObj members => match members with [] => false | _ => true end
  end.

(** [classifications.get(code, classifications.get(code.upper(), 'unknown'))] *)
Definition get_label (classifications : json) (code : string) : res json :=
  match classifications with
  | JObj members =>
      let fallback := default (JStr "unknown") (dict_get (upper code) members) in
      Ok (default fallback (dict_get code members))
  | _ => Raise AttributeError
  end.

(** [make_id.lower()] *)
Definition label_lower (make_id : json) : res string :=
  match make_id with
  | JStr s => Ok (lower s)
  | _ => Raise AttributeError
  end.

(** The body of [for code, desc in batch]. *)
Definition classify_one (manufacturers : list string) (classifications : json)
    (all_classifications : gmap string (list (string * string)))
    (entry : string * string) : res (gmap string (list (string * string))) :=
  make_id ← get_label classifications entry.1;
  if truthy make_id then
    owner ← label_lower make_id;
    if bool_decide (owner ∈ manufacturers) then
      match all_classifications !! owner with
      | Some l => Ok (<[owner := l ++ [entry]]> all_classifications)
      | None => Raise KeyError
      end
    else Ok all_classifications
  else Ok all_classifications.

Definition classify_entries (manufacturers : list string) (classifications : json)
    (all_classifications : gmap string (list (string * string)))
    (batch : list (string * string)) : res (gmap string (list (string * string))) :=
  foldl (fun acc entry => m ← acc; classify_one manufacturers classifications m entry)
        (Ok all_classifications) batch.

(** One batch, given what [call_openrouter] returned for it. *)
Definition classify_batch (budget : nat) (manufacturers : list string)
    (all_classifications : gmap string (list (string * string)))
    (batch : list (string * string)) (response : option string)
    : res (gmap string (list (string * string))) :=
  match response with
  | None | Some EmptyString => Ok all_classifications
  | Some response =>
      match search_span "{" "}" response with
      | Some m =>
          match loads budget m with
          | Ok classifications =>
              classify_entries manufacturers classifications all_classifications batch
          | Raise JSONDecodeError => Ok all_classifications
          | Raise e => Raise e
          end
      | None => Ok all_classifications
      end
  end.

(** [classify_codes_with_ai]; [responses n] is what the external service
    returns for the [n]-th batch, [budget] the nesting that its calls of
    [json.loads] can enter. *)
Definition classify_codes_with_ai (budget : nat) (responses : nat -> option string)
    (unmatched_codes : list (string * string)) (manufacturers : list string)
    : res (gmap string (list (string * string))) :=
  let all_classifications : gmap string (list (string * string)) :=
    list_to_map ((fun make_id => (make_id, [])) <$> manufacturers) in
  foldl
    (fun acc '(n, batch) =>
       m ← acc; classify_batch budget manufacturers m batch (responses n))
    (Ok all_classifications)
    (imap (fun n batch => (n, batch)) (slices BATCH_SIZE BATCH_SIZE [] unmatched_codes)).

(** *** load_existing_dtc_codes *)

(** [df.drop_duplicates(subset=['code', 'make_id'], keep='first')]: a row
    stays when no earlier row has the same values in the subset columns;
    [seen] holds the pairs of the rows already passed. *)
Fixpoint drop_duplicates_first_from (seen : gset (string * string))
    (df : list DtcRow) : list DtcRow :=
  match df with
  | [] => []
  | r :: rest =>
      if decide (dup_key r ∈ seen) then drop_duplicates_first_from seen rest
      else r :: drop_duplicates_first_from (seen ∪ {[ dup_key r ]}) rest
  end.

Definition drop_duplicates_first (df : list DtcRow) : list DtcRow :=
  drop_duplicates_first_from ∅ df.

(** [load_existing_dtc_codes]: [output] and [assets] are the frames read from
    [output/dtc_codes.csv] and from the assets copy, [None] for a file that
    does not exist. *)
Definition load_existing_dtc_codes (output assets : option (list DtcRow))
    : list DtcRow :=
  let all_codes := option_list output ++ option_list assets in
  match all_codes with
  | [] => []
  | _ => drop_duplicates_first (concat all_codes)
  end.

(** *** import_standard_codes *)

(** [l[:n]] for an integer [n]: a negative [n] counts from the end. *)
Definition take_slice {A} (n : Z) (l : list A) : list A :=
  if (0 <=? n)%Z then take (Z.to_nat n) l
  else take (length l - Z.to_nat (- n)) l.

(** Truth value of an optional string argument: [None] and the empty string
    are false. *)
Definition given (s : option string) : bool :=
  match s with
  | None => false
  | Some s => negb (String.eqb s "")
  end.

(** The filter loop over [REFERENCE_CODES.items()]. *)
Definition select_standard (existing_codes : gset string)
    (code_prefix : option string) (reference_codes : list (string * string))
    : list (string * string) :=
  fold_left
    (fun candidates '(code, desc) =>
       if decide (upper code ∈ existing_codes) then candidates
       else if given code_prefix
               && negb (startswith (upper (default "" code_prefix)) (upper code))
       then candidates
       else FillDtcGaps.dict_set code desc candidates)
    reference_codes [].

(** [import_standard_codes], with the loaded [REFERENCE_CODES] passed in as
    its item list.  [enrich] is [Some f] when enrichment is on, [f] standing
    for [enrich_codes_with_ai], and [None] for the quick import. *)
Definition import_standard_codes (reference_codes : list (string * string))
    (stats : UsageStats) (df : list DtcRow)
    (manufacturer code_prefix : option string) (max_codes : Z)
    (enrich : option (list (string * string) -> string -> list DtcRow))
    : list DtcRow * UsageStats :=
  match reference_codes with
  | [] => (df, stats)
  | _ =>
      let make :=
        if given manufacturer then lower (default "" manufacturer) else "generic" in
      let existing_codes : gset string :=
        list_to_set ((fun r => upper (code r))
                       <$> filter (fun r => make_id r = make) df) in
      let candidates := select_standard existing_codes code_prefix reference_codes in
      match candidates with
      | [] => (df, stats)
      | _ =>
          let codes_to_import := take_slice max_codes candidates in
          let new_rows :=
            match enrich with
            | Some enrich_codes_with_ai => enrich_codes_with_ai codes_to_import make
            | None => quick_import_codes codes_to_import make
            end in
          let stats :=
            {| codes_added := codes_added stats + length new_rows;
               codes_updated := codes_updated stats;
               codes_by_manufacturer :=
                 if given manufacturer
                 then <[make := default 0 (codes_by_manufacturer stats !! make)
                                + length new_rows]> (codes_by_manufacturer stats)
                 else codes_by_manufacturer stats |} in
          (df ++ new_rows, stats)
      end
  end.

(** *** fill_gaps_for_manufacturer and fill_code_range *)

Definition premium_makes : list string :=
  ["bmw"; "mercedes-benz"; "audi"; "porsche"; "lexus"; "jaguar"].

Definition RECOMMENDED_premium : Z := 80.
Definition RECOMMENDED_standard : Z := 60.

Definition set_make_id (r : DtcRow) (m : string) : DtcRow :=
  {| code := code r; make_id := m; description := description r;
     detailed_description := detailed_description r; system := system r;
     severity := severity r; common_causes := common_causes r;
     symptoms := symptoms r; applicable_models := applicable_models r;
     applicable_years := applicable_years r;
     powertrain_type := powertrain_type r |}.

(** The number of new codes asked for when the caller names none. *)
Definition default_target (make : string) (current_count : Z) : Z :=
  if bool_decide (make ∈ premium_makes)
  then Z.max (RECOMMENDED_premium - current_count) 20
  else Z.max (RECOMMENDED_standard - current_count) 15.

(** [fill_gaps_for_manufacturer].  [generate] stands for
    [generate_dtc_codes_for_manufacturer], which asks an external service;
    its result is taken as the rows that [pd.DataFrame(new_codes)] makes of
    it, in the expected columns. *)
Definition fill_gaps_for_manufacturer
    (generate : string -> gset string -> Z -> option (list string)
                -> option string -> list DtcRow)
    (stats : UsageStats) (df : list DtcRow) (make : string)
    (target_count : option Z) (focus_categories : option (list string))
    (focus_powertrain : option string) : list DtcRow * UsageStats :=
  let make_codes := filter (fun r => make_id r = make) df in
  let existing_codes : gset string :=
    list_to_set ((fun r => upper (code r)) <$> make_codes) in
  let current_count := Z.of_nat (size existing_codes) in
  let target_count :=
    match target_count with
    | None => default_target make current_count
    | Some t => t
    end in
  let new_codes :=
    generate make existing_codes target_count focus_categories focus_powertrain in
  match new_codes with
  | [] => (df, stats)
  | _ =>
      let new_df := (fun r => set_make_id r make) <$> new_codes in
      let new_df := filter (fun r => upper (code r) ∉ existing_codes) new_df in
      (df ++ new_df, add_codes stats make (length new_df))
  end.

(** [Series.unique()]: the distinct values in order of first appearance. *)
Fixpoint unique (l : list string) : list string :=
  match l with
  | [] => []
  | x :: rest => x :: filter (fun y => y <> x) (unique rest)
  end.

(** [$] in a pattern: the end of the text, or just before a line feed that
    ends it. *)
Definition at_end (s : string) : bool :=
  String.eqb s "" || String.eqb s (String "010" "").

(** [re.match(r'^([PBCU])([0-3])(?:xxx)?$', s)], giving
    [match.group(1) + match.group(2)]. *)
Definition match_code_range (s : string) : option string :=
  match s with
  | String c0 (String c1 rest) =>
      if is_PBCU c0 && is_0_to_3 c1
         && ((startswith "xxx" rest && at_end (str_drop 3 rest)) || at_end rest)
      then Some (String c0 (String c1 ""))
      else None
  | _ => None
  end.

(** [fill_code_range]; the pattern is applied to [code_range.upper()]. *)
Definition fill_code_range
    (generate : string -> gset string -> Z -> option (list string)
                -> option string -> list DtcRow)
    (stats : UsageStats) (df : list DtcRow) (code_range : string)
    (manufacturer : option string) : list DtcRow * UsageStats :=
  match match_code_range (upper code_range) with
  | None => (df, stats)
  | Some prefix =>
      let manufacturers :=
        if given manufacturer then [default "" manufacturer]
        else unique (make_id <$> df) in
      fold_left
        (fun '(df, stats) make =>
           fill_gaps_for_manufacturer generate stats df make
             (Some 15%Z) (Some [prefix]) None)
        manufacturers (df, stats)
  end.

(** *** enrich_existing_codes *)

(** The [manufacturers] argument of the import and enrichment commands:
    [None], one name, or a list of names. *)
Inductive makes_arg : Type :=
| AllMakes
| OneMake (m : string)
| ListOfMakes (l : list string).

(** The two tests that set [needs_enrich]. *)
Definition needs_enrich (row : DtcRow) : bool :=
  match detailed_description row with
  | NaN => true
  | Str d => String.eqb d (description row) || (len d <? 50)
  end
  || match common_causes row with
     | NaN => true
     | Str c => String.eqb c "[]" || String.eqb c ""
     end.

(** The list [codes_to_enrich]: for each manufacturer in turn, its rows that
    need enrichment, with their index. *)
Definition codes_to_enrich (df : list DtcRow) (manufacturers : list string)
    : list EnrichItem :=
  concat
    ((fun make =>
        omap (fun p : nat * DtcRow =>
                if bool_decide (make_id p.2 = make) && needs_enrich p.2
                then Some {| item_idx := p.1; item_code := code p.2;
                             item_description := description p.2;
                             item_make_id := make |}
                else None)
             (imap (fun idx row => (idx, row)) df))
       <$> manufacturers).

(** The dictionary [by_make], in insertion order. *)
Definition group_by_make (items : list EnrichItem)
    : list (string * list EnrichItem) :=
  (fun make => (make, filter (fun it => item_make_id it = make) items))
    <$> unique (item_make_id <$> items).

(** [enrich_existing_codes].  [enrich_codes_batch] asks an external service
    and decodes its answer: it returns records, taken as dictionaries of
    cells, or raises. *)
Definition enrich_existing_codes
    (enrich_codes_batch : list (string * string) -> string
                          -> res (list (gmap string cell)))
    (stats : UsageStats) (df : list DtcRow) (manufacturers : makes_arg)
    : res (list DtcRow * UsageStats) :=
  let manufacturers :=
    match manufacturers with
    | AllMakes => unique (make_id <$> df)
    | OneMake m => [lower m]
    | ListOfMakes l => lower <$> l
    end in
  let items := codes_to_enrich df manufacturers in
  match items with
  | [] => Ok (df, stats)
  | _ =>
      foldl
        (fun acc (group : string * list EnrichItem) =>
           st ← acc;
           let codes_tuples :=
             (fun it => (item_code it, item_description it)) <$> group.2 in
           enriched ← enrich_codes_batch codes_tuples group.1;
           apply_enriched st.2 st.1 group.1 group.2 enriched)
        (Ok (df, stats)) (group_by_make items)
  end.

(** *** smart_import_manufacturer_codes *)

Definition MANUFACTURER_KEYWORDS : list (string * list string) :=
  [("honda",
    ["vtec"; "vvt"; "i-vtec"; "vtc"; "ima"; "i-mmd"; "e:hev"; "vsa"; "cmbs";
     "lkas"; "sh-awd"; "honda"; "acura"; "clarity"; "insight"; "accord";
     "civic"; "cr-v"; "earth dreams"; "dpf regeneration"; "idling stop"]);
   ("toyota",
    ["vvt-i"; "vvt-ie"; "d-4s"; "d-4st"; "tss"; "toyota"; "lexus"; "prius";
     "hybrid synergy"; "ths"; "ths ii"; "ecvt"; "e-cvt"; "camry"; "corolla";
     "rav4"; "highlander"; "smart key"; "star safety"; "entune"]);
   ("bmw",
    ["vanos"; "valvetronic"; "dsc"; "dde"; "dme"; "ihk"; "ihka"; "cas"; "ews";
     "bmw"; "mini"; "rolls-royce"; "efficient dynamics"; "xdrive"; "idrive";
     "comfort access"; "servotronic"; "active steering"]);
   ("mercedes-benz",
    ["mercedes"; "benz"; "amg"; "4matic"; "airmatic"; "abc"; "me-sfi"; "cdi";
     "bluetec"; "eq boost"; "eq power"; "distronic"; "parktronic"; "mbux";
     "pre-safe"; "attention assist"; "active brake assist"]);
   ("volkswagen",
    ["tsi"; "tdi"; "tfsi"; "fsi"; "dsg"; "s-tronic"; "haldex"; "4motion"; "vw";
     "volkswagen"; "vag"; "audi"; "seat"; "skoda"; "golf"; "passat"; "tiguan";
     "adblue"; "scr"; "dpf"; "climatronic"; "discover"]);
   ("audi",
    ["audi"; "tfsi"; "tdi"; "fsi"; "s-tronic"; "quattro"; "mmi";
     "virtual cockpit"; "matrix led"; "pre sense"; "side assist";
     "adaptive cruise"; "a3"; "a4"; "a6"; "q5"; "q7"]);
   ("ford",
    ["ford"; "lincoln"; "ecoboost"; "powershift"; "selectshift"; "sync";
     "myford"; "adaptive cruise"; "blis"; "cross traffic"; "focus"; "fiesta";
     "mondeo"; "kuga"; "puma"; "mustang"; "mach-e"]);
   ("nissan",
    ["nissan"; "infiniti"; "cvt"; "xtronic"; "e-power"; "propilot";
     "nissan connect"; "intelligent key"; "around view"; "juke"; "qashqai";
     "leaf"; "ariya"; "vq"; "vr"; "qr"; "mr"]);
   ("mazda",
    ["mazda"; "skyactiv"; "skyactiv-x"; "skyactiv-g"; "skyactiv-d"; "i-activ";
     "i-activsense"; "i-stop"; "g-vectoring"; "cx-5"; "cx-30"; "mx-5";
     "mazda3"; "kodo"; "zoom-zoom"]);
   ("hyundai",
    ["hyundai"; "kia"; "genesis"; "gdi"; "t-gdi"; "cvvt"; "cvvd"; "htrac";
     "blue link"; "smart cruise"; "blind spot"; "ioniq"; "kona"; "tucson";
     "santa fe"; "smartstream"]);
   ("kia",
    ["kia"; "hyundai"; "gdi"; "t-gdi"; "cvvt"; "sportage"; "sorento"; "niro";
     "ev6"; "uvo"; "drive wise"]);
   ("volvo",
    ["volvo"; "polestar"; "drive-e"; "sensus"; "pilot assist"; "city safety";
     "intellisafe"; "xc40"; "xc60"; "xc90"; "s60"; "v60"; "recharge"]);
   ("peugeot",
    ["peugeot"; "citroen"; "ds"; "psa"; "hdi"; "thp"; "puretech"; "e-hdi";
     "blue hdi"; "eat6"; "eat8"; "i-cockpit"; "grip control"; "208"; "308";
     "3008"; "5008"]);
   ("vauxhall",
    ["vauxhall"; "opel"; "ecotec"; "cdti"; "intellilink"; "onstar"; "flexride";
     "astra"; "corsa"; "insignia"; "mokka"; "grandland"])].

Definition MANUFACTURER_SPECIFIC_PREFIXES : list string :=
  ["P1"; "B1"; "C1"; "U1"; "P2"; "B2"; "C2"; "U2"].

(** [MANUFACTURER_KEYWORDS.get(make_id, [])] *)
Fixpoint keywords_of (table : list (string * list string)) (make : string)
    : list string :=
  match table with
  | [] => []
  | (m, keywords) :: rest =>
      if String.eqb make m then keywords else keywords_of rest make
  end.

(** The filter that keeps the manufacturer-specific reference codes, keyed
    by the code in upper case. *)
Definition mfr_specific_codes (reference_codes : list (string * string))
    : list (string * string) :=
  fold_left
    (fun acc '(code, desc) =>
       let code_upper := upper code in
       let prefix :=
         if 2 <=? String.length code_upper then str_take 2 code_upper else "" in
       if bool_decide (prefix ∈ MANUFACTURER_SPECIFIC_PREFIXES)
       then FillDtcGaps.dict_set code_upper desc acc
       else acc)
    reference_codes [].

(** The inner loop over the keywords of one manufacturer. *)
Definition keyword_hit (make : string) (desc_lower code_lower : string) : bool :=
  existsb
    (fun keyword =>
       contains (lower keyword) desc_lower || contains (lower keyword) code_lower)
    (keywords_of MANUFACTURER_KEYWORDS make).

(** The loop over the manufacturers with its [break]: the first one that
    has a keyword in the description or in the code. *)
Definition first_match (manufacturers : list string) (code desc : string)
    : option string :=
  List.find (fun make => keyword_hit make (lower desc) (lower code)) manufacturers.

(** The state of step 1: [keyword_matches] and [unmatched_codes]. *)
Record matching : Type := {
  keyword_matches : gmap string (list (string * string));
  unmatched : list (string * string)
}.

Definition match_keywords (manufacturers : list string)
    (codes : list (string * string)) : matching :=
  fold_left
    (fun st '(code, desc) =>
       match first_match manufacturers code desc with
       | Some make =>
           {| keyword_matches :=
                <[make := default [] (keyword_matches st !! make) ++ [(code, desc)]]>
                  (keyword_matches st);
              unmatched := unmatched st |}
       | None =>
           {| keyword_matches := keyword_matches st;
              unmatched := unmatched st ++ [(code, desc)] |}
       end)
    codes
    {| keyword_matches := list_to_map ((fun make => (make, [])) <$> manufacturers);
       unmatched := [] |}.

(** Step 3 for one manufacturer: the matches whose code the manufacturer
    does not have yet, turned into rows. *)
Definition new_rows_for (df : list DtcRow)
    (enrich : option (list (string * string) -> string -> res (list DtcRow)))
    (keyword_matches ai_matches : gmap string (list (string * string)))
    (make : string) : res (list DtcRow) :=
  let existing : gset string :=
    list_to_set ((fun r => upper (code r)) <$> filter (fun r => make_id r = make) df) in
  let combined_matches :=
    default [] (keyword_matches !! make) ++ default [] (ai_matches !! make) in
  let new_for_make :=
    filter (fun entry : string * string => upper entry.1 ∉ existing) combined_matches in
  match new_for_make with
  | [] => Ok []
  | _ =>
      match enrich with
      | Some enrich_codes_batch => enrich_codes_batch new_for_make make
      | None => Ok (quick_import_codes new_for_make make)
      end
  end.

(** The loop that credits the new rows to their manufacturers. *)
Definition credit_makes (manufacturers : list string) (all_new_codes : list DtcRow)
    (by_manufacturer : gmap string nat) : gmap string nat :=
  fold_left
    (fun counts make =>
       let make_count := length (filter (fun r => make_id r = make) all_new_codes) in
       if 0 <? make_count
       then <[make := default 0 (counts !! make) + make_count]> counts
       else counts)
    manufacturers by_manufacturer.

(** [smart_import_manufacturer_codes], with the loaded [REFERENCE_CODES]
    passed in as its item list and [responses] what the classifier returns
    for each batch, [budget] being the recursion depth left at the calls of
    [json.loads] in [classify_codes_with_ai].  [enrich] is [Some f] when
    enrichment is on, [f] standing for [enrich_codes_batch], which returns
    rows or raises. *)
Definition smart_import_manufacturer_codes (budget : nat)
    (reference_codes : list (string * string)) (responses : nat -> option string)
    (stats : UsageStats) (df : list DtcRow) (manufacturers : makes_arg)
    (enrich : option (list (string * string) -> string -> res (list DtcRow)))
    : res (list DtcRow * UsageStats) :=
  match reference_codes with
  | [] => Ok (df, stats)
  | _ =>
      let manufacturers :=
        match manufacturers with
        | AllMakes => fst <$> MANUFACTURER_KEYWORDS
        | OneMake m => [lower m]
        | ListOfMakes l => lower <$> l
        end in
      let st := match_keywords manufacturers (mfr_specific_codes reference_codes) in
      ai_matches ←
        (if 20 <? length (unmatched st)
         then classify_codes_with_ai budget responses (unmatched st) manufacturers
         else Ok (list_to_map ((fun make => (make, [])) <$> manufacturers)));
      all_new_codes ←
        foldl
          (fun acc make =>
             all_new_codes ← acc;
             rows ← new_rows_for df enrich (keyword_matches st) ai_matches make;
             Ok (all_new_codes ++ rows))
          (Ok []) manufacturers;
      match all_new_codes with
      | [] => Ok (df, stats)
      | _ =>
          Ok (df ++ all_new_codes,
              {| codes_added := codes_added stats + length all_new_codes;
                 codes_updated := codes_updated stats;
                 codes_by_manufacturer :=
                   credit_makes manufacturers all_new_codes
                     (codes_by_manufacturer stats) |})
      end
  end.


(** *** fill_gaps_for_country and fill_all_gaps *)

Definition MANUFACTURERS_BY_COUNTRY : list (string * list string) :=
  [("Germany", ["mercedes-benz"; "bmw"; "audi"; "volkswagen"; "porsche"]);
   ("Japan", ["toyota"; "honda"; "nissan"; "mazda"; "subaru"; "mitsubishi"]);
   ("USA", ["ford"; "chevrolet"; "gmc"; "dodge"; "tesla"]);
   ("South Korea", ["hyundai"; "kia"; "genesis"]);
   ("UK", ["vauxhall"; "jaguar"; "land-rover"; "mini"]);
   ("France", ["peugeot"; "renault"; "citroen"]);
   ("Sweden", ["volvo"; "polestar"]);
   ("Italy", ["fiat"; "alfa-romeo"; "ferrari"])].

(** [fill_gaps_for_country]: the manufacturers of the country, in the order
    of the table, each one skipped when the frame at that point has no row
    of it. *)
Definition fill_gaps_for_country
    (generate : string -> gset string -> Z -> option (list string)
                -> option string -> list DtcRow)
    (stats : UsageStats) (df : list DtcRow) (country : string)
    : list DtcRow * UsageStats :=
  match Json.dict_get country MANUFACTURERS_BY_COUNTRY with
  | None => (df, stats)
  | Some manufacturers =>
      fold_left
        (fun '((df, stats) : list DtcRow * UsageStats) make =>
           if bool_decide (make ∈ unique (make_id <$> df))
           then fill_gaps_for_manufacturer generate stats df make None None None
           else (df, stats))
        manufacturers (df, stats)
  end.

(** [fill_all_gaps].  [smart_targets] is [None] when [use_smart_targets] is
    off, and otherwise the dictionary that [get_smart_targets_from_ai]
    returned (it asks an external service), with whole numbers as targets. *)
Definition fill_all_gaps
    (generate : string -> gset string -> Z -> option (list string)
                -> option string -> list DtcRow)
    (stats : UsageStats) (df : list DtcRow) (smart_targets : option (gmap string Z))
    : list DtcRow * UsageStats :=
  let manufacturers := unique (make_id <$> df) in
  match smart_targets with
  | Some targets =>
      fold_left
        (fun '((df, stats) : list DtcRow * UsageStats) make =>
           let target := default 25%Z (targets !! make) in
           if (0 <? target)%Z
           then fill_gaps_for_manufacturer generate stats df make (Some target)
                  None None
           else (df, stats))
        (sort_by String.leb id manufacturers) (df, stats)
  | None =>
      fold_left
        (fun '((df, stats) : list DtcRow * UsageStats) make =>
           fill_gaps_for_manufacturer generate stats df make None None None)
        (sort_by String.leb id manufacturers) (df, stats)
  end.

(** *** analyze_dtc_coverage *)

(** [d[k] = d.get(k, 0) + 1] on a dictionary kept as its item list. *)
Fixpoint bump (k : string) (d : list (string * nat)) : list (string * nat) :=
  match d with
  | [] => [(k, 1)]
  | (k', n) :: rest =>
      if String.eqb k k' then (k, n + 1) :: rest else (k', n) :: bump k rest
  end.

(** [code[:2].upper()] *)
Definition prefix_of (code : string) : string := upper (str_take 2 code).

(** The entry of one manufacturer in [analysis["manufacturers"]]. *)
Record make_analysis : Type := {
  count : nat;
  make_categories : list (string * nat);
  has_generic : bool;
  has_manufacturer_specific : bool;
  reference_codes_covered : nat;
  powertrain_types : list string
}.

Record analysis : Type := {
  total_codes : nat;
  total_reference_codes : nat;
  manufacturers : list (string * make_analysis);
  categories : list (string * nat);
  reference_coverage : list (string * nat);
  gaps : list string
}.

(** The loop over the codes of one manufacturer: its categories and the two
    flags. *)
Definition scan_codes (codes : list string)
    : list (string * nat) * bool * bool :=
  fold_left
    (fun '(cats, generic, specific) code =>
       if 2 <=? String.length code then
         let prefix := prefix_of code in
         let category :=
           match prefix with
           | String c0 (String c1 _) => String c0 (String c1 "")
           | _ => prefix
           end in
         let cats := bump category cats in
         if bool_decide (prefix ∈ SAFE_GENERIC_PREFIXES)
         then (cats, true, specific)
         else if bool_decide (prefix ∈ MANUFACTURER_SPECIFIC_PREFIXES)
              then (cats, generic, true)
              else (cats, generic, specific)
       else (cats, generic, specific))
    codes ([], false, false).

(** The loops that count two-character prefixes. *)
Definition count_prefixes (codes : list string) : list (string * nat) :=
  fold_left
    (fun acc code =>
       if 2 <=? String.length code then bump (prefix_of code) acc else acc)
    codes [].

Definition analyze_make (reference_codes : list (string * string))
    (df : list DtcRow) (make : string) : make_analysis :=
  let make_codes := filter (fun r => make_id r = make) df in
  let make_code_set : gset string :=
    list_to_set ((fun r => upper (code r)) <$> make_codes) in
  let reference_overlap : gset string :=
    make_code_set ∩ list_to_set (fst <$> reference_codes) in
  let '(cats, generic, specific) := scan_codes (code <$> make_codes) in
  {| count := length make_codes;
     make_categories := cats;
     has_generic := generic;
     has_manufacturer_specific := specific;
     reference_codes_covered := size reference_overlap;
     powertrain_types :=
       unique (omap (fun r => match powertrain_type r with
                              | Str s => Some s
                              | NaN => None
                              end) make_codes) |}.

(** [analyze_dtc_coverage], with the loaded [REFERENCE_CODES] passed in as
    its item list. *)
Definition analyze_dtc_coverage (reference_codes : list (string * string))
    (df : list DtcRow) : analysis :=
  {| total_codes := length df;
     total_reference_codes := length reference_codes;
     manufacturers :=
       (fun make => (make, analyze_make reference_codes df make))
         <$> unique (make_id <$> df);
     categories := count_prefixes (code <$> df);
     reference_coverage := count_prefixes (fst <$> reference_codes);
     gaps := [] |}.

(** *** generate_dtc_codes_for_manufacturer *)

Definition MAX_BATCH_SIZE : Z := 25.

(** The arguments of one call of [_generate_single_batch], which asks an
    external service. *)
Record batch_request : Type := {
  req_make : string;
  req_existing : gset string;
  req_count : Z;
  req_categories : option (list string);
  req_powertrain : option string
}.

(** [code.get('code', '').upper()] for an element of a batch. *)
Definition code_upper (v : json) : res string :=
  match v with
  | JObj members =>
      match default (JStr "") (Json.dict_get "code" members) with
      | JStr s => Ok (upper s)
      | _ => Raise AttributeError
      end
  | _ => Raise AttributeError
  end.

(** [for code in batch_codes: current_existing.add(...)] *)
Definition add_generated (current_existing : gset string) (batch_codes : list json)
    : res (gset string) :=
  foldl (fun acc v => s ← acc; c ← code_upper v; Ok ({[c]} ∪ s))
        (Ok current_existing) batch_codes.

(** The codes generated so far, with the calls of [_generate_single_batch]
    that were made for them, in order. *)
Record generation : Type := {
  all_codes : list json;
  requests : list batch_request
}.

(** The [while remaining > 0] loop; it ends after at most [remaining]
    rounds, which is what [fuel] is set to. *)
Fixpoint generate_batches (fuel : nat)
    (generate_single_batch : batch_request -> res (list json))
    (make : string) (focus_categories : option (list string))
    (focus_powertrain : option string) (remaining : Z)
    (current_existing : gset string) (acc : generation) : res generation :=
  match fuel with
  | O => Ok acc
  | S fuel =>
      if (0 <? remaining)%Z then
        let batch_size := Z.min remaining MAX_BATCH_SIZE in
        let req :=
          {| req_make := make; req_existing := current_existing;
             req_count := batch_size; req_categories := focus_categories;
             req_powertrain := focus_powertrain |} in
        batch_codes ← generate_single_batch req;
        current_existing ←
          match batch_codes with
          | [] => Ok current_existing
          | _ => add_generated current_existing batch_codes
          end;
        generate_batches fuel generate_single_batch make focus_categories
          focus_powertrain (remaining - batch_size)%Z current_existing
          {| all_codes := all_codes acc ++ batch_codes;
             requests := requests acc ++ [req] |}
      else Ok acc
  end.

Definition generate_dtc_codes_for_manufacturer
    (generate_single_batch : batch_request -> res (list json))
    (make : string) (existing_codes : gset string) (target_count : Z)
    (focus_categories : option (list string)) (focus_powertrain : option string)
    : res generation :=
  if (MAX_BATCH_SIZE <? target_count)%Z then
    generate_batches (Z.to_nat target_count) generate_single_batch make
      focus_categories focus_powertrain target_count existing_codes
      {| all_codes := []; requests := [] |}
  else
    let req :=
      {| req_make := make; req_existing := existing_codes;
         req_count := target_count; req_categories := focus_categories;
         req_powertrain := focus_powertrain |} in
    codes ← generate_single_batch req;
    Ok {| all_codes := codes; requests := [req] |}.
End FillDtcGaps.

(** ** Notions used to state and prove the properties *)

Module Spec.
Import Py.

(** Adjacent elements of a list are in key order. *)
Fixpoint locally_sorted {A K} (leb : K -> K -> bool) (key : A -> K)
    (l : list A) : Prop :=
  match l with
  | [] => True
  | x :: rest =>
      match rest with
      | [] => True
      | y :: _ => leb (key x) (key y) = true /\ locally_sorted leb key rest
      end
  end.

(** The first row stored under a key. *)
Fixpoint first_stored (k : option string * option string)
    (rows : list (gmap string string)) : option (gmap string string) :=
  match rows with
  | [] => None
  | r :: rest =>
      if decide (MergeToJson.stored_key r = k) then Some r
      else first_stored k rest
  end.

(** Overwriting the first row stored under [k] by [v]. *)
Fixpoint replace_first (k : option string * option string)
    (v : gmap string string) (rows : list (gmap string string))
    : list (gmap string string) :=
  match rows with
  | [] => []
  | r :: rest =>
      if decide (MergeToJson.stored_key r = k) then v :: rest
      else r :: replace_first k v rest
  end.

(** Overwriting, for every key of [M], the first row stored under it. *)
Fixpoint overwrite (M : gmap (option string * option string) (gmap string string))
    (rows : list (gmap string string)) : list (gmap string string) :=
  match rows with
  | [] => []
  | r :: rest =>
      match M !! MergeToJson.stored_key r with
      | Some v => v :: overwrite (delete (MergeToJson.stored_key r) M) rest
      | None => r :: overwrite M rest
      end
  end.

(** For each key of a batch, the normalised form of the last row with it. *)
Definition last_by_key (batch : list (gmap string string))
    : gmap (option string * option string) (gmap string string) :=
  fold_left
    (fun M b =>
       <[MergeToJson.as_stored (MergeToJson.key_of b) := MergeToJson.normalized b]> M)
    batch ∅.

(** The index of keys of [merge_dtc_codes] agrees with its rows. *)
Definition codes_agree (st : MergeToJson.state) : Prop :=
  forall key, key ∈ MergeToJson.existing_codes st
    <-> first_stored (MergeToJson.as_stored key) (MergeToJson.existing_rows st) ≠ None.

(** Every stored row is in normal form. *)
Definition rows_normal (rows : list (gmap string string)) : Prop :=
  Forall (fun r => MergeToJson.normalized r = r) rows.

(** The text being decoded is not an array: an object is open at the bottom
    of the stack, or a scalar is being read or was read at the top level. *)
Definition is_array (v : Json.json) : bool :=
  match v with
  | Json.JArr _ => true
  | _ => false
  end.

Fixpoint bottom_is_object (stack : list Json.frame) : bool :=
  match stack with
  | [] => false
  | f :: below =>
      match below with
      | [] => match f with Json.FObj _ _ => true | Json.FArr _ => false end
      | _ => bottom_is_object below
      end
  end.

Definition no_array_doc (q : Json.machine) : bool :=
  match Json.stack q with
  | [] =>
      match Json.lx q with
      | Json.LIdle _ => false
      | Json.LDone v => negb (is_array v)
      | _ => true
      end
  | _ => bottom_is_object (Json.stack q)
  end.

(** The bracket-balance repair as the specification words it: a scan that
    tracks whether it is inside a quoted string (a backslash escapes the next
    character) and the stack of open brackets outside strings, and remembers
    the last place where a closing brace brought the nesting back to the
    array level; the text is cut there, a trailing comma is stripped, and the
    brackets still open at that place are closed. *)
Record repair_scan : Type := {
  in_string : bool;
  escaped : bool;
  open_brackets : list ascii;
  position : nat;
  boundary : option (nat * list ascii)
}.

Definition repair_step (st : repair_scan) (c : ascii) : repair_scan :=
  let pos := S (position st) in
  let keep in_string escaped open_brackets boundary :=
    {| in_string := in_string; escaped := escaped;
       open_brackets := open_brackets; position := pos;
       boundary := boundary |} in
  if in_string st then
    if escaped st then keep true false (open_brackets st) (boundary st)
    else if Ascii.eqb c "\" then keep true true (open_brackets st) (boundary st)
    else if Ascii.eqb c dquote then keep false false (open_brackets st) (boundary st)
    else keep true false (open_brackets st) (boundary st)
  else if Ascii.eqb c dquote then keep true false (open_brackets st) (boundary st)
  else if Ascii.eqb c "[" || Ascii.eqb c "{"
  then keep false false (c :: open_brackets st) (boundary st)
  else if Ascii.eqb c "}" then
    match open_brackets st with
    | o :: below =>
        if Ascii.eqb o "{" then
          keep false false below
            (match below with
             | [b] => if Ascii.eqb b "[" then Some (pos, below) else boundary st
             | _ => boundary st
             end)
        else keep false false (open_brackets st) (boundary st)
    | [] => keep false false [] (boundary st)
    end
  else if Ascii.eqb c "]" then
    match open_brackets st with
    | o :: below =>
        if Ascii.eqb o "[" then keep false false below (boundary st)
        else keep false false (open_brackets st) (boundary st)
    | [] => keep false false [] (boundary st)
    end
  else keep false false (open_brackets st) (boundary st).

Fixpoint repair_scan_from (st : repair_scan) (s : string) : repair_scan :=
  match s with
  | EmptyString => st
  | String c t => repair_scan_from (repair_step st c) t
  end.

Fixpoint closers (open_brackets : list ascii) : string :=
  match open_brackets with
  | [] => EmptyString
  | o :: below =>
      String (if Ascii.eqb o "[" then "]"%char else "}"%char) (closers below)
  end.

Definition strip_trailing_comma (s : string) : string :=
  match rev (list_ascii_of_string (rstrip s)) with
  | c :: before =>
      if Ascii.eqb c "," then string_of_list_ascii (rev before) else rstrip s
  | [] => EmptyString
  end.

Definition bracket_balance_repair (text : string) : option string :=
  match FillDtcGaps.from_first "[" text with
  | Some json_str =>
      let st := repair_scan_from
                  {| in_string := false; escaped := false; open_brackets := [];
                     position := 0; boundary := None |} json_str in
      match boundary st with
      | Some (n, still_open) =>
          Some (strip_trailing_comma (str_take n json_str) +:+ closers still_open)
      | None => None
      end
  | None => None
  end.

(** The response to some batch labels [entry] with a string that is [owner]
    once put in lower case. *)
Definition assigned (budget : nat) (responses : nat -> option string)
    (unmatched_codes : list (string * string)) (owner : string)
    (entry : string * string) : Prop :=
  exists n batch text m classifications label,
    FillDtcGaps.slices FillDtcGaps.BATCH_SIZE FillDtcGaps.BATCH_SIZE []
      unmatched_codes !! n = Some batch
    /\ entry ∈ batch
    /\ responses n = Some text
    /\ FillDtcGaps.search_span "{" "}" text = Some m
    /\ Json.loads budget m = Ok classifications
    /\ FillDtcGaps.get_label classifications entry.1 = Ok (Json.JStr label)
    /\ lower label = owner.

(** What the accumulator of [classify_codes_with_ai] satisfies all along:
    its keys are the candidates, and every entry was assigned by a
    response. *)
Definition classified (budget : nat) (responses : nat -> option string)
    (unmatched_codes : list (string * string)) (manufacturers : list string)
    (m : gmap string (list (string * string))) : Prop :=
  (forall owner, is_Some (m !! owner) <-> owner ∈ manufacturers)
  /\ (forall owner l entry, m !! owner = Some l -> entry ∈ l ->
        assigned budget responses unmatched_codes owner entry).

(** The identity key of the data model: the code in upper case with the
    owner in lower case; [import_scraped_dtc_codes] indexes the frame by it. *)
Definition identity_key (r : FillDtcGaps.DtcRow) : string * string :=
  (upper (FillDtcGaps.code r), lower (FillDtcGaps.make_id r)).

Definition scraped_key (row : FillDtcGaps.ScrapedRow) : string * string :=
  (upper (FillDtcGaps.s_code row), lower (FillDtcGaps.s_make_id row)).

(** The prefix test of the filter loop of [import_all_generic_codes]. *)
Definition generic_prefix (code_upper : string) : bool :=
  bool_decide ((if 2 <=? String.length code_upper then str_take 2 code_upper else "")
               ∈ FillDtcGaps.SAFE_GENERIC_PREFIXES).

(** The number of rows whose powertrain cell the clean-up rewrites. *)
Definition powertrain_changed (df : list FillDtcGaps.DtcRow) : nat :=
  length (List.filter
            (fun r => negb (bool_decide
               (FillDtcGaps.powertrain_type r
                = FillDtcGaps.Str
                    (FillDtcGaps.normalize_powertrain (FillDtcGaps.powertrain_type r)))))
            df).

(** What the scan of the scraped file does with one row, in update mode: the
    entry it queues, whether it counts the row as skipped, and whether the row
    is new. *)
Definition queued (df : list FillDtcGaps.DtcRow)
    (keys : gmap (string * string) nat) (row : FillDtcGaps.ScrapedRow)
    : option (nat * string * string) :=
  match keys !! scraped_key row with
  | Some idx =>
      if FillDtcGaps.longer_by_20_percent
           (len (FillDtcGaps.s_description row))
           (len (default "" (FillDtcGaps.description <$> df !! idx)))
      then Some (idx, upper (FillDtcGaps.s_code row), FillDtcGaps.s_description row)
      else None
  | None => None
  end.

Definition skipped (df : list FillDtcGaps.DtcRow)
    (keys : gmap (string * string) nat) (row : FillDtcGaps.ScrapedRow) : bool :=
  match keys !! scraped_key row with
  | Some idx =>
      negb (FillDtcGaps.longer_by_20_percent
              (len (FillDtcGaps.s_description row))
              (len (default "" (FillDtcGaps.description <$> df !! idx))))
  | None => false
  end.

Definition fresh (keys : gmap (string * string) nat)
    (row : FillDtcGaps.ScrapedRow) : option (string * string) :=
  match keys !! scraped_key row with
  | Some _ => None
  | None => Some (upper (FillDtcGaps.s_code row), FillDtcGaps.s_description row)
  end.

(** The description that the queue leaves in row [i], starting from [d]: the
    last one queued for [i]. *)
Definition last_queued (i : nat) (queue : list (nat * string * string))
    (d : string) : string :=
  fold_left (fun d '(idx, _, new_desc) => if decide (idx = i) then new_desc else d)
            queue d.

(** Building a dictionary from the reference table: an entry whose code has
    a key is stored under that key, an entry whose code has none is passed
    over. *)
Definition collect (key : string -> option string)
    (reference_codes : list (string * string)) : list (string * string) :=
  fold_left
    (fun acc '(code, desc) =>
       match key code with
       | Some k => FillDtcGaps.dict_set k desc acc
       | None => acc
       end)
    reference_codes [].

(** The test that [import_standard_codes] applies to a reference code. *)
Definition standard_key (existing_codes : gset string) (code_prefix : option string)
    (code : string) : option string :=
  if decide (upper code ∈ existing_codes) then None
  else if FillDtcGaps.given code_prefix
          && negb (startswith (upper (default "" code_prefix)) (upper code))
  then None
  else Some code.

(** The id of an entry, and one iteration of the loop of [merge_by_id] on an
    entry that has one. *)
Definition id_of (it : MergeToJson.item) : option MergeToJson.value := it !! "id".

Definition merge_step (existing_ids : gmap MergeToJson.value nat)
    (result : list MergeToJson.item) (it : MergeToJson.item)
    : list MergeToJson.item :=
  match id_of it with
  | Some k =>
      match existing_ids !! k with
      | Some i => <[i := it]> result
      | None => result ++ [it]
      end
  | None => result
  end.

(** [i] is the last position of [l] that holds an entry with id [k]. *)
Definition last_index (k : MergeToJson.value) (i : nat)
    (l : list MergeToJson.item) : Prop :=
  (exists it, l !! i = Some it /\ id_of it = Some k)
  /\ forall j it, i < j -> l !! j = Some it -> id_of it <> Some k.

(** A classification only grows: what is listed stays listed. *)
Definition grows (m m' : gmap string (list (string * string))) : Prop :=
  forall owner l entry,
    m !! owner = Some l -> entry ∈ l ->
    exists l', m' !! owner = Some l' /\ entry ∈ l'.

(** The answer [classifications] labels the code of [entry] with a text that
    is [owner] in lower case. *)
Definition labelled (classifications : Json.json) (entry : string * string)
    (owner : string) : Prop :=
  exists label,
    FillDtcGaps.get_label classifications entry.1 = Ok (Json.JStr label)
    /\ lower label = owner.

(** The text being decoded is an object: an object is open at the bottom of
    the stack, or an object was read at the top level. *)
Definition object_doc (q : Json.machine) : Prop :=
  (Json.stack q <> [] /\ bottom_is_object (Json.stack q) = true)
  \/ (Json.stack q = [] /\ exists members, Json.lx q = Json.LDone (Json.JObj members)).

(** An object that has the keys 'code' and 'description'. *)
Definition is_code_object (v : Json.json) : Prop :=
  exists members,
    v = Json.JObj members
    /\ is_Some (Json.dict_get "code" members)
    /\ is_Some (Json.dict_get "description" members).

(** The columns that identify a row and carry its short description. *)
Definition fixed_columns (r : FillDtcGaps.DtcRow) : string * string * string :=
  (FillDtcGaps.code r, FillDtcGaps.make_id r, FillDtcGaps.description r).

(** The key under which [smart_import_manufacturer_codes] keeps a reference
    code: the code in upper case, when its first two characters are a
    manufacturer-specific prefix. *)
Definition specific_key (code : string) : option string :=
  let code_upper := upper code in
  if bool_decide ((if 2 <=? String.length code_upper then str_take 2 code_upper else "")
                  ∈ FillDtcGaps.MANUFACTURER_SPECIFIC_PREFIXES)
  then Some code_upper else None.

(** A code that [smart_import_manufacturer_codes] offers for import: a
    reference code with a manufacturer-specific prefix, in upper case, with
    its reference description. *)
Definition from_reference (reference_codes : list (string * string))
    (entry : string * string) : Prop :=
  (exists c, (c, entry.2) ∈ reference_codes /\ entry.1 = upper c)
  /\ str_take 2 entry.1 ∈ FillDtcGaps.MANUFACTURER_SPECIFIC_PREFIXES.

(** The manufacturers that a [manufacturers] argument selects. *)
Definition selected (manufacturers : FillDtcGaps.makes_arg) : list string :=
  match manufacturers with
  | FillDtcGaps.AllMakes => fst <$> FillDtcGaps.MANUFACTURER_KEYWORDS
  | FillDtcGaps.OneMake m => [lower m]
  | FillDtcGaps.ListOfMakes l => lower <$> l
  end.

(** The first manufacturer of the list with a keyword in the description or
    in the code. *)
Definition first_with_keyword (manufacturers : list string) (code desc make : string)
    : Prop :=
  exists before after,
    manufacturers = before ++ make :: after
    /\ FillDtcGaps.keyword_hit make (lower desc) (lower code) = true
    /\ Forall (fun m => FillDtcGaps.keyword_hit m (lower desc) (lower code) = false)
         before.

(** What a run of gap filling may do to a frame and its counters: append
    rows of manufacturers that [allowed] admits, each with a code that the
    manufacturer did not have in the frame (in upper case), and count
    them. *)
Definition appended (allowed : string -> Prop) (df : list FillDtcGaps.DtcRow)
    (stats : FillDtcGaps.UsageStats)
    (result : list FillDtcGaps.DtcRow * FillDtcGaps.UsageStats) : Prop :=
  exists new_rows,
    result.1 = df ++ new_rows
    /\ FillDtcGaps.codes_added result.2
       = FillDtcGaps.codes_added stats + length new_rows
    /\ FillDtcGaps.codes_updated result.2 = FillDtcGaps.codes_updated stats
    /\ Forall
         (fun r =>
            allowed (FillDtcGaps.make_id r)
            /\ forall x, x ∈ df ->
                 FillDtcGaps.make_id x = FillDtcGaps.make_id r ->
                 upper (FillDtcGaps.code x) <> upper (FillDtcGaps.code r))
         new_rows.

(** The sum of the counts of a dictionary of counters. *)
Definition total (d : list (string * nat)) : nat := sum_list (snd <$> d).

(** A code that the coverage analysis can file under a two-character
    prefix. *)
Definition long_enough (code : string) : Prop := 2 <= String.length code.

#[global] Instance long_enough_dec code : Decision (long_enough code).
Proof. unfold long_enough. apply _. Defined.

(** What converting the rows of a CSV file and merging them into an
    existing list gives: the conversion stops at the first row that raises;
    converted rows merge unless an existing entry has no id. *)
Definition merges_converted (convert : MergeToJson.csv_row -> Py.res MergeToJson.item)
    (existing : list MergeToJson.item) (rows : list MergeToJson.csv_row) : Prop :=
  match MergeToJson.convert_all convert rows with
  | Py.Ok items =>
      Py.Ok <$> items = convert <$> rows
      /\ match MergeToJson.merge_by_id existing items with
         | Py.Ok result =>
             id_of <$> result
             = (id_of <$> existing)
               ++ filter (fun k => k ∉ id_of <$> existing) (id_of <$> items)
         | Py.Raise e =>
             e = Py.KeyError /\ Exists (fun it => id_of it = None) existing
         end
  | Py.Raise e =>
      exists before row after,
        rows = before ++ row :: after
        /\ Forall (fun r => exists it, convert r = Py.Ok it) before
        /\ convert row = Py.Raise e
  end.

(** The number of codes that a list of requests asks for. *)
Definition requested (rs : list FillDtcGaps.batch_request) : Z :=
  foldr Z.add 0%Z (FillDtcGaps.req_count <$> rs).

(** Every request is told the codes that exist and the codes that the
    requests before it have produced, in upper case. *)
Definition informed
    (generate_single_batch : FillDtcGaps.batch_request -> Py.res (list Json.json))
    (existing_codes : gset string) (rs : list FillDtcGaps.batch_request) : Prop :=
  forall before r after,
    rs = before ++ r :: after ->
    existing_codes ⊆ FillDtcGaps.req_existing r
    /\ forall r' codes v c,
         r' ∈ before -> generate_single_batch r' = Py.Ok codes -> v ∈ codes ->
         FillDtcGaps.code_upper v = Py.Ok c -> c ∈ FillDtcGaps.req_existing r.

(** The codes are the answers to the requests, in order. *)
Definition answers
    (generate_single_batch : FillDtcGaps.batch_request -> Py.res (list Json.json))
    (g : FillDtcGaps.generation) : Prop :=
  exists batches,
    Forall2 (fun r b => generate_single_batch r = Py.Ok b)
            (FillDtcGaps.requests g) batches
    /\ FillDtcGaps.all_codes g = concat batches.

(** What holds of the generation between two rounds of the batch loop of
    [generate_dtc_codes_for_manufacturer]. *)
Definition between_rounds
    (generate_single_batch : FillDtcGaps.batch_request -> Py.res (list Json.json))
    (make : string) (existing_codes : gset string) (target_count remaining : Z)
    (current_existing : gset string) (g : FillDtcGaps.generation) : Prop :=
  (0 <= remaining)%Z
  /\ (requested (FillDtcGaps.requests g) + remaining = target_count)%Z
  /\ Forall (fun r => (0 < FillDtcGaps.req_count r <= 25)%Z
                      /\ FillDtcGaps.req_make r = make)
            (FillDtcGaps.requests g)
  /\ informed generate_single_batch existing_codes (FillDtcGaps.requests g)
  /\ existing_codes ⊆ current_existing
  /\ (forall r' codes v c,
        r' ∈ FillDtcGaps.requests g -> generate_single_batch r' = Py.Ok codes ->
        v ∈ codes -> FillDtcGaps.code_upper v = Py.Ok c -> c ∈ current_existing)
  /\ answers generate_single_batch g.


(** A carriage return somewhere in the text, and in one of the two key
    columns of a row. *)
Definition has_cr (s : string) : bool :=
  existsb (Ascii.eqb MergeToJson.CR) (list_ascii_of_string s).


(** Two lists of rows with the same stored keys, row by row, that are equal
    except, for each key of [K], at the first row stored under it. *)
Fixpoint equal_but_first (K : gset (option string * option string))
    (rows' rows : list (gmap string string)) : Prop :=
  match rows', rows with
  | [], [] => True
  | r' :: rest', r :: rest =>
      MergeToJson.stored_key r' = MergeToJson.stored_key r
      /\ (if decide (MergeToJson.stored_key r ∈ K)
          then equal_but_first (K ∖ {[ MergeToJson.stored_key r ]}) rest' rest
          else r' = r /\ equal_but_first K rest' rest)
  | _, _ => False
  end.






(** A text made of white-space characters only. *)
Inductive white : string -> Prop :=
| white_nil : white ""
| white_cons (ch ws : string) :
    is_one_space ch = true -> white ws -> white (ch +:+ ws).

(** Every answer of the classifier holds an object whose labels are all
    strings, or a text that [json.loads] rejects as malformed. *)
Definition string_labels (budget : nat) (responses : nat -> option string) : Prop :=
  forall n text m,
    responses n = Some text ->
    FillDtcGaps.search_span "{" "}" text = Some m ->
    match Json.loads budget m with
    | Ok (Json.JObj members) => Forall (fun kv => exists s, kv.2 = Json.JStr s) members
    | Ok _ => False
    | Raise e => e = JSONDecodeError
    end.
End Spec.

(** ** Concrete data for the examples *)

Module Examples.
Import Py FillDtcGaps.

Definition stats0 : UsageStats :=
  {| codes_added := 0; codes_updated := 0; codes_by_manufacturer := ∅ |}.

Definition dtc (code make_id description : string) : DtcRow :=
  {| code := code; make_id := make_id; description := description;
     detailed_description := Str description; system := Str "Engine";
     severity := Str "High"; common_causes := Str "[]"; symptoms := Str "[]";
     applicable_models := Str "All"; applicable_years := Str "1996+";
     powertrain_type := Str "All" |}.

Definition csv_row (code make_id description severity : string)
    : gmap string string :=
  {[ "code" := code; "make_id" := make_id; "description" := description;
     "severity" := severity ]}.

Definition scraped (code make_id description : string) : ScrapedRow :=
  {| s_code := code; s_make_id := make_id; s_description := description |}.


Definition nbsp : string :=
  String (ascii_of_N 194) (String (ascii_of_N 160) EmptyString).

(** The letter e with an acute accent, U+00E9, and [n] times a text. *)
Definition e_acute : string :=
  String (ascii_of_N 195) (String (ascii_of_N 169) EmptyString).

Fixpoint repeated_text (n : nat) (s : string) : string :=
  match n with
  | O => EmptyString
  | S k => s +:+ repeated_text k s
  end.

End Examples.


(** * Properties *)

(** ** The stable sort *)

Section SortFacts.
Import Py Spec.
Context {A K : Type} (leb : K -> K -> bool) (key : A -> K).
Hypothesis leb_total : forall a b, leb a b = false -> leb b a = true.

Lemma insert_by_sorted x l :
  locally_sorted leb key l -> locally_sorted leb key (insert_by leb key x l).
Proof.
  induction l as [|y ys IH]; simpl; [done|].
  intros Hs. destruct (leb (key x) (key y)) eqn:E.
  - simpl. split; [done|]. exact Hs.
  - destruct ys as [|z zs].
    + simpl. rewrite (leb_total _ _ E). done.
    + destruct Hs as [Hyz Hs]. specialize (IH Hs).
      simpl in *. destruct (leb (key x) (key z)).
      * split; [by apply leb_total|]. exact IH.
      * split; [exact Hyz|]. exact IH.
Qed.

Lemma sort_by_sorted l : locally_sorted leb key (sort_by leb key l).
Proof.
  induction l as [|x l IH]; simpl; [done|]. by apply insert_by_sorted.
Qed.

Lemma sort_by_fixed l : locally_sorted leb key l -> sort_by leb key l = l.
Proof.
  induction l as [|x l IH]; [done|]. intros Hs.
  change (sort_by leb key (x :: l)) with (insert_by leb key x (sort_by leb key l)).
  destruct l as [|y ys]; [done|].
  destruct Hs as [Hxy Hs]. rewrite (IH Hs). simpl. by rewrite Hxy.
Qed.

Lemma sort_by_idempotent l :
  sort_by leb key (sort_by leb key l) = sort_by leb key l.
Proof. apply sort_by_fixed, sort_by_sorted. Qed.

Lemma insert_by_perm x l : insert_by leb key x l ≡ₚ x :: l.
Proof.
  induction l as [|y ys IH]; simpl; [done|].
  destruct (leb (key x) (key y)); [done|].
  rewrite IH. apply Permutation_swap.
Qed.

Lemma sort_by_perm l : sort_by leb key l ≡ₚ l.
Proof.
  induction l as [|x l IH]; simpl; [done|].
  rewrite insert_by_perm. by rewrite IH.
Qed.


Lemma elem_of_sort_by x l : x ∈ sort_by leb key l <-> x ∈ l.
Proof. by rewrite sort_by_perm. Qed.

End SortFacts.

Lemma string_compare_refl s : String.compare s s = Eq.
Proof.
  induction s as [|c s IH]; simpl; [done|].
  unfold Ascii.compare. rewrite N.compare_refl. exact IH.
Qed.

Lemma string_leb_refl s : String.leb s s = true.
Proof. unfold String.leb. by rewrite string_compare_refl. Qed.

Lemma string_leb_total a b : String.leb a b = false -> String.leb b a = true.
Proof. intros H. destruct (String.leb_total a b); congruence. Qed.

Lemma str_pair_leb_refl a : Py.str_pair_leb a a = true.
Proof.
  unfold Py.str_pair_leb. rewrite string_compare_refl. apply string_leb_refl.
Qed.

Lemma str_pair_leb_total a b :
  Py.str_pair_leb a b = false -> Py.str_pair_leb b a = true.
Proof.
  unfold Py.str_pair_leb. rewrite (String.compare_antisym b.1 a.1).
  destruct (String.compare a.1 b.1) eqn:E; simpl; try done.
  apply string_leb_total.
Qed.

(** ** merge_dtc_codes *)

Section MergeFacts.
Import Py Spec MergeToJson.

Lemma lookup_normalized row fn :
  fn ∈ fieldnames -> normalized row !! fn = Some (get row fn "").
Proof.
  intros H. unfold fieldnames in H.
  repeat (apply elem_of_cons in H as [->|H]; [reflexivity|]).
  by apply elem_of_nil in H.
Qed.

Lemma get_normalized row fn :
  fn ∈ fieldnames -> get (normalized row) fn "" = get row fn "".
Proof. intros H. unfold get at 1. by rewrite lookup_normalized. Qed.

Lemma stored_key_normalized row :
  stored_key (normalized row) = as_stored (key_of row).
Proof. reflexivity. Qed.

Lemma key_of_normalized row : key_of (normalized row) = key_of row.
Proof. reflexivity. Qed.

Lemma normalized_idempotent row : normalized (normalized row) = normalized row.
Proof. reflexivity. Qed.

(** The indexed overwrite of the source is [replace_first]. *)
Lemma update_existing_rows st key new_row :
  existing_rows (update_existing st key new_row)
  = replace_first (as_stored key) new_row (existing_rows st).
Proof.
  unfold update_existing. destruct st as [rows codes n u]. simpl.
  induction rows as [|r rest IH]; simpl; [done|].
  case_decide as Hk; simpl; [done|].
  destruct (list_find _ rest) as [[i x]|] eqn:E; simpl in *.
  - by rewrite <- IH.
  - by rewrite <- IH.
Qed.

Lemma update_existing_codes st key new_row :
  existing_codes (update_existing st key new_row) = existing_codes st.
Proof.
  unfold update_existing. by destruct (list_find _ _) as [[i x]|].
Qed.

Lemma update_existing_new st key new_row :
  new_codes (update_existing st key new_row) = new_codes st.
Proof.
  unfold update_existing. by destruct (list_find _ _) as [[i x]|].
Qed.

Lemma first_stored_replace_first k k' v rows :
  stored_key v = k' ->
  first_stored k (replace_first k' v rows)
  = match first_stored k' rows with
    | Some _ => if decide (k = k') then Some v else first_stored k rows
    | None => first_stored k rows
    end.
Proof.
  intros Hv. induction rows as [|r rest IH]; simpl; [done|].
  destruct (decide (stored_key r = k')) as [Hr|Hr]; simpl.
  - rewrite Hv. destruct (decide (k' = k)), (decide (k = k')),
      (decide (stored_key r = k)); congruence.
  - rewrite IH. destruct (decide (stored_key r = k)) as [Hrk|Hrk].
    + destruct (first_stored k' rest); [|done].
      destruct (decide (k = k')); congruence.
    + done.
Qed.

Lemma first_stored_app k rows1 rows2 :
  first_stored k (rows1 ++ rows2)
  = match first_stored k rows1 with
    | Some r => Some r
    | None => first_stored k rows2
    end.
Proof.
  induction rows1 as [|r rest IH]; simpl; [done|]. by case_decide.
Qed.

Lemma first_stored_Some k rows r :
  first_stored k rows = Some r -> r ∈ rows /\ stored_key r = k.
Proof.
  induction rows as [|r' rest IH]; simpl; [done|].
  case_decide.
  - intros [= ->]. split; [left|done].
  - intros H'. destruct (IH H') as [? ?]. split; [by right|done].
Qed.

Lemma first_stored_None k rows :
  first_stored k rows = None <-> forall r, r ∈ rows -> stored_key r ≠ k.
Proof.
  induction rows as [|r' rest IH]; simpl.
  - split; [|done]. intros _ r Hr. by apply elem_of_nil in Hr.
  - case_decide as Hk.
    + split; [done|]. intros H. exfalso. apply (H r'); [left|done].
    + rewrite IH. split.
      * intros H r [->|Hr]%elem_of_cons; auto.
      * intros H r Hr. apply H. by right.
Qed.

Lemma as_stored_inj k1 k2 : as_stored k1 = as_stored k2 -> k1 = k2.
Proof. destruct k1, k2. unfold as_stored. simpl. congruence. Qed.

Lemma merge_row_first st row k :
  codes_agree st ->
  first_stored k (existing_rows (merge_row st row))
  = if decide (k = as_stored (key_of row)) then Some (normalized row)
    else first_stored k (existing_rows st).
Proof.
  intros Hagree. unfold merge_row. case_decide as Hin; simpl.
  - rewrite first_stored_app. simpl. rewrite stored_key_normalized.
    assert (first_stored (as_stored (key_of row)) (existing_rows st) = None) as Hn.
    { destruct (first_stored _ _) eqn:E; [|done]. exfalso. apply Hin.
      apply Hagree. by rewrite E. }
    destruct (decide (k = as_stored (key_of row))) as [->|Hne].
    + rewrite Hn. by rewrite decide_True.
    + rewrite decide_False by congruence. by destruct (first_stored k _).
  - rewrite update_existing_rows.
    rewrite first_stored_replace_first by apply stored_key_normalized.
    destruct (first_stored (as_stored (key_of row)) (existing_rows st)) eqn:E;
      [done|].
    apply Hagree in Hin. done.
Qed.

Lemma merge_row_agree st row : codes_agree st -> codes_agree (merge_row st row).
Proof.
  intros Hagree key. rewrite merge_row_first by done.
  unfold codes_agree in Hagree. unfold merge_row. case_decide as Hin; simpl.
  - rewrite elem_of_union, elem_of_singleton. case_decide as Hk.
    + apply as_stored_inj in Hk as ->. split; [done|]. by right.
    + rewrite (Hagree key). split; [|by left]. intros [?|Heq]; [done|].
      by subst key.
  - rewrite update_existing_codes. case_decide as Hk.
    + apply as_stored_inj in Hk as ->. split; [done|].
      intros _. exact Hin.
    + apply Hagree.
Qed.

Lemma merge_row_key_in st row :
  key_of row ∈ existing_codes (merge_row st row).
Proof.
  unfold merge_row. case_decide as Hin; simpl.
  - set_solver.
  - rewrite update_existing_codes. exact Hin.
Qed.

Lemma merge_row_codes_mono st row key :
  key ∈ existing_codes st -> key ∈ existing_codes (merge_row st row).
Proof.
  unfold merge_row. case_decide as Hin; simpl.
  - set_solver.
  - by rewrite update_existing_codes.
Qed.

(** Reading the existing file. *)
Lemma read_existing_rows file :
  existing_rows (read_existing file) = normalized <$> file.
Proof.
  unfold read_existing.
  induction file as [|row file IH] using rev_ind; [done|].
  rewrite fold_left_app, fmap_app. simpl. by rewrite IH.
Qed.

Lemma read_existing_new file : new_codes (read_existing file) = 0.
Proof.
  unfold read_existing.
  induction file as [|row file IH] using rev_ind; [done|].
  by rewrite fold_left_app.
Qed.

Lemma read_existing_agree file : codes_agree (read_existing file).
Proof.
  unfold read_existing.
  induction file as [|row file IH] using rev_ind.
  - intros key. simpl. set_solver.
  - rewrite fold_left_app. simpl. intros key. simpl.
    rewrite elem_of_union, elem_of_singleton, first_stored_app. simpl.
    rewrite stored_key_normalized. rewrite (IH key).
    destruct (first_stored (as_stored key) _) eqn:E.
    + split; [done|]. intros _. by left.
    + case_decide as Hk.
      * apply as_stored_inj in Hk as ->. split; [done|]. intros _. by right.
      * split; [|done]. intros [?|Heq]; [done|]. by subst key.
Qed.

(** The loop over the batch. *)
Lemma last_by_key_snoc batch b :
  last_by_key (batch ++ [b])
  = <[as_stored (key_of b) := normalized b]> (last_by_key batch).
Proof. unfold last_by_key. by rewrite fold_left_app. Qed.

Lemma last_by_key_stored batch k v :
  last_by_key batch !! k = Some v -> stored_key v = k.
Proof.
  induction batch as [|b batch IH] using rev_ind; [done|].
  rewrite last_by_key_snoc, lookup_insert. case_decide as Hk.
  - intros [= <-]. by rewrite stored_key_normalized.
  - exact IH.
Qed.

Lemma last_by_key_Some batch b :
  b ∈ batch -> is_Some (last_by_key batch !! as_stored (key_of b)).
Proof.
  induction batch as [|b' batch IH] using rev_ind.
  - by intros ?%elem_of_nil.
  - rewrite last_by_key_snoc, lookup_insert.
    intros [Hb|Hb%list_elem_of_singleton]%elem_of_app.
    + case_decide; [done|]. by apply IH.
    + subst b'. by rewrite decide_True.
Qed.

Lemma merge_rows_agree batch st :
  codes_agree st -> codes_agree (fold_left merge_row batch st).
Proof.
  revert st. induction batch as [|b batch IH]; simpl; [done|].
  intros st H. by apply IH, merge_row_agree.
Qed.

Lemma merge_rows_first batch st k :
  codes_agree st ->
  first_stored k (existing_rows (fold_left merge_row batch st))
  = match last_by_key batch !! k with
    | Some v => Some v
    | None => first_stored k (existing_rows st)
    end.
Proof.
  intros Hagree. induction batch as [|b batch IH] using rev_ind; [done|].
  rewrite fold_left_app, last_by_key_snoc, lookup_insert. simpl.
  rewrite merge_row_first by by apply merge_rows_agree.
  rewrite IH. destruct (decide (k = _)), (decide (_ = k)); congruence.
Qed.

Lemma merge_rows_keys batch st b :
  b ∈ batch -> key_of b ∈ existing_codes (fold_left merge_row batch st).
Proof.
  induction batch as [|b' batch IH] using rev_ind.
  - by intros ?%elem_of_nil.
  - rewrite fold_left_app. simpl.
    intros [Hb|Hb%list_elem_of_singleton]%elem_of_app.
    + by apply merge_row_codes_mono, IH.
    + subst b'. apply merge_row_key_in.
Qed.

(** Overwriting first occurrences. *)
Lemma overwrite_empty rows : overwrite ∅ rows = rows.
Proof. induction rows as [|r rest IH]; simpl; [done|]. by rewrite lookup_empty, IH. Qed.

Lemma replace_first_overwrite k v rows :
  replace_first k v rows = overwrite {[k := v]} rows.
Proof.
  induction rows as [|r rest IH]; simpl; [done|].
  case_decide as Hk.
  - rewrite Hk, lookup_singleton_eq, delete_singleton_eq. by rewrite overwrite_empty.
  - rewrite lookup_singleton_ne by done. by rewrite IH.
Qed.

Lemma overwrite_overwrite M1 M2 rows :
  (forall k v, M1 !! k = Some v -> stored_key v = k) ->
  overwrite M2 (overwrite M1 rows) = overwrite (M2 ∪ M1) rows.
Proof.
  revert M1 M2. induction rows as [|r rest IH]; intros M1 M2 HM1; simpl; [done|].
  destruct (M1 !! stored_key r) as [v|] eqn:E1; simpl.
  - rewrite (HM1 _ _ E1).
    assert (forall k v', delete (stored_key r) M1 !! k = Some v' -> stored_key v' = k) as HM1'.
    { intros k v' [_ H]%lookup_delete_Some. by apply HM1. }
    destruct (M2 !! stored_key r) as [v2|] eqn:E2.
    + rewrite (lookup_union_Some_l _ _ _ _ E2). rewrite IH by done.
      by rewrite delete_union.
    + rewrite lookup_union_r by done. rewrite E1. rewrite IH by done.
      rewrite delete_union. by rewrite (delete_id M2).
  - destruct (M2 !! stored_key r) as [v2|] eqn:E2.
    + rewrite (lookup_union_Some_l _ _ _ _ E2). rewrite IH by done.
      rewrite delete_union. by rewrite (delete_id M1).
    + rewrite lookup_union_r by done. rewrite E1. by rewrite IH.
Qed.

Lemma overwrite_fixed M rows :
  (forall k v, M !! k = Some v ->
     first_stored k rows = Some v \/ first_stored k rows = None) ->
  overwrite M rows = rows.
Proof.
  revert M. induction rows as [|r rest IH]; intros M HM; simpl; [done|].
  destruct (M !! stored_key r) as [v|] eqn:E.
  - destruct (HM _ _ E) as [H|H]; simpl in H; rewrite decide_True in H by done;
      [|done].
    injection H as ->. f_equal. apply IH. intros k v' [Hne Hk]%lookup_delete_Some.
    specialize (HM _ _ Hk). simpl in HM. by rewrite decide_False in HM.
  - f_equal. apply IH. intros k v' Hk.
    specialize (HM _ _ Hk). simpl in HM.
    rewrite decide_False in HM by congruence. done.
Qed.

Lemma replace_all_overwrite batch rows :
  fold_left (fun rows b => replace_first (as_stored (key_of b)) (normalized b) rows)
            batch rows
  = overwrite (last_by_key batch) rows.
Proof.
  induction batch as [|b batch IH] using rev_ind.
  - simpl. by rewrite overwrite_empty.
  - rewrite fold_left_app, last_by_key_snoc. simpl. rewrite IH.
    rewrite replace_first_overwrite.
    rewrite overwrite_overwrite by apply last_by_key_stored.
    by rewrite insert_union_singleton_l.
Qed.

(** The sort is by the key under which rows are stored, and it is stable. *)
Lemma stored_key_key_of x y : stored_key x = stored_key y -> key_of x = key_of y.
Proof. unfold stored_key, key_of, get. by intros [= -> ->]. Qed.

Lemma first_stored_insert_by k x rows :
  first_stored k (insert_by str_pair_leb key_of x rows)
  = if decide (stored_key x = k) then Some x else first_stored k rows.
Proof.
  induction rows as [|y ys IH]; simpl; [done|].
  destruct (str_pair_leb (key_of x) (key_of y)) eqn:E; simpl; [done|].
  rewrite IH. destruct (decide (stored_key y = k)) as [Hy|Hy]; [|done].
  destruct (decide (stored_key x = k)) as [Hx|Hx]; [|done].
  rewrite (stored_key_key_of x y) in E by congruence.
  by rewrite str_pair_leb_refl in E.
Qed.

Lemma first_stored_sort_by k rows :
  first_stored k (sort_by str_pair_leb key_of rows) = first_stored k rows.
Proof.
  induction rows as [|x rows IH]; simpl; [done|].
  by rewrite first_stored_insert_by, IH.
Qed.

Lemma replace_first_normal k v rows :
  normalized v = v -> rows_normal rows -> rows_normal (replace_first k v rows).
Proof.
  intros Hv. unfold rows_normal. induction 1 as [|r rest Hr Hrest IH]; simpl; [done|].
  case_decide; by constructor.
Qed.

Lemma merge_row_normal st row :
  rows_normal (existing_rows st) -> rows_normal (existing_rows (merge_row st row)).
Proof.
  intros H. unfold merge_row. case_decide; simpl.
  - apply Forall_app. split; [done|]. by constructor.
  - rewrite update_existing_rows. by apply replace_first_normal.
Qed.

Lemma merge_rows_normal batch st :
  rows_normal (existing_rows st) ->
  rows_normal (existing_rows (fold_left merge_row batch st)).
Proof.
  revert st. induction batch as [|b batch IH]; simpl; [done|].
  intros st H. by apply IH, merge_row_normal.
Qed.

Lemma read_existing_normal file : rows_normal (existing_rows (read_existing file)).
Proof.
  rewrite read_existing_rows. unfold rows_normal. rewrite Forall_fmap.
  by apply Forall_true.
Qed.

Lemma written_rows_normal file batch :
  rows_normal (written_rows (merge_dtc_codes file batch)).
Proof.
  unfold merge_dtc_codes, rows_normal. simpl.
  rewrite (sort_by_perm str_pair_leb key_of).
  apply merge_rows_normal, read_existing_normal.
Qed.

Lemma rows_normal_fmap rows : rows_normal rows -> normalized <$> rows = rows.
Proof.
  induction 1 as [|r rest Hr Hrest IH]; [done|].
  rewrite fmap_cons. by rewrite Hr, IH.
Qed.

(** When every key of the batch is indexed, the loop only overwrites. *)
Lemma merge_rows_present batch st :
  (forall b, b ∈ batch -> key_of b ∈ existing_codes st) ->
  existing_rows (fold_left merge_row batch st)
  = fold_left (fun rows b => replace_first (as_stored (key_of b)) (normalized b) rows)
              batch (existing_rows st)
  /\ new_codes (fold_left merge_row batch st) = new_codes st.
Proof.
  revert st. induction batch as [|b batch IH]; intros st Hin; simpl; [done|].
  assert (merge_row st b = update_existing st (key_of b) (normalized b)) as Hstep.
  { unfold merge_row. rewrite decide_False; [done|].
    intros Hn. apply Hn, Hin. left. }
  rewrite Hstep. destruct (IH (update_existing st (key_of b) (normalized b))) as [H1 H2].
  { intros b' Hb'. rewrite update_existing_codes. apply Hin. by right. }
  rewrite H1, H2, update_existing_rows, update_existing_new. done.
Qed.
End MergeFacts.

(** Merging a batch and then merging it again into what was written: the
    second merge writes the same rows and adds none. *)
Lemma merge_twice (file batch : list (gmap string string)) :
  let once := MergeToJson.merge_dtc_codes file batch in
  let twice := MergeToJson.merge_dtc_codes (MergeToJson.written_rows once) batch in
  MergeToJson.written_rows twice = MergeToJson.written_rows once
  /\ MergeToJson.added twice = 0.
Proof.
  intros once twice. subst once twice.
  set (D1 := MergeToJson.written_rows (MergeToJson.merge_dtc_codes file batch)).
  assert (Spec.rows_normal D1) as Hnorm by apply written_rows_normal.
  assert (forall k v, Spec.last_by_key batch !! k = Some v ->
                      Spec.first_stored k D1 = Some v) as Hfirst.
  { intros k v Hk. unfold D1, MergeToJson.merge_dtc_codes. simpl.
    rewrite first_stored_sort_by, merge_rows_first by apply read_existing_agree.
    by rewrite Hk. }
  assert (forall b, b ∈ batch ->
            MergeToJson.key_of b ∈ MergeToJson.existing_codes (MergeToJson.read_existing D1))
    as Hin.
  { intros b Hb. apply read_existing_agree.
    rewrite read_existing_rows, rows_normal_fmap by done.
    destruct (last_by_key_Some _ _ Hb) as [v Hv]. by rewrite (Hfirst _ _ Hv). }
  destruct (merge_rows_present batch _ Hin) as [Hrows Hnew].
  unfold MergeToJson.merge_dtc_codes at 1 2. simpl.
  rewrite Hrows, Hnew, read_existing_new, read_existing_rows.
  rewrite rows_normal_fmap by done. split; [|done].
  rewrite replace_all_overwrite, overwrite_fixed.
  - unfold D1, MergeToJson.merge_dtc_codes. simpl.
    apply sort_by_idempotent, str_pair_leb_total.
  - intros k v Hk. left. by apply Hfirst.
Qed.


(** ** Order on strings *)

Lemma ascii_compare_lt_trans a b c :
  Ascii.compare a b = Lt -> Ascii.compare b c = Lt -> Ascii.compare a c = Lt.
Proof.
  unfold Ascii.compare. rewrite !N.compare_lt_iff. lia.
Qed.

Lemma string_compare_lt_trans a b c :
  String.compare a b = Lt -> String.compare b c = Lt -> String.compare a c = Lt.
Proof.
  revert b c. induction a as [|x a IH]; intros [|y b] [|z c]; simpl; try done.
  destruct (Ascii.compare x y) eqn:Exy; try done;
    destruct (Ascii.compare y z) eqn:Eyz; try done.
  - apply Ascii.compare_eq_iff in Exy, Eyz. subst.
    rewrite (proj2 (N.compare_eq_iff _ _) eq_refl : Ascii.compare z z = Eq).
    apply IH.
  - apply Ascii.compare_eq_iff in Exy. subst. by rewrite Eyz.
  - apply Ascii.compare_eq_iff in Eyz. subst. by rewrite Exy.
  - by rewrite (ascii_compare_lt_trans _ _ _ Exy Eyz).
Qed.

Lemma string_leb_trans a b c :
  String.leb a b = true -> String.leb b c = true -> String.leb a c = true.
Proof.
  unfold String.leb.
  destruct (String.compare a b) eqn:Eab; try done;
    destruct (String.compare b c) eqn:Ebc; try done; intros _ _.
  - apply String.compare_eq_iff in Eab, Ebc. subst. by rewrite string_compare_refl.
  - apply String.compare_eq_iff in Eab. subst. by rewrite Ebc.
  - apply String.compare_eq_iff in Ebc. subst. by rewrite Eab.
  - by rewrite (string_compare_lt_trans _ _ _ Eab Ebc).
Qed.

Lemma str_pair_leb_trans a b c :
  Py.str_pair_leb a b = true -> Py.str_pair_leb b c = true ->
  Py.str_pair_leb a c = true.
Proof.
  unfold Py.str_pair_leb.
  destruct (String.compare a.1 b.1) eqn:Eab; try done;
    destruct (String.compare b.1 c.1) eqn:Ebc; try done.
  - apply String.compare_eq_iff in Eab, Ebc. rewrite Eab, Ebc, string_compare_refl.
    apply string_leb_trans.
  - apply String.compare_eq_iff in Eab. rewrite Eab, Ebc. done.
  - apply String.compare_eq_iff in Ebc. rewrite <- Ebc, Eab. done.
  - by rewrite (string_compare_lt_trans _ _ _ Eab Ebc).
Qed.

(** ** save_dtc_codes *)

Section SaveFacts.
Import Py Spec FillDtcGaps.

Lemma drop_duplicates_last_subset df r :
  r ∈ drop_duplicates_last df -> r ∈ df.
Proof.
  induction df as [|x df IH]; simpl; [done|].
  case_decide.
  - intros H'. right. by apply IH.
  - intros [->|H']%elem_of_cons; [left|right; by apply IH].
Qed.

Lemma drop_duplicates_last_keys df :
  forall k, k ∈ dup_key <$> drop_duplicates_last df <-> k ∈ dup_key <$> df.
Proof.
  induction df as [|x df IH]; intros k; simpl; [done|].
  case_decide as Hx.
  - rewrite IH. rewrite elem_of_cons. split; [by right|].
    intros [->|?]; done.
  - rewrite fmap_cons, !elem_of_cons. by rewrite IH.
Qed.

Lemma drop_duplicates_last_NoDup df :
  NoDup (dup_key <$> drop_duplicates_last df).
Proof.
  induction df as [|x df IH]; simpl; [constructor|].
  case_decide as Hx; [done|].
  rewrite fmap_cons. constructor; [|done].
  by rewrite drop_duplicates_last_keys.
Qed.


Lemma locally_sorted_tail {A K} (leb : K -> K -> bool) (key : A -> K) x l :
  locally_sorted leb key (x :: l) -> locally_sorted leb key l.
Proof. destruct l; simpl; [done|]. by intros [_ ?]. Qed.

Lemma locally_sorted_all (l : list DtcRow) x :
  locally_sorted str_pair_leb sort_key (x :: l) ->
  forall y, y ∈ l -> str_pair_leb (sort_key x) (sort_key y) = true.
Proof.
  revert x. induction l as [|z l IH]; intros x Hs y Hy.
  - by apply elem_of_nil in Hy.
  - destruct Hs as [Hxz Hs]. apply elem_of_cons in Hy as [->|Hy]; [done|].
    eapply str_pair_leb_trans; [exact Hxz|]. by apply IH.
Qed.

Lemma locally_sorted_cons (l : list DtcRow) x :
  locally_sorted str_pair_leb sort_key l ->
  (forall y, y ∈ l -> str_pair_leb (sort_key x) (sort_key y) = true) ->
  locally_sorted str_pair_leb sort_key (x :: l).
Proof.
  destruct l as [|z l]; [done|]. intros Hs Hall. split; [|done].
  apply Hall. left.
Qed.

Lemma drop_duplicates_last_sorted df :
  locally_sorted str_pair_leb sort_key df ->
  locally_sorted str_pair_leb sort_key (drop_duplicates_last df).
Proof.
  induction df as [|x df IH]; simpl drop_duplicates_last; [done|].
  intros Hs. pose proof (locally_sorted_tail _ _ _ _ Hs) as Hs'.
  case_decide; [by apply IH|].
  apply locally_sorted_cons; [by apply IH|].
  intros y Hy%drop_duplicates_last_subset. by eapply locally_sorted_all.
Qed.

Lemma save_dtc_codes_sorted df :
  locally_sorted str_pair_leb sort_key (save_dtc_codes df).
Proof.
  apply drop_duplicates_last_sorted, sort_by_sorted, str_pair_leb_total.
Qed.

Lemma save_dtc_codes_NoDup df : NoDup (dup_key <$> save_dtc_codes df).
Proof. apply drop_duplicates_last_NoDup. Qed.


Lemma save_dtc_codes_keys df k :
  k ∈ dup_key <$> save_dtc_codes df <-> k ∈ dup_key <$> df.
Proof.
  unfold save_dtc_codes. rewrite drop_duplicates_last_keys.
  by rewrite (sort_by_perm str_pair_leb sort_key).
Qed.

Lemma save_dtc_codes_subset df r : r ∈ save_dtc_codes df -> r ∈ df.
Proof.
  intros H%drop_duplicates_last_subset.
  by rewrite (sort_by_perm str_pair_leb sort_key) in H.
Qed.
End SaveFacts.
Set Warnings "-clear-no-such-hyp".



Section MergeCounts.
Import Py Spec MergeToJson.


Lemma stored_keys_replace_first k v rows :
  stored_key v = k -> stored_key <$> replace_first k v rows = stored_key <$> rows.
Proof.
  intros Hv. induction rows as [|r rest IH]; simpl; [done|].
  case_decide; csimpl; [congruence|]. by rewrite IH.
Qed.




Lemma first_stored_not_in k rows :
  first_stored k rows = None <-> k ∉ stored_key <$> rows.
Proof.
  rewrite first_stored_None. rewrite list_elem_of_fmap. split.
  - intros H (r & -> & Hr). by apply (H r).
  - intros H r Hr Hk. apply H. by exists r.
Qed.

Lemma merge_row_NoDup st row :
  codes_agree st ->
  NoDup (stored_key <$> existing_rows st) ->
  NoDup (stored_key <$> existing_rows (merge_row st row)).
Proof.
  intros Hagree Hnd. unfold merge_row. case_decide as Hin; simpl.
  - rewrite fmap_app. apply NoDup_app. split; [done|]. split.
    + intros k Hk Hk'. simpl in Hk'. apply list_elem_of_singleton in Hk'.
      subst k. apply Hin. apply Hagree. intros Hn.
      apply first_stored_not_in in Hn. by apply Hn.
    + simpl. apply NoDup_singleton.
  - rewrite update_existing_rows, stored_keys_replace_first; done.
Qed.

Lemma merge_rows_NoDup batch st :
  codes_agree st ->
  NoDup (stored_key <$> existing_rows st) ->
  NoDup (stored_key <$> existing_rows (fold_left merge_row batch st)).
Proof.
  revert st. induction batch as [|b batch IH]; intros st Ha Hn; simpl; [done|].
  apply IH; [by apply merge_row_agree|by apply merge_row_NoDup].
Qed.

Lemma key_of_stored_normal rows :
  rows_normal rows -> stored_key <$> rows = as_stored <$> (key_of <$> rows).
Proof.
  induction 1 as [|r rest Hr Hrest IH]; [done|].
  rewrite !fmap_cons, IH. f_equal. rewrite <- Hr at 1. apply stored_key_normalized.
Qed.

Lemma merge_dtc_codes_NoDup file batch :
  NoDup (key_of <$> file) ->
  NoDup (key_of <$> written_rows (merge_dtc_codes file batch)).
Proof.
  intros Hnd.
  apply (NoDup_fmap_1 as_stored).
  rewrite <- key_of_stored_normal by apply written_rows_normal.
  unfold merge_dtc_codes. simpl.
  rewrite (sort_by_perm str_pair_leb key_of).
  apply merge_rows_NoDup; [apply read_existing_agree|].
  rewrite read_existing_rows.
  assert (stored_key <$> (normalized <$> file) = as_stored <$> (key_of <$> file))
    as ->.
  { rewrite <- !list_fmap_compose. by apply list_fmap_ext. }
  apply NoDup_fmap_2_strong; [|done].
  intros x y _ _ H. by apply as_stored_inj.
Qed.

Lemma merge_row_present st row :
  key_of row ∈ existing_codes st ->
  existing_rows (merge_row st row)
  = replace_first (as_stored (key_of row)) (normalized row) (existing_rows st).
Proof.
  intros Hin. unfold merge_row. rewrite decide_False by (intros Hn; by apply Hn).
  apply update_existing_rows.
Qed.

(** The keys indexed, and the number counted as added. *)
Lemma read_existing_codes file :
  existing_codes (read_existing file) = list_to_set (key_of <$> file).
Proof.
  unfold read_existing.
  induction file as [|f file IH] using rev_ind; [done|].
  rewrite fold_left_app. simpl. rewrite IH, fmap_app, list_to_set_app_L. simpl.
  by rewrite union_empty_r_L.
Qed.

Lemma merge_row_new (st : state) (row : gmap string string)
    (base : gset (string * string)) :
  base ⊆ existing_codes st ->
  new_codes st = size (existing_codes st ∖ base) ->
  existing_codes (merge_row st row) = existing_codes st ∪ {[ key_of row ]}
  /\ new_codes (merge_row st row) = size (existing_codes (merge_row st row) ∖ base).
Proof.
  intros Hbase Hn. unfold merge_row.
  destruct (decide (key_of row ∉ existing_codes st)) as [Hnot|Hin].
  - simpl. split; [done|].
    replace ((existing_codes st ∪ {[key_of row]}) ∖ base)
      with ({[key_of row]} ∪ existing_codes st ∖ base) by set_solver.
    rewrite size_union by set_solver. rewrite size_singleton. lia.
  - assert (key_of row ∈ existing_codes st) as Hin'.
    { destruct (decide (key_of row ∈ existing_codes st)); [done|by destruct Hin]. }
    rewrite update_existing_codes, update_existing_new.
    split; [set_solver|done].
Qed.

Lemma merge_rows_new (batch : list (gmap string string)) (st : state)
    (base : gset (string * string)) :
  base ⊆ existing_codes st ->
  new_codes st = size (existing_codes st ∖ base) ->
  new_codes (fold_left merge_row batch st)
  = size ((existing_codes st ∪ list_to_set (key_of <$> batch)) ∖ base).
Proof.
  revert st. induction batch as [|b batch IH]; intros st Hbase Hn; simpl.
  - rewrite Hn. f_equal. set_solver.
  - destruct (merge_row_new st b base Hbase Hn) as [Hc Hn'].
    rewrite IH; [|set_solver|done]. rewrite Hc. f_equal. set_solver.
Qed.
End MergeCounts.

(** ** Reading back what a merge wrote *)

Section RereadFacts.
Import Py Spec MergeToJson.

Lemma has_cr_cons c t : has_cr (String c t) = Ascii.eqb CR c || has_cr t.
Proof. reflexivity. Qed.

Lemma universal_newlines_bounded n s :
  String.length s <= n -> has_cr (universal_newlines s) = false.
Proof.
  revert s. induction n as [|n IH]; intros [|c t] Hlen; simpl in *; try done; try lia.
  destruct (Ascii.eqb c CR) eqn:Ec.
  - rewrite has_cr_cons. simpl. destruct t as [|d t']; [done|].
    destruct (Ascii.eqb d LF); apply IH; simpl in *; lia.
  - rewrite has_cr_cons, Ascii.eqb_sym, Ec. simpl. apply IH. lia.
Qed.

Lemma universal_newlines_no_cr s : has_cr (universal_newlines s) = false.
Proof. by apply (universal_newlines_bounded (String.length s)). Qed.

Lemma universal_newlines_fixed s : has_cr s = false -> universal_newlines s = s.
Proof.
  induction s as [|c t IH]; [done|]. rewrite has_cr_cons.
  intros [Hc Ht]%orb_false_iff. simpl. rewrite Ascii.eqb_sym, Hc. by rewrite IH.
Qed.

Lemma universal_newlines_idempotent s :
  universal_newlines (universal_newlines s) = universal_newlines s.
Proof. apply universal_newlines_fixed, universal_newlines_no_cr. Qed.






Lemma reread_idempotent rows : reread (reread rows) = reread rows.
Proof.
  unfold reread. rewrite <- list_fmap_compose. apply list_fmap_ext.
  intros i r _. simpl. rewrite <- map_fmap_compose. apply map_fmap_ext.
  intros k s _. simpl. apply universal_newlines_idempotent.
Qed.




Lemma equal_but_first_more K k rows' rows :
  equal_but_first K rows' rows ->
  (forall r, r ∈ rows -> stored_key r ≠ k) ->
  equal_but_first (K ∪ {[k]}) rows' rows.
Proof.
  revert K rows. induction rows' as [|r' rest' IH]; intros K [|r rest]; simpl; try done.
  intros [Hk H] Hno. split; [done|].
  assert (stored_key r ≠ k) as Hr by (apply Hno; left).
  assert (forall r0, r0 ∈ rest -> stored_key r0 ≠ k) as Hrest.
  { intros r0 H0. apply Hno. by right. }
  destruct (decide (stored_key r ∈ K)) as [Hin|Hout].
  - rewrite decide_True by set_solver.
    replace ((K ∪ {[k]}) ∖ {[stored_key r]}) with (K ∖ {[stored_key r]} ∪ {[k]})
      by set_solver.
    by apply IH.
  - rewrite decide_False by set_solver. destruct H as [-> H]. split; [done|].
    by apply IH.
Qed.














End RereadFacts.


Section RereadCounts.
Import Py Spec MergeToJson.


End RereadCounts.


(** ** cleanup_powertrain_data *)

Section CleanupFacts.
Import Py Spec FillDtcGaps.

Lemma type_mapping_valid k t :
  lookup_literal k type_mapping = Some t -> t ∈ VALID_TYPES.
Proof.
  unfold type_mapping, VALID_TYPES. simpl.
  repeat (destruct (String.eqb k _); [intros [= <-]; set_solver|]).
  done.
Qed.

Lemma normalize_powertrain_valid value :
  normalize_powertrain value ∈ VALID_TYPES.
Proof.
  assert ("All" ∈ VALID_TYPES) as Hall by set_solver.
  unfold normalize_powertrain. destruct value as [|v]; [done|].
  destruct v as [|c v]; [done|].
  set (cleaned := if contains "gasoline" _ then _ else _).
  destruct (contains "|" cleaned); [done|].
  destruct (contains "/" cleaned); [done|].
  destruct (lookup_literal _ _) eqn:E; [by eapply type_mapping_valid|].
  destruct (bool_decide (cleaned ∈ VALID_TYPES)) eqn:Ev; simpl; [|done].
  by apply bool_decide_eq_true in Ev.
Qed.

Lemma normalize_powertrain_fixed t :
  t ∈ VALID_TYPES -> normalize_powertrain (Str t) = t.
Proof.
  unfold VALID_TYPES. intros H.
  repeat (apply elem_of_cons in H as [->|H]; [by vm_compute|]).
  by apply elem_of_nil in H.
Qed.

Lemma normalize_powertrain_idempotent value :
  normalize_powertrain (Str (normalize_powertrain value))
  = normalize_powertrain value.
Proof. apply normalize_powertrain_fixed, normalize_powertrain_valid. Qed.

Lemma filter_all_true {A} (p : A -> bool) l :
  Forall (fun x => p x = true) l -> List.filter p l = l.
Proof.
  induction 1 as [|x l Hx Hl IH]; simpl; [done|]. by rewrite Hx, IH.
Qed.

Lemma filter_none {A} (p : A -> bool) l :
  Forall (fun x => p x = true) l -> List.filter (fun x => negb (p x)) l = [].
Proof.
  induction 1 as [|x l Hx Hl IH]; simpl; [done|]. by rewrite Hx.
Qed.

Lemma filter_Forall {A} (p : A -> bool) l :
  Forall (fun x => p x = true) (List.filter p l).
Proof.
  induction l as [|x l IH]; simpl; [done|].
  destruct (p x) eqn:E; [by constructor|done].
Qed.

Lemma filter_length_split {A} (p : A -> bool) l :
  length (List.filter p l) + length (List.filter (fun x => negb (p x)) l)
  = length l.
Proof.
  induction l as [|x l IH]; simpl; [done|].
  destruct (p x); simpl; lia.
Qed.

Lemma filter_negb_empty {A} (p : A -> bool) l :
  length (List.filter (fun x => negb (p x)) l) = 0 ->
  Forall (fun x => p x = true) l.
Proof.
  induction l as [|x l IH]; simpl; [done|].
  destruct (p x) eqn:E; simpl; [|done]. intros H. constructor; auto.
Qed.

Lemma set_powertrain_type_same r v :
  powertrain_type r = v -> set_powertrain_type r v = r.
Proof. intros <-. by destruct r. Qed.

Lemma add_updated_0 stats : add_updated stats 0 = stats.
Proof. destruct stats. unfold add_updated. simpl. f_equal. lia. Qed.

(** The frame that [cleanup_powertrain_data] returns. *)
Lemma cleanup_frame (has_pt : bool) stats df (remove : bool) :
  (cleanup_powertrain_data has_pt stats df remove).1
  = (fun r => if has_pt
              then set_powertrain_type r (Str (normalize_powertrain (powertrain_type r)))
              else r)
    <$> (if remove then List.filter (fun r => valid_code_prefix (code r)) df else df).
Proof.
  unfold cleanup_powertrain_data.
  destruct remove.
  - destruct (0 <? _) eqn:E.
    + destruct has_pt; simpl; [done|]. by rewrite list_fmap_id.
    + apply Nat.ltb_ge in E.
      assert (length (List.filter (fun r => negb (valid_code_prefix (code r))) df) = 0)
        as E0 by lia.
      apply (filter_negb_empty (fun r => valid_code_prefix (code r))) in E0.
      rewrite (filter_all_true _ _ E0).
      destruct has_pt; simpl; [done|]. by rewrite list_fmap_id.
  - destruct has_pt; simpl; [done|]. by rewrite list_fmap_id.
Qed.

(** The counter that [cleanup_powertrain_data] leaves in [stats]. *)
Lemma cleanup_counter (has_pt : bool) stats df (remove : bool) :
  let kept := if remove then List.filter (fun r => valid_code_prefix (code r)) df
              else df in
  codes_updated (cleanup_powertrain_data has_pt stats df remove).2
  = codes_updated stats
    + (if remove
       then length (List.filter (fun r => negb (valid_code_prefix (code r))) df)
       else 0)
    + (if has_pt
       then length (List.filter
                      (fun r => negb (bool_decide
                         (powertrain_type r
                          = Str (normalize_powertrain (powertrain_type r))))) kept)
       else 0).
Proof.
  unfold cleanup_powertrain_data.
  destruct remove; simpl.
  - destruct (0 <? _) eqn:E.
    + destruct has_pt; simpl; lia.
    + apply Nat.ltb_ge in E.
      assert (length (List.filter (fun r => negb (valid_code_prefix (code r))) df) = 0)
        as E0 by lia.
      rewrite E0.
      apply (filter_negb_empty (fun r => valid_code_prefix (code r))) in E0.
      rewrite (filter_all_true _ _ E0).
      destruct has_pt; simpl; lia.
  - destruct has_pt; simpl; lia.
Qed.

Lemma cleanup_stats_other (has_pt : bool) stats df (remove : bool) :
  codes_added (cleanup_powertrain_data has_pt stats df remove).2 = codes_added stats
  /\ codes_by_manufacturer (cleanup_powertrain_data has_pt stats df remove).2
     = codes_by_manufacturer stats.
Proof.
  unfold cleanup_powertrain_data.
  destruct remove; simpl; [destruct (0 <? _)|]; destruct has_pt; done.
Qed.

Lemma stats_ext (a b : UsageStats) :
  codes_added a = codes_added b ->
  codes_updated a = codes_updated b ->
  codes_by_manufacturer a = codes_by_manufacturer b -> a = b.
Proof. destruct a, b. simpl. by intros -> -> ->. Qed.

Lemma filter_fmap_code (f : DtcRow -> DtcRow) (p : string -> bool) df :
  (forall r, code (f r) = code r) ->
  List.filter (fun r => p (code r)) (f <$> df)
  = f <$> List.filter (fun r => p (code r)) df.
Proof.
  intros Hf. induction df as [|r df IH]; [done|].
  rewrite fmap_cons. simpl. rewrite Hf. destruct (p (code r)); csimpl; by rewrite IH.
Qed.

Lemma filter_filter_same {A} (p : A -> bool) l :
  List.filter p (List.filter p l) = List.filter p l.
Proof. apply filter_all_true, filter_Forall. Qed.

(** Running the clean-up on its own result changes neither the frame nor the
    counters. *)
Lemma cleanup_twice (has_pt : bool) stats df (remove : bool) :
  let once := cleanup_powertrain_data has_pt stats df remove in
  cleanup_powertrain_data has_pt once.2 once.1 remove = once.
Proof.
  intros once.
  set (f := fun r => if has_pt
              then set_powertrain_type r (Str (normalize_powertrain (powertrain_type r)))
              else r).
  assert (forall r, code (f r) = code r) as Hcode.
  { intros r. unfold f. by destruct has_pt. }
  assert (forall r, f (f r) = f r) as Hff.
  { intros r. unfold f. destruct has_pt; [|done].
    apply set_powertrain_type_same. cbn [powertrain_type set_powertrain_type].
    by rewrite normalize_powertrain_idempotent. }
  assert (forall r, has_pt = true ->
            powertrain_type (f r) = Str (normalize_powertrain (powertrain_type (f r))))
    as Hpt.
  { intros r Hh. unfold f. rewrite Hh. cbn [powertrain_type set_powertrain_type].
    by rewrite normalize_powertrain_idempotent. }
  set (kept := if remove then List.filter (fun r => valid_code_prefix (code r)) df else df).
  assert (once.1 = f <$> kept) as H1 by apply cleanup_frame.
  assert ((if remove then List.filter (fun r => valid_code_prefix (code r)) once.1
           else once.1) = once.1) as Hkept.
  { destruct remove; [|done]. rewrite H1. unfold kept.
    rewrite (filter_fmap_code f valid_code_prefix) by done.
    by rewrite filter_filter_same. }
  apply injective_projections.
  - change (fst ?p) with (p.1). rewrite cleanup_frame, Hkept. fold f.
    rewrite H1, <- list_fmap_compose.
    apply list_fmap_ext. intros i r _. apply Hff.
  - change (snd ?p) with (p.2).
    destruct (cleanup_stats_other has_pt once.2 once.1 remove) as [Ha Hm].
    apply stats_ext; [done| |done].
    rewrite cleanup_counter, Hkept.
    assert ((if remove
             then length (List.filter (fun r => negb (valid_code_prefix (code r))) once.1)
             else 0) = 0) as ->.
    { destruct remove; [|done]. rewrite H1. unfold kept.
      rewrite (filter_fmap_code f (fun c => negb (valid_code_prefix c))) by done.
      rewrite length_fmap.
      by rewrite (filter_none (fun r => valid_code_prefix (code r)))
        by apply filter_Forall. }
    assert ((if has_pt
             then length (List.filter
                     (fun r => negb (bool_decide
                        (powertrain_type r
                         = Str (normalize_powertrain (powertrain_type r))))) once.1)
             else 0) = 0) as ->; [|lia].
    destruct has_pt; [|done]. rewrite H1.
    rewrite (filter_none
               (fun r => bool_decide (powertrain_type r
                  = Str (normalize_powertrain (powertrain_type r))))); [done|].
    apply Forall_fmap, Forall_true. intros r. apply bool_decide_eq_true. by apply Hpt.
Qed.
End CleanupFacts.

(** C8.  The powertrain normaliser always answers with a member of the
    closed powertrain set, maps every member of that set to itself, and is
    therefore idempotent; running [cleanup_powertrain_data] on the frame and
    counters it returned changes nothing. *)
Theorem normalizer_idempotent (value : FillDtcGaps.cell) (has_powertrain_type : bool)
    (stats : FillDtcGaps.UsageStats) (df : list FillDtcGaps.DtcRow)
    (remove_invalid_codes : bool) :
  FillDtcGaps.normalize_powertrain value ∈ FillDtcGaps.VALID_TYPES
  /\ FillDtcGaps.normalize_powertrain
       (FillDtcGaps.Str (FillDtcGaps.normalize_powertrain value))
     = FillDtcGaps.normalize_powertrain value
  /\ (let once := FillDtcGaps.cleanup_powertrain_data
                    has_powertrain_type stats df remove_invalid_codes in
      FillDtcGaps.cleanup_powertrain_data
        has_powertrain_type once.2 once.1 remove_invalid_codes = once).
Proof.
  split; [apply normalize_powertrain_valid|].
  split; [apply normalize_powertrain_idempotent|].
  apply cleanup_twice.
Qed.


(** ** import_scraped_dtc_codes *)

Section ScrapedFacts.
Import Py Spec FillDtcGaps.

Lemma longer_by_20_percent_spec scraped_len existing_len :
  longer_by_20_percent scraped_len existing_len = true
  <-> 6 * existing_len < 5 * scraped_len.
Proof. unfold longer_by_20_percent. apply Nat.ltb_lt. Qed.

(** The scan of the scraped file, as three selections. *)
Lemma scan_row_update df keys st row :
  scan_row df keys true st row
  = {| new_codes := new_codes st ++ option_list (fresh keys row);
       codes_to_update := codes_to_update st ++ option_list (queued df keys row);
       skipped_codes := skipped_codes st + (if skipped df keys row then 1 else 0) |}.
Proof.
  unfold scan_row, fresh, queued, skipped, scraped_key.
  destruct (keys !! _) as [idx|]; simpl.
  - destruct (longer_by_20_percent _ _); simpl;
      rewrite ?app_nil_r, ?Nat.add_0_r, ?Nat.add_1_r; by destruct st.
  - rewrite ?app_nil_r, ?Nat.add_0_r; by destruct st.
Qed.

Lemma scan_update df keys scraped_df st :
  fold_left (scan_row df keys true) scraped_df st
  = {| new_codes := new_codes st ++ omap (fresh keys) scraped_df;
       codes_to_update := codes_to_update st ++ omap (queued df keys) scraped_df;
       skipped_codes :=
         skipped_codes st + length (List.filter (skipped df keys) scraped_df) |}.
Proof.
  revert st. induction scraped_df as [|row rest IH]; intros st; simpl.
  - rewrite !app_nil_r, Nat.add_0_r. by destruct st.
  - rewrite IH, scan_row_update. simpl. f_equal.
    + rewrite <- app_assoc. f_equal. by destruct (fresh keys row).
    + rewrite <- app_assoc. f_equal. by destruct (queued df keys row).
    + destruct (skipped df keys row); simpl; lia.
Qed.

Lemma scan_row_skip df keys st row :
  scan_row df keys false st row
  = {| new_codes := new_codes st ++ option_list (fresh keys row);
       codes_to_update := codes_to_update st;
       skipped_codes :=
         skipped_codes st
         + (match keys !! scraped_key row with Some _ => 1 | None => 0 end) |}.
Proof.
  unfold scan_row, fresh, scraped_key.
  destruct (keys !! _) as [idx|]; simpl;
    rewrite ?app_nil_r, ?Nat.add_0_r, ?Nat.add_1_r; by destruct st.
Qed.

(** Applying the queue. *)
Lemma set_description_twice r d1 d2 :
  set_description (set_description r d1) d2 = set_description r d2.
Proof. reflexivity. Qed.

Lemma set_description_same r : set_description r (description r) = r.
Proof. by destruct r. Qed.

Lemma apply_updates_lookup queue df i :
  apply_updates df queue !! i
  = (fun r => set_description r (last_queued i queue (description r))) <$> df !! i.
Proof.
  revert df. induction queue as [|[[idx c] nd] queue IH]; intros df.
  - simpl. destruct (df !! i) as [r|]; simpl; [|done].
    by rewrite set_description_same.
  - unfold apply_updates, last_queued in *. simpl. rewrite IH.
    destruct (decide (idx = i)) as [->|Hne].
    + rewrite list_lookup_alter_eq. by destruct (df !! i).
    + by rewrite list_lookup_alter_ne.
Qed.

Lemma apply_updates_length queue df : length (apply_updates df queue) = length df.
Proof.
  revert df. induction queue as [|[[idx c] nd] queue IH]; intros df; [done|].
  unfold apply_updates in *. simpl. by rewrite IH, length_alter.
Qed.

Lemma last_queued_not_queued i queue d :
  (forall c nd, (i, c, nd) ∉ queue) -> last_queued i queue d = d.
Proof.
  revert d. induction queue as [|[[idx c] nd] queue IH]; intros d H; [done|].
  unfold last_queued in *. simpl. rewrite decide_False.
  - apply IH. intros c' nd' Hin. apply (H c' nd'). by right.
  - intros ->. apply (H c nd). left.
Qed.

(** The index: a key is bound to the last row that carries it. *)
Lemma build_existing_keys_snoc df r :
  build_existing_keys (df ++ [r])
  = <[identity_key r := length df]> (build_existing_keys df).
Proof.
  unfold build_existing_keys. rewrite imap_app, fold_left_app. simpl.
  by rewrite Nat.add_0_r.
Qed.

Lemma build_existing_keys_lookup df k idx :
  build_existing_keys df !! k = Some idx ->
  exists r, df !! idx = Some r /\ identity_key r = k
    /\ forall j r', idx < j -> df !! j = Some r' -> identity_key r' ≠ k.
Proof.
  revert idx. induction df as [|r df IH] using rev_ind; intros idx; [done|].
  rewrite build_existing_keys_snoc, lookup_insert. case_decide as Hk.
  - intros [= <-]. exists r. split; [|split; [done|]].
    + by rewrite lookup_app_r, Nat.sub_diag.
    + intros j r' Hj Hl. apply lookup_lt_Some in Hl.
      rewrite length_app in Hl. simpl in Hl. lia.
  - intros H. destruct (IH _ H) as (r0 & Hr0 & Hk0 & Hlast).
    exists r0. split; [|split; [done|]].
    + by apply lookup_app_l_Some.
    + intros j r' Hj Hl. apply lookup_app_Some in Hl as [Hl|[Hlen Hl]].
      * by eapply Hlast.
      * destruct (j - length df) as [|n] eqn:E; [|done].
        simpl in Hl. injection Hl as <-. done.
Qed.

Lemma build_existing_keys_None df k :
  build_existing_keys df !! k = None <-> forall r, r ∈ df -> identity_key r ≠ k.
Proof.
  induction df as [|r df IH] using rev_ind.
  - split; [|done]. intros _ r Hr. by apply elem_of_nil in Hr.
  - rewrite build_existing_keys_snoc, lookup_insert. case_decide as Hk.
    + split; [done|]. intros H. exfalso. apply (H r); [|done].
      apply elem_of_app. right. left.
    + rewrite IH. split.
      * intros H r' [Hr'|Hr']%elem_of_app; [by apply H|].
        apply list_elem_of_singleton in Hr'. by subst r'.
      * intros H r' Hr'. apply H. apply elem_of_app. by left.
Qed.
End ScrapedFacts.


(** ** import_all_generic_codes *)

Section GenericFacts.
Import Py Spec FillDtcGaps.

Lemma dict_set_keys k v d k' :
  k' ∈ fst <$> dict_set k v d <-> k' = k \/ k' ∈ fst <$> d.
Proof.
  induction d as [|[k0 v0] d IH]; simpl.
  - rewrite list_elem_of_singleton. split; [by left|]. intros [?|?%elem_of_nil]; done.
  - destruct (String.eqb k k0) eqn:E; csimpl.
    + apply String.eqb_eq in E as <-. rewrite !elem_of_cons. tauto.
    + rewrite !elem_of_cons, IH. tauto.
Qed.

Lemma dict_set_entries k v d k' v' :
  (k', v') ∈ dict_set k v d -> (k', v') = (k, v) \/ (k', v') ∈ d.
Proof.
  induction d as [|[k0 v0] d IH]; simpl.
  - intros ?%list_elem_of_singleton. by left.
  - destruct (String.eqb k k0) eqn:E.
    + intros [?|?]%elem_of_cons; [by left|]. right. by right.
    + intros [Heq|Hin]%elem_of_cons; [right; rewrite Heq; left|].
      destruct (IH Hin) as [?|?]; [by left|]. right. by right.
Qed.

Lemma generic_prefix_spec code_upper :
  generic_prefix code_upper = true
  <-> str_take 2 code_upper ∈ SAFE_GENERIC_PREFIXES.
Proof.
  unfold generic_prefix. rewrite bool_decide_eq_true.
  destruct code_upper as [|a [|b t]]; simpl; [| |done].
  - unfold SAFE_GENERIC_PREFIXES. set_solver.
  - unfold SAFE_GENERIC_PREFIXES. rewrite !elem_of_cons, !elem_of_nil.
    split; intros H; repeat destruct H as [H|H]; done.
Qed.

Lemma select_generic_keys (all_existing : gset string) reference_codes code :
  code ∈ fst <$> select_generic all_existing reference_codes
  <-> (code ∈ fst <$> reference_codes
       /\ (upper code ∉ all_existing)
       /\ str_take 2 (upper code) ∈ SAFE_GENERIC_PREFIXES).
Proof.
  unfold select_generic.
  induction reference_codes as [|[c d] ref IH] using rev_ind.
  - simpl. split; [by intros ?%elem_of_nil|]. by intros [?%elem_of_nil _].
  - rewrite fold_left_app. simpl fold_left at 1.
    rewrite fmap_app, elem_of_app. simpl.
    rewrite list_elem_of_singleton.
    case_decide as Hex.
    + rewrite IH. split; [tauto|]. intros [[?| ->] [? ?]]; [tauto|done].
    + destruct (bool_decide _) eqn:Ep.
      * change (bool_decide _) with (generic_prefix (upper c)) in Ep.
        apply generic_prefix_spec in Ep.
        rewrite dict_set_keys, IH. split.
        -- intros [->|?]; tauto.
        -- intros [[?| ->] [? ?]]; tauto.
      * change (bool_decide _) with (generic_prefix (upper c)) in Ep.
        rewrite IH. split; [tauto|]. intros [[?| ->] [? Hp]]; [tauto|].
        apply generic_prefix_spec in Hp. congruence.
Qed.

Lemma select_generic_entries (all_existing : gset string) reference_codes code desc :
  (code, desc) ∈ select_generic all_existing reference_codes ->
  (code, desc) ∈ reference_codes.
Proof.
  unfold select_generic.
  induction reference_codes as [|[c d] ref IH] using rev_ind; [done|].
  rewrite fold_left_app. simpl fold_left at 1. rewrite elem_of_app.
  case_decide as Hex; [intros ?; left; by apply IH|].
  destruct (bool_decide _); [|intros ?; left; by apply IH].
  intros [[= -> ->]|?]%dict_set_entries; [right; left|left; by apply IH].
Qed.

Lemma quick_import_code_id make entry :
  code (quick_import_code make entry) = entry.1
  /\ make_id (quick_import_code make entry) = make
  /\ description (quick_import_code make entry) = entry.2.
Proof. by destruct entry. Qed.

(** What [import_all_generic_codes] returns. *)
Lemma import_all_generic_codes_result reference_codes stats df :
  let all_existing : gset string := list_to_set ((fun r => upper (code r)) <$> df) in
  let new_rows :=
    quick_import_codes (select_generic all_existing reference_codes) "generic" in
  (import_all_generic_codes reference_codes stats df).1 = df ++ new_rows
  /\ codes_added (import_all_generic_codes reference_codes stats df).2
     = codes_added stats + length new_rows.
Proof.
  intros all_existing new_rows. unfold import_all_generic_codes.
  destruct reference_codes as [|e ref].
  - simpl. subst new_rows. simpl. by rewrite app_nil_r, Nat.add_0_r.
  - fold all_existing. subst new_rows.
    destruct (select_generic all_existing (e :: ref)) as [|g gs]; simpl.
    + by rewrite app_nil_r, Nat.add_0_r.
    + done.
Qed.

Lemma select_generic_nil (all_existing : gset string) reference_codes :
  (forall code, code ∈ fst <$> reference_codes ->
     str_take 2 (upper code) ∈ SAFE_GENERIC_PREFIXES -> upper code ∈ all_existing) ->
  select_generic all_existing reference_codes = [].
Proof.
  intros H.
  destruct (select_generic all_existing reference_codes) as [|[c d] l] eqn:E; [done|].
  assert (c ∈ fst <$> select_generic all_existing reference_codes) as Hc.
  { rewrite E. simpl. apply elem_of_cons. by left. }
  apply select_generic_keys in Hc as (Hin & Hnot & Hpre).
  destruct Hnot. by apply H.
Qed.

End GenericFacts.


(** ** The merge engine: idempotence, identity, update policies *)




(** C2 (as the code has it).  What [save_dtc_codes] writes has no two rows
    with the same stored pair (code, make_id), compared as written, and keeps
    a row for every pair of the frame, so that one code under several owners
    stays; [merge_dtc_codes] writes distinct pairs whenever the file it read
    had distinct pairs. *)
Theorem stored_pairs_unique (df : list FillDtcGaps.DtcRow)
    (file batch : list (gmap string string))
    (Hfile : NoDup (MergeToJson.key_of <$> file)) :
  NoDup (FillDtcGaps.dup_key <$> FillDtcGaps.save_dtc_codes df)
  /\ (forall r, r ∈ df ->
        FillDtcGaps.dup_key r ∈ FillDtcGaps.dup_key <$> FillDtcGaps.save_dtc_codes df)
  /\ (forall r, r ∈ FillDtcGaps.save_dtc_codes df -> r ∈ df)
  /\ NoDup (MergeToJson.key_of
            <$> MergeToJson.written_rows (MergeToJson.merge_dtc_codes file batch)).
Proof.
  split; [apply save_dtc_codes_NoDup|]. split.
  - intros r Hr. apply save_dtc_codes_keys. by apply list_elem_of_fmap_2.
  - split; [apply save_dtc_codes_subset|by apply merge_dtc_codes_NoDup].
Qed.

Lemma stored_pairs_unique_witness :
  NoDup (MergeToJson.key_of <$> [Examples.csv_row "P0420" "toyota" "Catalyst" "High"])
  /\ NoDup (MergeToJson.key_of
            <$> MergeToJson.written_rows
                  (MergeToJson.merge_dtc_codes
                     [Examples.csv_row "P0420" "toyota" "Catalyst" "High"]
                     [Examples.csv_row "P0420" "honda" "Catalyst" "High"])).
Proof.
  assert (NoDup (MergeToJson.key_of
                   <$> [Examples.csv_row "P0420" "toyota" "Catalyst" "High"])) as H.
  { apply NoDup_singleton. }
  split; [exact H|].
  exact (proj2 (proj2 (proj2 (stored_pairs_unique [] _ _ H)))).
Defined.

(** C2, counterexample: two records that differ only in the letter case of
    the code are both written by [save_dtc_codes], although they share the
    identity key (code in upper case, owner in lower case). *)
Lemma save_keeps_case_variants :
  let a := Examples.dtc "p0420" "honda" "Catalyst" in
  let b := Examples.dtc "P0420" "honda" "Catalyst" in
  FillDtcGaps.save_dtc_codes [a; b] = [b; a]
  /\ a <> b
  /\ Spec.identity_key a = Spec.identity_key b.
Proof. split; [by vm_compute|]. split; [discriminate|by vm_compute]. Qed.

(** C5 (as the code has it).  After the clean-up with invalid codes removed,
    every remaining code starts with one of P, B, C, U followed by a digit;
    the rows removed are exactly those that do not, their number is what the
    frame lost, and it is added to [stats.codes_updated] together with the
    number of powertrain cells rewritten. *)
Theorem cleanup_keeps_valid_prefixes (has_powertrain_type : bool)
    (stats : FillDtcGaps.UsageStats) (df : list FillDtcGaps.DtcRow) :
  let result := FillDtcGaps.cleanup_powertrain_data has_powertrain_type stats df true in
  let kept := List.filter (fun r => FillDtcGaps.valid_code_prefix (FillDtcGaps.code r)) df in
  let removed :=
    List.filter (fun r => negb (FillDtcGaps.valid_code_prefix (FillDtcGaps.code r))) df in
  Forall (fun r => FillDtcGaps.valid_code_prefix (FillDtcGaps.code r) = true) result.1
  /\ FillDtcGaps.code <$> result.1 = FillDtcGaps.code <$> kept
  /\ length result.1 + length removed = length df
  /\ FillDtcGaps.codes_updated result.2
     = FillDtcGaps.codes_updated stats + length removed
       + (if has_powertrain_type then Spec.powertrain_changed kept else 0).
Proof.
  intros result kept removed.
  assert (FillDtcGaps.code <$> result.1 = FillDtcGaps.code <$> kept) as Hcodes.
  { unfold result. rewrite cleanup_frame, <- list_fmap_compose.
    apply list_fmap_ext. intros i r _. simpl. by destruct has_powertrain_type. }
  split; [|split; [exact Hcodes|split]].
  - apply (Forall_fmap FillDtcGaps.code
             (fun c => FillDtcGaps.valid_code_prefix c = true)).
    rewrite Hcodes. apply Forall_fmap.
    apply (filter_Forall (fun r => FillDtcGaps.valid_code_prefix (FillDtcGaps.code r))).
  - rewrite <- (length_fmap FillDtcGaps.code), Hcodes, length_fmap.
    apply (filter_length_split
             (fun r => FillDtcGaps.valid_code_prefix (FillDtcGaps.code r))).
  - unfold result. by rewrite cleanup_counter.
Qed.

(** C5, counterexample: a code with a valid first pair but a second
    character outside 0-3, and no five-character shape at all, survives the
    clean-up. *)
Lemma cleanup_keeps_malformed_code :
  let bad := Examples.dtc "P9zz" "honda" "Not a code" in
  (FillDtcGaps.cleanup_powertrain_data true Examples.stats0 [bad] true).1 = [bad]
  /\ FillDtcGaps.matches_code_format (FillDtcGaps.code bad) = false.
Proof. split; by vm_compute. Qed.

(** C6 (as the code has it).  In [merge_dtc_codes] a batch row whose key is
    already indexed replaces the first stored row of that key as a whole, and
    every column of the replacement is the incoming value or, where the
    incoming row has no such column, the empty string.  In
    [enrich_existing_codes] each of the eight descriptive columns takes the
    enriched value exactly when the enriched record has the key, whatever
    the value, and keeps its old value otherwise; code, make_id and
    description are never written. *)
Theorem replace_policies (st : MergeToJson.state) (row : gmap string string)
    (r : FillDtcGaps.DtcRow) (enriched_data : gmap string FillDtcGaps.cell)
    (Hpresent : MergeToJson.key_of row ∈ MergeToJson.existing_codes st) :
  MergeToJson.existing_rows (MergeToJson.merge_row st row)
  = Spec.replace_first (MergeToJson.as_stored (MergeToJson.key_of row))
      (MergeToJson.normalized row) (MergeToJson.existing_rows st)
  /\ (forall fn, fn ∈ MergeToJson.fieldnames ->
        MergeToJson.normalized row !! fn = Some (default "" (row !! fn)))
  /\ (let r' := FillDtcGaps.write_enriched r enriched_data in
      let pick field old := default old (enriched_data !! field) in
      FillDtcGaps.code r' = FillDtcGaps.code r
      /\ FillDtcGaps.make_id r' = FillDtcGaps.make_id r
      /\ FillDtcGaps.description r' = FillDtcGaps.description r
      /\ FillDtcGaps.detailed_description r'
         = pick "detailed_description" (FillDtcGaps.detailed_description r)
      /\ FillDtcGaps.system r' = pick "system" (FillDtcGaps.system r)
      /\ FillDtcGaps.severity r' = pick "severity" (FillDtcGaps.severity r)
      /\ FillDtcGaps.common_causes r'
         = pick "common_causes" (FillDtcGaps.common_causes r)
      /\ FillDtcGaps.symptoms r' = pick "symptoms" (FillDtcGaps.symptoms r)
      /\ FillDtcGaps.applicable_models r'
         = pick "applicable_models" (FillDtcGaps.applicable_models r)
      /\ FillDtcGaps.applicable_years r'
         = pick "applicable_years" (FillDtcGaps.applicable_years r)
      /\ FillDtcGaps.powertrain_type r'
         = pick "powertrain_type" (FillDtcGaps.powertrain_type r)).
Proof.
  split; [by apply merge_row_present|]. split; [apply lookup_normalized|].
  unfold FillDtcGaps.write_enriched. simpl.
  repeat split; by destruct (enriched_data !! _).
Qed.

Lemma replace_policies_witness :
  let st := MergeToJson.read_existing
              [Examples.csv_row "P0420" "toyota" "Catalyst" "High"] in
  let row := Examples.csv_row "P0420" "toyota" "Catalyst efficiency" "Medium" in
  MergeToJson.key_of row ∈ MergeToJson.existing_codes st
  /\ MergeToJson.existing_rows (MergeToJson.merge_row st row)
     = [MergeToJson.normalized row].
Proof.
  intros st row.
  assert (MergeToJson.key_of row ∈ MergeToJson.existing_codes st) as H.
  { vm_compute. set_solver. }
  split; [exact H|].
  rewrite (proj1 (replace_policies st row (Examples.dtc "P0420" "toyota" "Catalyst") ∅ H)).
  reflexivity.
Defined.

(** C6, counterexample: an incoming row without a description blanks the
    stored description and severity, and an enriched record whose severity is
    the empty string blanks the severity of the row. *)
Lemma replace_blanks_existing_data :
  let existing := Examples.csv_row "P0420" "toyota" "Catalyst" "High" in
  let incoming : gmap string string := {[ "code" := "P0420"; "make_id" := "toyota" ]} in
  let merged := MergeToJson.merge_dtc_codes [existing] [incoming] in
  ((fun written => (written !! "description", written !! "severity"))
     <$> MergeToJson.written_rows merged) = [(Some "", Some "")]
  /\ MergeToJson.updated merged = 1
  /\ FillDtcGaps.severity
       (FillDtcGaps.write_enriched (Examples.dtc "P0420" "toyota" "Catalyst")
          {[ "severity" := FillDtcGaps.Str "" ]})
     = FillDtcGaps.Str "".
Proof. split; [by vm_compute|]. split; by vm_compute. Qed.


Section ScrapedImport.
Import Py Spec FillDtcGaps.

Lemma scan_scraped_update df scraped_df :
  scan_scraped df true scraped_df
  = {| new_codes := omap (fresh (build_existing_keys df)) scraped_df;
       codes_to_update := omap (queued df (build_existing_keys df)) scraped_df;
       skipped_codes :=
         length (List.filter (skipped df (build_existing_keys df)) scraped_df) |}.
Proof. unfold scan_scraped. by rewrite scan_update. Qed.

(** The frame that the import returns in update mode. *)
Lemma import_scraped_update_frame stats df scraped_df enrich :
  let keys := build_existing_keys df in
  let queue := omap (queued df keys) scraped_df in
  let added := omap (fresh keys) scraped_df in
  match scraped_df with
  | [] => import_scraped_dtc_codes stats df scraped_df enrich true = Raise IndexError
  | first :: _ =>
      let new_rows :=
        match added with
        | [] => []
        | _ => match enrich with
               | Some enrich_codes_with_ai =>
                   enrich_codes_with_ai added (lower (s_make_id first))
               | None => quick_import_codes added (lower (s_make_id first))
               end
        end in
      exists stats',
        import_scraped_dtc_codes stats df scraped_df enrich true
        = Ok (match added, queue with
              | [], [] => df
              | _, _ => sort_by str_pair_leb sort_key
                          (apply_updates df queue ++ new_rows)
              end, stats')
  end.
Proof.
  intros keys queue added. destruct scraped_df as [|first rest]; [done|].
  intros new_rows. unfold import_scraped_dtc_codes.
  rewrite scan_scraped_update. cbn [new_codes codes_to_update].
  fold keys. fold added. fold queue. subst new_rows.
  destruct added as [|a0 al], queue as [|q0 ql]; try (by eexists).
  - eexists. by rewrite app_nil_r.
  - destruct enrich as [f|].
    + destruct (f _ _); eexists; [by rewrite app_nil_r|done].
    + eexists. done.
  - destruct enrich as [f|].
    + destruct (f _ _); eexists; [by rewrite app_nil_r|done].
    + eexists. done.
Qed.
End ScrapedImport.

(** C7 (as the code has it).  In update mode the scan of the scraped file
    queues, for a row whose key is indexed, the replacement of the indexed
    record's description exactly when the scraped description is strictly
    more than 20% longer, in characters, than the one the record has before
    the import (5 * scraped > 6 * existing), and otherwise counts the row as
    skipped; the
    index binds a key to the last record of the frame that carries it.
    Applying the queue rewrites nothing but descriptions: row [i] ends with
    the last description queued for [i] and is untouched when none is; the
    returned frame is the updated frame with the new rows, sorted. *)
Theorem scraped_update_threshold (stats : FillDtcGaps.UsageStats)
    (df : list FillDtcGaps.DtcRow) (scraped_df : list FillDtcGaps.ScrapedRow)
    (enrich : option (list (string * string) -> string -> list FillDtcGaps.DtcRow)) :
  let keys := FillDtcGaps.build_existing_keys df in
  let st := FillDtcGaps.scan_scraped df true scraped_df in
  let queue := FillDtcGaps.codes_to_update st in
  queue = omap (Spec.queued df keys) scraped_df
  /\ FillDtcGaps.skipped_codes st = length (List.filter (Spec.skipped df keys) scraped_df)
  /\ FillDtcGaps.new_codes st = omap (Spec.fresh keys) scraped_df
  /\ (forall row idx, keys !! Spec.scraped_key row = Some idx ->
        let existing_desc := default "" (FillDtcGaps.description <$> df !! idx) in
        let longer := 6 * Py.len existing_desc
                      < 5 * Py.len (FillDtcGaps.s_description row) in
        (Spec.queued df keys row
         = Some (idx, Py.upper (FillDtcGaps.s_code row), FillDtcGaps.s_description row)
         <-> longer)
        /\ (Spec.skipped df keys row = true <-> ~ longer))
  /\ (forall k idx, keys !! k = Some idx ->
        exists r, df !! idx = Some r /\ Spec.identity_key r = k
          /\ forall j r', idx < j -> df !! j = Some r' -> Spec.identity_key r' <> k)
  /\ (forall i,
        FillDtcGaps.apply_updates df queue !! i
        = (fun r => FillDtcGaps.set_description r
                      (Spec.last_queued i queue (FillDtcGaps.description r)))
          <$> df !! i)
  /\ match scraped_df with
     | [] => FillDtcGaps.import_scraped_dtc_codes stats df scraped_df enrich true
             = Py.Raise Py.IndexError
     | first :: _ =>
         let added := FillDtcGaps.new_codes st in
         let new_rows :=
           match added with
           | [] => []
           | _ => match enrich with
                  | Some enrich_codes_with_ai =>
                      enrich_codes_with_ai added (Py.lower (FillDtcGaps.s_make_id first))
                  | None =>
                      FillDtcGaps.quick_import_codes added
                        (Py.lower (FillDtcGaps.s_make_id first))
                  end
           end in
         exists stats',
           FillDtcGaps.import_scraped_dtc_codes stats df scraped_df enrich true
           = Py.Ok (match added, queue with
                    | [], [] => df
                    | _, _ => Py.sort_by Py.str_pair_leb FillDtcGaps.sort_key
                                (FillDtcGaps.apply_updates df queue ++ new_rows)
                    end, stats')
     end.
Proof.
  intros keys st queue. subst queue st.
  rewrite scan_scraped_update. cbn [FillDtcGaps.new_codes
    FillDtcGaps.codes_to_update FillDtcGaps.skipped_codes]. fold keys.
  split; [done|]. split; [done|]. split; [done|]. split.
  { intros row idx Hk. cbv zeta.
    set (existing_desc := default "" (FillDtcGaps.description <$> df !! idx)).
    set (longer := 6 * Py.len existing_desc
                   < 5 * Py.len (FillDtcGaps.s_description row)).
    unfold Spec.queued, Spec.skipped. rewrite Hk. fold existing_desc.
    destruct (FillDtcGaps.longer_by_20_percent _ _) eqn:E; simpl.
    - apply longer_by_20_percent_spec in E. split; [done|]. split; [done|tauto].
    - assert (~ longer) as Hn.
      { intros Hl. apply longer_by_20_percent_spec in Hl. congruence. }
      split; [split; [done|tauto]|done]. }
  split; [apply build_existing_keys_lookup|].
  split; [intros i; apply apply_updates_lookup|].
  apply (import_scraped_update_frame stats df scraped_df enrich).
Qed.

(** C7, counterexample: a scraped description that is exactly 20% longer
    than the existing one (6 characters against 5) does not replace it; the
    row is counted as skipped and the frame comes back unchanged.  Length is
    counted in characters: six accented letters, which take twelve bytes,
    are skipped against five letters in the same way. *)
Lemma exactly_20_percent_longer_is_skipped :
  let df := [Examples.dtc "P0420" "honda" "abcde"] in
  let scraped_df := [Examples.scraped "P0420" "honda" "abcdef"] in
  let accented := Examples.repeated_text 6 Examples.e_acute in
  5 * Py.len "abcdef" >= 6 * Py.len "abcde"
  /\ FillDtcGaps.import_scraped_dtc_codes Examples.stats0 df scraped_df None true
     = Py.Ok (df, Examples.stats0)
  /\ FillDtcGaps.skipped_codes (FillDtcGaps.scan_scraped df true scraped_df) = 1
  /\ Py.len accented = 6
  /\ String.length accented = 12
  /\ FillDtcGaps.skipped_codes
       (FillDtcGaps.scan_scraped df true [Examples.scraped "P0420" "honda" accented])
     = 1.
Proof. split; [simpl; lia|]. repeat split; by vm_compute. Qed.

(** C10.  [import_all_generic_codes] appends to the frame one row per
    selected reference code and nothing else; a reference code is selected
    exactly when its upper-case form occurs as the code of no row of the
    frame, under any owner, and its first two characters are one of P0, B0,
    C0, U0; every appended row has make_id 'generic' and carries the
    reference code and a description that the reference table gives it; the
    number appended is added to [stats.codes_added]. *)
Theorem generic_import_is_global (reference_codes : list (string * string))
    (stats : FillDtcGaps.UsageStats) (df : list FillDtcGaps.DtcRow) :
  let result := FillDtcGaps.import_all_generic_codes reference_codes stats df in
  exists new_rows,
    result.1 = df ++ new_rows
    /\ FillDtcGaps.codes_added result.2 = FillDtcGaps.codes_added stats + length new_rows
    /\ (forall r, r ∈ new_rows ->
          FillDtcGaps.make_id r = "generic"
          /\ (FillDtcGaps.code r, FillDtcGaps.description r) ∈ reference_codes
          /\ Py.str_take 2 (Py.upper (FillDtcGaps.code r))
             ∈ FillDtcGaps.SAFE_GENERIC_PREFIXES
          /\ (forall x, x ∈ df ->
                Py.upper (FillDtcGaps.code x) <> Py.upper (FillDtcGaps.code r)))
    /\ (forall c, c ∈ fst <$> reference_codes ->
          Py.str_take 2 (Py.upper c) ∈ FillDtcGaps.SAFE_GENERIC_PREFIXES ->
          (forall x, x ∈ df -> Py.upper (FillDtcGaps.code x) <> Py.upper c) ->
          c ∈ FillDtcGaps.code <$> new_rows).
Proof.
  intros result.
  destruct (import_all_generic_codes_result reference_codes stats df) as [H1 H2].
  eexists. split; [exact H1|]. split; [exact H2|].
  set (all_existing := (list_to_set _ : gset string)).
  assert (forall c, Py.upper c ∉ all_existing
            <-> forall x, x ∈ df -> Py.upper (FillDtcGaps.code x) <> Py.upper c) as Hex.
  { intros c. unfold all_existing. rewrite elem_of_list_to_set, list_elem_of_fmap.
    split.
    - intros Hn x Hx Heq. apply Hn. by exists x.
    - intros Hn (x & Heq & Hx). by apply (Hn x). }
  split.
  - intros r (entry & -> & Hentry)%list_elem_of_fmap.
    destruct (quick_import_code_id "generic" entry) as (Hc & Hm & Hd).
    rewrite Hc, Hm, Hd. split; [done|].
    assert (entry.1 ∈ fst <$> FillDtcGaps.select_generic all_existing reference_codes)
      as Hkey by by apply list_elem_of_fmap_2.
    apply select_generic_keys in Hkey as (_ & Hnot & Hpre).
    split; [|split; [done|by apply Hex]].
    apply (select_generic_entries all_existing). by destruct entry.
  - intros c Hc Hpre Hnot.
    assert (c ∈ fst <$> FillDtcGaps.select_generic all_existing reference_codes) as Hkey.
    { apply select_generic_keys. split; [done|]. split; [by apply Hex|done]. }
    apply list_elem_of_fmap in Hkey as (entry & -> & Hentry).
    apply list_elem_of_fmap. exists (FillDtcGaps.quick_import_code "generic" entry).
    split; [by destruct entry|]. by apply list_elem_of_fmap_2.
Qed.


(** ** json.loads *)

Section JsonFacts.
Import Py Json Spec.



(** What [json.loads] returns is what the grammar gives for the text. *)
Lemma scan_Ok budget q s v :
  scan budget q s = Ok v -> exists q', run q s = Some q' /\ finish q' = Some v.
Proof.
  revert q. induction s as [|c t IH]; intros q; simpl.
  - destruct (refused budget q None); [done|].
    destruct (finish q) as [v'|] eqn:E; [|done]. intros [= <-]. by exists q.
  - destruct (refused budget q (Some c)); [done|].
    destruct (step q c) as [q'|]; [|done]. apply IH.
Qed.

Lemma loads_Ok budget s v :
  loads budget s = Ok v ->
  startswith BOM s = false
  /\ exists q', run initial s = Some q' /\ finish q' = Some v.
Proof.
  unfold loads. destruct (startswith BOM s); [done|].
  intros H. split; [done|]. by apply (scan_Ok budget).
Qed.

Lemma finish_array q items :
  finish q = Some (JArr items) -> q = {| stack := []; lx := LDone (JArr items) |}.
Proof.
  destruct q as [st l]. unfold finish. simpl.
  destruct l, st; try done.
  - by intros [= ->].
  - by destruct (num_complete m).
Qed.

Lemma no_array_doc_finish q items :
  no_array_doc q = true -> finish q <> Some (JArr items).
Proof. intros H Hf. apply finish_array in Hf. by subst q. Qed.

Lemma bottom_is_object_top f f' below :
  (match f, f' with FObj _ _, FObj _ _ | FArr _, FArr _ => True | _, _ => False end) ->
  bottom_is_object (f' :: below) = bottom_is_object (f :: below).
Proof. destruct below; [|done]. by destruct f, f'. Qed.

Lemma bottom_is_object_push f stk :
  stk <> [] -> bottom_is_object (f :: stk) = bottom_is_object stk.
Proof. by destruct stk. Qed.

(** A value delivered below an open object keeps the text a non-array. *)
Lemma deliver_no_array v stk q' :
  deliver v stk = Some q' ->
  (stk = [] -> is_array v = false) ->
  (stk <> [] -> bottom_is_object stk = true) ->
  no_array_doc q' = true.
Proof.
  unfold deliver. destruct stk as [|[items|members [k|]] below].
  - intros [= <-] Hv _. unfold no_array_doc. simpl. by rewrite Hv.
  - intros [= <-] _ Hb. unfold no_array_doc. cbn [stack]. cbv iota beta.
    rewrite <- (Hb ltac:(done)). by apply bottom_is_object_top.
  - intros [= <-] _ Hb. unfold no_array_doc. cbn [stack]. cbv iota beta.
    rewrite <- (Hb ltac:(done)). by apply bottom_is_object_top.
  - done.
Qed.

Lemma deliver_stack v stk q' :
  deliver v stk = Some q' ->
  (stk = [] /\ q' = {| stack := []; lx := LDone v |})
  \/ (stk <> [] /\ stack q' <> [] /\ lx q' = LIdle ECommaOrClose).
Proof.
  unfold deliver. destruct stk as [|[items|members [k|]] below];
    intros [= <-]; [by left|by right|by right].
Qed.

Lemma deliver_key_no_array k stk q' :
  deliver_key k stk = Some q' ->
  bottom_is_object stk = true -> no_array_doc q' = true.
Proof.
  unfold deliver_key. destruct stk as [|[items|members [k0|]] below]; try done.
  intros [= <-] Hb. unfold no_array_doc. cbn [stack]. cbv iota beta.
  rewrite <- Hb. by apply bottom_is_object_top.
Qed.

Lemma close_array_no_array stk q' :
  close_array stk = Some q' ->
  bottom_is_object stk = true -> no_array_doc q' = true.
Proof.
  unfold close_array. destruct stk as [|[items|members k] below]; try done.
  intros Hd Hb. destruct below as [|f below']; [done|].
  apply (deliver_no_array _ _ _ Hd); [done|]. intros _. exact Hb.
Qed.

Lemma close_object_no_array stk q' :
  close_object stk = Some q' ->
  bottom_is_object stk = true -> no_array_doc q' = true.
Proof.
  unfold close_object. destruct stk as [|[items|members [k|]] below]; try done.
  intros Hd Hb. apply (deliver_no_array _ _ _ Hd); [done|].
  intros Hne. destruct below; [done|]. exact Hb.
Qed.

Lemma start_value_no_array stk c q' :
  start_value stk c = Some q' ->
  (stk = [] -> c <> "["%char) ->
  (stk <> [] -> bottom_is_object stk = true) ->
  no_array_doc q' = true.
Proof.
  unfold start_value. intros H Hc Hb.
  assert (forall l, (match l with LIdle _ | LDone _ => False | _ => True end) ->
            no_array_doc {| stack := stk; lx := l |} = true) as Hgo.
  { intros l Hl. unfold no_array_doc. simpl. destruct stk as [|f below].
    - by destruct l.
    - by apply Hb. }
  repeat match type of H with
         | (if Ascii.eqb ?a ?b then _ else _) = _ =>
             destruct (Ascii.eqb a b) eqn:?
         | (if ?b then _ else _) = _ => destruct b eqn:?
         end;
    try (injection H as <-; by apply Hgo); try done.
  - injection H as <-. unfold no_array_doc. simpl. destruct stk; [done|].
    by apply Hb.
  - injection H as <-. unfold no_array_doc. simpl. destruct stk as [|f below].
    + exfalso. apply Hc; [done|]. by apply Ascii.eqb_eq.
    + by apply Hb.
Qed.

Lemma step_idle_no_array e stk c q' :
  step_idle e stk c = Some q' ->
  stk <> [] -> bottom_is_object stk = true -> no_array_doc q' = true.
Proof.
  unfold step_idle. intros H Hne Hb.
  assert (forall l, no_array_doc {| stack := stk; lx := l |} = true) as Hgo.
  { intros l. unfold no_array_doc. simpl. by destruct stk. }
  destruct (is_json_ws c); [injection H as <-; apply Hgo|].
  destruct e.
  - eapply start_value_no_array; eauto; done.
  - destruct (Ascii.eqb c "]"); [by eapply close_array_no_array|].
    eapply start_value_no_array; eauto; done.
  - destruct (Ascii.eqb c dquote); [injection H as <-; apply Hgo|].
    destruct (Ascii.eqb c "}"); [by eapply close_object_no_array|done].
  - destruct (Ascii.eqb c dquote); [injection H as <-; apply Hgo|done].
  - destruct (Ascii.eqb c ":"); [injection H as <-; apply Hgo|done].
  - destruct (Ascii.eqb c ",").
    + destruct stk as [|[items|members [k|]] below]; try done;
        injection H as <-; apply Hgo.
    + destruct (Ascii.eqb c "]"); [by eapply close_array_no_array|].
      destruct (Ascii.eqb c "}"); [by eapply close_object_no_array|done].
Qed.

Lemma no_array_doc_cases q :
  no_array_doc q = true ->
  (stack q = [] /\ match lx q with
                   | LIdle _ => False
                   | LDone v => is_array v = false
                   | _ => True
                   end)
  \/ (stack q <> [] /\ bottom_is_object (stack q) = true).
Proof.
  unfold no_array_doc. destruct q as [[|f below] l]; simpl.
  - intros H. left. split; [done|]. destruct l; try done.
    by apply negb_true_iff in H.
  - intros H. by right.
Qed.

(** Once the text is not an array it stays so. *)
Lemma step_no_array q c q' :
  no_array_doc q = true -> step q c = Some q' -> no_array_doc q' = true.
Proof.
  intros Hq Hs. pose proof (no_array_doc_cases q Hq) as Hcases.
  assert (stack q = [] -> forall v, is_array v = false ->
            forall q1, deliver v (stack q) = Some q1 -> no_array_doc q1 = true) as Hd0.
  { intros He v Hv q1 Hq1. apply (deliver_no_array _ _ _ Hq1); [done|]. by rewrite He. }
  assert (forall v, is_array v = false ->
            forall q1, deliver v (stack q) = Some q1 -> no_array_doc q1 = true) as Hd.
  { intros v Hv q1 Hq1. apply (deliver_no_array _ _ _ Hq1); [done|].
    intros Hne. destruct Hcases as [[He _]|[_ Hb]]; [done|exact Hb]. }
  assert (forall l, (match l with LIdle _ | LDone _ => False | _ => True end) ->
            no_array_doc {| stack := stack q; lx := l |} = true) as Hgo.
  { intros l Hl. unfold no_array_doc. simpl.
    destruct Hcases as [[-> _]|[Hne Hb]]; [by destruct l|].
    by destruct (stack q). }
  unfold step in Hs. destruct (lx q) as [e|v|is_key acc pending m|lexeme m|rem lit] eqn:El.
  - destruct Hcases as [[_ []]|[Hne Hb]]. by eapply step_idle_no_array.
  - destruct (is_json_ws c); [by injection Hs as <-|done].
  - unfold step_string in Hs.
    destruct m as [| |seen value].
    + destruct (Ascii.eqb c dquote).
      * destruct is_key.
        -- destruct Hcases as [[He _]|[_ Hb]].
           ++ rewrite He in Hs. done.
           ++ by eapply deliver_key_no_array.
        -- eapply Hd; [|exact Hs]. done.
      * destruct (Ascii.eqb c "\"); [injection Hs as <-; by apply Hgo|].
        destruct (N_of_ascii c <? 32)%N; [done|]. injection Hs as <-. by apply Hgo.
    + destruct (Ascii.eqb c "u"); [injection Hs as <-; by apply Hgo|].
      destruct (simple_escape c); [|done]. injection Hs as <-. by apply Hgo.
    + destruct (hex_value c); [|done].
      destruct (seen <? 3); [injection Hs as <-; by apply Hgo|].
      destruct pending.
      * destruct (is_low_surrogate _); [injection Hs as <-; by apply Hgo|].
        destruct (is_high_surrogate _); injection Hs as <-; by apply Hgo.
      * destruct (is_high_surrogate _); injection Hs as <-; by apply Hgo.
  - destruct (num_next m c); [injection Hs as <-; by apply Hgo|].
    assert (forall q1, deliver (JNum lexeme) (stack q) = Some q1 ->
              match lx q1 with
              | LIdle e => step_idle e (stack q1) c
              | _ => if is_json_ws c then Some q1 else None
              end = Some q' -> no_array_doc q' = true) as Hterm.
    { intros q1 Hq1 Hstep. pose proof (Hd (JNum lexeme) eq_refl _ Hq1) as Hn1.
      destruct (deliver_stack _ _ _ Hq1) as [[_ ->]|(_ & Hne1 & Hl1)].
      - simpl in Hstep. destruct (is_json_ws c); [by injection Hstep as <-|done].
      - rewrite Hl1 in Hstep. apply (step_idle_no_array _ _ _ _ Hstep Hne1).
        unfold no_array_doc in Hn1. by destruct (stack q1). }
    destruct m; simpl in Hs;
      try done;
      try (destruct (deliver (JNum lexeme) (stack q)) as [q1|] eqn:Eq1; [|done];
           by eapply Hterm).
    destruct (Ascii.eqb c "I"); [|done]. injection Hs as <-. by apply Hgo.
  - destruct rem as [|c' rest]; [done|].
    destruct (Ascii.eqb c c'); [|done].
    destruct rest.
    + eapply Hd; [|exact Hs]. by destruct lit.
    + injection Hs as <-. by apply Hgo.
Qed.

Lemma run_no_array s q q' :
  no_array_doc q = true -> run q s = Some q' -> no_array_doc q' = true.
Proof.
  revert q. induction s as [|c s IH]; intros q Hq; simpl.
  - by intros [= <-].
  - destruct (step q c) as [q1|] eqn:E; [|done].
    apply IH. by eapply step_no_array.
Qed.

(** The first character that is not white space decides. *)
Lemma step_initial c q' :
  step initial c = Some q' ->
  c = "["%char \/ (is_json_ws c = true /\ q' = initial) \/ no_array_doc q' = true.
Proof.
  unfold step, initial. simpl. unfold step_idle.
  destruct (is_json_ws c) eqn:Ews.
  - intros [= <-]. right. by left.
  - intros H. destruct (Ascii.eqb c "[") eqn:Eb.
    + left. by apply Ascii.eqb_eq.
    + right. right. apply (start_value_no_array [] c q' H); [|done].
      intros _ Hc. subst c. done.
Qed.

(** An array is completed by a closing bracket only. *)
Lemma deliver_done v stk q' items :
  deliver v stk = Some q' -> finish q' = Some (JArr items) ->
  stk = [] /\ v = JArr items.
Proof.
  intros Hd Hf. apply finish_array in Hf. subst q'.
  destruct (deliver_stack _ _ _ Hd) as [[-> [= ->]]|(_ & Hne & _)]; done.
Qed.

Lemma start_value_not_done stk c q' items :
  start_value stk c = Some q' -> finish q' <> Some (JArr items).
Proof.
  unfold start_value. intros H Hf. apply finish_array in Hf. subst q'.
  repeat match type of H with
         | (if ?b then _ else _) = _ => destruct b
         end; done.
Qed.

Lemma step_idle_done e stk c q' items :
  step_idle e stk c = Some q' -> finish q' = Some (JArr items) -> c = "]"%char.
Proof.
  unfold step_idle. intros H Hf.
  destruct (is_json_ws c).
  { injection H as <-. by apply finish_array in Hf. }
  assert (forall l, Some {| stack := stk; lx := l |} = Some q' ->
            (match l with LDone _ => False | _ => True end) -> False) as Hgo.
  { intros l [= <-] Hl. apply finish_array in Hf. injection Hf as _ ->. done. }
  assert (close_object stk = Some q' -> False) as Hobj.
  { unfold close_object. destruct stk as [|[?|? [?|]] ?]; try done.
    intros Hd. by destruct (deliver_done _ _ _ _ Hd Hf). }
  destruct e.
  - exfalso; eapply start_value_not_done; eauto.
  - destruct (Ascii.eqb c "]") eqn:E; [by apply Ascii.eqb_eq|].
    exfalso; eapply start_value_not_done; eauto.
  - destruct (Ascii.eqb c dquote); [exfalso; by eapply Hgo|].
    destruct (Ascii.eqb c "}"); [by apply Hobj in H|done].
  - destruct (Ascii.eqb c dquote); [exfalso; by eapply Hgo|done].
  - destruct (Ascii.eqb c ":"); [exfalso; by eapply Hgo|done].
  - destruct (Ascii.eqb c ",").
    + destruct stk as [|[?|? [?|]] ?]; try done; exfalso; by eapply Hgo.
    + destruct (Ascii.eqb c "]") eqn:E; [by apply Ascii.eqb_eq|].
      destruct (Ascii.eqb c "}"); [by apply Hobj in H|done].
Qed.

Lemma step_done q c q' items :
  step q c = Some q' -> finish q' = Some (JArr items) -> c <> "]"%char ->
  finish q = Some (JArr items).
Proof.
  intros Hs Hf Hc. unfold step in Hs.
  assert (forall l, Some {| stack := stack q; lx := l |} = Some q' ->
            (match l with LDone _ => False | _ => True end) -> False) as Hgo.
  { intros l [= <-] Hl. apply finish_array in Hf. injection Hf as _ ->. done. }
  destruct (lx q) as [e|v|is_key acc pending m|lexeme m|rem lit] eqn:El.
  - by apply (step_idle_done _ _ _ _ _ Hs) in Hf.
  - destruct (is_json_ws c); [by injection Hs as <-|done].
  - exfalso. unfold step_string in Hs.
    destruct m as [| |seen value].
    + destruct (Ascii.eqb c dquote).
      * destruct is_key.
        -- unfold deliver_key in Hs. destruct (stack q) as [|[?|? [?|]] ?]; try done.
           injection Hs as <-. by apply finish_array in Hf.
        -- by destruct (deliver_done _ _ _ _ Hs Hf).
      * destruct (Ascii.eqb c "\"); [by eapply Hgo|].
        destruct (N_of_ascii c <? 32)%N; [done|]. by eapply Hgo.
    + destruct (Ascii.eqb c "u"); [by eapply Hgo|].
      destruct (simple_escape c); [|done]. by eapply Hgo.
    + destruct (hex_value c); [|done].
      destruct (seen <? 3); [by eapply Hgo|].
      destruct pending.
      * destruct (is_low_surrogate _); [by eapply Hgo|].
        destruct (is_high_surrogate _); by eapply Hgo.
      * destruct (is_high_surrogate _); by eapply Hgo.
  - exfalso. destruct (num_next m c); [by eapply Hgo|].
    assert (forall q1, deliver (JNum lexeme) (stack q) = Some q1 ->
              match lx q1 with
              | LIdle e => step_idle e (stack q1) c
              | _ => if is_json_ws c then Some q1 else None
              end = Some q' -> False) as Hterm.
    { intros q1 Hq1 Hstep.
      destruct (deliver_stack _ _ _ Hq1) as [[_ ->]|(_ & Hne1 & Hl1)].
      - simpl in Hstep. destruct (is_json_ws c); [|done].
        injection Hstep as <-. by apply finish_array in Hf.
      - rewrite Hl1 in Hstep. by apply (step_idle_done _ _ _ _ _ Hstep) in Hf. }
    destruct m; simpl in Hs;
      try done;
      try (destruct (deliver (JNum lexeme) (stack q)) as [q1|] eqn:Eq1; [|done];
           by eapply Hterm).
    destruct (Ascii.eqb c "I"); [|done]. by eapply Hgo.
  - exfalso. destruct rem as [|c' rest]; [done|].
    destruct (Ascii.eqb c c'); [|done].
    destruct rest.
    + destruct (deliver_done _ _ _ _ Hs Hf) as [_ Hv]. by destruct lit.
    + by eapply Hgo.
Qed.
End JsonFacts.


(** ** parse_json_robustly *)

Section RecoveryFacts.
Import Py Json Spec FillDtcGaps.

(** The text of an array starts at the first opening bracket... *)
Lemma scan_from_first budget s items :
  Json.scan budget initial s = Ok (JArr items) ->
  exists sfx, from_first "[" s = Some sfx
              /\ Json.scan budget initial sfx = Ok (JArr items).
Proof.
  induction s as [|c s IH]; simpl.
  - by destruct (refused budget initial None).
  - destruct (refused budget initial (Some c)) eqn:Er; [done|].
    destruct (step initial c) as [q1|] eqn:E; [|done]. intros Hscan.
    destruct (Ascii.eqb c "[") eqn:Eb.
    + exists (String c s). split; [done|]. simpl. by rewrite Er, E.
    + destruct (step_initial _ _ E) as [->|[[_ ->]|Hn]]; [done|by apply IH|].
      exfalso. apply scan_Ok in Hscan as (q' & Hrun & Hf).
      eapply no_array_doc_finish; [|exact Hf].
      by eapply run_no_array.
Qed.

Lemma refused_done budget v next :
  refused budget {| stack := []; lx := LDone v |} next = None.
Proof. reflexivity. Qed.

(** ... and ends at the last closing bracket. *)
Lemma scan_upto_last budget s q0 items :
  Json.scan budget q0 s = Ok (JArr items) ->
  match upto_last "]" s with
  | Some sp => Json.scan budget q0 sp = Ok (JArr items)
  | None => finish q0 = Some (JArr items)
  end.
Proof.
  revert q0. induction s as [|c s IH]; intros q0; simpl.
  - destruct (refused budget q0 None); [done|].
    destruct (finish q0); [|done]. by intros [= ->].
  - destruct (refused budget q0 (Some c)) eqn:Er; [done|].
    destruct (step q0 c) as [q1|] eqn:E; [|done]. intros Hscan.
    specialize (IH _ Hscan). destruct (upto_last "]" s) as [sp|].
    + simpl. by rewrite Er, E.
    + destruct (Ascii.eqb c "]") eqn:Eb.
      * simpl. rewrite Er, E. rewrite (finish_array _ _ IH), refused_done.
        by rewrite <- (finish_array _ _ IH), IH.
      * eapply step_done; eauto. intros ->. done.
Qed.

Lemma from_first_head c s sfx :
  from_first c s = Some sfx -> exists t, sfx = String c t.
Proof.
  induction s as [|a s IH]; simpl; [done|].
  destruct (Ascii.eqb a c) eqn:E; [|done].
  intros [= <-]. apply Ascii.eqb_eq in E as ->. by eexists.
Qed.

Lemma upto_last_head c a t sp :
  upto_last c (String a t) = Some sp -> exists t', sp = String a t'.
Proof.
  simpl. destruct (upto_last c t); [intros [= <-]; by eexists|].
  destruct (Ascii.eqb a c); [|done]. intros [= <-]. by eexists.
Qed.

(** A text that decodes to an array decodes to the same array once cut down
    to the span between its first opening and its last closing bracket. *)
Lemma loads_array_span budget text items :
  loads budget text = Ok (JArr items) ->
  exists span, search_span "[" "]" text = Some span
               /\ loads budget span = Ok (JArr items).
Proof.
  unfold loads. destruct (startswith BOM text); [done|]. intros Hscan.
  destruct (scan_from_first _ _ _ Hscan) as (sfx & Hsfx & Hscan').
  pose proof (scan_upto_last _ _ _ _ Hscan') as Hup.
  destruct (from_first_head _ _ _ Hsfx) as [t ->].
  destruct (upto_last "]" (String "[" t)) as [sp|] eqn:Esp; [|done].
  exists sp. unfold search_span. rewrite Hsfx. split; [done|].
  destruct (upto_last_head _ _ _ _ Esp) as [t' ->].
  change (startswith BOM (String "[" t')) with false. by cbv iota.
Qed.







End RecoveryFacts.

(** ** What makes json.loads raise something else than JSONDecodeError *)

Section LimitFacts.
Import Py Json Spec FillDtcGaps.


















End LimitFacts.


(** ** The removal of commas before a closing bracket *)

Section CommaFacts.
Import Py Json Spec FillDtcGaps.

Lemma append_cons a s t : String a s +:+ t = String a (s +:+ t).
Proof. reflexivity. Qed.

Lemma append_nil t : "" +:+ t = t.
Proof. reflexivity. Qed.

Lemma is_space2_lead c d : is_space2 c d = true -> is_space c = false.
Proof.
  unfold is_space2, is_space. intros [H _]%andb_true_iff.
  apply N.eqb_eq in H. by rewrite H.
Qed.

Lemma is_space3_lead c d e :
  is_space3 c d e = true -> is_space c = false /\ is_space2 c d = false.
Proof.
  unfold is_space3, is_space2, is_space. intros H.
  assert (N_of_ascii c = 225 \/ N_of_ascii c = 226 \/ N_of_ascii c = 227)%N as Hc.
  { repeat (apply orb_true_iff in H as [H|H]);
      repeat (apply andb_true_iff in H as [H ?]);
      apply N.eqb_eq in H; auto. }
  destruct Hc as [-> |[-> | ->]]; done.
Qed.

Lemma lstrip_bracket rest : lstrip (String "]" rest) = String "]" rest.
Proof. by destruct rest as [|d [|e t3]]. Qed.

Lemma lstrip_white ws rest :
  white ws -> lstrip (ws +:+ String "]" rest) = String "]" rest.
Proof.
  induction 1 as [|ch ws Hch Hws IH]; [apply lstrip_bracket|].
  destruct ch as [|c [|d [|e [|? ?]]]]; try done; simpl in Hch;
    rewrite !append_cons, append_nil.
  - simpl. by rewrite Hch.
  - simpl. by rewrite (is_space2_lead _ _ Hch), Hch.
  - destruct (is_space3_lead _ _ _ Hch) as [H1 H2]. simpl. by rewrite H1, H2, Hch.
Qed.

Lemma lstrip_split_bounded n t :
  String.length t <= n -> exists ws, white ws /\ t = ws +:+ lstrip t.
Proof.
  revert t. induction n as [|n IH]; intros t Hlen.
  { destruct t; [|simpl in Hlen; lia]. exists "". split; [constructor|done]. }
  destruct t as [|c t]; [exists ""; split; [constructor|done]|].
  simpl in Hlen. simpl lstrip. destruct (is_space c) eqn:E1.
  { destruct (IH t) as (ws & Hws & Ht); [lia|].
    exists (String c "" +:+ ws). split; [by constructor|].
    rewrite !append_cons, append_nil. by rewrite <- Ht. }
  destruct t as [|d t2]; [exists ""; split; [constructor|done]|].
  simpl in Hlen. destruct (is_space2 c d) eqn:E2.
  { destruct (IH t2) as (ws & Hws & Ht); [lia|].
    exists (String c (String d "") +:+ ws). split; [by constructor|].
    rewrite !append_cons, append_nil. by rewrite <- Ht. }
  destruct t2 as [|e t3]; [exists ""; split; [constructor|done]|].
  simpl in Hlen. destruct (is_space3 c d e) eqn:E3.
  { destruct (IH t3) as (ws & Hws & Ht); [lia|].
    exists (String c (String d (String e "")) +:+ ws). split; [by constructor|].
    rewrite !append_cons, append_nil. by rewrite <- Ht. }
  exists "". split; [constructor|done].
Qed.

Lemma lstrip_split t : exists ws, white ws /\ t = ws +:+ lstrip t.
Proof. by apply (lstrip_split_bounded (String.length t)). Qed.

Lemma length_append s t : String.length (s +:+ t) = String.length s + String.length t.
Proof.
  induction s as [|c s IH]; [done|]. rewrite append_cons. simpl. by rewrite IH.
Qed.

Lemma sub_comma_bracket_skip a b :
  sub_comma_bracket (String.length a) (a +:+ b) = sub_comma_bracket 0 b.
Proof.
  induction a as [|c a IH]; [by destruct b|]. rewrite append_cons. exact IH.
Qed.

Lemma append_assoc a b c : (a +:+ b) +:+ c = a +:+ (b +:+ c).
Proof.
  induction a as [|x a IH]; [done|]. rewrite !append_cons. by rewrite IH.
Qed.

(** A comma that white space and a closing bracket follow goes, with the
    white space. *)
Lemma sub_comma_bracket_match ws rest :
  white ws ->
  sub_comma_bracket 0 (String "," (ws +:+ String "]" rest))
  = String "]" (sub_comma_bracket 0 rest).
Proof.
  intros Hws. simpl. unfold skip_space. rewrite (lstrip_white _ _ Hws). simpl.
  f_equal. rewrite length_append. simpl String.length.
  replace (String.length ws + S (String.length rest) - S (String.length rest) + 1)
    with (String.length (ws +:+ "]")) by (rewrite length_append; simpl; lia).
  replace (ws +:+ String "]" rest) with ((ws +:+ "]") +:+ rest)
    by (by rewrite append_assoc).
  apply sub_comma_bracket_skip.
Qed.

(** Every other character stays. *)
Lemma sub_comma_bracket_keep c t :
  (c = ","%char -> forall ws rest, white ws -> t <> ws +:+ String "]" rest) ->
  sub_comma_bracket 0 (String c t) = String c (sub_comma_bracket 0 t).
Proof.
  intros H. simpl. destruct (Ascii.eqb c "," && _) eqn:E; [|done].
  exfalso. apply andb_true_iff in E as [Ec En]. apply Ascii.eqb_eq in Ec.
  destruct (lstrip_split t) as (ws & Hws & Ht). unfold skip_space in En.
  destruct (lstrip t) as [|a rest]; [done|]. simpl in En.
  apply Ascii.eqb_eq in En as ->. by apply (H Ec ws rest Hws).
Qed.
End CommaFacts.


Section RepairFacts.
Import Py Json Spec FillDtcGaps.

Lemma rfind_lower c s : (-1 <= rfind c s)%Z.
Proof.
  induction s as [|a s IH]; simpl; [lia|].
  destruct (0 <=? rfind c s)%Z eqn:E; [lia|]. destruct (Ascii.eqb a c); lia.
Qed.

Lemma rfind_absent c s : (rfind c s < 0)%Z -> count_char c s = 0.
Proof.
  induction s as [|a s IH]; simpl; [done|].
  destruct (0 <=? rfind c s)%Z eqn:E.
  - apply Z.leb_le in E. lia.
  - apply Z.leb_gt in E. destruct (Ascii.eqb a c); [lia|]. intros _. by rewrite IH.
Qed.

(** [rfind] points at the last occurrence, and the slice up to it ends
    there. *)
Lemma rfind_split c s :
  (0 <= rfind c s)%Z ->
  exists pre post,
    s = pre +:+ String c post
    /\ Z.of_nat (String.length pre) = rfind c s
    /\ count_char c post = 0
    /\ str_take (Z.to_nat (rfind c s + 1)) s = pre +:+ String c "".
Proof.
  induction s as [|a s IH]; simpl; [lia|].
  destruct (0 <=? rfind c s)%Z eqn:E.
  - apply Z.leb_le in E. intros _.
    destruct (IH E) as (pre & post & Hs & Hlen & Hcount & Htake).
    exists (String a pre), post. split; [rewrite append_cons; by f_equal|].
    split; [simpl String.length; lia|]. split; [done|].
    replace (Z.to_nat (rfind c s + 1 + 1)) with (S (Z.to_nat (rfind c s + 1))) by lia.
    simpl. rewrite append_cons. by f_equal.
  - apply Z.leb_gt in E. destruct (Ascii.eqb a c) eqn:Ea; [|lia].
    apply Ascii.eqb_eq in Ea as ->. intros _.
    exists "", s. simpl. split; [done|]. split; [done|].
    split; [by apply rfind_absent|done].
Qed.

Lemma parse_json_robustly_repair budget response fixed v :
  strategy1 budget response = Ok None ->
  fixed_json response = Some fixed ->
  loads budget fixed = Ok v ->
  parse_json_robustly budget response = Ok v.
Proof.
  intros H1 H2 H3. unfold parse_json_robustly, or_else. rewrite H1. simpl.
  unfold strategy2. rewrite H2. simpl. by rewrite H3.
Qed.

Lemma fixed_json_shape response fixed :
  fixed_json response = Some fixed ->
  exists json_str pre post,
    from_first "[" response = Some json_str
    /\ json_str = pre +:+ String "}" post
    /\ pre <> ""
    /\ count_char "}" post = 0
    /\ fixed = sub_comma_bracket 0 (pre +:+ "}]").
Proof.
  unfold fixed_json. destruct (from_first "[" response) as [json_str|]; [|done].
  destruct (0 <? rfind "}" json_str)%Z eqn:E; [|done].
  apply Z.ltb_lt in E. intros [= <-].
  destruct (rfind_split "}" json_str) as (pre & post & Hs & Hlen & Hcount & Htake);
    [lia|].
  exists json_str, pre, post. split; [done|]. split; [done|].
  split; [intros ->; simpl in Hlen; lia|]. split; [done|].
  rewrite Htake. f_equal. clear. induction pre as [|a pre IH]; [done|].
  rewrite !append_cons. by rewrite IH.
Qed.
End RepairFacts.

(** ** Recovery of malformed responses *)




(** C4 (as the code has it).  When the whole-document parse yields nothing,
    strategy 2 takes the text from the first opening bracket, cuts it after
    the last closing brace wherever that brace stands (no quote or nesting
    state is kept), appends one closing bracket, removes every comma that is
    followed by optional white space and a closing bracket, and returns what
    [json.loads] makes of the result when it decodes.  The removal goes from
    left to right: a comma followed by white space (Python's, so a no-break
    space counts) and a closing bracket leaves the bracket alone, and every
    other character stays.  For the text truncated inside its second object
    the result is the single record P1234. *)
Theorem bracket_repair_by_last_brace (budget : nat) (response : string) :
  (forall fixed v,
     FillDtcGaps.strategy1 budget response = Py.Ok None ->
     FillDtcGaps.fixed_json response = Some fixed ->
     Json.loads budget fixed = Py.Ok v ->
     FillDtcGaps.parse_json_robustly budget response = Py.Ok v
     /\ exists json_str pre post,
          FillDtcGaps.from_first "[" response = Some json_str
          /\ json_str = pre +:+ String "}" post
          /\ pre <> ""
          /\ Py.count_char "}" post = 0
          /\ fixed = FillDtcGaps.sub_comma_bracket 0 (pre +:+ "}]"))
  /\ FillDtcGaps.sub_comma_bracket 0 "" = ""
  /\ (forall ws rest, Spec.white ws ->
        FillDtcGaps.sub_comma_bracket 0 (String "," (ws +:+ String "]" rest))
        = String "]" (FillDtcGaps.sub_comma_bracket 0 rest))
  /\ (forall c t,
        (c = ","%char -> forall ws rest, Spec.white ws -> t <> ws +:+ String "]" rest) ->
        FillDtcGaps.sub_comma_bracket 0 (String c t)
        = String c (FillDtcGaps.sub_comma_bracket 0 t))
  /\ (2 <= budget ->
      FillDtcGaps.parse_json_robustly budget
        (Py.js "[{'code':'P1234','description':'foo'},{'code':'P1235','desc")
      = Py.Ok (Json.JArr [Json.JObj [("code", Json.JStr "P1234");
                                     ("description", Json.JStr "foo")]]))
  /\ (3 <= budget ->
      FillDtcGaps.parse_json_robustly budget
        (Py.js "[{'a':[1," +:+ Examples.nbsp +:+ "]}")
      = Py.Ok (Json.JArr [Json.JObj [("a", Json.JArr [Json.JNum "1"])]])).
Proof.
  split; [|split; [done|split; [|split; [|split]]]].
  - intros fixed v H1 H2 H3. split; [by eapply parse_json_robustly_repair|].
    by apply fixed_json_shape.
  - apply sub_comma_bracket_match.
  - apply sub_comma_bracket_keep.
  - intros Hb. destruct budget as [|[|b]]; [lia|lia|]. by vm_compute.
  - intros Hb. destruct budget as [|[|[|b]]]; [lia|lia|lia|]. by vm_compute.
Qed.

Lemma bracket_repair_by_last_brace_witness :
  let response := Py.js "[{'code':'P1234','description':'foo'},{'code':'P1235','desc" in
  let fixed := Py.js "[{'code':'P1234','description':'foo'}]" in
  let v := Json.JArr [Json.JObj [("code", Json.JStr "P1234");
                                 ("description", Json.JStr "foo")]] in
  FillDtcGaps.strategy1 1000 response = Py.Ok None
  /\ FillDtcGaps.fixed_json response = Some fixed
  /\ Json.loads 1000 fixed = Py.Ok v
  /\ FillDtcGaps.parse_json_robustly 1000 response = Py.Ok v.
Proof.
  intros response fixed v.
  assert (FillDtcGaps.strategy1 1000 response = Py.Ok None) as H1 by (by vm_compute).
  assert (FillDtcGaps.fixed_json response = Some fixed) as H2 by (by vm_compute).
  assert (Json.loads 1000 fixed = Py.Ok v) as H3 by (by vm_compute).
  split; [exact H1|]. split; [exact H2|]. split; [exact H3|].
  exact (proj1 (proj1 (bracket_repair_by_last_brace 1000 response) fixed v H1 H2 H3)).
Defined.

(** C4, counterexample: with a closing brace inside the quoted string of the
    truncated object, the repair that tracks quotes cuts after the first
    object and recovers P1234, whereas strategy 2 cuts at the brace inside the
    string, its text does not decode, and nothing is recovered. *)
Lemma brace_inside_string_defeats_repair :
  let response :=
    Py.js "[{'code':'P1234','description':'foo'},{'code':'P1235','description':'a}b" in
  Spec.bracket_balance_repair response
  = Some (Py.js "[{'code':'P1234','description':'foo'}]")
  /\ Json.loads 1000 (Py.js "[{'code':'P1234','description':'foo'}]")
     = Py.Ok (Json.JArr [Json.JObj [("code", Json.JStr "P1234");
                                    ("description", Json.JStr "foo")]])
  /\ FillDtcGaps.fixed_json response
     = Some (Py.js "[{'code':'P1234','description':'foo'},{'code':'P1235','description':'a}]")
  /\ FillDtcGaps.strategy2 1000 response = Py.Ok None
  /\ FillDtcGaps.parse_json_robustly 1000 response = Py.Ok (Json.JArr []).
Proof. repeat split; by vm_compute. Qed.

(** ** classify_codes_with_ai *)

Section ClassifyFacts.
Import Py Json Spec FillDtcGaps.

Lemma slices_elem {A} (size room : nat) (cur l : list A) batch e :
  batch ∈ slices size room cur l -> e ∈ batch -> e ∈ cur ++ l.
Proof.
  revert room cur. induction l as [|x l IH]; intros room cur; simpl.
  - destruct cur as [|c cur']; [by intros ?%elem_of_nil|].
    intros ->%list_elem_of_singleton. by rewrite app_nil_r.
  - destruct room as [|r].
    + intros [->|Hb]%elem_of_cons He.
      * apply elem_of_app. by left.
      * apply elem_of_app. right. by apply (IH _ _ Hb).
    + intros Hb He. specialize (IH _ _ Hb He). by rewrite <- app_assoc in IH.
Qed.

Lemma initial_classifications_lookup (manufacturers : list string) owner :
  (list_to_map ((fun make_id => (make_id, [])) <$> manufacturers)
     : gmap string (list (string * string))) !! owner
  = if decide (owner ∈ manufacturers) then Some [] else None.
Proof.
  induction manufacturers as [|m ms IH]; [done|].
  rewrite fmap_cons. simpl. rewrite lookup_insert.
  destruct (decide (m = owner)) as [Hm|Hm].
  - subst owner. rewrite decide_True; [done|left].
  - rewrite IH. destruct (decide (owner ∈ ms)) as [Hin|Hin].
    + rewrite decide_True; [done|by right].
    + rewrite decide_False; [done|].
      intros [?|?]%elem_of_cons; [by subst|done].
Qed.

Lemma foldl_raise {A B} (f : A -> B -> res A) (l : list B) e :
  foldl (fun acc x => m ← acc; f m x) (Raise e) l = Raise e.
Proof. induction l as [|x l IH]; [done|]. simpl. exact IH. Qed.

Lemma foldl_res_invariant {A B} (f : A -> B -> res A) (P : A -> Prop)
    (R : exn -> Prop) (Q : B -> Prop) (l : list B) (a : A) :
  (forall a x, P a -> Q x ->
     match f a x with Ok a' => P a' | Raise e => R e end) ->
  Forall Q l -> P a ->
  match foldl (fun acc x => m ← acc; f m x) (Ok a) l with
  | Ok r => P r
  | Raise e => R e
  end.
Proof.
  intros Hstep. revert a. induction l as [|x l IH]; intros a Hl Ha; simpl; [done|].
  apply Forall_cons in Hl as [Hx Hl].
  change (Ok a ≫= fun m => f m x) with (f a x).
  specialize (Hstep a x Ha Hx).
  destruct (f a x) as [a'|e] eqn:E.
  - by apply IH.
  - by rewrite foldl_raise.
Qed.

Lemma foldl_ext_eq {A B} (f g : A -> B -> A) (l : list B) (a : A) :
  (forall a x, f a x = g a x) -> foldl f a l = foldl g a l.
Proof.
  intros H. revert a. induction l as [|x l IH]; intros a; [done|].
  simpl. by rewrite H, IH.
Qed.

Variable budget : nat.
Variable responses : nat -> option string.
Variable unmatched_codes : list (string * string).
Variable manufacturers : list string.

Lemma classify_one_classified n batch text span classifications m entry :
  slices BATCH_SIZE BATCH_SIZE [] unmatched_codes !! n = Some batch ->
  responses n = Some text ->
  search_span "{" "}" text = Some span ->
  loads budget span = Ok classifications ->
  classified budget responses unmatched_codes manufacturers m ->
  entry ∈ batch ->
  match classify_one manufacturers classifications m entry with
  | Ok m' => classified budget responses unmatched_codes manufacturers m'
  | Raise _ => True
  end.
Proof.
  intros Hn Hr Hs Hl [Hdom Hent] He. unfold classify_one.
  destruct (get_label classifications entry.1) as [make_id|e] eqn:Eg; [|done].
  change (Ok make_id ≫= ?k) with (k make_id). cbv beta.
  destruct (truthy make_id); [|done].
  destruct (label_lower make_id) as [owner|e] eqn:El; [|done].
  change (Ok owner ≫= ?k) with (k owner). cbv beta.
  destruct (bool_decide (owner ∈ manufacturers)) eqn:Eo; [|done].
  apply bool_decide_eq_true in Eo.
  destruct (m !! owner) as [l|] eqn:Em.
  2:{ apply Hdom in Eo. rewrite Em in Eo. by destruct Eo. }
  split.
  - intros o. rewrite lookup_insert. case_decide as Ho; [|apply Hdom].
    subst o. split; [done|]. intros _. by eexists.
  - intros o l' e'. rewrite lookup_insert. case_decide as Ho; [|apply Hent].
    subst o. intros [= <-] [Hin|Hin%list_elem_of_singleton]%elem_of_app.
    + by eapply Hent.
    + subst e'. destruct make_id; try done. injection El as El.
      exists n, batch, text, span, classifications, s. done.
Qed.

Lemma classify_batch_classified n batch m :
  slices BATCH_SIZE BATCH_SIZE [] unmatched_codes !! n = Some batch ->
  classified budget responses unmatched_codes manufacturers m ->
  match classify_batch budget manufacturers m batch (responses n) with
  | Ok m' => classified budget responses unmatched_codes manufacturers m'
  | Raise _ => True
  end.
Proof.
  intros Hn Hm. unfold classify_batch.
  destruct (responses n) as [text|] eqn:Hr; [|done].
  destruct text as [|c t]; [done|].
  destruct (search_span "{" "}" (String c t)) as [span|] eqn:Hs; [|done].
  destruct (loads budget span) as [classifications|e] eqn:Hl.
  - unfold classify_entries.
    apply (foldl_res_invariant (classify_one manufacturers classifications)
             (classified budget responses unmatched_codes manufacturers)
             (fun _ => True)
             (fun entry => entry ∈ batch)); [|by apply Forall_forall|done].
    intros a x Ha Hx. by eapply classify_one_classified.
  - by destruct e.
Qed.

Lemma classify_codes_with_ai_classified :
  match classify_codes_with_ai budget responses unmatched_codes manufacturers with
  | Ok result => classified budget responses unmatched_codes manufacturers result
  | Raise _ => True
  end.
Proof.
  unfold classify_codes_with_ai.
  set (sl := slices BATCH_SIZE BATCH_SIZE [] unmatched_codes).
  assert (forall acc (p : nat * list (string * string)),
            (let '(n, batch) := p in
             m ← acc; classify_batch budget manufacturers m batch (responses n))
            = (m ← acc; classify_batch budget manufacturers m p.2 (responses p.1))) as Hf.
  { by intros acc [n b]. }
  rewrite (foldl_ext_eq _ _ _ _ Hf).
  apply (foldl_res_invariant
           (fun m (p : nat * list (string * string)) =>
              classify_batch budget manufacturers m p.2 (responses p.1))
           (classified budget responses unmatched_codes manufacturers)
           (fun _ => True)
           (fun p => sl !! p.1 = Some p.2)).
  - intros a [n b] Ha Hp. simpl in *. by eapply classify_batch_classified.
  - apply Forall_forall. intros [n b] Hin.
    apply list_elem_of_lookup in Hin as [i Hi].
    rewrite list_lookup_imap in Hi.
    destruct (sl !! i) as [b'|] eqn:Eb; [|done]. injection Hi as <- <-. done.
  - split.
    + intros owner. rewrite initial_classifications_lookup.
      case_decide; split; try done.
    + intros owner l entry. rewrite initial_classifications_lookup.
      case_decide; [|done]. intros [= <-]. by intros ?%elem_of_nil.
Qed.

Lemma assigned_unmatched owner entry :
  assigned budget responses unmatched_codes owner entry -> entry ∈ unmatched_codes.
Proof.
  intros (n & batch & text & m & cls & label & Hn & He & _).
  apply list_elem_of_lookup_2 in Hn.
  by apply (slices_elem _ _ _ _ _ _ Hn He).
Qed.
End ClassifyFacts.

(** With string labels the classification returns. *)
Section ClassifyReturns.
Import Py Json Spec FillDtcGaps.

Lemma dict_get_Forall {V} (P : string * V -> Prop) k (members : list (string * V)) v :
  Forall P members -> dict_get k members = Some v -> exists k', P (k', v).
Proof.
  induction 1 as [|[k0 v0] rest H0 Hrest IH]; simpl; [done|].
  destruct (String.eqb k k0); [intros [= <-]; by exists k0|exact IH].
Qed.

Lemma get_label_string members code :
  Forall (fun kv => exists s, kv.2 = JStr s) members ->
  exists s, get_label (JObj members) code = Ok (JStr s).
Proof.
  intros H. unfold get_label.
  destruct (dict_get code members) as [v|] eqn:E1; simpl.
  { destruct (dict_get_Forall _ _ _ _ H E1) as (k' & s & Hs). simpl in Hs. subst v.
    by exists s. }
  destruct (dict_get (upper code) members) as [v|] eqn:E2; simpl.
  { destruct (dict_get_Forall _ _ _ _ H E2) as (k' & s & Hs). simpl in Hs. subst v.
    by exists s. }
  by exists "unknown".
Qed.

(** With string labels the loop over a batch goes through. *)
Lemma classify_entries_returns manufacturers members batch
    (m : gmap string (list (string * string))) :
  Forall (fun kv => exists s, kv.2 = JStr s) members ->
  (forall owner, owner ∈ manufacturers -> is_Some (m !! owner)) ->
  exists m', classify_entries manufacturers (JObj members) m batch = Ok m'
             /\ forall owner, owner ∈ manufacturers -> is_Some (m' !! owner).
Proof.
  intros Hlabels. unfold classify_entries. revert m.
  induction batch as [|entry batch IH]; intros m Hm; simpl; [by exists m|].
  change (Ok m ≫= ?k) with (k m). cbv beta.
  assert (exists m1, classify_one manufacturers (JObj members) m entry = Ok m1
                     /\ forall owner, owner ∈ manufacturers -> is_Some (m1 !! owner))
    as (m1 & -> & Hm1); [|by apply IH].
  unfold classify_one.
  destruct (get_label_string members entry.1 Hlabels) as [s ->].
  change (Ok (JStr s) ≫= ?k) with (k (JStr s)). cbv beta.
  destruct (truthy (JStr s)); [|by exists m]. simpl label_lower.
  change (Ok (lower s) ≫= ?k) with (k (lower s)). cbv beta.
  destruct (bool_decide (lower s ∈ manufacturers)) eqn:Eo; [|by exists m].
  apply bool_decide_eq_true in Eo. destruct (Hm _ Eo) as [l ->].
  eexists. split; [done|]. intros owner Ho. rewrite lookup_insert.
  case_decide; [done|]. by apply Hm.
Qed.

Lemma classify_batches_returns budget responses manufacturers
    (batches : list (nat * list (string * string)))
    (m : gmap string (list (string * string))) :
  string_labels budget responses ->
  (forall owner, owner ∈ manufacturers -> is_Some (m !! owner)) ->
  exists m',
    foldl (fun acc '(n, batch) =>
             m ← acc; classify_batch budget manufacturers m batch (responses n))
          (Ok m) batches = Ok m'.
Proof.
  intros Hlabels. revert m.
  induction batches as [|[n batch] batches IH]; intros m Hm; simpl; [by exists m|].
  change (Ok m ≫= ?k) with (k m). cbv beta.
  assert (exists m1, classify_batch budget manufacturers m batch (responses n) = Ok m1
                     /\ forall owner, owner ∈ manufacturers -> is_Some (m1 !! owner))
    as (m1 & -> & Hm1); [|by apply IH].
  unfold classify_batch. destruct (responses n) as [text|] eqn:Hr; [|by exists m].
  destruct text as [|c t]; [by exists m|].
  destruct (search_span "{" "}" (String c t)) as [span|] eqn:Hs; [|by exists m].
  specialize (Hlabels _ _ _ Hr Hs).
  destruct (loads budget span) as [[| | | | |members]|e]; try done.
  - by apply classify_entries_returns.
  - subst e. by exists m.
Qed.

Lemma classify_codes_with_ai_returns budget responses unmatched_codes manufacturers :
  string_labels budget responses ->
  exists result,
    classify_codes_with_ai budget responses unmatched_codes manufacturers = Ok result.
Proof.
  intros Hlabels. unfold classify_codes_with_ai.
  apply classify_batches_returns; [done|].
  intros owner Ho. rewrite initial_classifications_lookup. by rewrite decide_True.
Qed.
End ClassifyReturns.

(** ** Classification *)

(** C9.  Whatever the external classifier answers, when
    [classify_codes_with_ai] returns, the keys of its result are exactly the
    supplied candidates, and every (code, description) pair listed under an
    owner is one of the submitted pairs that the classifier's answer for its
    batch labels with a string equal, in lower case, to that owner; so a code
    labelled 'unknown' or with a manufacturer outside the candidates is in no
    list.  It does return when every answer holds an object whose labels are
    strings or a text that [json.loads] rejects as malformed. *)
Theorem classification_is_conservative (budget : nat)
    (responses : nat -> option string)
    (unmatched_codes : list (string * string)) (manufacturers : list string) :
  match FillDtcGaps.classify_codes_with_ai budget responses unmatched_codes
          manufacturers with
  | Py.Ok result =>
      (forall owner, is_Some (result !! owner) <-> owner ∈ manufacturers)
      /\ (forall owner l entry, result !! owner = Some l -> entry ∈ l ->
            owner ∈ manufacturers
            /\ entry ∈ unmatched_codes
            /\ Spec.assigned budget responses unmatched_codes owner entry)
  | Py.Raise _ => True
  end
  /\ (Spec.string_labels budget responses ->
      exists result,
        FillDtcGaps.classify_codes_with_ai budget responses unmatched_codes
          manufacturers = Py.Ok result).
Proof.
  split; [|apply classify_codes_with_ai_returns].
  pose proof (classify_codes_with_ai_classified budget responses unmatched_codes
                manufacturers) as H.
  destruct (FillDtcGaps.classify_codes_with_ai _ _ _ _) as [result|e]; [|done].
  destruct H as [Hdom Hent]. split; [done|].
  intros owner l entry Hl He. split; [apply Hdom; by eexists|].
  pose proof (Hent _ _ _ Hl He) as Ha. split; [|done].
  by eapply assigned_unmatched.
Qed.

(** A run on one batch: the label 'Honda' is matched in lower case, the
    labels 'unknown' and 'bmw' and the unlabelled code are in no list. *)
Example classification_run :
  match
    FillDtcGaps.classify_codes_with_ai 1000
      (fun _ => Some (Py.js "Sure: {'P1601': 'Honda', 'P1602': 'unknown', 'P1603': 'bmw'}"))
      [("P1601", "VTEC"); ("P1602", "x"); ("P1603", "y"); ("P1604", "z")]
      ["honda"; "toyota"]
  with
  | Py.Ok m =>
      (m !! "honda", m !! "toyota", m !! "bmw")
      = (Some [("P1601", "VTEC")], Some [], None)
  | Py.Raise _ => False
  end.
Proof. vm_compute. reflexivity. Qed.

(** * Further properties of the merge and of persistence *)

Set Warnings "-clear-no-such-hyp".

Section StrongSort.
Import Py Spec.
Context {A K : Type} (leb : K -> K -> bool) (key : A -> K).
Hypothesis leb_trans :
  forall a b c, leb a b = true -> leb b c = true -> leb a c = true.

Lemma locally_sorted_head x l :
  locally_sorted leb key (x :: l) ->
  Forall (fun y => leb (key x) (key y) = true) l.
Proof.
  revert x. induction l as [|y l IH]; intros x Hs; [constructor|].
  destruct Hs as [Hxy Hs]. constructor; [done|].
  eapply Forall_impl; [apply (IH y Hs)|].
  intros z Hyz. simpl in Hyz. by eapply leb_trans.
Qed.

Lemma locally_sorted_strongly l :
  locally_sorted leb key l ->
  StronglySorted (fun x y => leb (key x) (key y) = true) l.
Proof.
  induction l as [|x l IH]; intros Hs; constructor.
  - apply IH. by eapply locally_sorted_tail.
  - by apply locally_sorted_head.
Qed.
End StrongSort.

Section MergeMore.
Import Py Spec MergeToJson.

Lemma is_Some_normalized row fn :
  is_Some (normalized row !! fn) <-> fn ∈ fieldnames.
Proof.
  split.
  - intros [v Hv]. unfold normalized in Hv.
    apply elem_of_list_to_map_2 in Hv.
    apply list_elem_of_fmap in Hv as (fn' & [= -> _] & Hin). done.
  - intros Hin. rewrite lookup_normalized by done. by eexists.
Qed.

Lemma merge_row_counts st row :
  new_codes (merge_row st row) + updated_codes (merge_row st row)
  = S (new_codes st + updated_codes st)
  \/ (key_of row ∈ existing_codes st
      /\ first_stored (as_stored (key_of row)) (existing_rows st) = None).
Proof.
  unfold merge_row. destruct (decide (key_of row ∉ existing_codes st)) as [Hn|Hin].
  - left. simpl. lia.
  - assert (key_of row ∈ existing_codes st) as Hin'.
    { destruct (decide (key_of row ∈ existing_codes st)); [done|by destruct Hin]. }
    unfold update_existing.
    destruct (list_find _ _) as [[i r]|] eqn:Ef.
    + left. simpl. lia.
    + right. split; [done|]. apply first_stored_None.
      intros r Hr Hk. apply list_find_None in Ef.
      rewrite Forall_forall in Ef. by apply (Ef r).
Qed.

Lemma merge_row_counted st row :
  codes_agree st ->
  new_codes (merge_row st row) + updated_codes (merge_row st row)
  = S (new_codes st + updated_codes st).
Proof.
  intros Hagree. destruct (merge_row_counts st row) as [H|[Hin Hnone]]; [done|].
  apply Hagree in Hin. done.
Qed.

Lemma merge_rows_counted batch st :
  codes_agree st ->
  new_codes (fold_left merge_row batch st)
  + updated_codes (fold_left merge_row batch st)
  = length batch + (new_codes st + updated_codes st).
Proof.
  revert st. induction batch as [|b batch IH]; intros st Hagree; simpl; [done|].
  rewrite IH by by apply merge_row_agree.
  rewrite merge_row_counted by done. lia.
Qed.

Lemma read_existing_updated file : updated_codes (read_existing file) = 0.
Proof.
  unfold read_existing.
  induction file as [|f file IH] using rev_ind; [done|].
  by rewrite fold_left_app.
Qed.

End MergeMore.

(** The file that [merge_dtc_codes] writes is in ascending order of
    (code, make_id): every row's pair is at most the pair of every row
    after it. *)
Theorem merge_output_sorted (file batch : list (gmap string string)) :
  StronglySorted
    (fun x y => Py.str_pair_leb (MergeToJson.key_of x) (MergeToJson.key_of y) = true)
    (MergeToJson.written_rows (MergeToJson.merge_dtc_codes file batch)).
Proof.
  apply (locally_sorted_strongly Py.str_pair_leb MergeToJson.key_of
           str_pair_leb_trans).
  apply sort_by_sorted, str_pair_leb_total.
Qed.

(** Every row that [merge_dtc_codes] writes has exactly the eleven canonical
    columns, whatever columns the stored file and the batch had: a column
    that a row lacked is written as the empty string and a column outside the
    canonical list is dropped. *)
Theorem merge_output_columns (file batch : list (gmap string string)) :
  Forall (fun r => forall fn, is_Some (r !! fn) <-> fn ∈ MergeToJson.fieldnames)
         (MergeToJson.written_rows (MergeToJson.merge_dtc_codes file batch))
  /\ (forall row fn, fn ∈ MergeToJson.fieldnames -> row !! fn = None ->
        MergeToJson.normalized row !! fn = Some "")
  /\ (forall row fn, fn ∉ MergeToJson.fieldnames ->
        MergeToJson.normalized row !! fn = None).
Proof.
  split; [|split].
  - pose proof (written_rows_normal file batch) as Hn.
    eapply Forall_impl; [exact Hn|]. intros r Hr fn. simpl in Hr.
    rewrite <- Hr. apply is_Some_normalized.
  - intros row fn Hin Hnone. rewrite lookup_normalized by done.
    unfold MergeToJson.get. by rewrite Hnone.
  - intros row fn Hnot. apply eq_None_not_Some. by rewrite is_Some_normalized.
Qed.

(** [merge_dtc_codes] counts every row of the batch exactly once, as added or
    as updated; the number added is the number of distinct (code, make_id)
    pairs of the batch that the stored file did not have. *)
Theorem merge_counts (file batch : list (gmap string string)) :
  let m := MergeToJson.merge_dtc_codes file batch in
  MergeToJson.added m + MergeToJson.updated m = length batch
  /\ MergeToJson.added m
     = size ((list_to_set (MergeToJson.key_of <$> batch) : gset (string * string))
             ∖ list_to_set (MergeToJson.key_of <$> file)).
Proof.
  simpl. split.
  - rewrite merge_rows_counted by apply read_existing_agree.
    rewrite read_existing_new, read_existing_updated. lia.
  - rewrite (merge_rows_new batch _ (list_to_set (MergeToJson.key_of <$> file))).
    + rewrite read_existing_codes. f_equal. set_solver.
    + by rewrite read_existing_codes.
    + rewrite read_existing_new, read_existing_codes.
      replace (_ ∖ _) with (∅ : gset (string * string)) by set_solver.
      by rewrite size_empty.
Qed.

(** After [merge_dtc_codes], the first row written under a (code, make_id)
    pair is the last row of the batch with that pair, in canonical form; a
    pair that the batch does not mention keeps the first row that the stored
    file had for it. *)
Theorem merge_lookup (file batch : list (gmap string string))
    (k : option string * option string) :
  Spec.first_stored k (MergeToJson.written_rows (MergeToJson.merge_dtc_codes file batch))
  = match Spec.last_by_key batch !! k with
    | Some v => Some v
    | None => Spec.first_stored k (MergeToJson.normalized <$> file)
    end.
Proof.
  simpl. rewrite first_stored_sort_by.
  rewrite merge_rows_first by apply read_existing_agree.
  by rewrite read_existing_rows.
Qed.

Section PersistMore.
Import Py Spec FillDtcGaps.

Lemma filter_nil_Forall {A} (P : A -> Prop) `{!forall x, Decision (P x)}
    (l : list A) :
  Forall (fun x => ~ P x) l -> filter P l = [].
Proof.
  induction 1 as [|x l Hx _ IH]; [done|]. by rewrite filter_cons_False.
Qed.

Lemma dup_key_sort_key (x y : DtcRow) :
  dup_key x = dup_key y -> sort_key x = sort_key y.
Proof. unfold dup_key, sort_key. by intros [= -> ->]. Qed.

(** The sort is stable: rows with one pair keep their order. *)
Lemma filter_insert_by (k : string * string) (x : DtcRow) (l : list DtcRow) :
  filter (fun r => dup_key r = k) (insert_by str_pair_leb sort_key x l)
  = filter (fun r => dup_key r = k) (x :: l).
Proof.
  induction l as [|y l IH]; [done|]. simpl.
  destruct (str_pair_leb (sort_key x) (sort_key y)) eqn:E; [done|].
  rewrite (filter_cons _ y), IH, !(filter_cons _ x), (filter_cons _ y).
  destruct (decide (dup_key x = k)) as [Hx|Hx];
    destruct (decide (dup_key y = k)) as [Hy|Hy]; try done.
  exfalso. rewrite (dup_key_sort_key x y) in E by congruence.
  by rewrite str_pair_leb_refl in E.
Qed.

Lemma filter_sort_by (k : string * string) (df : list DtcRow) :
  filter (fun r => dup_key r = k) (sort_by str_pair_leb sort_key df)
  = filter (fun r => dup_key r = k) df.
Proof.
  induction df as [|x df IH]; [done|].
  change (sort_by str_pair_leb sort_key (x :: df))
    with (insert_by str_pair_leb sort_key x (sort_by str_pair_leb sort_key df)).
  by rewrite filter_insert_by, !filter_cons, IH.
Qed.

Lemma filter_drop_duplicates_last (k : string * string) (df : list DtcRow) :
  filter (fun r => dup_key r = k) (drop_duplicates_last df)
  = option_list (last (filter (fun r => dup_key r = k) df)).
Proof.
  induction df as [|r rest IH]; [done|]. simpl.
  rewrite (filter_cons _ r rest).
  destruct (decide (dup_key r ∈ dup_key <$> rest)) as [Hin|Hnot].
  - rewrite IH. destruct (decide (dup_key r = k)) as [Hk|Hk]; [|done].
    subst k. apply list_elem_of_fmap in Hin as (r' & Hkey & Hr').
    assert (r' ∈ filter (fun x => dup_key x = dup_key r) rest) as Hf.
    { by apply list_elem_of_filter. }
    destruct (filter _ rest) as [|z zs]; [by apply elem_of_nil in Hf|done].
  - rewrite filter_cons, IH.
    destruct (decide (dup_key r = k)) as [Hk|Hk]; [|done].
    subst k.
    assert (filter (fun x => dup_key x = dup_key r) rest = []) as ->; [|done].
    apply filter_nil_Forall, Forall_forall. intros x Hx Hkey. apply Hnot.
    apply list_elem_of_fmap. by exists x.
Qed.

Lemma filter_save_dtc_codes (k : string * string) (df : list DtcRow) :
  filter (fun r => dup_key r = k) (save_dtc_codes df)
  = option_list (last (filter (fun r => dup_key r = k) df)).
Proof.
  unfold save_dtc_codes. by rewrite filter_drop_duplicates_last, filter_sort_by.
Qed.

Lemma filter_drop_duplicates_first_from (k : string * string)
    (seen : gset (string * string)) (df : list DtcRow) :
  filter (fun r => dup_key r = k) (drop_duplicates_first_from seen df)
  = if decide (k ∈ seen) then []
    else option_list (head (filter (fun r => dup_key r = k) df)).
Proof.
  revert seen. induction df as [|r rest IH]; intros seen; simpl.
  - by destruct (decide (k ∈ seen)).
  - rewrite (filter_cons _ r rest).
    destruct (decide (dup_key r ∈ seen)) as [Hin|Hnot].
    + rewrite IH. destruct (decide (k ∈ seen)) as [Hk|Hk]; [done|].
      destruct (decide (dup_key r = k)) as [Heq|Heq]; [|done].
      subst k. done.
    + rewrite filter_cons, IH.
      destruct (decide (dup_key r = k)) as [Heq|Heq].
      * subst k. rewrite decide_True by (apply elem_of_union_r, elem_of_singleton; done).
        by rewrite decide_False by done.
      * destruct (decide (k ∈ seen)) as [Hk|Hk].
        -- rewrite decide_True by (by apply elem_of_union_l). done.
        -- rewrite decide_False; [done|].
           intros [H|H%elem_of_singleton]%elem_of_union; [done|]. by subst k.
Qed.

Lemma drop_duplicates_first_from_sublist (seen : gset (string * string))
    (df : list DtcRow) :
  sublist (drop_duplicates_first_from seen df) df.
Proof.
  revert seen. induction df as [|r rest IH]; intros seen; simpl; [done|].
  destruct (decide (dup_key r ∈ seen)).
  - by apply sublist_cons.
  - by apply sublist_skip.
Qed.

Lemma drop_duplicates_first_from_keys (seen : gset (string * string))
    (df : list DtcRow) (k : string * string) :
  k ∈ dup_key <$> drop_duplicates_first_from seen df ->
  (k ∉ seen) /\ (k ∈ dup_key <$> df).
Proof.
  revert seen. induction df as [|r rest IH]; intros seen; simpl.
  - by intros ?%elem_of_nil.
  - destruct (decide (dup_key r ∈ seen)) as [Hin|Hnot].
    + intros [Hk Hr]%IH. split; [done|]. by apply elem_of_cons; right.
    + rewrite fmap_cons. intros [->|[Hk Hr]%IH]%elem_of_cons.
      * split; [done|]. by apply elem_of_cons; left.
      * split; [|by apply elem_of_cons; right].
        intros H. apply Hk. by apply elem_of_union_l.
Qed.

Lemma drop_duplicates_first_from_NoDup (seen : gset (string * string))
    (df : list DtcRow) :
  NoDup (dup_key <$> drop_duplicates_first_from seen df).
Proof.
  revert seen. induction df as [|r rest IH]; intros seen; simpl; [constructor|].
  destruct (decide (dup_key r ∈ seen)); [apply IH|].
  rewrite fmap_cons. constructor; [|apply IH].
  intros [Hk _]%drop_duplicates_first_from_keys. apply Hk.
  apply elem_of_union_r. by apply elem_of_singleton.
Qed.

Lemma load_existing_dtc_codes_eq (output assets : option (list DtcRow)) :
  load_existing_dtc_codes output assets
  = drop_duplicates_first (default [] output ++ default [] assets).
Proof.
  unfold load_existing_dtc_codes.
  destruct output as [o|], assets as [a|]; simpl; try done.
  - by rewrite app_nil_r.
  - by rewrite app_nil_r.
Qed.

End PersistMore.

(** What [save_dtc_codes] writes is in ascending order of (make_id, code),
    and the row it keeps for a (code, make_id) pair is the last row of the
    frame with that pair: the sort does not reorder rows that share a pair,
    so a row appended later replaces the earlier ones. *)
Theorem save_sorted_keeps_last (df : list FillDtcGaps.DtcRow) :
  StronglySorted
    (fun x y => Py.str_pair_leb (FillDtcGaps.sort_key x) (FillDtcGaps.sort_key y) = true)
    (FillDtcGaps.save_dtc_codes df)
  /\ Forall
       (fun r =>
          last (filter (fun x => FillDtcGaps.dup_key x = FillDtcGaps.dup_key r) df)
          = Some r)
       (FillDtcGaps.save_dtc_codes df).
Proof.
  split.
  - apply (locally_sorted_strongly Py.str_pair_leb FillDtcGaps.sort_key
             str_pair_leb_trans).
    apply save_dtc_codes_sorted.
  - apply Forall_forall. intros r Hr.
    assert (r ∈ filter (fun x => FillDtcGaps.dup_key x = FillDtcGaps.dup_key r)
                       (FillDtcGaps.save_dtc_codes df)) as Hf.
    { by apply list_elem_of_filter. }
    rewrite filter_save_dtc_codes in Hf.
    destruct (last _) as [z|]; simpl in Hf.
    + by apply list_elem_of_singleton in Hf as ->.
    + by apply elem_of_nil in Hf.
Qed.

(** [load_existing_dtc_codes] returns the rows of the output file followed by
    those of the assets file with, for each (code, make_id) pair, only the
    first row kept: the result has no pair twice, keeps the order of the
    files, and a pair that the output file has is loaded from the output
    file, never from the assets copy.  With neither file it is empty. *)
Theorem load_prefers_output (output assets : option (list FillDtcGaps.DtcRow)) :
  let combined := default [] output ++ default [] assets in
  let df := FillDtcGaps.load_existing_dtc_codes output assets in
  NoDup (FillDtcGaps.dup_key <$> df)
  /\ sublist df combined
  /\ (forall k,
        filter (fun r => FillDtcGaps.dup_key r = k) df
        = option_list (head (filter (fun r => FillDtcGaps.dup_key r = k) combined)))
  /\ Forall
       (fun r =>
          filter (fun x => FillDtcGaps.dup_key x = FillDtcGaps.dup_key r) df
          = option_list
              (head (filter (fun x => FillDtcGaps.dup_key x = FillDtcGaps.dup_key r)
                            (default [] output))))
       (default [] output)
  /\ FillDtcGaps.load_existing_dtc_codes None None = [].
Proof.
  intros combined df. unfold df. rewrite load_existing_dtc_codes_eq.
  fold combined. unfold FillDtcGaps.drop_duplicates_first.
  assert (forall k,
            filter (fun r => FillDtcGaps.dup_key r = k)
                   (FillDtcGaps.drop_duplicates_first_from ∅ combined)
            = option_list (head (filter (fun r => FillDtcGaps.dup_key r = k) combined)))
    as Hfilter.
  { intros k. rewrite filter_drop_duplicates_first_from.
    by rewrite decide_False by apply not_elem_of_empty. }
  split; [apply drop_duplicates_first_from_NoDup|].
  split; [apply drop_duplicates_first_from_sublist|].
  split; [exact Hfilter|]. split; [|done].
  apply Forall_forall. intros r Hr. rewrite Hfilter. unfold combined.
  rewrite filter_app.
  assert (r ∈ filter (fun x => FillDtcGaps.dup_key x = FillDtcGaps.dup_key r)
                     (default [] output)) as Hf.
  { by apply list_elem_of_filter. }
  destruct (filter _ (default [] output)) as [|z zs]; [by apply elem_of_nil in Hf|done].
Qed.

(** * Further properties of the imports *)

Section ImportMore.
Import Py Spec FillDtcGaps.

Lemma detect_powertrain_valid c d :
  detect_powertrain_from_code c d ∈ VALID_TYPES.
Proof.
  unfold detect_powertrain_from_code, VALID_TYPES.
  repeat (destruct (any_in _ _); [set_solver|]). set_solver.
Qed.

Lemma detect_severity_closed c d :
  detect_severity_from_code c d ∈ ["Critical"; "High"; "Low"; "Medium"].
Proof.
  unfold detect_severity_from_code.
  repeat (destruct (any_in _ _); [set_solver|]). set_solver.
Qed.

Lemma quick_import_code_normal make entry :
  set_powertrain_type (quick_import_code make entry)
    (Str (normalize_powertrain (powertrain_type (quick_import_code make entry))))
  = quick_import_code make entry.
Proof.
  apply set_powertrain_type_same. destruct entry as [c d].
  unfold quick_import_code. cbn [powertrain_type].
  by rewrite normalize_powertrain_fixed by apply detect_powertrain_valid.
Qed.

Lemma filter_false_nil {A} (p : A -> bool) (l : list A) :
  Forall (fun x => p x = false) l -> List.filter p l = [].
Proof.
  induction 1 as [|x l Hx _ IH]; [done|]. simpl. by rewrite Hx.
Qed.

Lemma upper_char_idempotent c : upper_char (upper_char c) = upper_char c.
Proof.
  destruct c as [[] [] [] [] [] [] [] []]; reflexivity.
Qed.

Lemma lower_char_idempotent c : lower_char (lower_char c) = lower_char c.
Proof.
  destruct c as [[] [] [] [] [] [] [] []]; reflexivity.
Qed.

Lemma upper_idempotent s : upper (upper s) = upper s.
Proof.
  induction s as [|c s IH]; [done|]. simpl. by rewrite upper_char_idempotent, IH.
Qed.

Lemma lower_idempotent s : lower (lower s) = lower s.
Proof.
  induction s as [|c s IH]; [done|]. simpl. by rewrite lower_char_idempotent, IH.
Qed.

End ImportMore.

(** The rows that [quick_import_codes] builds carry the codes and
    descriptions it was given, in order and unchanged (the code is not
    upper-cased), under the given make; their severity is one of Critical,
    High, Low, Medium and their powertrain type is one of the seven valid
    types, so that the clean-up pass leaves them, and the counters, as they
    are. *)
Theorem quick_import_rows_are_clean (codes : list (string * string))
    (make_id : string) (stats : FillDtcGaps.UsageStats) :
  let rows := FillDtcGaps.quick_import_codes codes make_id in
  (fun r => (FillDtcGaps.code r, FillDtcGaps.description r)) <$> rows = codes
  /\ Forall (fun r => FillDtcGaps.make_id r = make_id) rows
  /\ Forall (fun r => exists s t,
               FillDtcGaps.severity r = FillDtcGaps.Str s
               /\ s ∈ ["Critical"; "High"; "Low"; "Medium"]
               /\ FillDtcGaps.powertrain_type r = FillDtcGaps.Str t
               /\ t ∈ FillDtcGaps.VALID_TYPES) rows
  /\ FillDtcGaps.cleanup_powertrain_data true stats rows false = (rows, stats).
Proof.
  intros rows. unfold rows, FillDtcGaps.quick_import_codes.
  split; [|split; [|split]].
  - rewrite <- list_fmap_compose. rewrite <- (list_fmap_id codes) at 2.
    apply list_fmap_ext. by intros i [c d] _.
  - apply Forall_fmap, Forall_forall. by intros [c d] _.
  - apply Forall_fmap, Forall_forall. intros [c d] _. simpl.
    eexists _, _. split; [done|]. split; [apply detect_severity_closed|].
    split; [done|apply detect_powertrain_valid].
  - apply injective_projections.
    + change (fst ?p) with (p.1). rewrite cleanup_frame.
      rewrite <- list_fmap_compose.
      apply list_fmap_ext. intros i entry _. simpl.
      apply quick_import_code_normal.
    + change (snd ?p) with (p.2). apply stats_ext.
      * apply cleanup_stats_other.
      * rewrite cleanup_counter. simpl.
        rewrite filter_false_nil; [simpl; lia|].
        apply Forall_fmap, Forall_forall. intros entry _. simpl.
        apply negb_false_iff, bool_decide_eq_true.
        pose proof (quick_import_code_normal make_id entry) as H.
        apply (f_equal FillDtcGaps.powertrain_type) in H. simpl in H. done.
      * apply cleanup_stats_other.
Qed.

(** [import_all_generic_codes] is idempotent: run on the frame and counters
    that it returned, with the same reference table, it finds nothing left to
    import and returns them unchanged. *)
Theorem generic_import_idempotent (reference_codes : list (string * string))
    (stats : FillDtcGaps.UsageStats) (df : list FillDtcGaps.DtcRow) :
  let once := FillDtcGaps.import_all_generic_codes reference_codes stats df in
  FillDtcGaps.import_all_generic_codes reference_codes once.2 once.1 = once.
Proof.
  intros once.
  destruct (import_all_generic_codes_result reference_codes stats df) as [Hdf _].
  fold once in Hdf. cbv zeta in Hdf.
  set (all_existing := (list_to_set _ : gset string)) in Hdf.
  unfold FillDtcGaps.import_all_generic_codes at 1.
  destruct reference_codes as [|entry0 reference_codes']; [by destruct once|].
  set (reference_codes := entry0 :: reference_codes') in *.
  rewrite select_generic_nil; [by destruct once|].
  intros c Hc Hpre.
  apply elem_of_list_to_set, list_elem_of_fmap.
  destruct (decide (Py.upper c ∈ all_existing)) as [Hin|Hnot].
  - apply elem_of_list_to_set, list_elem_of_fmap in Hin as (x & Hx & Hxin).
    exists x. split; [done|]. rewrite Hdf. apply elem_of_app. by left.
  - assert (c ∈ fst <$> FillDtcGaps.select_generic all_existing reference_codes) as Hsel.
    { apply select_generic_keys. done. }
    apply list_elem_of_fmap in Hsel as (entry & -> & Hentry).
    exists (FillDtcGaps.quick_import_code "generic" entry). split.
    + by destruct entry.
    + rewrite Hdf. apply elem_of_app. right.
      unfold FillDtcGaps.quick_import_codes. by apply list_elem_of_fmap_2.
Qed.

Section ScrapedMore.
Import Py Spec FillDtcGaps.

Lemma scan_skip df keys scraped_df st :
  fold_left (scan_row df keys false) scraped_df st
  = {| new_codes := new_codes st ++ omap (fresh keys) scraped_df;
       codes_to_update := codes_to_update st;
       skipped_codes :=
         skipped_codes st
         + length (List.filter
                     (fun row => bool_decide (is_Some (keys !! scraped_key row)))
                     scraped_df) |}.
Proof.
  revert st. induction scraped_df as [|row rest IH]; intros st; simpl.
  - destruct st. simpl. f_equal; [by rewrite app_nil_r|lia].
  - rewrite IH, scan_row_skip. cbn [new_codes codes_to_update skipped_codes].
    unfold fresh at 1 3.
    destruct (keys !! scraped_key row) as [idx|] eqn:E; cbn [option_list].
    + rewrite app_nil_r. f_equal.
      rewrite bool_decide_true by by eexists. simpl. lia.
    + rewrite <- app_assoc. f_equal.
      rewrite bool_decide_false by (by intros [? ?]). lia.
Qed.

Lemma scan_scraped_skip df scraped_df :
  scan_scraped df false scraped_df
  = {| new_codes := omap (fresh (build_existing_keys df)) scraped_df;
       codes_to_update := [];
       skipped_codes :=
         length (List.filter
                   (fun row => bool_decide
                      (is_Some (build_existing_keys df !! scraped_key row)))
                   scraped_df) |}.
Proof. unfold scan_scraped. by rewrite scan_skip. Qed.

Lemma quick_import_codes_nil_inv codes make :
  quick_import_codes codes make = [] -> codes = [].
Proof. unfold quick_import_codes. by intros ?%fmap_nil_inv. Qed.

(** The import without update and without enrichment, on a file that has
    rows. *)
Lemma import_scraped_plain stats df first rest :
  let scraped_df := first :: rest in
  let added := omap (fresh (build_existing_keys df)) scraped_df in
  let make := lower (s_make_id first) in
  let new_rows := quick_import_codes added make in
  import_scraped_dtc_codes stats df scraped_df None false
  = Ok (match added with
        | [] => df
        | _ => sort_by str_pair_leb sort_key (df ++ new_rows)
        end,
        match added with
        | [] => stats
        | _ => add_codes
                 {| codes_added := codes_added stats + length new_rows;
                    codes_updated := codes_updated stats;
                    codes_by_manufacturer := codes_by_manufacturer stats |}
                 make (length new_rows)
        end).
Proof.
  intros scraped_df added make new_rows.
  unfold import_scraped_dtc_codes, scraped_df.
  rewrite scan_scraped_skip. cbn [new_codes codes_to_update].
  subst new_rows make. unfold added, scraped_df.
  destruct (omap _ (first :: rest)) as [|a0 al] eqn:Ea; [done|].
  destruct (quick_import_codes (a0 :: al) _) as [|r0 rl] eqn:En; [|done].
  by apply quick_import_codes_nil_inv in En.
Qed.

Lemma fresh_None_iff (df : list DtcRow) (row : ScrapedRow) :
  fresh (build_existing_keys df) row = None
  <-> exists r, r ∈ df /\ identity_key r = scraped_key row.
Proof.
  unfold fresh. destruct (build_existing_keys df !! scraped_key row) as [idx|] eqn:E.
  - split; [intros _|done].
    apply build_existing_keys_lookup in E as (r & Hr & Hk & _).
    exists r. split; [by eapply list_elem_of_lookup_2|done].
  - split; [done|]. intros (r & Hr & Hk).
    rewrite build_existing_keys_None in E. by destruct (E r Hr).
Qed.

Lemma omap_nil_Forall {A B} (f : A -> option B) (l : list A) :
  Forall (fun x => f x = None) l -> omap f l = [].
Proof. induction 1 as [|x l Hx _ IH]; [done|]. simpl. by rewrite Hx. Qed.

End ScrapedMore.

(** Without [update_existing] the scraped import changes no existing row:
    with the quick import, the returned frame is the old rows together with
    one new row for every scraped row whose key (code in upper case, make in
    lower case) the frame did not have, sorted by (make_id, code) when there
    is a new row and returned as it was otherwise.  Every new row is filed
    under the make of the first scraped row.  [stats.codes_updated] is left
    alone and [stats.codes_added] grows by twice the number of new rows (it
    is incremented directly and again by [add_codes]).  An empty scraped file
    raises [IndexError]. *)
Theorem scraped_import_without_update (stats : FillDtcGaps.UsageStats)
    (df : list FillDtcGaps.DtcRow) (scraped_df : list FillDtcGaps.ScrapedRow) :
  let added := omap (Spec.fresh (FillDtcGaps.build_existing_keys df)) scraped_df in
  match scraped_df with
  | [] =>
      FillDtcGaps.import_scraped_dtc_codes stats df scraped_df None false
      = Py.Raise Py.IndexError
  | first :: _ =>
      let new_rows :=
        FillDtcGaps.quick_import_codes added (Py.lower (FillDtcGaps.s_make_id first)) in
      exists df' stats',
        FillDtcGaps.import_scraped_dtc_codes stats df scraped_df None false
        = Py.Ok (df', stats')
        /\ df' ≡ₚ df ++ new_rows
        /\ df' = match added with
                 | [] => df
                 | _ => Py.sort_by Py.str_pair_leb FillDtcGaps.sort_key (df ++ new_rows)
                 end
        /\ FillDtcGaps.codes_updated stats' = FillDtcGaps.codes_updated stats
        /\ FillDtcGaps.codes_added stats'
           = FillDtcGaps.codes_added stats + 2 * length added
  end.
Proof.
  intros added. destruct scraped_df as [|first rest]; [done|].
  intros new_rows. rewrite import_scraped_plain.
  eexists _, _. split; [reflexivity|].
  unfold new_rows, added, FillDtcGaps.quick_import_codes.
  destruct (omap _ (first :: rest)) as [|a0 al].
  - split; [by rewrite app_nil_r|]. split; [done|]. split; [done|simpl; lia].
  - split; [apply sort_by_perm|]. split; [done|]. split; [done|].
    cbn [FillDtcGaps.add_codes FillDtcGaps.codes_added].
    rewrite length_fmap. lia.
Qed.

(** Importing a scraped file a second time adds nothing, provided all its
    rows name one manufacturer (up to letter case): run again, without
    update and with the quick import, on the frame that the first import
    returned, the import returns that frame and the counters unchanged.  (New
    rows are filed under the manufacturer of the first row, so a row naming
    another manufacturer would be imported again.) *)
Theorem scraped_import_repeat (stats stats2 : FillDtcGaps.UsageStats)
    (df df1 : list FillDtcGaps.DtcRow) (stats1 : FillDtcGaps.UsageStats)
    (scraped_df : list FillDtcGaps.ScrapedRow) (make : string)
    (Hmake : Forall (fun row => Py.lower (FillDtcGaps.s_make_id row) = make) scraped_df)
    (Hfirst : FillDtcGaps.import_scraped_dtc_codes stats df scraped_df None false
              = Py.Ok (df1, stats1)) :
  FillDtcGaps.import_scraped_dtc_codes stats2 df1 scraped_df None false
  = Py.Ok (df1, stats2).
Proof.
  destruct scraped_df as [|first rest]; [done|].
  rewrite import_scraped_plain in Hfirst. rewrite import_scraped_plain.
  remember (omap (Spec.fresh (FillDtcGaps.build_existing_keys df)) (first :: rest))
    as added eqn:Ha.
  remember (FillDtcGaps.quick_import_codes added
              (Py.lower (FillDtcGaps.s_make_id first))) as new_rows eqn:Hn.
  assert (Py.lower (FillDtcGaps.s_make_id first) = make) as Hmake0.
  { by apply Forall_cons in Hmake as [? _]. }
  assert (forall r, r ∈ df ++ new_rows -> r ∈ df1) as Hsub.
  { intros r Hr. injection Hfirst as Hdf _. rewrite <- Hdf.
    destruct added as [|a0 al].
    - subst new_rows. simpl in Hr. by rewrite app_nil_r in Hr.
    - by apply elem_of_sort_by. }
  rewrite omap_nil_Forall; [done|].
  apply Forall_forall. intros row Hrow. apply fresh_None_iff.
  destruct (Spec.fresh (FillDtcGaps.build_existing_keys df) row) as [entry|] eqn:E.
  - exists (FillDtcGaps.quick_import_code (Py.lower (FillDtcGaps.s_make_id first)) entry).
    split.
    + apply Hsub, elem_of_app. right. subst new_rows.
      unfold FillDtcGaps.quick_import_codes.
      apply list_elem_of_fmap_2. subst added. apply list_elem_of_omap.
      by exists row.
    + unfold Spec.fresh in E.
      destruct (FillDtcGaps.build_existing_keys df !! Spec.scraped_key row); [done|].
      injection E as <-. unfold Spec.identity_key, Spec.scraped_key. simpl.
      rewrite upper_idempotent, lower_idempotent, Hmake0. f_equal.
      rewrite Forall_forall in Hmake. symmetry. by apply Hmake.
  - apply fresh_None_iff in E as (r & Hr & Hk). exists r. split; [|done].
    apply Hsub, elem_of_app. by left.
Qed.

Lemma scraped_import_repeat_witness :
  let scraped_df := [Examples.scraped "p0420" "Honda" "Catalyst";
                     Examples.scraped "P1259" "honda" "VTEC system"] in
  let df := [Examples.dtc "P0420" "honda" "Catalyst efficiency"] in
  let df1 := [Examples.dtc "P0420" "honda" "Catalyst efficiency";
              FillDtcGaps.quick_import_code "honda" ("P1259", "VTEC system")] in
  FillDtcGaps.import_scraped_dtc_codes Examples.stats0 df1 scraped_df None false
  = Py.Ok (df1, Examples.stats0).
Proof.
  intros scraped_df df df1.
  apply (scraped_import_repeat Examples.stats0 Examples.stats0 df df1
           (FillDtcGaps.add_codes
              {| FillDtcGaps.codes_added := 1; FillDtcGaps.codes_updated := 0;
                 FillDtcGaps.codes_by_manufacturer := ∅ |} "honda" 1)
           scraped_df "honda").
  - repeat constructor.
  - vm_compute. reflexivity.
Defined.

Section CollectFacts.
Import Py Spec FillDtcGaps.

Lemma dict_set_NoDup k v d :
  NoDup (fst <$> d) -> NoDup (fst <$> dict_set k v d).
Proof.
  induction d as [|[k0 v0] d IH]; simpl.
  - intros _. apply NoDup_singleton.
  - destruct (String.eqb k k0) eqn:E; csimpl.
    + apply String.eqb_eq in E as <-. done.
    + intros [Hnot Hd]%NoDup_cons. apply NoDup_cons. split; [|by apply IH].
      rewrite dict_set_keys. intros [->|Hin]; [|done].
      by rewrite String.eqb_refl in E.
Qed.

Lemma collect_snoc key l c d :
  collect key (l ++ [(c, d)])
  = match key c with
    | Some k => dict_set k d (collect key l)
    | None => collect key l
    end.
Proof. unfold collect. by rewrite fold_left_app. Qed.

Lemma collect_keys key l k :
  k ∈ fst <$> collect key l <-> exists c, c ∈ fst <$> l /\ key c = Some k.
Proof.
  induction l as [|[c d] l IH] using rev_ind.
  - split; [by intros ?%elem_of_nil|]. by intros (c & ?%elem_of_nil & _).
  - rewrite collect_snoc. destruct (key c) as [kc|] eqn:E.
    + rewrite dict_set_keys, IH. split.
      * intros [->|(c' & Hc' & Hk)].
        -- exists c. split; [|done]. rewrite fmap_app. apply elem_of_app. right.
           by apply list_elem_of_singleton.
        -- exists c'. split; [|done]. rewrite fmap_app. apply elem_of_app. by left.
      * intros (c' & Hc' & Hk). rewrite fmap_app in Hc'.
        apply elem_of_app in Hc' as [Hc'|Hc'%list_elem_of_singleton].
        -- right. by exists c'.
        -- left. simpl in Hc'. subst c'. congruence.
    + rewrite IH. split.
      * intros (c' & Hc' & Hk). exists c'. split; [|done].
        rewrite fmap_app. apply elem_of_app. by left.
      * intros (c' & Hc' & Hk). rewrite fmap_app in Hc'.
        apply elem_of_app in Hc' as [Hc'|Hc'%list_elem_of_singleton].
        -- by exists c'.
        -- simpl in Hc'. subst c'. congruence.
Qed.

Lemma collect_entries key l k d :
  (k, d) ∈ collect key l -> exists c, (c, d) ∈ l /\ key c = Some k.
Proof.
  induction l as [|[c0 d0] l IH] using rev_ind; [by intros ?%elem_of_nil|].
  rewrite collect_snoc. destruct (key c0) as [kc|] eqn:E.
  - intros [[= -> ->]|Hin]%dict_set_entries.
    + exists c0. split; [|done]. apply elem_of_app. right.
      by apply list_elem_of_singleton.
    + destruct (IH Hin) as (c & Hc & Hk). exists c. split; [|done].
      apply elem_of_app. by left.
  - intros Hin. destruct (IH Hin) as (c & Hc & Hk). exists c. split; [|done].
    apply elem_of_app. by left.
Qed.

Lemma collect_NoDup key l : NoDup (fst <$> collect key l).
Proof.
  induction l as [|[c d] l IH] using rev_ind; [constructor|].
  rewrite collect_snoc. destruct (key c); [by apply dict_set_NoDup|done].
Qed.

Lemma fold_left_ext_eq {A B} (f g : A -> B -> A) (l : list B) (a : A) :
  (forall a x, f a x = g a x) -> fold_left f l a = fold_left g l a.
Proof.
  intros H. revert a. induction l as [|x l IH]; intros a; simpl; [done|].
  by rewrite H, IH.
Qed.

Lemma select_standard_collect existing_codes code_prefix reference_codes :
  select_standard existing_codes code_prefix reference_codes
  = collect (standard_key existing_codes code_prefix) reference_codes.
Proof.
  unfold select_standard, collect. apply fold_left_ext_eq.
  intros acc [c d]. unfold standard_key.
  destruct (decide _); [done|]. by destruct (given code_prefix && _).
Qed.

Lemma length_take_slice {A} (n : Z) (l : list A) :
  (0 <= n)%Z -> (Z.of_nat (length (take_slice n l)) <= n)%Z.
Proof.
  intros Hn. unfold take_slice. rewrite (proj2 (Z.leb_le 0 n)) by done.
  rewrite length_take. lia.
Qed.

Lemma take_slice_sublist {A} (n : Z) (l : list A) : sublist (take_slice n l) l.
Proof. unfold take_slice. destruct (0 <=? n)%Z; apply sublist_take. Qed.

End CollectFacts.

(** [import_standard_codes] with the quick import appends to the frame and
    changes no existing row; it appends at most [max_codes] rows (for a
    [max_codes] that is not negative), no two of them with the same code;
    every appended row is filed under the lower-cased manufacturer, or under
    'generic' when none is given, carries a code and description of the
    reference table, has a code that no row of that make already has (in
    upper case), and starts with the prefix filter (in upper case) when one is
    given.  [stats.codes_added] grows by the number of rows appended. *)
Theorem standard_import_result (reference_codes : list (string * string))
    (stats : FillDtcGaps.UsageStats) (df : list FillDtcGaps.DtcRow)
    (manufacturer code_prefix : option string) (max_codes : Z) :
  let make :=
    if FillDtcGaps.given manufacturer then Py.lower (default "" manufacturer)
    else "generic" in
  let result :=
    FillDtcGaps.import_standard_codes reference_codes stats df manufacturer
      code_prefix max_codes None in
  exists new_rows,
    result.1 = df ++ new_rows
    /\ FillDtcGaps.codes_added result.2
       = FillDtcGaps.codes_added stats + length new_rows
    /\ ((0 <= max_codes)%Z -> (Z.of_nat (length new_rows) <= max_codes)%Z)
    /\ NoDup (FillDtcGaps.code <$> new_rows)
    /\ Forall
         (fun r =>
            FillDtcGaps.make_id r = make
            /\ (FillDtcGaps.code r, FillDtcGaps.description r) ∈ reference_codes
            /\ (forall x, x ∈ df -> FillDtcGaps.make_id x = make ->
                  Py.upper (FillDtcGaps.code x) <> Py.upper (FillDtcGaps.code r))
            /\ (FillDtcGaps.given code_prefix = true ->
                  Py.startswith (Py.upper (default "" code_prefix))
                                (Py.upper (FillDtcGaps.code r)) = true))
         new_rows.
Proof.
  intros make result. unfold result, FillDtcGaps.import_standard_codes.
  clear result.
  assert (exists new_rows : list FillDtcGaps.DtcRow,
            (df, stats).1 = df ++ new_rows
            /\ FillDtcGaps.codes_added (df, stats).2
               = FillDtcGaps.codes_added stats + length new_rows
            /\ ((0 <= max_codes)%Z -> (Z.of_nat (length new_rows) <= max_codes)%Z)
            /\ NoDup (FillDtcGaps.code <$> new_rows)
            /\ Forall
                 (fun r =>
                    FillDtcGaps.make_id r = make
                    /\ (FillDtcGaps.code r, FillDtcGaps.description r) ∈ reference_codes
                    /\ (forall x, x ∈ df -> FillDtcGaps.make_id x = make ->
                          Py.upper (FillDtcGaps.code x) <> Py.upper (FillDtcGaps.code r))
                    /\ (FillDtcGaps.given code_prefix = true ->
                          Py.startswith (Py.upper (default "" code_prefix))
                                        (Py.upper (FillDtcGaps.code r)) = true))
                 new_rows) as Hnone.
  { exists []. simpl. rewrite app_nil_r, Nat.add_0_r.
    split; [done|]. split; [done|]. split; [lia|].
    split; constructor. }
  destruct reference_codes as [|e0 ref0] eqn:Eref; [exact Hnone|].
  rewrite <- Eref in *. clear Eref e0 ref0.
  fold make. set (existing_codes := (list_to_set _ : gset string)).
  rewrite select_standard_collect.
  set (candidates := Spec.collect _ reference_codes).
  destruct candidates as [|c0 cl] eqn:Ec; [exact Hnone|].
  rewrite <- Ec. clear Hnone.
  set (codes_to_import := FillDtcGaps.take_slice max_codes candidates).
  exists (FillDtcGaps.quick_import_codes codes_to_import make).
  assert (FillDtcGaps.code <$> FillDtcGaps.quick_import_codes codes_to_import make
          = fst <$> codes_to_import) as Hcodes.
  { unfold FillDtcGaps.quick_import_codes. rewrite <- list_fmap_compose.
    apply list_fmap_ext. by intros i [c d] _. }
  split; [done|]. split; [done|]. split.
  { intros Hn. unfold FillDtcGaps.quick_import_codes. rewrite length_fmap.
    by apply length_take_slice. }
  split.
  { rewrite Hcodes. apply (sublist_NoDup _ (fst <$> candidates)).
    - apply collect_NoDup.
    - apply fmap_sublist, take_slice_sublist. }
  apply Forall_fmap, Forall_forall. intros [c d] Hentry.
  assert ((c, d) ∈ candidates) as Hcand.
  { eapply elem_of_sublist; [exact Hentry|apply take_slice_sublist]. }
  apply collect_entries in Hcand as (c' & Hin & Hkey).
  unfold Spec.standard_key in Hkey.
  destruct (decide (Py.upper c' ∈ existing_codes)) as [|Hnot]; [done|].
  destruct (FillDtcGaps.given code_prefix && _) eqn:Ep; [done|].
  injection Hkey as ->. simpl.
  split; [done|]. split; [done|]. split.
  - intros x Hx Hm Heq. apply Hnot. unfold existing_codes.
    apply elem_of_list_to_set, list_elem_of_fmap. exists x.
    split; [done|]. by apply list_elem_of_filter.
  - intros Hg. rewrite Hg in Ep. simpl in Ep. by apply negb_false_iff in Ep.
Qed.

Section FillFacts.
Import Py Spec FillDtcGaps.

Lemma upper_char_not_x c : Ascii.eqb "x" (upper_char c) = false.
Proof. destruct c as [[] [] [] [] [] [] [] []]; reflexivity. Qed.

Lemma startswith_xxx_upper s : startswith "xxx" (upper s) = false.
Proof.
  destruct s as [|c s]; [done|]. cbn [upper startswith].
  by rewrite upper_char_not_x.
Qed.

Lemma length_upper s : String.length (upper s) = String.length s.
Proof. induction s as [|c s IH]; [done|]. simpl. by rewrite IH. Qed.

Lemma at_end_spec s :
  at_end s = true <-> s = "" \/ s = String "010" "".
Proof.
  unfold at_end. rewrite orb_true_iff, !String.eqb_eq. done.
Qed.

Lemma match_code_range_upper s p :
  match_code_range (upper s) = Some p
  <-> exists c0 c1,
        p = String c0 (String c1 "")
        /\ is_PBCU c0 = true /\ is_0_to_3 c1 = true
        /\ (upper s = p \/ upper s = p +:+ String "010" "").
Proof.
  destruct s as [|a [|b rest]].
  - simpl. split; [done|]. intros (c0 & c1 & -> & _ & _ & [H|H]); done.
  - simpl. split; [done|]. intros (c0 & c1 & -> & _ & _ & [H|H]); done.
  - change (upper (String a (String b rest)))
      with (String (upper_char a) (String (upper_char b) (upper rest))).
    unfold match_code_range. rewrite startswith_xxx_upper. simpl orb.
    split.
    + destruct (is_PBCU (upper_char a)) eqn:E0; [|done].
      destruct (is_0_to_3 (upper_char b)) eqn:E1; [|done].
      destruct (at_end (upper rest)) eqn:E2; [|done].
      intros [= <-]. exists (upper_char a), (upper_char b).
      split; [done|]. split; [done|]. split; [done|].
      apply at_end_spec in E2 as [->| ->]; [by left|by right].
    + intros (c0 & c1 & -> & H0 & H1 & [H|H]).
      * injection H as -> -> ->. by rewrite H0, H1.
      * injection H as -> -> ->. by rewrite H0, H1.
Qed.

Lemma match_code_range_long s :
  3 < String.length s -> match_code_range (upper s) = None.
Proof.
  intros Hlen. destruct (match_code_range (upper s)) as [p|] eqn:E; [|done].
  apply match_code_range_upper in E as (c0 & c1 & -> & _ & _ & [H|H]);
    apply (f_equal String.length) in H; rewrite length_upper in H;
    simpl in H; lia.
Qed.

End FillFacts.

(** [fill_gaps_for_manufacturer] appends to the frame and changes no existing
    row; every row it appends is filed under the manufacturer and has a code
    that, in upper case, no row of that manufacturer already had;
    [stats.codes_added] grows by the number of rows appended.  When the
    caller names no target, at least 15 new codes are asked for, however many
    the manufacturer already has. *)
Theorem fill_gaps_adds_only_new
    (generate : string -> gset string -> Z -> option (list string)
                -> option string -> list FillDtcGaps.DtcRow)
    (stats : FillDtcGaps.UsageStats) (df : list FillDtcGaps.DtcRow)
    (make : string) (target_count : option Z)
    (focus_categories : option (list string)) (focus_powertrain : option string) :
  let result :=
    FillDtcGaps.fill_gaps_for_manufacturer generate stats df make target_count
      focus_categories focus_powertrain in
  (exists new_rows,
     result.1 = df ++ new_rows
     /\ FillDtcGaps.codes_added result.2
        = FillDtcGaps.codes_added stats + length new_rows
     /\ FillDtcGaps.codes_updated result.2 = FillDtcGaps.codes_updated stats
     /\ Forall
          (fun r =>
             FillDtcGaps.make_id r = make
             /\ forall x, x ∈ df -> FillDtcGaps.make_id x = make ->
                  Py.upper (FillDtcGaps.code x) <> Py.upper (FillDtcGaps.code r))
          new_rows)
  /\ (forall current_count, (15 <= FillDtcGaps.default_target make current_count)%Z).
Proof.
  intros result. split.
  - unfold result, FillDtcGaps.fill_gaps_for_manufacturer. clear result.
    set (existing_codes := (list_to_set _ : gset string)).
    destruct (generate _ _ _ _ _) as [|g gs] eqn:Eg.
    + exists []. simpl. rewrite app_nil_r, Nat.add_0_r. repeat split. constructor.
    + rewrite <- Eg. eexists. split; [reflexivity|]. split; [done|]. split; [done|].
      apply Forall_forall. intros r [Hnot Hr]%list_elem_of_filter.
      apply list_elem_of_fmap in Hr as (r0 & -> & _). split; [done|].
      intros x Hx Hm Heq. apply Hnot. unfold existing_codes.
      apply elem_of_list_to_set, list_elem_of_fmap. exists x.
      split; [done|]. by apply list_elem_of_filter.
  - intros n. unfold FillDtcGaps.default_target.
    destruct (bool_decide _); lia.
Qed.

(** [fill_code_range] accepts exactly the two-character ranges: a letter
    P, B, C or U followed by a digit 0 to 3, in either letter case and
    possibly followed by one line feed.  The range is upper-cased before the
    pattern with its lower-case suffix 'xxx' is applied, so a range written
    with the suffix, such as 'P0xxx', and any other range of more than three
    characters, is rejected and the frame and counters come back unchanged. *)
Theorem code_range_accepts_two_characters (code_range : string) :
  (forall p,
     FillDtcGaps.match_code_range (Py.upper code_range) = Some p
     <-> exists c0 c1,
           p = String c0 (String c1 "")
           /\ FillDtcGaps.is_PBCU c0 = true /\ FillDtcGaps.is_0_to_3 c1 = true
           /\ (Py.upper code_range = p
               \/ Py.upper code_range = p +:+ String "010" ""))
  /\ (forall generate stats df manufacturer,
        3 < String.length code_range ->
        FillDtcGaps.fill_code_range generate stats df code_range manufacturer
        = (df, stats)).
Proof.
  split; [intros p; apply match_code_range_upper|].
  intros generate stats df manufacturer Hlen.
  unfold FillDtcGaps.fill_code_range. by rewrite match_code_range_long.
Qed.

(** The documented form of a range is among those rejected. *)
Example code_range_with_suffix_is_rejected :
  FillDtcGaps.match_code_range (Py.upper "P0xxx") = None
  /\ FillDtcGaps.match_code_range (Py.upper "p0") = Some "P0".
Proof. split; reflexivity. Qed.

(** * merge_by_id *)

Section MergeById.
Import Py Spec MergeToJson.

Lemma foldl_Raise {A B} (f : A -> B -> res A) (l : list B) e :
  foldl (fun acc x => a ← acc; f a x) (Raise e) l = Raise e.
Proof. by induction l. Qed.

Lemma foldl_snoc {A B} (f : A -> B -> A) (l : list B) a x :
  foldl f a (l ++ [x]) = f (foldl f a l) x.
Proof. by rewrite foldl_app. Qed.

(** *** The index of ids *)

Lemma index_ids_snoc existing it :
  index_ids (existing ++ [it])
  = (existing_ids ← index_ids existing;
     match id_of it with
     | Some k => Ok (<[k := length existing]> existing_ids)
     | None => Raise KeyError
     end).
Proof.
  unfold index_ids. rewrite imap_app, foldl_app. simpl.
  by rewrite Nat.add_0_r.
Qed.

Lemma index_ids_Ok existing :
  Forall (fun it => is_Some (id_of it)) existing ->
  exists m, index_ids existing = Ok m.
Proof.
  induction existing as [|it existing IH] using rev_ind; [by eexists|].
  intros Hall. apply Forall_app in Hall as [Hex Hit].
  rewrite Forall_singleton in Hit. destruct (IH Hex) as [m Hm].
  rewrite index_ids_snoc, Hm. destruct Hit as [k Hk]. simpl. rewrite Hk.
  by eexists.
Qed.

Lemma index_ids_Raise existing e :
  index_ids existing = Raise e ->
  e = KeyError /\ Exists (fun it => id_of it = None) existing.
Proof.
  induction existing as [|it existing IH] using rev_ind; [done|].
  rewrite index_ids_snoc. destruct (index_ids existing) as [m|e'] eqn:E; simpl.
  - destruct (id_of it) eqn:Ei; [done|]. intros [= <-]. split; [done|].
    apply Exists_app. right. by apply Exists_cons_hd.
  - intros [= <-]. destruct (IH eq_refl) as [-> Hex]. split; [done|].
    apply Exists_app. by left.
Qed.

Lemma index_ids_all existing m :
  index_ids existing = Ok m -> Forall (fun it => is_Some (id_of it)) existing.
Proof.
  revert m. induction existing as [|it existing IH] using rev_ind; [constructor|].
  intros m. rewrite index_ids_snoc.
  destruct (index_ids existing) as [m'|e'] eqn:E; [|done]. simpl.
  destruct (id_of it) eqn:Ei; [|done]. intros _.
  apply Forall_app. split; [by eapply IH|]. by apply Forall_singleton.
Qed.

Lemma last_index_snoc_new k l it :
  id_of it = Some k -> last_index k (length l) (l ++ [it]).
Proof.
  intros Hk. split.
  - exists it. split; [|done]. by rewrite lookup_app_r, Nat.sub_diag by lia.
  - intros j it' Hj Hl. apply lookup_lt_Some in Hl. rewrite length_app in Hl.
    simpl in Hl. lia.
Qed.

Lemma last_index_snoc_other k i l it :
  id_of it <> Some k -> last_index k i (l ++ [it]) <-> last_index k i l.
Proof.
  intros Hk. split.
  - intros [(it' & Hl & Hid) Hlast].
    assert (i < length l) as Hi.
    { apply lookup_lt_Some in Hl as Hlen. rewrite length_app in Hlen. simpl in Hlen.
      destruct (decide (i = length l)) as [->|]; [|lia].
      rewrite lookup_app_r, Nat.sub_diag in Hl by lia. injection Hl as <-. done. }
    split.
    + exists it'. split; [|done]. by rewrite lookup_app_l in Hl.
    + intros j it'' Hj Hlj. apply (Hlast j); [done|].
      rewrite lookup_app_l; [done|]. by eapply lookup_lt_Some.
  - intros [(it' & Hl & Hid) Hlast]. split.
    + exists it'. split; [|done]. rewrite lookup_app_l; [done|].
      by eapply lookup_lt_Some.
    + intros j it'' Hj Hlj.
      destruct (decide (j < length l)) as [Hlt|Hge].
      * rewrite lookup_app_l in Hlj by done. by eapply Hlast.
      * rewrite lookup_app_r in Hlj by lia.
        destruct (j - length l) as [|n] eqn:En; [|done].
        injection Hlj as <-. done.
Qed.

Lemma last_index_unique k i j l :
  last_index k i l -> last_index k j l -> i = j.
Proof.
  intros [(it & Hi & Hidi) Hlasti] [(it' & Hj & Hidj) Hlastj].
  destruct (Nat.lt_trichotomy i j) as [Hlt|[->|Hgt]]; [|done|].
  - by destruct (Hlasti j it' Hlt Hj).
  - by destruct (Hlastj i it Hgt Hi).
Qed.

Lemma index_ids_lookup existing m k i :
  index_ids existing = Ok m ->
  m !! k = Some i <-> last_index k i existing.
Proof.
  revert m. induction existing as [|it existing IH] using rev_ind; intros m.
  - intros [= <-]. rewrite lookup_empty. split; [done|].
    by intros [(it & Hl & _) _].
  - rewrite index_ids_snoc.
    destruct (index_ids existing) as [m'|e'] eqn:E; [|done]. simpl.
    destruct (id_of it) as [k0|] eqn:Ei; [|done]. intros [= <-].
    rewrite lookup_insert. destruct (decide (k0 = k)) as [->|Hne].
    + split.
      * intros [= <-]. by apply last_index_snoc_new.
      * intros Hl. f_equal.
        eapply last_index_unique; [by apply last_index_snoc_new|done].
    + rewrite last_index_snoc_other by congruence. by apply IH.
Qed.

Lemma index_ids_None existing m k :
  index_ids existing = Ok m ->
  m !! k = None <-> Forall (fun it => id_of it <> Some k) existing.
Proof.
  revert m. induction existing as [|it existing IH] using rev_ind; intros m.
  - intros [= <-]. rewrite lookup_empty. split; [constructor|done].
  - rewrite index_ids_snoc.
    destruct (index_ids existing) as [m'|e'] eqn:E; [|done]. simpl.
    destruct (id_of it) as [k0|] eqn:Ei; [|done]. intros [= <-].
    rewrite lookup_insert, Forall_app, Forall_singleton.
    destruct (decide (k0 = k)) as [->|Hne].
    + split; [done|]. by intros [_ H].
    + rewrite (IH m' eq_refl). split; [|tauto]. intros H. split; [done|congruence].
Qed.


(** *** The loop *)

Lemma merge_loop_pure m r l :
  Forall (fun it => is_Some (id_of it)) l ->
  foldl (fun acc it => result ← acc; merge_item m result it) (Ok r) l
  = Ok (foldl (merge_step m) r l).
Proof.
  revert r. induction l as [|x l IH]; intros r Hall; [done|].
  apply Forall_cons in Hall as [[k Hk] Hall]. simpl.
  unfold merge_item at 2, merge_step at 2. unfold id_of in Hk |- *. rewrite Hk.
  destruct (m !! k); by apply IH.
Qed.

Lemma merge_loop_Raise m r l e :
  foldl (fun acc it => result ← acc; merge_item m result it) (Ok r) l = Raise e ->
  e = KeyError /\ Exists (fun it => id_of it = None) l.
Proof.
  revert r. induction l as [|x l IH]; intros r; [done|]. simpl.
  unfold merge_item at 2. destruct (x !! "id") as [k|] eqn:Hk.
  - destruct (m !! k); intros [-> H]%IH; (split; [done|by apply Exists_cons_tl]).
  - rewrite foldl_Raise. intros [= <-]. split; [done|]. by apply Exists_cons_hd.
Qed.

Lemma merge_step_eq m r x k :
  id_of x = Some k ->
  merge_step m r x
  = match m !! k with
    | Some i => <[i := x]> r
    | None => r ++ [x]
    end.
Proof. intros Hk. unfold merge_step. by rewrite Hk. Qed.

Lemma last_index_ids k i l :
  last_index k i l
  <-> (id_of <$> l) !! i = Some (Some k)
      /\ forall j, i < j -> (id_of <$> l) !! j <> Some (Some k).
Proof.
  unfold last_index. split.
  - intros [(it & Hl & Hid) Hlast]. split.
    + by rewrite list_lookup_fmap, Hl, <- Hid.
    + intros j Hj. rewrite list_lookup_fmap.
      destruct (l !! j) as [it'|] eqn:E; [|done]. simpl.
      intros [= H]. by apply (Hlast j it').
  - intros [Hi Hlast]. rewrite list_lookup_fmap in Hi. split.
    + destruct (l !! i) as [it|]; [|done]. injection Hi as Hi. by exists it.
    + intros j it Hj Hl Hid. apply (Hlast j Hj).
      by rewrite list_lookup_fmap, Hl, <- Hid.
Qed.

Lemma merge_steps_ids existing m l :
  index_ids existing = Ok m ->
  Forall (fun it => is_Some (id_of it)) l ->
  id_of <$> foldl (merge_step m) existing l
  = (id_of <$> existing)
    ++ filter (fun k => k ∉ id_of <$> existing) (id_of <$> l).
Proof.
  intros Hm. induction l as [|x l IH] using rev_ind; intros Hall.
  - simpl. by rewrite app_nil_r.
  - apply Forall_app in Hall as [Hall Hx]. rewrite Forall_singleton in Hx.
    destruct Hx as [k0 Hk0]. specialize (IH Hall).
    rewrite foldl_snoc, fmap_app, filter_app.
    change (id_of <$> [x]) with [id_of x].
    rewrite (merge_step_eq _ _ _ _ Hk0).
    destruct (m !! k0) as [i|] eqn:Ei.
    + apply (index_ids_lookup _ _ _ _ Hm) in Ei.
      apply last_index_ids in Ei as [Hi _].
      rewrite list_fmap_insert, Hk0.
      rewrite list_insert_id.
      * rewrite IH. rewrite filter_cons_False, filter_nil, app_nil_r; [done|].
        intros Hnot. apply Hnot. by eapply list_elem_of_lookup_2.
      * rewrite IH. rewrite lookup_app_l; [done|]. by eapply lookup_lt_Some.
    + apply (index_ids_None _ _ _ Hm) in Ei.
      rewrite fmap_app, IH. change (id_of <$> [x]) with [id_of x]. rewrite Hk0.
      rewrite filter_cons_True, filter_nil, app_assoc; [done|].
      intros (it & Hid & Hin)%list_elem_of_fmap.
      rewrite Forall_forall in Ei. by apply (Ei it).
Qed.

Lemma last_filter_snoc {A} (P : A -> Prop) `{!forall x, Decision (P x)}
    (l : list A) (x : A) :
  last (filter P (l ++ [x])) = if decide (P x) then Some x else last (filter P l).
Proof.
  rewrite filter_app, filter_cons, filter_nil.
  destruct (decide (P x)); [by rewrite last_snoc|by rewrite app_nil_r].
Qed.

(** Overwriting the last entry with an id by another entry with that id. *)
Lemma last_filter_insert k k0 i r x :
  last_index k0 i r -> id_of x = Some k0 ->
  last (filter (fun it => id_of it = Some k) (<[i := x]> r))
  = if decide (k = k0) then Some x
    else last (filter (fun it => id_of it = Some k) r).
Proof.
  intros [(y & Hy & Hidy) Hlast] Hx.
  assert (i < length r) as Hi by by eapply lookup_lt_Some.
  assert (filter (fun it => id_of it = Some k0) (drop (S i) r) = []) as Hdrop.
  { apply filter_nil_Forall, Forall_forall. intros z Hz Hidz.
    apply list_elem_of_lookup in Hz as [n Hn]. rewrite lookup_drop in Hn.
    apply (Hlast (S i + n) z); [lia|done|done]. }
  pose proof (take_drop_middle r i y Hy) as Hr.
  rewrite (insert_take_drop r i x Hi).
  set (r1 := take i r) in *. set (r2 := drop (S i) r) in *.
  clearbody r1 r2. subst r.
  rewrite !filter_app, !filter_cons.
  destruct (decide (k = k0)) as [->|Hne].
  - rewrite decide_True by done. rewrite Hdrop. by rewrite last_snoc.
  - rewrite !decide_False; [done|congruence|congruence].
Qed.

Lemma merge_steps_last existing m l k :
  index_ids existing = Ok m ->
  Forall (fun it => is_Some (id_of it)) l ->
  last (filter (fun it => id_of it = Some k) (foldl (merge_step m) existing l))
  = match last (filter (fun it => id_of it = Some k) l) with
    | Some it => Some it
    | None => last (filter (fun it => id_of it = Some k) existing)
    end.
Proof.
  intros Hm. induction l as [|x l IH] using rev_ind; intros Hall; [done|].
  apply Forall_app in Hall as [Hall Hx]. rewrite Forall_singleton in Hx.
  destruct Hx as [k0 Hk0]. specialize (IH Hall).
  rewrite foldl_snoc, (last_filter_snoc _ l x).
  rewrite (merge_step_eq _ _ _ _ Hk0).
  destruct (m !! k0) as [i|] eqn:Ei.
  - apply (index_ids_lookup _ _ _ _ Hm) in Ei.
    assert (last_index k0 i (foldl (merge_step m) existing l)) as Hli.
    { apply last_index_ids in Ei as [Hi Hlast]. apply last_index_ids.
      rewrite (merge_steps_ids _ _ _ Hm Hall).
      assert (i < length (id_of <$> existing)) as Hlen by by eapply lookup_lt_Some.
      split; [by rewrite lookup_app_l|].
      intros j Hj. destruct (decide (j < length (id_of <$> existing))) as [Hlt|Hge].
      - rewrite lookup_app_l by done. by apply Hlast.
      - rewrite lookup_app_r by lia. intros Hin.
        apply list_elem_of_lookup_2, list_elem_of_filter in Hin as [Hnot _].
        apply Hnot. by eapply list_elem_of_lookup_2. }
    rewrite (last_filter_insert k k0 i _ x Hli Hk0).
    destruct (decide (k = k0)) as [->|Hne].
    + by rewrite decide_True.
    + rewrite decide_False by congruence. done.
  - rewrite (last_filter_snoc _ _ x).
    destruct (decide (id_of x = Some k)); [done|]. done.
Qed.


(** *** A second run *)

Lemma filter_ext_in {A} (P Q : A -> Prop) `{!forall x, Decision (P x)}
    `{!forall x, Decision (Q x)} (l : list A) :
  (forall x, x ∈ l -> P x <-> Q x) -> filter P l = filter Q l.
Proof.
  induction l as [|x l IH]; intros Hext; [done|].
  rewrite !filter_cons, IH.
  - destruct (decide (P x)) as [HP|HP], (decide (Q x)) as [HQ|HQ]; try done.
    + destruct HQ. apply Hext; [by left|done].
    + destruct HP. apply Hext; [by left|done].
  - intros y Hy. apply Hext. by right.
Qed.

Lemma last_index_last_filter k i l :
  last_index k i l ->
  last (filter (fun it => id_of it = Some k) l) = l !! i.
Proof.
  intros [(y & Hy & Hidy) Hlast].
  assert (filter (fun it => id_of it = Some k) (drop (S i) l) = []) as Hdrop.
  { apply filter_nil_Forall, Forall_forall. intros z Hz Hidz.
    apply list_elem_of_lookup in Hz as [n Hn]. rewrite lookup_drop in Hn.
    apply (Hlast (S i + n) z); [lia|done|done]. }
  rewrite Hy. rewrite <- (take_drop_middle l i y Hy).
  rewrite filter_app, filter_cons_True by done. rewrite Hdrop.
  by rewrite last_snoc.
Qed.

Lemma last_index_same_id k k' i l :
  last_index k i l -> last_index k' i l -> k = k'.
Proof.
  intros [(y & Hy & Hidy) _] [(y' & Hy' & Hidy') _]. congruence.
Qed.

(** When every entry already has its id indexed, the loop only overwrites. *)
Lemma merge_steps_lookup m r l j :
  Forall (fun x => is_Some (id_of x ≫= (m !!.))) l ->
  foldl (merge_step m) r l !! j
  = match last (filter (fun x => id_of x ≫= (m !!.) = Some j) l) with
    | Some x => if decide (j < length r) then Some x else None
    | None => r !! j
    end
  /\ length (foldl (merge_step m) r l) = length r.
Proof.
  induction l as [|x l IH] using rev_ind; intros Hall; [done|].
  apply Forall_app in Hall as [Hall Hx]. rewrite Forall_singleton in Hx.
  destruct (IH Hall) as [IHl IHn]. destruct Hx as [i Hi].
  destruct (id_of x) as [k0|] eqn:Hk0; [|done]. simpl in Hi.
  rewrite foldl_snoc, (merge_step_eq _ _ _ _ Hk0), Hi.
  rewrite length_insert. split; [|done].
  rewrite (last_filter_snoc _ l x), list_lookup_insert, IHn.
  rewrite Hk0. simpl. rewrite Hi.
  destruct (decide (i = j /\ i < length r)) as [[-> Hlt]|Hn].
  - rewrite decide_True by done. by rewrite decide_True.
  - rewrite IHl. destruct (decide (Some i = Some j)) as [[= ->]|Hne]; [|done].
    rewrite decide_False by tauto.
    destruct (last _); [by rewrite decide_False by tauto|].
    apply lookup_ge_None. lia.
Qed.

Lemma merge_by_id_pure existing new_items m :
  index_ids existing = Ok m ->
  Forall (fun it => is_Some (id_of it)) new_items ->
  merge_by_id existing new_items = Ok (foldl (merge_step m) existing new_items).
Proof.
  intros Hm Hall. unfold merge_by_id. rewrite Hm. simpl.
  by apply merge_loop_pure.
Qed.

Lemma merge_by_id_Raise existing new_items e :
  merge_by_id existing new_items = Raise e ->
  e = KeyError /\ Exists (fun it => id_of it = None) (existing ++ new_items).
Proof.
  unfold merge_by_id. destruct (index_ids existing) as [m|e'] eqn:Hm; simpl.
  - intros [-> H]%merge_loop_Raise. split; [done|]. apply Exists_app. by right.
  - intros [= <-]. apply index_ids_Raise in Hm as [-> H]. split; [done|].
    apply Exists_app. by left.
Qed.

Lemma merge_by_id_Ok existing new_items result :
  merge_by_id existing new_items = Ok result ->
  exists m,
    index_ids existing = Ok m
    /\ Forall (fun it => is_Some (id_of it)) (existing ++ new_items)
    /\ result = foldl (merge_step m) existing new_items.
Proof.
  intros Hok. unfold merge_by_id in Hok.
  destruct (index_ids existing) as [m|e'] eqn:Hm; [|done]. simpl in Hok.
  exists m. split; [done|].
  assert (Forall (fun it => is_Some (id_of it)) new_items) as Hnew.
  { apply Forall_forall. intros x Hx.
    destruct (id_of x) as [k|] eqn:Hk; [by eexists|].
    exfalso. clear Hm. revert existing Hok.
    induction new_items as [|y l IH]; intros r Hok; [by apply elem_of_nil in Hx|].
    simpl in Hok. unfold merge_item at 2 in Hok.
    apply elem_of_cons in Hx as [->|Hx].
    - unfold id_of in Hk. rewrite Hk in Hok. by rewrite foldl_Raise in Hok.
    - destruct (y !! "id") as [ky|]; [|by rewrite foldl_Raise in Hok].
      destruct (m !! ky); by eapply IH. }
  split.
  - apply Forall_app. split; [by eapply index_ids_all|done].
  - rewrite merge_loop_pure in Hok by done. by injection Hok.
Qed.

Lemma merge_by_id_again existing new_items result :
  merge_by_id existing new_items = Ok result ->
  merge_by_id result new_items = Ok result.
Proof.
  intros Hok. apply merge_by_id_Ok in Hok as (m & Hm & Hall & ->).
  apply Forall_app in Hall as [Hex Hnew].
  set (result := foldl (merge_step m) existing new_items).
  pose proof (merge_steps_ids existing m new_items Hm Hnew) as Hids.
  fold result in Hids.
  assert (Forall (fun it => is_Some (id_of it)) result) as Hres.
  { apply Forall_forall. intros y Hy.
    assert (id_of y ∈ id_of <$> result) as Hin by by apply list_elem_of_fmap_2.
    rewrite Hids in Hin. apply elem_of_app in Hin as [Hin|Hin].
    - apply list_elem_of_fmap in Hin as (z & -> & Hz).
      rewrite Forall_forall in Hex. by apply Hex.
    - apply list_elem_of_filter in Hin as [_ Hin].
      apply list_elem_of_fmap in Hin as (z & -> & Hz).
      rewrite Forall_forall in Hnew. by apply Hnew. }
  destruct (index_ids_Ok result Hres) as [m1 Hm1].
  rewrite (merge_by_id_pure result new_items m1 Hm1 Hnew). f_equal.
  assert (forall x, x ∈ new_items ->
            exists k j, id_of x = Some k /\ m1 !! k = Some j) as Hpos.
  { intros x Hx. rewrite Forall_forall in Hnew.
    destruct (Hnew x Hx) as [k Hk]. exists k.
    destruct (m1 !! k) as [j|] eqn:Ej; [by exists j|]. exfalso.
    apply (index_ids_None _ _ _ Hm1) in Ej. rewrite Forall_forall in Ej.
    assert (Some k ∈ id_of <$> result) as Hin.
    { rewrite Hids. destruct (decide (Some k ∈ id_of <$> existing)).
      - apply elem_of_app. by left.
      - apply elem_of_app. right. apply list_elem_of_filter. split; [done|].
        rewrite <- Hk. by apply list_elem_of_fmap_2. }
    apply list_elem_of_fmap in Hin as (y & Hy & Hyin). by apply (Ej y). }
  assert (Forall (fun x => is_Some (id_of x ≫= (m1 !!.))) new_items) as Hall1.
  { apply Forall_forall. intros x Hx.
    destruct (Hpos x Hx) as (k & j & Hk & Hj). rewrite Hk. simpl. by rewrite Hj. }
  apply list_eq. intros j.
  destruct (merge_steps_lookup m1 result new_items j Hall1) as [-> _].
  destruct (last (filter _ new_items)) as [x|] eqn:El; [|done].
  assert (x ∈ filter (fun x => id_of x ≫= (m1 !!.) = Some j) new_items) as Hx.
  { apply last_Some in El as [l' ->]. apply elem_of_app. right. by left. }
  apply list_elem_of_filter in Hx as [Hxj Hx].
  destruct (Hpos x Hx) as (k0 & j' & Hk0 & Hj'). rewrite Hk0 in Hxj. simpl in Hxj.
  rewrite Hj' in Hxj. injection Hxj as ->.
  apply (index_ids_lookup _ _ _ _ Hm1) in Hj' as Hlast.
  assert (j < length result) as Hlt.
  { destruct Hlast as [(y & Hy & _) _]. by eapply lookup_lt_Some. }
  rewrite decide_True by done.
  rewrite <- (last_index_last_filter k0 j result Hlast).
  unfold result at 1. rewrite (merge_steps_last existing m new_items k0 Hm Hnew).
  rewrite (filter_ext_in (fun it => id_of it = Some k0)
             (fun x => id_of x ≫= (m1 !!.) = Some j) new_items).
  - by rewrite El.
  - intros y Hy. split.
    + intros ->. simpl. done.
    + destruct (Hpos y Hy) as (k' & j'' & Hk' & Hj''). rewrite Hk'. simpl.
      rewrite Hj''. intros [= ->]. f_equal.
      apply (index_ids_lookup _ _ _ _ Hm1) in Hj''.
      by eapply last_index_same_id.
Qed.

End MergeById.

(** [merge_by_id] raises, and then [KeyError], exactly when an entry of
    either list has no id.  Otherwise the ids of the result are the ids of
    the existing list, in place, followed by the ids of the new entries that
    the existing list does not have, in order: no existing entry is dropped
    or moved, and a new id that occurs twice among the new entries is
    appended twice. *)
Theorem merge_by_id_ids (existing new_items : list MergeToJson.item) :
  match MergeToJson.merge_by_id existing new_items with
  | Py.Ok result =>
      Forall (fun it => is_Some (it !! "id")) (existing ++ new_items)
      /\ (fun it => it !! "id") <$> result
         = ((fun it => it !! "id") <$> existing)
           ++ filter (fun k => k ∉ (fun it : MergeToJson.item => it !! "id") <$> existing)
                     ((fun it => it !! "id") <$> new_items)
  | Py.Raise e =>
      e = Py.KeyError
      /\ Exists (fun it => it !! "id" = None) (existing ++ new_items)
  end.
Proof.
  destruct (MergeToJson.merge_by_id existing new_items) as [result|e] eqn:E.
  - apply merge_by_id_Ok in E as (m & Hm & Hall & ->). split; [exact Hall|].
    apply Forall_app in Hall as [_ Hnew].
    exact (merge_steps_ids existing m new_items Hm Hnew).
  - by apply merge_by_id_Raise in E.
Qed.

(** After [merge_by_id], the last entry of the result with a given id is the
    last new entry with that id, and, when no new entry has the id, the last
    existing entry with it. *)
Theorem merge_by_id_last_wins (existing new_items : list MergeToJson.item)
    (k : MergeToJson.value) :
  match MergeToJson.merge_by_id existing new_items with
  | Py.Ok result =>
      last (filter (fun it => it !! "id" = Some k) result)
      = match last (filter (fun it => it !! "id" = Some k) new_items) with
        | Some it => Some it
        | None => last (filter (fun it => it !! "id" = Some k) existing)
        end
  | Py.Raise _ => True
  end.
Proof.
  destruct (MergeToJson.merge_by_id existing new_items) as [result|e] eqn:E; [|done].
  apply merge_by_id_Ok in E as (m & Hm & Hall & ->).
  apply Forall_app in Hall as [_ Hnew].
  exact (merge_steps_last existing m new_items k Hm Hnew).
Qed.

(** [merge_by_id] is idempotent: merging the same new entries into the list
    that a merge returned gives that list again. *)
Theorem merge_by_id_idempotent (existing new_items : list MergeToJson.item) :
  match MergeToJson.merge_by_id existing new_items with
  | Py.Ok result => MergeToJson.merge_by_id result new_items = Py.Ok result
  | Py.Raise _ => True
  end.
Proof.
  destruct (MergeToJson.merge_by_id existing new_items) as [result|e] eqn:E; [|done].
  exact (merge_by_id_again existing new_items result E).
Qed.

(** A run: the entry with id 'a' is replaced in place, the two new entries
    with id 'c' are both appended. *)
Example merge_by_id_run :
  let entry (i n : string) : MergeToJson.item :=
    {[ "id" := MergeToJson.VStr i; "name" := MergeToJson.VStr n ]} in
  MergeToJson.merge_by_id
    [entry "a" "old"; entry "b" "kept"]
    [entry "c" "first"; entry "a" "new"; entry "c" "second"]
  = Py.Ok [entry "a" "new"; entry "b" "kept"; entry "c" "first"; entry "c" "second"].
Proof. vm_compute. reflexivity. Qed.

(** * Further properties of the classification *)

Section ClassifyMore.
Import Py Json Spec FillDtcGaps.

Lemma grows_refl m : grows m m.
Proof. intros owner l entry Hl He. by exists l. Qed.

Lemma grows_trans m1 m2 m3 : grows m1 m2 -> grows m2 m3 -> grows m1 m3.
Proof.
  intros H12 H23 owner l entry Hl He.
  destruct (H12 owner l entry Hl He) as (l' & Hl' & He'). by eapply H23.
Qed.

Lemma foldl_res_snoc {A B} (f : A -> B -> res A) (l : list B) (a : res A) x :
  foldl (fun acc x => m ← acc; f m x) a (l ++ [x])
  = (m ← foldl (fun acc x => m ← acc; f m x) a l; f m x).
Proof. by rewrite foldl_app. Qed.

Lemma concat_slices {A} (size room : nat) (cur l : list A) :
  concat (slices size room cur l) = cur ++ l.
Proof.
  revert room cur. induction l as [|x l IH]; intros room cur; simpl.
  - destruct cur; simpl; by rewrite ?app_nil_r.
  - destruct room as [|r]; simpl.
    + by rewrite IH.
    + by rewrite IH, <- app_assoc.
Qed.

(** The slices but the last are full, and the last is not empty. *)
Lemma slices_shape {A} (size room : nat) (cur l : list A) :
  0 < size -> length cur + room = size ->
  exists full rest,
    slices size room cur l = full ++ rest
    /\ Forall (fun b => length b = size) full
    /\ (rest = [] /\ cur ++ l = []
        \/ exists b, rest = [b] /\ 0 < length b <= size).
Proof.
  intros Hsize. revert room cur. induction l as [|x l IH]; intros room cur Hlen; simpl.
  - exists []. destruct cur as [|c cur'].
    + exists []. split; [done|]. split; [constructor|]. by left.
    + exists [c :: cur']. split; [done|]. split; [constructor|]. right.
      eexists. split; [done|]. simpl in *. lia.
  - destruct room as [|r].
    + destruct (IH (size - 1) [x]) as (full & rest & Heq & Hfull & Hrest).
      { simpl. lia. }
      exists (cur :: full), rest. rewrite Heq. split; [done|].
      split; [constructor; [lia|done]|].
      destruct Hrest as [[_ H]|H]; [done|by right].
    + destruct (IH r (cur ++ [x])) as (full & rest & Heq & Hfull & Hrest).
      { rewrite length_app. simpl. lia. }
      exists full, rest. split; [done|]. split; [done|].
      destruct Hrest as [[_ H]|H]; [|by right].
      by destruct cur.
Qed.

Lemma classify_one_complete manufacturers classifications m entry m' :
  classify_one manufacturers classifications m entry = Ok m' ->
  grows m m'
  /\ forall owner, owner ∈ manufacturers -> owner <> "" ->
       labelled classifications entry owner ->
       exists l, m' !! owner = Some l /\ entry ∈ l.
Proof.
  unfold classify_one.
  destruct (get_label classifications entry.1) as [make_id|e] eqn:Eg; [|done].
  change (Ok make_id ≫= ?k) with (k make_id). cbv beta.
  destruct (truthy make_id) eqn:Et.
  - destruct (label_lower make_id) as [owner0|e] eqn:El; [|done].
    change (Ok owner0 ≫= ?k) with (k owner0). cbv beta.
    destruct (bool_decide (owner0 ∈ manufacturers)) eqn:Eo.
    + destruct (m !! owner0) as [l0|] eqn:Em; [|done]. intros [= <-]. split.
      * intros owner l e Hl He. rewrite lookup_insert.
        destruct (decide (owner0 = owner)) as [->|Hne].
        -- exists (l0 ++ [entry]). split; [done|].
           rewrite Em in Hl. injection Hl as ->. apply elem_of_app. by left.
        -- by exists l.
      * intros owner Hin Hne (label & Hlab & Hlow).
        rewrite Hlab in Eg. injection Eg as <-. injection El as <-.
        rewrite Hlow. rewrite lookup_insert, decide_True by done.
        eexists. split; [done|]. apply elem_of_app. right. by left.
    + intros [= <-]. split; [apply grows_refl|].
      intros owner Hin Hne (label & Hlab & Hlow).
      rewrite Hlab in Eg. injection Eg as <-. injection El as <-.
      apply bool_decide_eq_false in Eo. by rewrite Hlow in Eo.
  - intros [= <-]. split; [apply grows_refl|].
    intros owner Hin Hne (label & Hlab & Hlow).
    rewrite Hlab in Eg. injection Eg as <-. simpl in Et.
    apply negb_false_iff, String.eqb_eq in Et. subst label. simpl in Hlow. done.
Qed.

Lemma classify_entries_complete manufacturers classifications batch m m' :
  classify_entries manufacturers classifications m batch = Ok m' ->
  grows m m'
  /\ forall entry owner, entry ∈ batch -> owner ∈ manufacturers -> owner <> "" ->
       labelled classifications entry owner ->
       exists l, m' !! owner = Some l /\ entry ∈ l.
Proof.
  unfold classify_entries. revert m'.
  induction batch as [|x batch IH] using rev_ind; intros m'.
  - intros [= <-]. split; [apply grows_refl|]. by intros entry owner ?%elem_of_nil.
  - rewrite foldl_res_snoc.
    destruct (foldl _ (Ok m) batch) as [m1|e] eqn:E; [|done].
    change (Ok m1 ≫= ?k) with (k m1). cbv beta. intros Hone.
    destruct (IH m1 eq_refl) as [Hg Hc].
    destruct (classify_one_complete _ _ _ _ _ Hone) as [Hg1 Hc1].
    split; [by eapply grows_trans|].
    intros entry owner [Hin|Hin%list_elem_of_singleton]%elem_of_app Ho Hne Hlab.
    + destruct (Hc entry owner Hin Ho Hne Hlab) as (l & Hl & He).
      by eapply Hg1.
    + subst entry. by apply Hc1.
Qed.

Lemma classify_batch_complete budget manufacturers batch response m m' :
  classify_batch budget manufacturers m batch response = Ok m' ->
  grows m m'
  /\ forall text span classifications entry owner,
       response = Some text -> search_span "{" "}" text = Some span ->
       loads budget span = Ok classifications ->
       entry ∈ batch -> owner ∈ manufacturers -> owner <> "" ->
       labelled classifications entry owner ->
       exists l, m' !! owner = Some l /\ entry ∈ l.
Proof.
  unfold classify_batch.
  destruct response as [[|c t]|].
  - intros [= <-]. split; [apply grows_refl|].
    intros text span cls entry owner [= <-]. done.
  - destruct (search_span "{" "}" (String c t)) as [span0|] eqn:Es.
    + destruct (loads budget span0) as [cls0|e] eqn:El.
      * intros Hent. apply classify_entries_complete in Hent as [Hg Hc].
        split; [done|].
        intros text span cls entry owner [= <-] Hs Hl. rewrite Es in Hs.
        injection Hs as <-. rewrite El in Hl. injection Hl as <-. by apply Hc.
      * destruct e; try done. intros [= <-].
        split; [apply grows_refl|].
        intros text span cls entry owner [= <-] Hs Hl. rewrite Es in Hs.
        injection Hs as <-. congruence.
    + intros [= <-]. split; [apply grows_refl|].
      intros text span cls entry owner [= <-] Hs. congruence.
  - intros [= <-]. split; [apply grows_refl|]. done.
Qed.

Lemma classify_batches_complete budget manufacturers responses
    (batches : list (nat * list (string * string))) m m' :
  foldl (fun acc (p : nat * list (string * string)) =>
           m ← acc; classify_batch budget manufacturers m p.2 (responses p.1))
        (Ok m) batches = Ok m' ->
  grows m m'
  /\ forall n batch text span classifications entry owner,
       (n, batch) ∈ batches ->
       responses n = Some text -> search_span "{" "}" text = Some span ->
       loads budget span = Ok classifications ->
       entry ∈ batch -> owner ∈ manufacturers -> owner <> "" ->
       labelled classifications entry owner ->
       exists l, m' !! owner = Some l /\ entry ∈ l.
Proof.
  revert m'. induction batches as [|[n0 b0] batches IH] using rev_ind; intros m'.
  - intros [= <-]. split; [apply grows_refl|].
    by intros n batch text span cls entry owner ?%elem_of_nil.
  - rewrite foldl_res_snoc.
    destruct (foldl _ (Ok m) batches) as [m1|e] eqn:E; [|done].
    change (Ok m1 ≫= ?k) with (k m1). cbv beta. simpl. intros Hb.
    destruct (IH m1 eq_refl) as [Hg Hc].
    destruct (classify_batch_complete _ _ _ _ _ _ Hb) as [Hg1 Hc1].
    split; [by eapply grows_trans|].
    intros n batch text span cls entry owner
      [Hin|Hin%list_elem_of_singleton]%elem_of_app Hr Hs Hl He Ho Hne Hlab.
    + destruct (Hc n batch text span cls entry owner Hin Hr Hs Hl He Ho Hne Hlab)
        as (l & Hl' & He').
      by eapply Hg1.
    + injection Hin as -> ->. by eapply Hc1.
Qed.

End ClassifyMore.

(** [classify_codes_with_ai] sends every submitted pair to the classifier
    exactly once: the batches, taken in order, make up the submitted list;
    every batch but the last has exactly 100 pairs and the last has between
    1 and 100. *)
Theorem classification_batches (unmatched_codes : list (string * string)) :
  let batches :=
    FillDtcGaps.slices FillDtcGaps.BATCH_SIZE FillDtcGaps.BATCH_SIZE []
      unmatched_codes in
  concat batches = unmatched_codes
  /\ exists full rest,
       batches = full ++ rest
       /\ Forall (fun b => length b = 100) full
       /\ (rest = [] /\ unmatched_codes = []
           \/ exists b, rest = [b] /\ 0 < length b <= 100).
Proof.
  intros batches. split; [apply concat_slices|].
  apply (slices_shape 100 100 [] unmatched_codes); [lia|done].
Qed.

(** When [classify_codes_with_ai] returns, every code that the classifier's
    answer for its batch labels with a candidate manufacturer (compared in
    lower case) is listed under that manufacturer: together with the
    conservative direction, a pair is listed under an owner exactly when the
    answer for its batch labels it so. *)
Theorem classification_is_complete (budget : nat) (responses : nat -> option string)
    (unmatched_codes : list (string * string)) (manufacturers : list string) :
  match FillDtcGaps.classify_codes_with_ai budget responses unmatched_codes
          manufacturers with
  | Py.Ok result =>
      forall owner entry,
        owner ∈ manufacturers -> owner <> "" ->
        Spec.assigned budget responses unmatched_codes owner entry ->
        exists l, result !! owner = Some l /\ entry ∈ l
  | Py.Raise _ => True
  end.
Proof.
  destruct (FillDtcGaps.classify_codes_with_ai _ _ _ _) as [result|e] eqn:E; [|done].
  unfold FillDtcGaps.classify_codes_with_ai in E.
  rewrite (foldl_ext_eq _
             (fun acc (p : nat * list (string * string)) =>
                m ← acc;
                FillDtcGaps.classify_batch budget manufacturers m p.2 (responses p.1)))
    in E.
  2:{ by intros acc [n b]. }
  apply classify_batches_complete in E as [_ Hc].
  intros owner entry Ho Hne (n & batch & text & span & cls & label
                             & Hn & He & Hr & Hs & Hl & Hlab & Hlow).
  apply (Hc n batch text span cls entry owner); try done.
  - apply list_elem_of_lookup. exists n. rewrite list_lookup_imap, Hn. done.
  - by exists label.
Qed.

(** * Further properties of the recovery *)

Section RecoveryMore.
Import Py Json Spec FillDtcGaps.

Lemma from_first_absent c p s :
  count_char c p = 0 -> from_first c (p +:+ s) = from_first c s.
Proof.
  induction p as [|a p IH]; [done|]. rewrite append_cons. simpl.
  destruct (Ascii.eqb a c); [done|]. apply IH.
Qed.

Lemma from_first_append c s t sfx :
  from_first c s = Some sfx -> from_first c (s +:+ t) = Some (sfx +:+ t).
Proof.
  induction s as [|a s IH]; [done|]. rewrite append_cons. simpl.
  destruct (Ascii.eqb a c).
  - intros [= <-]. by rewrite append_cons.
  - apply IH.
Qed.

Lemma upto_last_absent c t : count_char c t = 0 -> upto_last c t = None.
Proof.
  induction t as [|a t IH]; [done|]. simpl.
  destruct (Ascii.eqb a c); [done|]. intros H. by rewrite IH.
Qed.

Lemma upto_last_append c s t :
  count_char c t = 0 -> upto_last c (s +:+ t) = upto_last c s.
Proof.
  intros Ht. induction s as [|a s IH].
  - simpl. by apply upto_last_absent.
  - rewrite append_cons. simpl. by rewrite IH.
Qed.

Lemma search_span_surrounded op cl p s t span :
  count_char op p = 0 -> count_char cl t = 0 ->
  search_span op cl s = Some span ->
  search_span op cl (p +:+ s +:+ t) = Some span.
Proof.
  intros Hp Ht. unfold search_span. rewrite from_first_absent by done.
  destruct (from_first op s) as [sfx|] eqn:E; [|done].
  rewrite (from_first_append _ _ t _ E). intros Hs.
  by rewrite upto_last_append.
Qed.

End RecoveryMore.

(** Text around the array does not disturb the recovery: when a valid JSON
    array is preceded by text that has no opening bracket and followed by
    text that has no closing bracket (an introduction, a Markdown fence, a
    closing remark), [parse_json_robustly] returns exactly the array. *)
Theorem recovery_ignores_surrounding_text (budget : nat)
    (prefix text suffix : string) (items : list Json.json)
    (Hprefix : Py.count_char "[" prefix = 0)
    (Hsuffix : Py.count_char "]" suffix = 0)
    (Htext : Json.loads budget text = Py.Ok (Json.JArr items)) :
  FillDtcGaps.parse_json_robustly budget (prefix +:+ text +:+ suffix)
  = Py.Ok (Json.JArr items).
Proof.
  destruct (loads_array_span _ _ _ Htext) as (span & Hs & Hl).
  unfold FillDtcGaps.parse_json_robustly, FillDtcGaps.or_else, FillDtcGaps.strategy1.
  by rewrite (search_span_surrounded _ _ prefix text suffix span Hprefix Hsuffix Hs), Hl.
Qed.

Lemma recovery_ignores_surrounding_text_witness :
  FillDtcGaps.parse_json_robustly 1000
    ("Here are the codes: " +:+ Py.js "[{'code': 'P0420'}]" +:+ " I hope this helps.")
  = Py.Ok (Json.JArr [Json.JObj [("code", Json.JStr "P0420")]]).
Proof.
  apply (recovery_ignores_surrounding_text 1000 "Here are the codes: "
           (Py.js "[{'code': 'P0420'}]") " I hope this helps."); reflexivity.
Defined.

Section ObjectFacts.
Import Py Json Spec FillDtcGaps.

Lemma deliver_nonempty v stk q' :
  deliver v stk = Some q' -> stk <> [] -> stack q' <> [].
Proof.
  intros Hd Hne. destruct (deliver_stack _ _ _ Hd) as [[-> _]|(_ & H & _)]; done.
Qed.

Lemma deliver_key_nonempty k stk q' :
  deliver_key k stk = Some q' -> stack q' <> [].
Proof.
  unfold deliver_key. destruct stk as [|[items|members [k0|]] below]; try done.
  by intros [= <-].
Qed.

Lemma close_array_nonempty stk q' :
  close_array stk = Some q' -> bottom_is_object stk = true -> stack q' <> [].
Proof.
  unfold close_array. destruct stk as [|[items|members k] below]; try done.
  intros Hd Hb. destruct below as [|f below']; [done|].
  by apply (deliver_nonempty _ _ _ Hd).
Qed.

Lemma close_object_done stk q' :
  close_object stk = Some q' -> stack q' = [] ->
  exists members, lx q' = LDone (JObj members).
Proof.
  unfold close_object. destruct stk as [|[items|members [k|]] below]; try done.
  intros Hd He. destruct (deliver_stack _ _ _ Hd) as [[_ ->]|(_ & H & _)]; [|done].
  by exists members.
Qed.

Lemma start_value_nonempty stk c q' :
  start_value stk c = Some q' -> stk <> [] -> stack q' <> [].
Proof.
  unfold start_value. intros H Hne.
  repeat match type of H with
         | (if ?b then _ else _) = _ => destruct b
         end; try done; by injection H as <-.
Qed.

Lemma step_idle_object e stk c q' :
  step_idle e stk c = Some q' -> stk <> [] -> bottom_is_object stk = true ->
  stack q' = [] -> exists members, lx q' = LDone (JObj members).
Proof.
  unfold step_idle. intros H Hne Hb He.
  assert (forall l, Some {| stack := stk; lx := l |} = Some q' -> False) as Hgo.
  { intros l [= <-]. done. }
  destruct (is_json_ws c); [by destruct (Hgo _ H)|].
  destruct e.
  - by destruct (start_value_nonempty _ _ _ H Hne).
  - destruct (Ascii.eqb c "]").
    + by destruct (close_array_nonempty _ _ H Hb).
    + by destruct (start_value_nonempty _ _ _ H Hne).
  - destruct (Ascii.eqb c dquote); [by destruct (Hgo _ H)|].
    destruct (Ascii.eqb c "}"); [by eapply close_object_done|done].
  - destruct (Ascii.eqb c dquote); [by destruct (Hgo _ H)|done].
  - destruct (Ascii.eqb c ":"); [by destruct (Hgo _ H)|done].
  - destruct (Ascii.eqb c ",").
    + destruct stk as [|[items|members [k|]] below]; try done;
        by destruct (Hgo _ H).
    + destruct (Ascii.eqb c "]"); [by destruct (close_array_nonempty _ _ H Hb)|].
      destruct (Ascii.eqb c "}"); [by eapply close_object_done|done].
Qed.

Lemma step_object q c q' :
  step q c = Some q' -> stack q <> [] -> bottom_is_object (stack q) = true ->
  stack q' = [] -> exists members, lx q' = LDone (JObj members).
Proof.
  intros Hs Hne Hb He. unfold step in Hs.
  assert (forall l, Some {| stack := stack q; lx := l |} = Some q' -> False) as Hgo.
  { intros l [= <-]. done. }
  assert (forall v, deliver v (stack q) = Some q' -> False) as Hd.
  { intros v Hv. by destruct (deliver_nonempty _ _ _ Hv Hne). }
  destruct (lx q) as [e|v|is_key acc pending m|lexeme m|rem lit] eqn:El.
  - by eapply step_idle_object.
  - destruct (is_json_ws c); [|done]. injection Hs as <-. done.
  - exfalso. unfold step_string in Hs.
    destruct m as [| |seen value].
    + destruct (Ascii.eqb c dquote).
      * destruct is_key; [by destruct (deliver_key_nonempty _ _ _ Hs)|by eapply Hd].
      * destruct (Ascii.eqb c "\"); [by eapply Hgo|].
        destruct (N_of_ascii c <? 32)%N; [done|]. by eapply Hgo.
    + destruct (Ascii.eqb c "u"); [by eapply Hgo|].
      destruct (simple_escape c); [|done]. by eapply Hgo.
    + destruct (hex_value c); [|done].
      destruct (seen <? 3); [by eapply Hgo|].
      destruct pending.
      * destruct (is_low_surrogate _); [by eapply Hgo|].
        destruct (is_high_surrogate _); by eapply Hgo.
      * destruct (is_high_surrogate _); by eapply Hgo.
  - destruct (num_next m c); [by destruct (Hgo _ Hs)|].
    assert (forall q1, deliver (JNum lexeme) (stack q) = Some q1 ->
              match lx q1 with
              | LIdle e => step_idle e (stack q1) c
              | _ => if is_json_ws c then Some q1 else None
              end = Some q' ->
              exists members, lx q' = LDone (JObj members)) as Hterm.
    { intros q1 Hq1 Hstep.
      destruct (deliver_stack _ _ _ Hq1) as [[Hnil _]|(_ & Hne1 & Hl1)]; [done|].
      rewrite Hl1 in Hstep. apply (step_idle_object _ _ _ _ Hstep Hne1); [|done].
      assert (no_array_doc q1 = true) as Hn1.
      { apply (deliver_no_array _ _ _ Hq1); [done|]. by intros _. }
      unfold no_array_doc in Hn1. by destruct (stack q1). }
    destruct m; simpl in Hs;
      try done;
      try (destruct (deliver (JNum lexeme) (stack q)) as [q1|] eqn:Eq1; [|done];
           by eapply Hterm).
    destruct (Ascii.eqb c "I"); [|done]. by destruct (Hgo _ Hs).
  - exfalso. destruct rem as [|c' rest]; [done|].
    destruct (Ascii.eqb c c'); [|done].
    destruct rest; [by eapply Hd|by eapply Hgo].
Qed.

Lemma step_object_doc q c q' :
  object_doc q -> step q c = Some q' -> object_doc q'.
Proof.
  intros [[Hne Hb]|[He (members & Hl)]] Hs.
  - destruct (stack q') as [|f below] eqn:Es.
    + right. split; [done|]. by eapply step_object.
    + left. split; [by rewrite Es|].
      assert (no_array_doc q = true) as Hn.
      { unfold no_array_doc. by destruct (stack q). }
      pose proof (step_no_array _ _ _ Hn Hs) as Hn'.
      unfold no_array_doc in Hn'. rewrite Es in Hn' |- *. done.
  - unfold step in Hs. rewrite Hl in Hs.
    destruct (is_json_ws c); [|done]. injection Hs as <-.
    right. split; [done|]. by exists members.
Qed.

Lemma run_object_doc s q q' :
  object_doc q -> run q s = Some q' -> object_doc q'.
Proof.
  revert q. induction s as [|c s IH]; intros q Hq; simpl.
  - by intros [= <-].
  - destruct (step q c) as [q1|] eqn:E; [|done].
    apply IH. by eapply step_object_doc.
Qed.

(** A text that opens with a brace decodes to an object or not at all. *)
Lemma loads_brace budget t v :
  loads budget (String "{" t) = Ok v -> exists members, v = JObj members.
Proof.
  intros (_ & q & Er & Ef)%loads_Ok.
  change (run initial (String "{" t))
    with (run {| stack := [FObj [] None]; lx := LIdle EKeyOrClose |} t) in Er.
  assert (object_doc q) as Hq.
  { eapply run_object_doc; [|exact Er]. left. done. }
  unfold finish in Ef. destruct Hq as [[Hne _]|[He (members & Hl)]].
  - destruct (lx q), (stack q); try done.
  - rewrite Hl, He in Ef. injection Ef as <-. by exists members.
Qed.

Lemma loads_empty budget : loads budget "" = Raise JSONDecodeError.
Proof. reflexivity. Qed.

Lemma match_object_brace s r :
  match_object s = Some r -> exists t, s = String "{" t.
Proof.
  unfold match_object. destruct (lit "{" s) as [s1|] eqn:E; [|done]. intros _.
  unfold lit in E. destruct (startswith "{" s) eqn:Es; [|done].
  destruct s as [|a t]; [done|]. cbn [startswith] in Es.
  destruct (Ascii.eqb "{" a) eqn:Ea; [|done].
  apply Ascii.eqb_eq in Ea as <-. by exists t.
Qed.

Lemma findall_objects_brace skip s m :
  m ∈ findall_objects skip s -> m = "" \/ exists t, m = String "{" t.
Proof.
  revert skip. induction s as [|a s IH]; intros skip; simpl.
  - by intros ?%elem_of_nil.
  - destruct skip as [|k]; [|apply IH].
    destruct (match_object (String a s)) as [r|] eqn:E; [|apply IH].
    intros [->|Hin]%elem_of_cons; [|by eapply IH].
    apply match_object_brace in E as (t & [= -> ->]).
    destruct (_ - _) as [|n]; [by left|].
    right. simpl. by eexists.
Qed.

Lemma keep_object_code budget objects m :
  (m = "" \/ exists t, m = String "{" t) ->
  Forall is_code_object objects ->
  Forall is_code_object (keep_object budget objects m).
Proof.
  intros Hm Hobjs. unfold keep_object.
  destruct (loads budget m) as [obj|e] eqn:El; [|done].
  assert (exists members, obj = JObj members) as [members ->].
  { destruct Hm as [->|[t ->]]; [by rewrite loads_empty in El|by eapply loads_brace]. }
  simpl. destruct (bool_decide (is_Some (dict_get "code" members))) eqn:Ec; [|done].
  simpl. destruct (bool_decide (is_Some (dict_get "description" members))) eqn:Ed;
    [|done].
  simpl. apply Forall_app. split; [done|]. apply Forall_singleton.
  exists members. split; [done|].
  split; [by apply bool_decide_eq_true in Ec|by apply bool_decide_eq_true in Ed].
Qed.

Lemma keep_objects_code budget matches objects :
  Forall (fun m => m = "" \/ exists t, m = String "{" t) matches ->
  Forall is_code_object objects ->
  Forall is_code_object (fold_left (keep_object budget) matches objects).
Proof.
  revert objects. induction matches as [|m matches IH]; intros objects Hm Hobjs;
    [done|].
  apply Forall_cons in Hm as [Hm Hms]. simpl. apply IH; [done|].
  by apply keep_object_code.
Qed.

End ObjectFacts.

(** What the object extraction of [parse_json_robustly] (its third strategy)
    recovers is a list, never empty, of JSON objects that each have a 'code'
    and a 'description' key; and it is what [parse_json_robustly] returns
    when the first two strategies yield nothing. *)
Theorem extraction_recovers_code_objects (budget : nat) (response : string) :
  match FillDtcGaps.strategy3 budget response with
  | Py.Ok (Some v) =>
      (exists objects,
         v = Json.JArr objects /\ objects <> []
         /\ Forall Spec.is_code_object objects)
      /\ (FillDtcGaps.strategy1 budget response = Py.Ok None ->
          FillDtcGaps.strategy2 budget response = Py.Ok None ->
          FillDtcGaps.parse_json_robustly budget response = Py.Ok v)
  | Py.Ok None => True
  | Py.Raise _ => False
  end.
Proof.
  unfold FillDtcGaps.strategy3. cbv zeta.
  pose proof (keep_objects_code budget (FillDtcGaps.findall_objects 0 response) [])
    as H.
  destruct (fold_left (FillDtcGaps.keep_object budget) _ []) as [|o objs] eqn:E;
    [done|].
  simpl. split.
  - exists (o :: objs). split; [done|]. split; [done|]. apply H; [|constructor].
    apply Forall_forall. intros m Hm. by eapply findall_objects_brace.
  - intros H1 H2. unfold FillDtcGaps.parse_json_robustly, FillDtcGaps.or_else.
    rewrite H1, H2. simpl. unfold FillDtcGaps.strategy3. cbv zeta. by rewrite E.
Qed.

(** A run of the extraction on text whose array is broken beyond the repair
    of the second strategy. *)
Example extraction_run :
  FillDtcGaps.parse_json_robustly 1000
    (Py.js "{'code': 'P0420', 'description': 'Catalyst', 'powertrain_type': 'Petrol'} and {'oops'")
  = Py.Ok (Json.JArr [Json.JObj [("code", Json.JStr "P0420");
                                 ("description", Json.JStr "Catalyst");
                                 ("powertrain_type", Json.JStr "Petrol")]]).
Proof. vm_compute. reflexivity. Qed.

(** * enrich_existing_codes *)

Section EnrichFacts.
Import Py Spec FillDtcGaps.

Lemma write_enriched_fixed r data :
  fixed_columns (write_enriched r data) = fixed_columns r.
Proof. done. Qed.

Lemma alter_fixed (f : DtcRow -> DtcRow) (i : nat) (df : list DtcRow) :
  (forall r, fixed_columns (f r) = fixed_columns r) ->
  fixed_columns <$> alter f i df = fixed_columns <$> df.
Proof.
  intros Hf. apply list_eq. intros j. rewrite !list_lookup_fmap.
  destruct (decide (i = j)) as [->|Hne].
  - rewrite list_lookup_alter_eq. destruct (df !! j); [|done]. simpl. by rewrite Hf.
  - by rewrite list_lookup_alter_ne.
Qed.

Lemma enrich_loop_frame (enriched_by_code : gmap string (gmap string cell))
    (items : list EnrichItem) (df : list DtcRow) (stats : UsageStats) :
  let result :=
    fold_left
      (fun '((df, stats) : list DtcRow * UsageStats) item =>
         match enriched_by_code !! upper (item_code item) with
         | Some enriched_data =>
             (alter (fun r => write_enriched r enriched_data) (item_idx item) df,
              add_updated stats 1)
         | None => (df, stats)
         end)
      items (df, stats) in
  fixed_columns <$> result.1 = fixed_columns <$> df
  /\ (forall i, i ∉ item_idx <$> items -> result.1 !! i = df !! i)
  /\ codes_added result.2 = codes_added stats
  /\ codes_updated stats <= codes_updated result.2 <= codes_updated stats + length items.
Proof.
  revert df stats. induction items as [|it items IH]; intros df stats; simpl.
  - repeat split; lia.
  - destruct (enriched_by_code !! upper (item_code it)) as [data|].
    + destruct (IH (alter (fun r => write_enriched r data) (item_idx it) df)
                   (add_updated stats 1)) as (H1 & H2 & H3 & H4).
      split; [|split; [|split]].
      * rewrite H1. apply alter_fixed. intros r. apply write_enriched_fixed.
      * intros i Hi. rewrite H2.
        -- apply list_lookup_alter_ne. intros Heq. apply Hi.
           rewrite Heq. by left.
        -- intros Hin. apply Hi. by right.
      * by rewrite H3.
      * simpl in H4. lia.
    + destruct (IH df stats) as (H1 & H2 & H3 & H4).
      split; [done|]. split; [|split; [done|lia]].
      intros i Hi. apply H2. intros Hin. apply Hi. by right.
Qed.

Lemma apply_enriched_frame stats df make items enriched :
  match apply_enriched stats df make items enriched with
  | Ok (df', stats') =>
      fixed_columns <$> df' = fixed_columns <$> df
      /\ (forall i, i ∉ item_idx <$> items -> df' !! i = df !! i)
      /\ codes_added stats' = codes_added stats
      /\ codes_updated stats <= codes_updated stats'
         <= codes_updated stats + length items
  | Raise _ => True
  end.
Proof.
  unfold apply_enriched.
  destruct (index_enriched enriched) as [m|e] eqn:E; simpl; [|done].
  pose proof (enrich_loop_frame m items df stats) as H. cbv zeta in H.
  destruct (fold_left _ items (df, stats)) as [df' stats']. exact H.
Qed.

Lemma elem_of_concat {A} (x : A) (ls : list (list A)) :
  x ∈ concat ls <-> exists l, x ∈ l /\ l ∈ ls.
Proof.
  induction ls as [|l0 ls IH]; simpl.
  - split; [by intros ?%elem_of_nil|]. by intros (l & _ & ?%elem_of_nil).
  - rewrite elem_of_app, IH. split.
    + intros [H|(l & Hx & Hl)]; [exists l0; split; [done|by left]|].
      exists l. split; [done|by right].
    + intros (l & Hx & [->|Hl]%elem_of_cons); [by left|]. right. by exists l.
Qed.

Lemma codes_to_enrich_items df manufacturers it :
  it ∈ codes_to_enrich df manufacturers ->
  exists r, df !! item_idx it = Some r
            /\ make_id r = item_make_id it
            /\ item_make_id it ∈ manufacturers
            /\ needs_enrich r = true.
Proof.
  unfold codes_to_enrich. intros Hin.
  apply elem_of_concat in Hin as (l & Hit & Hl).
  apply list_elem_of_fmap in Hl as (make & -> & Hmake).
  apply list_elem_of_omap in Hit as ([i r] & Hir & Hsome).
  apply list_elem_of_lookup in Hir as [j Hj].
  rewrite list_lookup_imap in Hj.
  destruct (df !! j) as [r'|] eqn:Ej; [|done]. injection Hj as <- <-.
  simpl in Hsome. destruct (bool_decide (make_id r' = make)) eqn:Em; [|done].
  destruct (needs_enrich r') eqn:En; [|done]. injection Hsome as <-. simpl.
  apply bool_decide_eq_true in Em. by exists r'.
Qed.

Lemma enrich_groups_frame
    (enrich_codes_batch : list (string * string) -> string
                          -> res (list (gmap string cell)))
    (groups : list (string * list EnrichItem)) (df : list DtcRow)
    (stats : UsageStats) :
  match
    foldl
      (fun (acc : res (list DtcRow * UsageStats))
           (group : string * list EnrichItem) =>
         st ← acc;
         enriched ← enrich_codes_batch
                      ((fun it => (item_code it, item_description it)) <$> group.2)
                      group.1;
         apply_enriched st.2 st.1 group.1 group.2 enriched)
      (Ok (df, stats)) groups
  with
  | Ok (df', stats') =>
      fixed_columns <$> df' = fixed_columns <$> df
      /\ (forall i,
            (forall group it, group ∈ groups -> it ∈ group.2 -> item_idx it <> i) ->
            df' !! i = df !! i)
      /\ codes_added stats' = codes_added stats
      /\ codes_updated stats <= codes_updated stats'
  | Raise _ => True
  end.
Proof.
  induction groups as [|g groups IH] using rev_ind.
  - simpl. repeat split; lia.
  - rewrite foldl_app. simpl.
    destruct (foldl _ (Ok (df, stats)) groups) as [[df1 stats1]|e]; [|done].
    change (Ok (df1, stats1) ≫= ?k) with (k (df1, stats1)). cbv beta. simpl.
    destruct IH as (H1 & H2 & H3 & H4).
    destruct (enrich_codes_batch _ g.1) as [enriched|e]; [|done].
    change (Ok enriched ≫= ?k) with (k enriched). cbv beta.
    pose proof (apply_enriched_frame stats1 df1 g.1 g.2 enriched) as Hstep.
    destruct (apply_enriched _ _ _ _ _) as [[df' stats']|e]; [|done].
    destruct Hstep as (S1 & S2 & S3 & S4).
    split; [by rewrite S1|]. split; [|split; [by rewrite S3|lia]].
    intros i Hi. rewrite S2.
    + apply H2. intros group it Hg Hit. apply (Hi group it); [|done].
      apply elem_of_app. by left.
    + intros (it & Hidx & Hit)%list_elem_of_fmap.
      apply (Hi g it); [|done|done]. apply elem_of_app. right. by left.
Qed.

End EnrichFacts.

(** [enrich_existing_codes] never changes the identity of a record: when it
    returns, the frame has the same rows in the same order with the same
    code, make_id and description; a row that did not need enrichment (a
    detailed description of 50 characters or more that differs from the
    description, and causes that are neither missing nor empty), and a row of
    a manufacturer that was not selected, is returned as it was;
    [stats.codes_added] is as before and [stats.codes_updated] has not
    decreased.  When no row of the selected manufacturers needs enrichment it
    returns the frame and the counters as they are, without calling
    [enrich_codes_batch]. *)
Theorem enrichment_keeps_identity
    (enrich_codes_batch : list (string * string) -> string
                          -> Py.res (list (gmap string FillDtcGaps.cell)))
    (stats : FillDtcGaps.UsageStats) (df : list FillDtcGaps.DtcRow)
    (manufacturers : FillDtcGaps.makes_arg) :
  let selected :=
    match manufacturers with
    | FillDtcGaps.AllMakes => FillDtcGaps.unique (FillDtcGaps.make_id <$> df)
    | FillDtcGaps.OneMake m => [Py.lower m]
    | FillDtcGaps.ListOfMakes l => Py.lower <$> l
    end in
  match FillDtcGaps.enrich_existing_codes enrich_codes_batch stats df manufacturers with
  | Py.Ok (df', stats') =>
      Spec.fixed_columns <$> df' = Spec.fixed_columns <$> df
      /\ (forall i r, df !! i = Some r ->
            FillDtcGaps.needs_enrich r = false \/ FillDtcGaps.make_id r ∉ selected ->
            df' !! i = Some r)
      /\ FillDtcGaps.codes_added stats' = FillDtcGaps.codes_added stats
      /\ FillDtcGaps.codes_updated stats <= FillDtcGaps.codes_updated stats'
  | Py.Raise _ => True
  end
  /\ (FillDtcGaps.codes_to_enrich df selected = [] ->
      FillDtcGaps.enrich_existing_codes enrich_codes_batch stats df manufacturers
      = Py.Ok (df, stats)).
Proof.
  intros selected. unfold FillDtcGaps.enrich_existing_codes. fold selected.
  split; [|by intros ->].
  destruct (FillDtcGaps.codes_to_enrich df selected) as [|it0 items0] eqn:Eitems.
  { repeat split; try done. }
  rewrite <- Eitems.
  pose proof (enrich_groups_frame enrich_codes_batch
                (FillDtcGaps.group_by_make (FillDtcGaps.codes_to_enrich df selected))
                df stats) as H.
  destruct (foldl _ _ _) as [[df' stats']|e]; [|done].
  destruct H as (H1 & H2 & H3 & H4).
  split; [done|]. split; [|done].
  intros i r Hr Hcase. rewrite H2; [done|].
  intros group it Hg Hit Hidx.
  unfold FillDtcGaps.group_by_make in Hg.
  apply list_elem_of_fmap in Hg as (make & -> & _). simpl in Hit.
  apply list_elem_of_filter in Hit as [_ Hit].
  apply codes_to_enrich_items in Hit as (r' & Hr' & Hm & Hsel & Hneeds).
  rewrite Hidx, Hr in Hr'. injection Hr' as <-.
  destruct Hcase as [Hn|Hn]; [congruence|]. apply Hn. by rewrite Hm.
Qed.

(** * smart_import_manufacturer_codes *)

Section SmartFacts.
Import Py Spec FillDtcGaps.

Lemma first_match_in manufacturers code desc make :
  first_match manufacturers code desc = Some make -> make ∈ manufacturers.
Proof.
  unfold first_match. intros H. apply find_some in H as [H _].
  by apply list_elem_of_In.
Qed.

Lemma fold_left_snoc {A B} (f : A -> B -> A) (l : list B) a x :
  fold_left f (l ++ [x]) a = f (fold_left f l a) x.
Proof. by rewrite fold_left_app. Qed.

Lemma match_keywords_spec (manufacturers : list string)
    (codes : list (string * string)) :
  (forall make,
     keyword_matches (match_keywords manufacturers codes) !! make
     = if decide (make ∈ manufacturers)
       then Some (filter (fun e : string * string =>
                            first_match manufacturers e.1 e.2 = Some make) codes)
       else None)
  /\ unmatched (match_keywords manufacturers codes)
     = filter (fun e : string * string => first_match manufacturers e.1 e.2 = None)
              codes.
Proof.
  unfold match_keywords.
  induction codes as [|[c d] codes [IHk IHu]] using rev_ind.
  - split; [|done]. intros make. simpl. apply initial_classifications_lookup.
  - rewrite fold_left_snoc.
    assert (forall make,
      filter (fun e : string * string => first_match manufacturers e.1 e.2 = make)
             (codes ++ [(c, d)])
      = filter (fun e : string * string => first_match manufacturers e.1 e.2 = make)
               codes
        ++ (if decide (first_match manufacturers c d = make) then [(c, d)] else []))
      as Hf.
    { intros make. by rewrite filter_app. }
    destruct (first_match manufacturers c d) as [make0|] eqn:E;
      cbn [keyword_matches unmatched].
    + pose proof (first_match_in _ _ _ _ E) as Hin. split.
      * intros make. rewrite Hf, lookup_insert, !IHk.
        repeat case_decide; simplify_eq; rewrite ?app_nil_r; done.
      * rewrite IHu, filter_app.
        rewrite (filter_cons_False _ (c, d)) by (simpl; congruence).
        by rewrite filter_nil, app_nil_r.
    + split.
      * intros make. rewrite Hf, IHk.
        repeat case_decide; simplify_eq; rewrite ?app_nil_r; done.
      * rewrite IHu, filter_app. by rewrite (filter_cons_True _ (c, d)) by done.
Qed.

Lemma mfr_specific_collect reference_codes :
  mfr_specific_codes reference_codes = collect specific_key reference_codes.
Proof.
  unfold mfr_specific_codes, collect. apply fold_left_ext_eq.
  intros acc [c d]. unfold specific_key. by destruct (bool_decide _).
Qed.

Lemma specific_key_Some c k :
  specific_key c = Some k ->
  k = upper c /\ str_take 2 k ∈ MANUFACTURER_SPECIFIC_PREFIXES.
Proof.
  unfold specific_key. destruct (bool_decide _) eqn:E; [|done].
  intros [= <-]. split; [done|]. apply bool_decide_eq_true in E.
  destruct (2 <=? String.length (upper c)); [done|].
  unfold MANUFACTURER_SPECIFIC_PREFIXES in E.
  rewrite !elem_of_cons, elem_of_nil in E.
  repeat destruct E as [E|E]; done.
Qed.

Lemma mfr_specific_from_reference reference_codes entry :
  entry ∈ mfr_specific_codes reference_codes -> from_reference reference_codes entry.
Proof.
  rewrite mfr_specific_collect. destruct entry as [k d]. intros Hin.
  apply collect_entries in Hin as (c & Hc & Hk).
  apply specific_key_Some in Hk as [-> Hp]. split; [by exists c|done].
Qed.


Lemma first_match_first manufacturers code desc make :
  first_match manufacturers code desc = Some make
  <-> first_with_keyword manufacturers code desc make.
Proof.
  unfold first_match, first_with_keyword.
  induction manufacturers as [|m ms IH]; simpl.
  - split; [done|]. intros (before & after & H & _). by destruct before.
  - destruct (keyword_hit m (lower desc) (lower code)) eqn:E.
    + split.
      * intros [= ->]. by exists [], ms.
      * intros (before & after & H & Hhit & Hb).
        destruct before as [|b before]; simplify_eq/=; [done|].
        apply Forall_cons in Hb as [Hb _]. congruence.
    + rewrite IH. split.
      * intros (before & after & -> & Hhit & Hb).
        exists (m :: before), after. split; [done|]. split; [done|].
        by apply Forall_cons.
      * intros (before & after & H & Hhit & Hb).
        destruct before as [|b before]; simplify_eq/=; [congruence|].
        apply Forall_cons in Hb as [_ Hb]. by exists before, after.
Qed.

Lemma keyword_hit_unknown make desc_lower code_lower :
  make ∉ (fst <$> MANUFACTURER_KEYWORDS) ->
  keyword_hit make desc_lower code_lower = false.
Proof.
  unfold keyword_hit. generalize MANUFACTURER_KEYWORDS.
  induction l as [|[m ks] l IH]; [done|].
  rewrite fmap_cons, not_elem_of_cons. intros [Hne Hl]. simpl.
  destruct (String.eqb_spec make m); [done|]. by apply IH.
Qed.

Lemma new_rows_for_quick df kw ai make rows r :
  new_rows_for df None kw ai make = Ok rows ->
  r ∈ rows ->
  exists entry,
    r = quick_import_code make entry
    /\ entry ∈ default [] (kw !! make) ++ default [] (ai !! make)
    /\ forall x, x ∈ df -> make_id x = make -> upper (code x) <> upper entry.1.
Proof.
  unfold new_rows_for.
  set (existing := list_to_set _ : gset string).
  set (new_for_make := filter _ _).
  assert (r ∈ quick_import_codes new_for_make make ->
          exists entry, r = quick_import_code make entry /\ entry ∈ new_for_make) as Hq.
  { unfold quick_import_codes. intros (e & -> & He)%list_elem_of_fmap. by exists e. }
  intros Hrows Hr.
  assert (r ∈ quick_import_codes new_for_make make) as Hr'.
  { destruct new_for_make; injection Hrows as <-; [by apply elem_of_nil in Hr|done]. }
  destruct (Hq Hr') as (entry & -> & He). exists entry. split; [done|].
  apply list_elem_of_filter in He as [Hnot He]. split; [done|].
  intros x Hx Hm Heq. apply Hnot. unfold existing.
  apply elem_of_list_to_set, list_elem_of_fmap. exists x. split; [done|].
  by apply list_elem_of_filter.
Qed.

(** Without enrichment step 3 does not fail, and every row it collects was
    built for one of the manufacturers. *)
Lemma collect_new_rows df kw ai (manufacturers : list string) :
  exists all_new_codes,
    foldl
      (fun acc make =>
         all_new_codes ← acc;
         rows ← new_rows_for df None kw ai make;
         Ok (all_new_codes ++ rows))
      (Ok []) manufacturers = Ok all_new_codes
    /\ forall r, r ∈ all_new_codes ->
         exists make rows,
           make ∈ manufacturers
           /\ new_rows_for df None kw ai make = Ok rows /\ r ∈ rows.
Proof.
  induction manufacturers as [|m ms IH] using rev_ind.
  - exists []. split; [done|]. by intros r ?%elem_of_nil.
  - destruct IH as (prev & Hprev & Hrows). rewrite foldl_app. simpl. rewrite Hprev.
    change (Ok prev ≫= ?k) with (k prev). cbv beta.
    assert (exists rows, new_rows_for df None kw ai m = Ok rows) as [rows Hm].
    { unfold new_rows_for. destruct (filter _ _); by eexists. }
    rewrite Hm. exists (prev ++ rows). split; [done|].
    intros r [Hr|Hr]%elem_of_app.
    + destruct (Hrows r Hr) as (make & rows' & Hin & Hnew & Hr').
      exists make, rows'. split; [|done]. apply elem_of_app. by left.
    + exists m, rows. split; [|done]. apply elem_of_app. right. by left.
Qed.

End SmartFacts.

(** Step 1 of [smart_import_manufacturer_codes] shares the codes out: every
    selected manufacturer gets, in their order, the codes whose first
    manufacturer with a keyword hit it is, and the codes without any hit
    are the unmatched ones.  The first manufacturer is the first one of the
    list with a keyword in the description or the code, and a manufacturer
    without a keyword table gets nothing. *)
Theorem keyword_step_shares_codes (manufacturers : list string)
    (codes : list (string * string)) :
  let st := FillDtcGaps.match_keywords manufacturers codes in
  (forall make,
     FillDtcGaps.keyword_matches st !! make
     = if decide (make ∈ manufacturers)
       then Some (filter (fun e : string * string =>
                    FillDtcGaps.first_match manufacturers e.1 e.2 = Some make) codes)
       else None)
  /\ FillDtcGaps.unmatched st
     = filter (fun e : string * string =>
                 FillDtcGaps.first_match manufacturers e.1 e.2 = None) codes
  /\ (forall code desc make,
        FillDtcGaps.first_match manufacturers code desc = Some make
        <-> Spec.first_with_keyword manufacturers code desc make)
  /\ (forall make l,
        make ∉ (fst <$> FillDtcGaps.MANUFACTURER_KEYWORDS) ->
        FillDtcGaps.keyword_matches st !! make = Some l -> l = []).
Proof.
  intros st. destruct (match_keywords_spec manufacturers codes) as [Hk Hu].
  split; [exact Hk|]. split; [exact Hu|]. split; [apply first_match_first|].
  intros make l Hno. unfold st. rewrite Hk. case_decide; [|done]. intros [= <-].
  apply filter_nil_Forall, Forall_forall. intros [c d] _ Hm.
  apply first_match_first in Hm as (_ & _ & _ & Hhit & _).
  by rewrite keyword_hit_unknown in Hhit.
Qed.

Section SmartResult.
Import Py Spec FillDtcGaps.

Lemma ai_matches_from_unmatched budget responses (codes : list (string * string))
    manufacturers :
  match (if 20 <? length codes
         then classify_codes_with_ai budget responses codes manufacturers
         else Ok (list_to_map ((fun make => (make, [])) <$> manufacturers))) with
  | Ok ai_matches =>
      forall make entry, entry ∈ default [] (ai_matches !! make) -> entry ∈ codes
  | Raise _ => True
  end.
Proof.
  destruct (20 <? length codes).
  - pose proof (classify_codes_with_ai_classified budget responses codes manufacturers)
      as H.
    destruct (classify_codes_with_ai _ _ _ _) as [m|e]; [|done].
    destruct H as [_ H]. intros make entry He.
    destruct (m !! make) as [l|] eqn:El; [|by apply elem_of_nil in He].
    eapply assigned_unmatched, H; done.
  - intros make entry. rewrite initial_classifications_lookup.
    case_decide; by intros ?%elem_of_nil.
Qed.

(** The rows that step 3 collects without enrichment. *)
Lemma collected_rows_spec reference_codes df (ms : list string)
    (ai : gmap string (list (string * string))) :
  let codes := mfr_specific_codes reference_codes in
  let st := match_keywords ms codes in
  (forall make entry, entry ∈ default [] (ai !! make) -> entry ∈ unmatched st) ->
  exists all_new_codes,
    foldl
      (fun acc make =>
         all_new_codes ← acc;
         rows ← new_rows_for df None (keyword_matches st) ai make;
         Ok (all_new_codes ++ rows))
      (Ok []) ms = Ok all_new_codes
    /\ Forall (fun r =>
         make_id r ∈ ms
         /\ from_reference reference_codes (code r, description r)
         /\ forall x, x ∈ df -> make_id x = make_id r ->
              upper (code x) <> upper (code r))
         all_new_codes.
Proof.
  intros codes st Hai.
  destruct (collect_new_rows df (keyword_matches st) ai ms) as (all_new & Hfold & Hrows).
  exists all_new. split; [done|].
  apply Forall_forall. intros r Hr.
  destruct (Hrows r Hr) as (make & rows & Hmake & Hnew & Hin).
  destruct (new_rows_for_quick _ _ _ _ _ _ Hnew Hin) as (entry & -> & He & Hnone).
  destruct (quick_import_code_id make entry) as (-> & -> & ->).
  split; [done|]. split; [|done].
  destruct (match_keywords_spec ms codes) as [Hk Hu].
  assert (entry ∈ codes) as Hc.
  { apply elem_of_app in He as [He|He].
    - unfold st in He. rewrite Hk in He. rewrite decide_True in He by done.
      by apply list_elem_of_filter in He as [_ He].
    - apply Hai in He. unfold st in He. rewrite Hu in He.
      by apply list_elem_of_filter in He as [_ He]. }
  destruct entry as [k d]. by apply mfr_specific_from_reference.
Qed.

End SmartResult.

(** What [smart_import_manufacturer_codes] returns without enrichment: the
    frame with new rows appended.  Every new row belongs to a selected
    manufacturer, carries a reference code with a manufacturer-specific
    prefix (in upper case) and its reference description, and that
    manufacturer had no row with this code.  The classifier is not consulted
    when at most 20 codes are unmatched: its answers do not matter then, and
    without enrichment the import returns. *)
Theorem smart_import_result (budget : nat)
    (reference_codes : list (string * string))
    (responses : nat -> option string) (stats : FillDtcGaps.UsageStats)
    (df : list FillDtcGaps.DtcRow) (manufacturers : FillDtcGaps.makes_arg) :
  match FillDtcGaps.smart_import_manufacturer_codes budget reference_codes responses
          stats df manufacturers None with
  | Py.Ok (df', stats') =>
      exists new_rows,
        df' = df ++ new_rows
        /\ FillDtcGaps.codes_added stats'
           = FillDtcGaps.codes_added stats + length new_rows
        /\ FillDtcGaps.codes_updated stats' = FillDtcGaps.codes_updated stats
        /\ Forall (fun r =>
             FillDtcGaps.make_id r ∈ Spec.selected manufacturers
             /\ Spec.from_reference reference_codes
                  (FillDtcGaps.code r, FillDtcGaps.description r)
             /\ forall x, x ∈ df ->
                  FillDtcGaps.make_id x = FillDtcGaps.make_id r ->
                  Py.upper (FillDtcGaps.code x) <> Py.upper (FillDtcGaps.code r))
             new_rows
  | Py.Raise _ => True
  end
  /\ (length (FillDtcGaps.unmatched
                (FillDtcGaps.match_keywords (Spec.selected manufacturers)
                   (FillDtcGaps.mfr_specific_codes reference_codes))) <= 20 ->
      (exists result,
         FillDtcGaps.smart_import_manufacturer_codes budget reference_codes responses
           stats df manufacturers None = Py.Ok result)
      /\ forall budget' responses' enrich,
           FillDtcGaps.smart_import_manufacturer_codes budget' reference_codes
             responses' stats df manufacturers enrich
           = FillDtcGaps.smart_import_manufacturer_codes budget reference_codes
               responses stats df manufacturers enrich).
Proof.
  assert (forall b resp,
    match FillDtcGaps.smart_import_manufacturer_codes b reference_codes resp
            stats df manufacturers None with
    | Py.Ok (df', stats') =>
        exists new_rows,
          df' = df ++ new_rows
          /\ FillDtcGaps.codes_added stats'
             = FillDtcGaps.codes_added stats + length new_rows
          /\ FillDtcGaps.codes_updated stats' = FillDtcGaps.codes_updated stats
          /\ Forall (fun r =>
               FillDtcGaps.make_id r ∈ Spec.selected manufacturers
               /\ Spec.from_reference reference_codes
                    (FillDtcGaps.code r, FillDtcGaps.description r)
               /\ forall x, x ∈ df ->
                    FillDtcGaps.make_id x = FillDtcGaps.make_id r ->
                    Py.upper (FillDtcGaps.code x) <> Py.upper (FillDtcGaps.code r))
               new_rows
    | Py.Raise _ => True
    end
    /\ ((20 <? length (FillDtcGaps.unmatched
                (FillDtcGaps.match_keywords (Spec.selected manufacturers)
                   (FillDtcGaps.mfr_specific_codes reference_codes)))) = false ->
        exists result,
          FillDtcGaps.smart_import_manufacturer_codes b reference_codes resp
            stats df manufacturers None = Py.Ok result)) as Hmain.
  { intros b resp. unfold FillDtcGaps.smart_import_manufacturer_codes.
    destruct reference_codes as [|r0 refs] eqn:Er.
    { split; [|by eexists].
      exists []. by rewrite app_nil_r, Nat.add_0_r, Forall_nil. }
    rewrite <- Er. clear Er r0 refs.
    change (match manufacturers with
            | FillDtcGaps.AllMakes => fst <$> FillDtcGaps.MANUFACTURER_KEYWORDS
            | FillDtcGaps.OneMake m => [Py.lower m]
            | FillDtcGaps.ListOfMakes l => Py.lower <$> l
            end) with (Spec.selected manufacturers).
    set (ms := Spec.selected manufacturers).
    pose proof (ai_matches_from_unmatched b resp
                  (FillDtcGaps.unmatched
                     (FillDtcGaps.match_keywords ms
                        (FillDtcGaps.mfr_specific_codes reference_codes))) ms) as Hai.
    destruct (20 <? _) eqn:E20.
    2:{ change (Py.Ok ?a ≫= ?k) with (k a). cbv beta.
        destruct (collected_rows_spec reference_codes df ms _ Hai)
          as (all_new & -> & Hall).
        change (Py.Ok all_new ≫= ?k) with (k all_new). cbv beta.
        split; [|intros _; destruct all_new; by eexists].
        destruct all_new as [|r rows] eqn:Ea.
        + exists []. by rewrite app_nil_r, Nat.add_0_r, Forall_nil.
        + by exists (r :: rows). }
    split; [|done].
    destruct (FillDtcGaps.classify_codes_with_ai _ _ _ _) as [ai|e]; [|done].
    change (Py.Ok ai ≫= ?k) with (k ai). cbv beta.
    destruct (collected_rows_spec reference_codes df ms _ Hai)
      as (all_new & -> & Hall).
    change (Py.Ok all_new ≫= ?k) with (k all_new). cbv beta.
    destruct all_new as [|r rows] eqn:Ea.
    + exists []. by rewrite app_nil_r, Nat.add_0_r, Forall_nil.
    + by exists (r :: rows). }
  split; [apply (Hmain budget responses)|].
  intros Hlen. apply Nat.ltb_ge in Hlen. split.
  - by apply (Hmain budget responses).
  - intros budget' responses' enrich.
    unfold FillDtcGaps.smart_import_manufacturer_codes.
    destruct reference_codes as [|r0 refs] eqn:Er; [done|].
    rewrite <- Er in *. clear Er r0 refs.
    change (match manufacturers with
            | FillDtcGaps.AllMakes => fst <$> FillDtcGaps.MANUFACTURER_KEYWORDS
            | FillDtcGaps.OneMake m => [Py.lower m]
            | FillDtcGaps.ListOfMakes l => Py.lower <$> l
            end) with (Spec.selected manufacturers).
    by rewrite Hlen.
Qed.

(** A run of the import for one manufacturer on a small reference table:
    the generic code and the code without a Honda keyword are left out. *)
Example smart_import_run :
  let reference_codes :=
    [("p1259", "VTEC System Malfunction");
     ("P0100", "Mass Air Flow Circuit");
     ("P1456", "Fuel Tank Pressure")] in
  match FillDtcGaps.smart_import_manufacturer_codes 1000 reference_codes
          (fun _ => None) Examples.stats0 [] (FillDtcGaps.OneMake "Honda") None with
  | Py.Ok (df', stats') =>
      (fun r => (FillDtcGaps.code r, FillDtcGaps.make_id r, FillDtcGaps.description r))
        <$> df'
      = [("P1259", "honda", "VTEC System Malfunction")]
      /\ FillDtcGaps.codes_by_manufacturer stats' !! "honda" = Some 1
  | Py.Raise _ => False
  end.
Proof. vm_compute. split; reflexivity. Qed.

(** * fill_gaps_for_country and fill_all_gaps *)

Section FillAll.
Import Py Spec FillDtcGaps.

Lemma elem_of_unique x (l : list string) : x ∈ unique l <-> x ∈ l.
Proof.
  induction l as [|y l IH]; [done|]. simpl.
  rewrite !elem_of_cons, list_elem_of_filter, IH.
  destruct (decide (x = y)); naive_solver.
Qed.

Lemma NoDup_unique (l : list string) : NoDup (unique l).
Proof.
  induction l as [|y l IH]; simpl; [constructor|].
  apply NoDup_cons. split.
  - rewrite list_elem_of_filter. naive_solver.
  - by apply NoDup_filter.
Qed.

Lemma appended_refl allowed df stats : appended allowed df stats (df, stats).
Proof.
  exists []. simpl. by rewrite app_nil_r, Nat.add_0_r, Forall_nil.
Qed.

Context (generate : string -> gset string -> Z -> option (list string)
                    -> option string -> list DtcRow).

(** One call of [fill_gaps_for_manufacturer] on a frame that earlier calls
    have extended. *)
Lemma appended_step (allowed : string -> Prop) df stats df1 stats1 make tc fc fp :
  allowed make ->
  appended allowed df stats (df1, stats1) ->
  appended allowed df stats
    (fill_gaps_for_manufacturer generate stats1 df1 make tc fc fp).
Proof.
  intros Hmake (rows & Hdf & Hadd & Hupd & Hrows). simpl in Hdf, Hadd, Hupd.
  unfold fill_gaps_for_manufacturer.
  set (existing_codes := (list_to_set _ : gset string)).
  destruct (generate _ _ _ _ _) as [|g gs] eqn:Eg; [by exists rows|].
  rewrite <- Eg. set (new_df := filter _ _).
  exists (rows ++ new_df). simpl. rewrite Hdf, Hadd, Hupd, length_app, <- app_assoc.
  split; [done|]. split; [lia|]. split; [done|].
  apply Forall_app. split; [done|].
  apply Forall_forall. intros r [Hnot Hr]%list_elem_of_filter.
  apply list_elem_of_fmap in Hr as (r0 & -> & _). split; [done|].
  intros x Hx Hm Heq. apply Hnot. unfold existing_codes.
  apply elem_of_list_to_set, list_elem_of_fmap. exists x.
  split; [done|]. apply list_elem_of_filter. split; [done|].
  rewrite Hdf. apply elem_of_app. by left.
Qed.

(** A loop whose every round either leaves the frame alone or calls
    [fill_gaps_for_manufacturer] for an admitted manufacturer. *)
Lemma appended_loop (allowed : string -> Prop) df stats
    (step : list DtcRow * UsageStats -> string -> list DtcRow * UsageStats)
    (makes : list string) :
  (forall df1 stats1 make,
     make ∈ makes ->
     appended allowed df stats (df1, stats1) ->
     step (df1, stats1) make = (df1, stats1)
     \/ allowed make
        /\ exists tc fc fp,
             step (df1, stats1) make
             = fill_gaps_for_manufacturer generate stats1 df1 make tc fc fp) ->
  forall acc, appended allowed df stats acc ->
    appended allowed df stats (fold_left step makes acc).
Proof.
  induction makes as [|m ms IH]; intros Hstep acc Hacc; [done|]. simpl.
  apply IH.
  - intros df1 stats1 make Hm. apply Hstep. by right.
  - destruct acc as [df1 stats1].
    destruct (Hstep df1 stats1 m) as [->|(Hm & tc & fc & fp & ->)];
      [by left|done|done|].
    by apply appended_step.
Qed.

End FillAll.

Section FillMakes.
Import Py Spec FillDtcGaps.

Lemma appended_makes (allowed : string -> Prop) df stats df1 stats1 make :
  (forall m, allowed m -> m ∈ make_id <$> df) ->
  appended allowed df stats (df1, stats1) ->
  make ∈ make_id <$> df1 -> make ∈ make_id <$> df.
Proof.
  intros Hall (rows & Hdf & _ & _ & Hrows). simpl in Hdf. subst df1.
  rewrite fmap_app, elem_of_app. intros [H|H]; [done|].
  apply list_elem_of_fmap in H as (r & -> & Hr).
  rewrite Forall_forall in Hrows. by apply Hall, Hrows.
Qed.

End FillMakes.

(** [fill_all_gaps] only appends: the frame it returns is the given frame
    followed by new rows, every one of a manufacturer that the frame already
    had and with a code that this manufacturer did not have (in upper case);
    with smart targets, only manufacturers whose target (25 when the
    dictionary has none) is positive get rows.  [stats.codes_added] grows by
    the number of rows appended.  On a frame without rows nothing is
    generated. *)
Theorem fill_all_gaps_only_appends
    (generate : string -> gset string -> Z -> option (list string)
                -> option string -> list FillDtcGaps.DtcRow)
    (stats : FillDtcGaps.UsageStats) (df : list FillDtcGaps.DtcRow)
    (smart_targets : option (gmap string Z)) :
  Spec.appended
    (fun make =>
       make ∈ FillDtcGaps.make_id <$> df
       /\ forall targets, smart_targets = Some targets ->
            (0 < default 25 (targets !! make))%Z)
    df stats (FillDtcGaps.fill_all_gaps generate stats df smart_targets)
  /\ FillDtcGaps.fill_all_gaps generate stats [] smart_targets = ([], stats).
Proof.
  split; [|by destruct smart_targets].
  unfold FillDtcGaps.fill_all_gaps.
  assert (forall make,
            make ∈ Py.sort_by String.leb id
                     (FillDtcGaps.unique (FillDtcGaps.make_id <$> df)) ->
            make ∈ FillDtcGaps.make_id <$> df) as Hin.
  { intros make. by rewrite elem_of_sort_by, elem_of_unique. }
  destruct smart_targets as [targets|].
  - apply (appended_loop generate); [|apply appended_refl].
    intros df1 stats1 make Hm _. simpl.
    destruct (0 <? default 25 (targets !! make))%Z eqn:E; [right|by left].
    split.
    + split; [by apply Hin|]. intros ? [= <-]. by apply Z.ltb_lt.
    + by eexists _, _, _.
  - apply (appended_loop generate); [|apply appended_refl].
    intros df1 stats1 make Hm _. right. split.
    + split; [by apply Hin|]. by intros ? [=].
    + by eexists _, _, _.
Qed.

(** [fill_gaps_for_country] returns the frame and the counters unchanged for
    a country that its table does not have.  Otherwise it only appends:
    every new row is of a manufacturer of that country that the frame
    already had (a manufacturer without rows is skipped, never introduced),
    with a code that this manufacturer did not have (in upper case), and
    [stats.codes_added] grows by the number of rows appended. *)
Theorem country_fill_never_adds_manufacturer
    (generate : string -> gset string -> Z -> option (list string)
                -> option string -> list FillDtcGaps.DtcRow)
    (stats : FillDtcGaps.UsageStats) (df : list FillDtcGaps.DtcRow)
    (country : string) :
  match Json.dict_get country FillDtcGaps.MANUFACTURERS_BY_COUNTRY with
  | None =>
      FillDtcGaps.fill_gaps_for_country generate stats df country = (df, stats)
  | Some manufacturers =>
      Spec.appended
        (fun make => make ∈ FillDtcGaps.make_id <$> df /\ make ∈ manufacturers)
        df stats (FillDtcGaps.fill_gaps_for_country generate stats df country)
  end.
Proof.
  unfold FillDtcGaps.fill_gaps_for_country.
  destruct (Json.dict_get country FillDtcGaps.MANUFACTURERS_BY_COUNTRY)
    as [manufacturers|]; [|done].
  apply (appended_loop generate); [|apply appended_refl].
  intros df1 stats1 make Hm Hacc. simpl.
  destruct (bool_decide _) eqn:E; [right|by left].
  apply bool_decide_eq_true in E. rewrite elem_of_unique in E. split.
  - split; [|done].
    apply (appended_makes _ df stats df1 stats1 make (fun m H => proj1 H) Hacc E).
  - by eexists _, _, _.
Qed.

(** A run for Sweden on a frame that has Volvo but not Polestar, with a
    generator that answers every request with one code the manufacturer has
    and one it lacks: only the new Volvo code is appended. *)
Example country_fill_run :
  let generate := fun (make : string) (_ : gset string) (_ : Z)
                      (_ : option (list string)) (_ : option string) =>
    [Examples.dtc "p1000" "" "Known"; Examples.dtc "P1001" "" "New"] in
  let df := [Examples.dtc "P1000" "volvo" "Known"; Examples.dtc "P0100" "ford" "MAF"] in
  (fun r => (FillDtcGaps.code r, FillDtcGaps.make_id r))
    <$> (FillDtcGaps.fill_gaps_for_country generate Examples.stats0 df "Sweden").1
  = [("P1000", "volvo"); ("P0100", "ford"); ("P1001", "volvo")].
Proof. vm_compute. reflexivity. Qed.

(** * analyze_dtc_coverage *)

Section CoverageFacts.
Import Py Spec FillDtcGaps.

Lemma bump_total k d : total (bump k d) = total d + 1.
Proof.
  unfold total. induction d as [|[k' n] d IH]; [done|]. simpl bump.
  destruct (String.eqb k k'); csimpl; [lia|]. rewrite IH. lia.
Qed.

Lemma bump_keys k d :
  NoDup (fst <$> d) -> NoDup (fst <$> bump k d)
  /\ forall x, x ∈ fst <$> bump k d <-> x = k \/ x ∈ fst <$> d.
Proof.
  induction d as [|[k' n] d IH]; simpl.
  - intros _. split; [apply NoDup_singleton|]. intros x.
    rewrite list_elem_of_singleton, elem_of_nil. naive_solver.
  - rewrite NoDup_cons. intros [Hk' Hd]. destruct (IH Hd) as [IH1 IH2].
    destruct (String.eqb_spec k k') as [->|Hne]; simpl.
    + split; [by apply NoDup_cons|]. intros x. rewrite elem_of_cons. naive_solver.
    + split.
      * apply NoDup_cons. split; [|done]. rewrite IH2. naive_solver.
      * intros x. rewrite !elem_of_cons, IH2. naive_solver.
Qed.

Local Notation "'count_step'" :=
  (fun (acc : list (string * nat)) (code : string) =>
     if 2 <=? String.length code then bump (prefix_of code) acc else acc).

Lemma count_step_total acc c :
  total (count_step acc c)
  = total acc + length (filter long_enough [c]).
Proof.
  rewrite filter_cons, filter_nil. unfold long_enough.
  destruct (Nat.leb_spec 2 (String.length c)).
  - rewrite decide_True by done. by rewrite bump_total.
  - rewrite decide_False by lia. simpl. lia.
Qed.

Lemma count_prefixes_acc codes acc :
  total (fold_left count_step codes acc)
  = total acc + length (filter long_enough codes)
  /\ (NoDup (fst <$> acc) -> NoDup (fst <$> fold_left count_step codes acc)).
Proof.
  revert acc. induction codes as [|c codes IH]; intros acc.
  - simpl. split; [lia|done].
  - change (fold_left count_step (c :: codes) acc)
      with (fold_left count_step codes (count_step acc c)).
    destruct (IH (count_step acc c)) as [IH1 IH2]. split.
    + rewrite IH1, count_step_total.
      change (c :: codes) with ([c] ++ codes). rewrite filter_app, length_app. lia.
    + intros Hacc. apply IH2. cbv beta.
      destruct (2 <=? String.length c); [|exact Hacc].
      exact (proj1 (bump_keys _ _ Hacc)).
Qed.

Local Notation "'scan_step'" :=
  (fun '((cats, generic, specific) : list (string * nat) * bool * bool)
       (code : string) =>
     if 2 <=? String.length code then
       let prefix := prefix_of code in
       let category :=
         match prefix with
         | String c0 (String c1 _) => String c0 (String c1 "")
         | _ => prefix
         end in
       let cats := bump category cats in
       if bool_decide (prefix ∈ SAFE_GENERIC_PREFIXES)
       then (cats, true, specific)
       else if bool_decide (prefix ∈ MANUFACTURER_SPECIFIC_PREFIXES)
            then (cats, generic, true)
            else (cats, generic, specific)
     else (cats, generic, specific)).

Lemma scan_step_total (st : list (string * nat) * bool * bool) c :
  total (scan_step st c).1.1 = total st.1.1 + length (filter long_enough [c]).
Proof.
  destruct st as [[cats generic] specific].
  rewrite filter_cons, filter_nil. unfold long_enough.
  destruct (Nat.leb_spec 2 (String.length c)).
  - rewrite decide_True by done.
    repeat case_bool_decide; simpl; by rewrite bump_total.
  - rewrite decide_False by lia. simpl. lia.
Qed.

Lemma scan_codes_acc codes (st : list (string * nat) * bool * bool) :
  total (fold_left scan_step codes st).1.1
  = total st.1.1 + length (filter long_enough codes).
Proof.
  revert st. induction codes as [|c codes IH]; intros st; [simpl; lia|].
  change (fold_left scan_step (c :: codes) st)
    with (fold_left scan_step codes (scan_step st c)).
  rewrite IH, scan_step_total.
  change (c :: codes) with ([c] ++ codes). rewrite filter_app, length_app. lia.
Qed.

Lemma sum_list_plus {A} (f g : A -> nat) (l : list A) :
  sum_list ((fun x => f x + g x) <$> l) = sum_list (f <$> l) + sum_list (g <$> l).
Proof. induction l as [|x l IH]; [done|]. csimpl. rewrite IH. lia. Qed.

Lemma sum_list_indicator (x : string) (c : nat) (l : list string) :
  NoDup l ->
  sum_list ((fun m => if decide (x = m) then c else 0) <$> l)
  = if decide (x ∈ l) then c else 0.
Proof.
  induction l as [|y l IH]; [done|]. rewrite NoDup_cons. intros [Hy Hl]. csimpl.
  rewrite IH by done. destruct (decide (x = y)) as [->|Hne].
  - rewrite decide_False by done. rewrite decide_True by by left. lia.
  - destruct (decide (x ∈ l)).
    + rewrite decide_True by by right. done.
    + rewrite decide_False; [done|]. rewrite elem_of_cons. naive_solver.
Qed.

(** The rows of a frame, shared out by manufacturer. *)
Lemma rows_by_make (Q : DtcRow -> Prop) `{!forall r, Decision (Q r)}
    (df : list DtcRow) (makes : list string) :
  NoDup makes -> (forall r, r ∈ df -> make_id r ∈ makes) ->
  sum_list ((fun m => length (filter Q (filter (fun r => make_id r = m) df)))
              <$> makes)
  = length (filter Q df).
Proof.
  intros Hnd. induction df as [|r df IH]; intros Hall.
  - clear. induction makes as [|m ms IHm]; [done|]. csimpl in *. by rewrite IHm.
  - assert (forall m,
              length (filter Q (filter (fun r => make_id r = m) (r :: df)))
              = (if decide (make_id r = m)
                 then (if decide (Q r) then 1 else 0) else 0)
                + length (filter Q (filter (fun r => make_id r = m) df))) as Hm.
    { intros m. rewrite (filter_cons _ r). destruct (decide (make_id r = m)).
      - rewrite (filter_cons _ r). by destruct (decide (Q r)).
      - done. }
    rewrite (list_fmap_ext _ _ makes (fun _ m _ => Hm m)).
    rewrite (sum_list_plus
               (fun m => if decide (make_id r = m)
                         then (if decide (Q r) then 1 else 0) else 0)).
    rewrite IH by (intros x Hx; apply Hall; by right).
    rewrite sum_list_indicator by done.
    rewrite decide_True by (apply Hall; by left).
    rewrite (filter_cons _ r). by destruct (decide (Q r)).
Qed.

Lemma size_list_to_set_le (l : list string) :
  size (list_to_set l : gset string) <= length l.
Proof.
  induction l as [|x l IH]; [done|].
  change (list_to_set (x :: l) : gset string) with ({[x]} ∪ list_to_set l : gset string).
  cbn [length]. rewrite size_union_alt, size_singleton.
  assert (list_to_set l ∖ {[x]} ⊆ (list_to_set l : gset string)) as Hsub
    by set_solver.
  apply subseteq_size in Hsub. lia.
Qed.

Lemma length_filter_fmap {A B} (f : A -> B) (P : B -> Prop)
    `{!forall y, Decision (P y)} (l : list A) :
  length (filter P (f <$> l)) = length (filter (fun x => P (f x)) l).
Proof.
  induction l as [|x l IH]; [done|]. rewrite fmap_cons, !filter_cons.
  destruct (decide _); simpl; by rewrite IH.
Qed.

Lemma filter_all {A} (l : list A) : filter (fun _ => True) l = l.
Proof. induction l as [|x l IH]; [done|]. by rewrite filter_cons_True, IH. Qed.

Lemma analyze_make_counts reference_codes df make :
  let m := analyze_make reference_codes df make in
  count m = length (filter (fun r => make_id r = make) df)
  /\ total (make_categories m)
     = length (filter (fun r => long_enough (code r))
                      (filter (fun r => make_id r = make) df))
  /\ reference_codes_covered m <= count m
  /\ reference_codes_covered m <= length reference_codes.
Proof.
  unfold analyze_make.
  set (make_codes := filter _ df).
  pose proof (scan_codes_acc (code <$> make_codes) ([], false, false)) as Hs.
  change (fold_left _ (code <$> make_codes) ([], false, false))
    with (scan_codes (code <$> make_codes)) in Hs.
  destruct (scan_codes (code <$> make_codes)) as [[cats g] s].
  cbn [count make_categories reference_codes_covered fst snd] in *.
  split; [done|]. split.
  - rewrite Hs. change (total []) with 0. rewrite Nat.add_0_l.
    apply length_filter_fmap.
  - split.
    + etrans; [apply subseteq_size, intersection_subseteq_l|].
      etrans; [apply size_list_to_set_le|]. by rewrite length_fmap.
    + etrans; [apply subseteq_size, intersection_subseteq_r|].
      etrans; [apply size_list_to_set_le|]. by rewrite length_fmap.
Qed.

End CoverageFacts.

(** [analyze_dtc_coverage] accounts for every row exactly once: it has one
    entry per manufacturer of the frame, the counts of the manufacturers add
    up to the number of rows, and the category counts, over the whole frame
    as well as manufacturer by manufacturer, add up to the number of rows
    whose code has at least two characters.  No manufacturer is credited
    with more reference codes than it has rows, or than there are reference
    codes. *)
Theorem coverage_accounts_for_every_row (reference_codes : list (string * string))
    (df : list FillDtcGaps.DtcRow) :
  let a := FillDtcGaps.analyze_dtc_coverage reference_codes df in
  NoDup (fst <$> FillDtcGaps.manufacturers a)
  /\ (forall make,
        make ∈ fst <$> FillDtcGaps.manufacturers a
        <-> make ∈ FillDtcGaps.make_id <$> df)
  /\ sum_list ((fun e => FillDtcGaps.count e.2) <$> FillDtcGaps.manufacturers a)
     = length df
  /\ Spec.total (FillDtcGaps.categories a)
     = length (filter (fun r => Spec.long_enough (FillDtcGaps.code r)) df)
  /\ sum_list ((fun e => Spec.total (FillDtcGaps.make_categories e.2))
                 <$> FillDtcGaps.manufacturers a)
     = Spec.total (FillDtcGaps.categories a)
  /\ NoDup (fst <$> FillDtcGaps.categories a)
  /\ Forall
       (fun e =>
          FillDtcGaps.reference_codes_covered e.2 <= FillDtcGaps.count e.2
          /\ FillDtcGaps.reference_codes_covered e.2
             <= FillDtcGaps.total_reference_codes a)
       (FillDtcGaps.manufacturers a).
Proof.
  intros a. unfold a, FillDtcGaps.analyze_dtc_coverage.
  cbn [FillDtcGaps.manufacturers FillDtcGaps.categories
       FillDtcGaps.total_reference_codes].
  set (makes := FillDtcGaps.unique (FillDtcGaps.make_id <$> df)).
  assert (fst <$> ((fun make => (make, FillDtcGaps.analyze_make reference_codes df make))
                     <$> makes) = makes) as Hkeys.
  { rewrite <- list_fmap_compose. apply list_fmap_id. }
  assert (NoDup makes) as Hnd by apply NoDup_unique.
  assert (forall r, r ∈ df -> FillDtcGaps.make_id r ∈ makes) as Hall.
  { intros r Hr. apply elem_of_unique, list_elem_of_fmap. by exists r. }
  assert (Spec.total (FillDtcGaps.count_prefixes (FillDtcGaps.code <$> df))
          = length (filter (fun r => Spec.long_enough (FillDtcGaps.code r)) df))
    as Hcats.
  { unfold FillDtcGaps.count_prefixes.
    rewrite (proj1 (count_prefixes_acc _ [])). by rewrite length_filter_fmap. }
  rewrite Hkeys. split; [done|]. split.
  { intros make. apply elem_of_unique. }
  split.
  { rewrite <- list_fmap_compose.
    etrans; [|etrans; [apply (rows_by_make (fun _ => True) df makes Hnd Hall)
                      |by rewrite filter_all]].
    apply f_equal, list_fmap_ext. intros _ m _. simpl. rewrite filter_all.
    apply (analyze_make_counts reference_codes df m). }
  split; [done|]. split.
  { rewrite Hcats, <- list_fmap_compose.
    rewrite <- (rows_by_make (fun r => Spec.long_enough (FillDtcGaps.code r))
                  df makes Hnd Hall).
    apply f_equal, list_fmap_ext. intros _ m _. simpl.
    apply (analyze_make_counts reference_codes df m). }
  split.
  { unfold FillDtcGaps.count_prefixes.
    apply (proj2 (count_prefixes_acc _ [])). constructor. }
  apply Forall_fmap, Forall_forall. intros m _. simpl.
  destruct (analyze_make_counts reference_codes df m) as (_ & _ & H1 & H2). done.
Qed.

(** The analysis of a small frame: a code of one character is counted as a
    row of its manufacturer but under no category. *)
Example coverage_run :
  let df := [Examples.dtc "P0100" "ford" "MAF"; Examples.dtc "p1259" "honda" "VTEC";
             Examples.dtc "P0300" "ford" "Misfire"; Examples.dtc "X" "ford" "Short"] in
  let a := FillDtcGaps.analyze_dtc_coverage [("P0100", "MAF"); ("P0420", "Cat")] df in
  FillDtcGaps.categories a = [("P0", 2); ("P1", 1)]
  /\ (fun e => (e.1, FillDtcGaps.count e.2, FillDtcGaps.make_categories e.2,
                FillDtcGaps.has_generic e.2, FillDtcGaps.has_manufacturer_specific e.2,
                FillDtcGaps.reference_codes_covered e.2))
       <$> FillDtcGaps.manufacturers a
     = [("ford", 3, [("P0", 2)], true, false, 1);
        ("honda", 1, [("P1", 1)], false, true, 0)].
Proof. vm_compute. split; reflexivity. Qed.

(** * csv_to_make and csv_to_model *)

Section Converters.
Import Py Spec MergeToJson.

Lemma first_segment_split s :
  exists rest,
    s = first_segment s +:+ rest
    /\ count_char "|" (first_segment s) = 0
    /\ (rest = "" \/ exists rest', rest = String "|" rest').
Proof.
  induction s as [|c s (rest & Hs & Hc & Hr)]; simpl.
  - exists "". by split; [|split; [|left]].
  - destruct (Ascii.eqb_spec c "|") as [->|Hne].
    + exists (String "|" s). split; [done|]. split; [done|]. right. by eexists.
    + exists rest. split; [by rewrite Hs at 1|]. split; [|done]. simpl.
      rewrite Hc. by destruct (Ascii.eqb_spec c "|").
Qed.

Lemma first_segment_whole s : count_char "|" s = 0 -> first_segment s = s.
Proof.
  induction s as [|c s IH]; [done|]. simpl.
  destruct (Ascii.eqb c "|"); [done|]. simpl. intros H. by rewrite IH.
Qed.

Lemma subscript_Ok row k v :
  subscript row k = Ok v <-> to_value <$> row !! k = Some v.
Proof. unfold subscript. destruct (row !! k); simpl; naive_solver. Qed.

Lemma subscript_Raise row k e :
  subscript row k = Raise e <-> e = KeyError /\ row !! k = None.
Proof. unfold subscript. destruct (row !! k); simpl; naive_solver. Qed.

Lemma csv_to_make_id row it :
  csv_to_make row = Ok it -> is_Some (id_of it).
Proof.
  unfold csv_to_make, id_of.
  destruct (subscript row "id") as [i|]; [|done]. simpl.
  destruct (subscript row "name") as [n|]; [|done]. simpl.
  intros [= <-]. exists i. by simplify_map_eq.
Qed.

Lemma csv_to_model_id row it :
  csv_to_model row = Ok it -> is_Some (id_of it).
Proof.
  unfold csv_to_model, id_of.
  destruct (subscript row "id") as [i|]; [|done]. simpl.
  destruct (subscript row "make_id") as [m|]; [|done]. simpl.
  destruct (subscript row "name") as [n|]; [|done]. simpl.
  destruct (get_field row "body_type"); [done|]. simpl.
  intros [= <-]. exists i. by simplify_map_eq.
Qed.

Lemma convert_all_snoc convert rows row :
  convert_all convert (rows ++ [row])
  = (items ← convert_all convert rows; it ← convert row; Ok (items ++ [it])).
Proof. unfold convert_all. by rewrite foldl_snoc. Qed.

(** The comprehension converts every row, in order, and stops at the first
    row whose conversion raises. *)
Lemma convert_all_spec convert rows :
  match convert_all convert rows with
  | Ok items => Ok <$> items = convert <$> rows
  | Raise e =>
      exists before row after,
        rows = before ++ row :: after
        /\ Forall (fun r => exists it, convert r = Ok it) before
        /\ convert row = Raise e
  end.
Proof.
  induction rows as [|row rows IH] using rev_ind; [done|].
  rewrite convert_all_snoc.
  destruct (convert_all convert rows) as [items|e]; simpl.
  - destruct (convert row) as [it|e] eqn:E; simpl.
    + rewrite !fmap_app, IH. csimpl. by rewrite E.
    + exists rows, row, []. split; [done|]. split; [|done].
      apply Forall_forall. intros r Hr.
      apply (list_elem_of_fmap_2 convert) in Hr. rewrite <- IH in Hr.
      apply list_elem_of_fmap in Hr as (it & -> & _). by exists it.
  - destruct IH as (before & r & after & -> & Hb & Hr).
    exists before, r, (after ++ [row]). by rewrite <- app_assoc.
Qed.

Lemma convert_all_ids convert rows items :
  (forall row it, convert row = Ok it -> is_Some (id_of it)) ->
  convert_all convert rows = Ok items ->
  Forall (fun it => is_Some (id_of it)) items.
Proof.
  intros Hid E. pose proof (convert_all_spec convert rows) as H. rewrite E in H.
  apply Forall_forall. intros it Hit.
  apply (list_elem_of_fmap_2 Ok) in Hit. rewrite H in Hit.
  apply list_elem_of_fmap in Hit as (row & Hrow & _). by apply (Hid row).
Qed.

(** Converted rows merged into an existing list. *)
Lemma merge_converted convert existing rows :
  (forall row it, convert row = Ok it -> is_Some (id_of it)) ->
  merges_converted convert existing rows.
Proof.
  intros Hid. unfold merges_converted.
  pose proof (convert_all_spec convert rows) as H.
  destruct (convert_all convert rows) as [items|e] eqn:E; [|done].
  split; [done|].
  pose proof (convert_all_ids convert rows items Hid E) as Hitems.
  destruct (merge_by_id existing items) as [result|e] eqn:Em.
  - apply merge_by_id_Ok in Em as (m & Hm & Hall & ->).
    by apply merge_steps_ids.
  - apply merge_by_id_Raise in Em as [-> Hex]. split; [done|].
    apply Exists_app in Hex as [Hex|Hex]; [done|].
    apply Exists_exists in Hex as (it & Hit & Hnone).
    rewrite Forall_forall in Hitems. destruct (Hitems it Hit) as [k Hk]. congruence.
Qed.

End Converters.

(** [csv_to_model] raises [KeyError] when the row has no id, make_id or
    name column, and [AttributeError] when the body_type field of a short
    line is missing.  Otherwise the entry has exactly the five keys, with
    the id, make_id, name and segment of the row (a segment column that is
    absent gives the empty string), and its body type is the text of the
    field up to its first bar, the whole text when it has none and the empty
    string when the column is absent. *)
Theorem model_conversion (row : MergeToJson.csv_row) :
  match MergeToJson.csv_to_model row with
  | Py.Ok it =>
      (forall k, is_Some (it !! k)
                 <-> k ∈ ["id"; "make_id"; "name"; "body_type"; "segment"])
      /\ it !! "id" = MergeToJson.to_value <$> row !! "id"
      /\ it !! "make_id" = MergeToJson.to_value <$> row !! "make_id"
      /\ it !! "name" = MergeToJson.to_value <$> row !! "name"
      /\ it !! "segment"
         = Some (MergeToJson.to_value (MergeToJson.get_field row "segment"))
      /\ exists s rest,
           MergeToJson.get_field row "body_type" = MergeToJson.FText (s +:+ rest)
           /\ it !! "body_type" = Some (MergeToJson.VStr s)
           /\ Py.count_char "|" s = 0
           /\ (rest = "" \/ exists rest', rest = String "|" rest')
  | Py.Raise e =>
      e = Py.KeyError
      /\ (row !! "id" = None \/ row !! "make_id" = None \/ row !! "name" = None)
      \/ e = Py.AttributeError /\ row !! "body_type" = Some MergeToJson.FNone
  end.
Proof.
  unfold MergeToJson.csv_to_model.
  destruct (MergeToJson.subscript row "id") as [i|e] eqn:Ei; simpl;
    [|apply subscript_Raise in Ei as [-> Ei]; left; by auto].
  destruct (MergeToJson.subscript row "make_id") as [m|e] eqn:Em; simpl;
    [|apply subscript_Raise in Em as [-> Em]; left; by auto].
  destruct (MergeToJson.subscript row "name") as [n|e] eqn:En; simpl;
    [|apply subscript_Raise in En as [-> En]; left; by auto].
  apply subscript_Ok in Ei, Em, En.
  destruct (MergeToJson.get_field row "body_type") as [|s] eqn:Eb; simpl.
  - right. split; [done|]. unfold MergeToJson.get_field in Eb.
    destruct (row !! "body_type") as [[|?]|]; done.
  - split.
    { intros k. rewrite !elem_of_cons, elem_of_nil.
      destruct (decide (k = "segment")) as [->|?];
        [split; [naive_solver|intros _; simplify_map_eq; by eexists]|].
      destruct (decide (k = "body_type")) as [->|?];
        [split; [naive_solver|intros _; simplify_map_eq; by eexists]|].
      destruct (decide (k = "name")) as [->|?];
        [split; [naive_solver|intros _; simplify_map_eq; by eexists]|].
      destruct (decide (k = "make_id")) as [->|?];
        [split; [naive_solver|intros _; simplify_map_eq; by eexists]|].
      destruct (decide (k = "id")) as [->|?];
        [split; [naive_solver|intros _; simplify_map_eq; by eexists]|].
      unfold MergeToJson.item.
      rewrite !lookup_insert_ne, lookup_empty by done.
      split; [by intros [? ?]|naive_solver]. }
    rewrite Ei, Em, En.
    split; [by simplify_map_eq|].
    split; [by simplify_map_eq|].
    split; [by simplify_map_eq|].
    split; [by simplify_map_eq|].
    destruct (first_segment_split s) as (rest & Hs & Hc & Hr).
    exists (MergeToJson.first_segment s), rest. rewrite <- Hs.
    split; [done|]. split; [|done].
    by simplify_map_eq.
Qed.

(** The converted rows of [makes.csv] and of [models.csv] always carry an
    id: when the conversion of all rows succeeds, [merge_by_id] can only
    fail, with [KeyError], on an entry of the existing list that has no id;
    otherwise the ids of the merged list are the existing ids, in place,
    followed by the converted ids that are new.  When a conversion raises,
    the error is that of the first row that cannot be converted. *)
Theorem converted_rows_merge (existing : list MergeToJson.item)
    (rows : list MergeToJson.csv_row) :
  Spec.merges_converted MergeToJson.csv_to_make existing rows
  /\ Spec.merges_converted MergeToJson.csv_to_model existing rows.
Proof.
  split.
  - apply (merge_converted MergeToJson.csv_to_make existing rows csv_to_make_id).
  - apply (merge_converted MergeToJson.csv_to_model existing rows csv_to_model_id).
Qed.

(** A row of [models.csv] with two body types. *)
Example model_conversion_run :
  MergeToJson.csv_to_model
    {[ "id" := MergeToJson.FText "civic"; "make_id" := MergeToJson.FText "honda";
       "name" := MergeToJson.FText "Civic";
       "body_type" := MergeToJson.FText "Hatchback|Saloon" ]}
  = Py.Ok {[ "id" := MergeToJson.VStr "civic"; "make_id" := MergeToJson.VStr "honda";
             "name" := MergeToJson.VStr "Civic";
             "body_type" := MergeToJson.VStr "Hatchback";
             "segment" := MergeToJson.VStr "" ]}.
Proof. vm_compute. reflexivity. Qed.

(** * generate_dtc_codes_for_manufacturer *)

Section Generation.
Import Py Json Spec FillDtcGaps.

Lemma add_generated_snoc cur codes v :
  add_generated cur (codes ++ [v])
  = (s ← add_generated cur codes; c ← code_upper v; Ok ({[c]} ∪ s)).
Proof. unfold add_generated. by rewrite foldl_snoc. Qed.

Lemma add_generated_Ok cur codes cur' :
  add_generated cur codes = Ok cur' ->
  cur ⊆ cur'
  /\ forall v c, v ∈ codes -> code_upper v = Ok c -> c ∈ cur'.
Proof.
  revert cur'. induction codes as [|v codes IH] using rev_ind; intros cur'.
  - intros [= <-]. split; [done|]. by intros v c ?%elem_of_nil.
  - rewrite add_generated_snoc.
    destruct (add_generated cur codes) as [s|] eqn:E; [|done]. simpl.
    destruct (code_upper v) as [c0|] eqn:Ec; [|done]. simpl. intros [= <-].
    destruct (IH s eq_refl) as [Hsub Hin]. split; [set_solver|].
    intros v' c [Hv| ->%list_elem_of_singleton]%elem_of_app Hc.
    + apply elem_of_union. right. by apply (Hin v').
    + rewrite Ec in Hc. injection Hc as ->. set_solver.
Qed.

Lemma code_upper_Raise v e : code_upper v = Raise e -> e = AttributeError.
Proof.
  unfold code_upper. destruct v as [| | | | |members]; try by intros [= <-].
  destruct (default _ _); by intros [= <-].
Qed.

Lemma add_generated_Raise cur codes e :
  add_generated cur codes = Raise e -> e = AttributeError.
Proof.
  induction codes as [|v codes IH] using rev_ind; [done|].
  rewrite add_generated_snoc.
  destruct (add_generated cur codes) as [s|e'] eqn:E; simpl.
  - destruct (code_upper v) as [c0|e'] eqn:Ec; [done|]. simpl. intros [= <-].
    by apply code_upper_Raise in Ec.
  - intros [= <-]. by apply IH.
Qed.

Lemma requested_snoc rs r :
  requested (rs ++ [r]) = (requested rs + req_count r)%Z.
Proof.
  unfold requested. rewrite fmap_app, foldr_app. simpl.
  generalize (req_count r). induction (req_count <$> rs) as [|x l IH]; intros z; simpl.
  - lia.
  - rewrite IH. lia.
Qed.

Lemma informed_snoc single existing_codes rs r :
  informed single existing_codes rs ->
  existing_codes ⊆ req_existing r ->
  (forall r' codes v c,
     r' ∈ rs -> single r' = Ok codes -> v ∈ codes ->
     code_upper v = Ok c -> c ∈ req_existing r) ->
  informed single existing_codes (rs ++ [r]).
Proof.
  intros Hinf Hsub Hknown before r0 after Heq.
  destruct after as [|a after _] using rev_ind.
  - apply app_inj_tail in Heq as [-> ->]. by split.
  - rewrite app_comm_cons, app_assoc in Heq.
    apply app_inj_tail in Heq as [-> ->]. by apply (Hinf before r0 after).
Qed.

Lemma answers_snoc single g r codes :
  answers single g -> single r = Ok codes ->
  answers single {| all_codes := all_codes g ++ codes; requests := requests g ++ [r] |}.
Proof.
  intros (batches & Hb & Hc) Hr. exists (batches ++ [codes]). simpl. split.
  - apply Forall2_app; [done|]. by repeat constructor.
  - rewrite Hc, concat_app. simpl. by rewrite app_nil_r.
Qed.

Lemma generate_batches_spec single make fc fp existing_codes target_count
    fuel remaining cur g :
  (Z.to_nat remaining <= fuel)%nat ->
  between_rounds single make existing_codes target_count remaining cur g ->
  match generate_batches fuel single make fc fp remaining cur g with
  | Ok g' =>
      exists cur',
        between_rounds single make existing_codes target_count 0 cur' g'
  | Raise e => (exists r, single r = Raise e) \/ e = AttributeError
  end.
Proof.
  revert remaining cur g. induction fuel as [|fuel IH]; intros remaining cur g Hfuel Hinv.
  - simpl. exists cur. destruct Hinv as (H0 & Hinv).
    assert (remaining = 0%Z) as -> by lia. by split.
  - simpl. destruct (Z.ltb_spec 0 remaining) as [Hpos|Hneg].
    + set (req := {| req_make := make; req_existing := cur;
                     req_count := Z.min remaining MAX_BATCH_SIZE;
                     req_categories := fc; req_powertrain := fp |}).
      destruct (single req) as [codes|e] eqn:Es; [|left; by exists req]. simpl.
      destruct Hinv as (H0 & Hsum & Hcnt & Hinf & Hsub & Hknown & Hans).
      destruct (match codes with
                | [] => Ok cur
                | _ => add_generated cur codes
                end) as [cur'|e] eqn:Ec; simpl;
        [|right; destruct codes; [done|by apply add_generated_Raise in Ec]].
      assert (cur ⊆ cur' /\ forall v c, v ∈ codes -> code_upper v = Ok c -> c ∈ cur')
        as [Hcur Hnew].
      { destruct codes as [|v0 codes0].
        - injection Ec as <-. split; [done|]. by intros v c ?%elem_of_nil.
        - by apply add_generated_Ok. }
      apply IH.
      * unfold MAX_BATCH_SIZE. lia.
      * unfold between_rounds. cbn [requests all_codes].
        split; [unfold MAX_BATCH_SIZE; lia|].
        split; [rewrite requested_snoc; cbn [req_count req]; lia|].
        split.
        { apply Forall_app. split; [done|]. apply Forall_singleton.
          cbn [req_count req_make req]. unfold MAX_BATCH_SIZE. split; [lia|done]. }
        split; [by apply informed_snoc|].
        split; [set_solver|].
        split; [|by apply answers_snoc].
        intros r' codes' v c [Hr'| ->%list_elem_of_singleton]%elem_of_app Hs Hv Hc.
        -- apply Hcur. by apply (Hknown r' codes' v c).
        -- rewrite Es in Hs. injection Hs as <-. by apply (Hnew v).
    + exists cur. destruct Hinv as (H0 & Hinv).
      assert (remaining = 0%Z) as -> by lia. by split.
Qed.

End Generation.

(** [generate_dtc_codes_for_manufacturer] asks for exactly [target_count]
    codes in all; a target above 25 is split into requests of between 1 and
    25 codes each.  Every request is told the codes that exist together
    with the codes, in upper case, of the records that the requests before
    it produced, and the result is what the requests produced, in order.
    It raises only what a request raises, or [AttributeError] for a record
    without a text code. *)
Theorem generation_requests
    (generate_single_batch : FillDtcGaps.batch_request -> Py.res (list Json.json))
    (make : string) (existing_codes : gset string) (target_count : Z)
    (focus_categories : option (list string)) (focus_powertrain : option string) :
  match FillDtcGaps.generate_dtc_codes_for_manufacturer generate_single_batch
          make existing_codes target_count focus_categories focus_powertrain with
  | Py.Ok g =>
      Spec.requested (FillDtcGaps.requests g) = target_count
      /\ Spec.informed generate_single_batch existing_codes (FillDtcGaps.requests g)
      /\ Spec.answers generate_single_batch g
      /\ Forall (fun r => FillDtcGaps.req_make r = make) (FillDtcGaps.requests g)
      /\ ((25 < target_count)%Z ->
          Forall (fun r => (0 < FillDtcGaps.req_count r <= 25)%Z)
                 (FillDtcGaps.requests g))
      /\ ((target_count <= 25)%Z -> length (FillDtcGaps.requests g) = 1)
  | Py.Raise e =>
      (exists r, generate_single_batch r = Py.Raise e) \/ e = Py.AttributeError
  end.
Proof.
  unfold FillDtcGaps.generate_dtc_codes_for_manufacturer.
  unfold FillDtcGaps.MAX_BATCH_SIZE.
  destruct (Z.ltb_spec 25 target_count) as [Hbig|Hsmall].
  - pose proof (generate_batches_spec generate_single_batch make focus_categories
                  focus_powertrain existing_codes target_count
                  (Z.to_nat target_count) target_count existing_codes
                  {| FillDtcGaps.all_codes := []; FillDtcGaps.requests := [] |}
                  (le_n _)) as H.
    destruct (FillDtcGaps.generate_batches _ _ _ _ _ _ _ _) as [g|e]; [|apply H].
    + destruct H as (cur' & H0 & Hsum & Hcnt & Hinf & Hsub & Hknown & Hans).
      { unfold Spec.between_rounds. cbn [FillDtcGaps.requests].
        split; [lia|]. split; [unfold Spec.requested; simpl; lia|].
        split; [constructor|]. split.
        { intros before r after Heq. by destruct before. }
        split; [done|]. split; [by intros r' codes v c ?%elem_of_nil|].
        exists []. split; [constructor|done]. }
      split; [lia|]. split; [done|]. split; [done|].
      split; [eapply Forall_impl; [exact Hcnt|]; by intros r [_ ?]|].
      split; [intros _; eapply Forall_impl; [exact Hcnt|]; by intros r [? _]|lia].
    + unfold Spec.between_rounds. cbn [FillDtcGaps.requests].
      split; [lia|]. split; [unfold Spec.requested; simpl; lia|].
      split; [constructor|]. split.
      { intros before r after Heq. by destruct before. }
      split; [done|]. split; [by intros r' codes v c ?%elem_of_nil|].
      exists []. split; [constructor|done].
  - set (req := {| FillDtcGaps.req_make := make;
                   FillDtcGaps.req_existing := existing_codes;
                   FillDtcGaps.req_count := target_count;
                   FillDtcGaps.req_categories := focus_categories;
                   FillDtcGaps.req_powertrain := focus_powertrain |}).
    destruct (generate_single_batch req) as [codes|e] eqn:Es; simpl;
      [|left; by exists req].
    split; [unfold Spec.requested; simpl; lia|]. split.
    { intros before r after Heq.
      destruct before as [|b before]; simplify_eq/=.
      - split; [done|]. by intros r' codes' v c ?%elem_of_nil.
      - by destruct before. }
    split.
    { exists [codes]. split; [by repeat constructor|]. simpl. by rewrite app_nil_r. }
    split; [by repeat constructor|]. split; [lia|done].
Qed.

(** A target of 60 codes is asked for in three requests, and the second
    and third are told the code that the first one produced. *)
Example generation_run :
  let single := fun r : FillDtcGaps.batch_request =>
    Py.Ok (if decide (FillDtcGaps.req_existing r = ∅)
           then [Json.JObj [("code", Json.JStr "p1abc")]] else []) in
  match FillDtcGaps.generate_dtc_codes_for_manufacturer single "honda" ∅ 60
          None None with
  | Py.Ok g =>
      (fun r => (FillDtcGaps.req_count r, elements (FillDtcGaps.req_existing r)))
        <$> FillDtcGaps.requests g
      = [(25%Z, []); (25%Z, ["P1ABC"]); (10%Z, ["P1ABC"])]
      /\ FillDtcGaps.all_codes g = [Json.JObj [("code", Json.JStr "p1abc")]]
  | Py.Raise _ => False
  end.
Proof. vm_compute. split; reflexivity. Qed.
